(* ===== verification/_CoqProject ===== *)
-Q . S2P
Prelude.v
Planner.v
Codec.v
FileSys.v
Names.v
Flags.v
Usage.v
Worker.v
Reassembler.v
Pipeline.v
Frame.v
Interleave.v
Stream.v
PlayMode.v
Cli.v
ChunkPool.v
OneShot.v
Argv.v
Readme.v
