(* ===== verification/Prelude.v ===== *)
(** * gozstd: a verification development for the parallel zstd front end

    The program (repository sunshine69/gozstd) is a command line front end
    for zstd.  Its one piece of real design is _block mode_: the input file
    is cut into byte ranges, every range is compressed by its own goroutine
    into a run of independent zstd frames, and the runs are concatenated in
    range order into one stream that an ordinary zstd decoder reads back.
    The repository holds five programs: the working program
    (src/unnamed/part_000), an earlier one that keeps the compressed parts
    in memory (src/play/tmp/main.go), a stream-only one
    (src/play/tmp/streammode/main.go), an experiment with a pool of workers
    fed by a reader goroutine (src/unnamed/part_002), and a one-shot
    program over another zstd binding (src/unnamed/part_001).

    ** The program's parts, and the file that models each

    - [Prelude] (this file): what every component shares.  Go's [int64]
      arithmetic ([wrap64], [add64], [sub64], [mul64], [quot64], [rem64]:
      results wrap modulo 2^64, division truncates towards zero and panics
      on a zero divisor); the result of a Go call as an [outcome] (a value,
      a returned [error], a [panic], or the model running out of fuel); the
      state and error monad [io] with its notation in [io_scope]; the loop
      combinator [io_loop] for Go's [for { ... }] with its total-correctness
      rule [io_loop_rule] and its independence of the fuel [io_loop_more];
      byte strings, [slice], the reference chunking
      [chunks], lookup by a [Z] index [lookupZ]; the development's tactics
      and the hint database [gozstd].
    - [Planner]: [divmod] and [divideFileIntoSegments] of part_000 (the
      loop body is [divideStep], the loop [divideLoop]), and the planner
      inlined in [compressFileBlock] of play/tmp/main.go ([partBounds],
      [partPlan]).  [chain] says that a plan is a contiguous partition;
      [aligned] says what the worker of part_000 needs from a segment.
    - [Codec]: the zstd library is not part of the sources; the class
      [Codec] states what the program relies on (a frame made by
      [EncodeAll], by a stream writer or by a concurrent stream writer can
      be followed by any decodable stream, and the decoder then yields the
      frame's payload followed by the rest), and what a decoder has
      passed on when it fails ([decodeWritten]: the payload of the frames
      before the one it could not read).  The class [Unclosed] states
      what a stream writer has passed on when it has been written to and
      not closed.  [store_codec] and [store_unclosed] are executable
      instances; the witnesses run on them.
    - [FileSys]: the files the program touches, as a store [world] from
      paths to contents with the sets of unreadable and unwritable paths
      that the error paths need; [os.Stat], [os.Open], [os.Create],
      [os.Remove], [os.ReadFile], [os.WriteFile], [Read], [Seek], [Write],
      [io.Copy]; the interface
      [Reader] of Go's [io.Reader] with instances for a file handle, for
      [io.LimitReader] and for a file that answers short reads, and the
      classes [LawfulReader], [FullReader] and [EofReader] that say what a
      client may assume of a reader.
    - [Names]: the name of a part file ([fmt.Sprintf] in [compressPart])
      and the parsers that read the index back ([filepath.Base],
      [strings.SplitN], [strconv.Atoi]).
    - [Flags]: Go's package flag as the programs use it: a declaration
      is a [Flag] ([flag_Bool], [flag_Int], [flag_String]), a flag set the
      map from the declared names to their values ([declare]); [parseOne]
      takes one flag and its value off the arguments, [Parse] is its loop;
      [ParseBool] and [ParseInt] (base 0, with prefixes and underscores) of
      [strconv] read the values.
    - [Usage]: [PrintDefaults] of package flag: the declarations sorted
      by name ([sortFlags]), and for each ([print_flag]) the name of its
      type ([UnquoteUsage]), its usage message and its default when that
      is not the zero value ([isZeroValue]); [defaultUsage] is the usage
      function of a program that sets none.
    - [Worker]: [compressPart] of part_000 (open, seek, the read loop
      [compressPart_iter], the panic on a read over the segment's end) and
      [compressSegment] of play/tmp/main.go, generic in the reader.
    - [Reassembler]: [FileWithIndex] and [concatenateFiles] of part_000:
      parsing of the names, [sort.Slice] by index, the copy loop, the
      removal of the parts.  [concatenateFilesBy] is the function over a
      sort, of which the class [SliceSort] states what package sort
      promises (a sorted permutation); [concatenateFiles] is it with the
      stable merge sort [sortByIndex].
    - [Pipeline]: [calculateSegment] and [compressFileBlock] of part_000:
      the plan, one goroutine per thread ([goWorker]), the two channels
      ([channels]), the reassembly.  Here a goroutine runs from its start
      to its last send in one piece.  The two lines the function prints
      are left to [Argv].
    - [Frame]: no code of its own; a frame rule for the calls of the
      pipeline.  [touch] is a change of one file's contents, and a call
      runs [away] from a file when the change may be made before the call
      or after.
    - [Interleave]: [compressFileBlock] of part_000 again, with the
      goroutines taking one step at a time in any order.  A goroutine is at
      a [place] of the code of [go func(i int)] and of [compressPart];
      [part_step] is [compressPart] cut at its system calls ([os.Open],
      [os.Create] and [Seek], [Read], [Write] and [Seek]); the state [fine]
      holds the store, the places, the channels and the panic that has
      ended the program; [fine_move] is a step of one goroutine (a step on
      the store, one of the three sends, a panic), [fine_fire] the step of
      the system for the scheduler's choice, [fine_exec] a run under a
      list of turns; [collect] and [fine_finish] are the end of
      [compressFileBlock], and [compressFileBlockF] the whole function.
    - [Stream]: [compressStream] and [decompressFile] of part_000 and of
      play/tmp/main.go, [compress] and [decompress] of streammode/main.go,
      over [io.Copy] from any reader.
    - [PlayMode]: module [Play], [compressFileBlock] of play/tmp/main.go:
      one goroutine per part ([goPart]) over an [io.LimitReader], the
      shared slice [compressedData], the write loop.
    - [Cli]: [main] of the first three programs from the parsed flags on
      ([main], [PlayMain.main], [StreamMain.main]): which files are
      opened and created, which mode runs, how a run ends ([exit]).
      [mainWith] is [main] of the working program over a model of
      [compressFileBlock]; [mainG] takes the one of [Pipeline] and [mainF]
      the one of [Interleave].
    - [ChunkPool]: module [Pool], the program of part_002.
      [compressFile] is a transition system: a [state] holds the place of
      the reader goroutine ([reader_pc]), of every worker ([worker_pc]) and
      of [compressFile] itself ([status]), the shared read buffer, the
      store, and whether [results] is closed; [step] is the relation of
      its steps, [fire] the same as a function of the scheduler's choice
      ([action]), [exec] a run under a schedule.  [decompressFile] is its
      loop over reads; [main] runs either.
    - [OneShot]: module [OneShot], the program of part_001:
      [compressData] and [decompressData] call by call over the [Writer]
      and the [Reader] of the binding (the writer holds its level, its
      workers, what was written, the buffer and its calls of [Close]; the
      deferred [Close] runs on every path), and [main], which reads the
      whole input, calls the codec once and writes the result.
    - [Argv]: the five programs from their argument vector.  For each
      ([WorkingCmd], [PlayCmd], [StreamCmd], [PoolCmd], [OneShotCmd]) the
      flags it declares ([formal]) and their set ([flagSet]), the
      variables set from it
      ([flags_of]), its usage function and [printVersionBuildInfo], which
      prints the two variables of the build ([BuildVars]), and
      [main] as [from_args]: [flag_Parse], which exits with code 0 or 2 when
      the arguments are refused, then the [main] of [Cli], [ChunkPool] or
      [OneShot], then [report], which prints the [message] of a failure on
      the stream the program prints it on and exits with code 1.
      [WorkingCmd.compressFileBlockG] is [compressFileBlock] of part_000
      with what it prints: the line [working] on standard error, and the
      first error of a worker on standard output before the panic;
      [WorkingCmd.mainG] runs it.
    - [Readme]: src/unnamed/part_003, the build script and the README.
      [go_build] is what the build sets with the linker, the two variables
      that [printVersionBuildInfo] prints ([build_sh] for src/build.sh,
      [README_build] for the command of the README); [README_help] is the
      help text the README shows, [README_pipe_args] and
      [README_level_args] the arguments of the invocations it shows.

    ** How the model corresponds to the code

    A Go function [f(args) (T, error)] that touches files is a function
    [f args : io world T]: it takes the file store and returns an [outcome]
    and the store it leaves behind, also on the error paths.  A returned
    error is [Err], a panic is [Panic]; [main] turns them into [Exit1] and
    [Panicked].  A [for] loop whose trip count is known is a [Fixpoint] on
    that count.  The read loops run until the reader is exhausted; they are
    [io_loop] with fuel.  Go's [int64] is [Z] with the wrap-around written
    out; the theorems say under which bound on the file size no operation
    wraps.

    Two constants of the code are parameters of the model, so that the
    theorems hold for every value and the witnesses run on files of a few
    bytes: the granule [oneMB] is [g] ([divideSegments], [compressPartG],
    [compressSegmentG], [compressFileBlockG], [mainG]), and the buffer of
    [io.Copy] is [n] ([compressStreamG], [decompressFileG]).  The
    definitions named as in the source are the instances at [oneMB] and
    [copyBuffer].

    Fuel.  Every read of a loop either ends the loop or consumes at least
    one byte of what the reader has left, so the measure of each loop is the
    number of bytes left and fuel greater than the length of the input is
    always enough: the theorems on compression ask [length data < fuel],
    those on decompression [length stream < fuel] for the compressed
    stream.  They conclude that the call returns, never only that a
    returned result is right.  In [Cli] the round trips are stated as: the
    compression returns, and there is a fuel from which on the
    decompression of its output returns the original.  The pool of
    part_002 takes no fuel: its runs are sequences of steps, and the
    theorem that every run ends gives the bound
    [5 * length data + numThreads + 4] on their length, from a measure
    that every step decreases.  A schedule given to [Pool.exec] that ends
    before [compressFile] has returned shows as the exit [NoFuel].
    [compressPart] is proved to return on every store and every segment,
    aligned or not, once the fuel exceeds the bytes between the start and
    the end of the segment, and to return the same with more fuel.  The
    fine model of [compressFileBlock] takes a list of turns instead of
    fuel: every step lowers [fine_measure], which starts at two steps for
    each byte of each segment and eight for each goroutine, and a list
    that ends before the goroutines have gone shows as [OutOfFuel].

    Concurrency.  The goroutines of [compressFileBlock] share no mutable
    state but what each owns: in part_000 each opens the input for itself
    and writes a file of its own, in play/tmp/main.go each writes its own
    cell of [compressedData]; each reports on a channel.  The model runs
    the goroutines one after the other in an order [sched], a permutation
    of the thread indexes ([schedule]), which is also the order in which
    their results arrive; the theorems are stated for every such order.
    Both channels have room for [numThreads] messages, so no send waits;
    the model keeps what was sent on each as a list ([channels]), which
    [compressFileBlock] reads when all workers are done, as the code does
    once [wg.Wait] has closed the channels.

    For part_000 this coarse model is justified in [Interleave]: there
    the goroutines take their system calls and their sends one at a time
    in any order, and a panic of one ends the program while the others
    are in the middle of their work.  The two models are proved to have
    the same outcomes: every complete interleaving has the outcome of some
    schedule (and its store, unless the program panics), and every
    schedule is an interleaving.  The theorems of [Pipeline] therefore
    hold for the program as the runtime runs it.  For play/tmp/main.go
    there is no such fine model; what stands for it is that a goroutine
    leaves the store as it was and changes only its own cell of
    [compressedData] or sends one error ([Play.goPart_reads_only], over
    [compressSegmentG_world] of [Worker]), so that the steps of two
    goroutines have nothing to disagree on but the order of the errors.

    In part_002 the goroutines do share state: the reader's one buffer,
    of which a chunk on the channel is a slice, and two unbuffered
    channels.  There the model is the transition system of [ChunkPool]: a
    step is one goroutine running from one communication to the next, a
    hand-over on an unbuffered channel is one step of sender and receiver
    together, and the theorems quantify over all runs ([rtc step]) or, for
    [main], over all schedules.  A read into the buffer and a compression
    of a slice of it are atomic steps; a read that changes the buffer
    while it is being compressed is not modelled, so the runs of the model
    are runs of the program and the program has more.

    Standard input, output and error are the files "/dev/stdin",
    "/dev/stdout" and "/dev/stderr" of the store; printing appends to the
    last two.  A message is the format of the source around the text of
    the error; that text ([err.Error()]), the line package flag prints
    for an error of the parse and [strconv.Quote] are parameters of the
    model (the class [Texts] of [Argv]); the usage message is built
    ([Usage]).  The
    theorems of [Worker], [Reassembler], [Pipeline] and [Cli] are proved
    without the printing; [Frame] shows that the calls of the pipeline run
    away from every file they are given neither a name nor a handle of, a
    part file having a relative name and the streams an absolute one, and
    [Argv] concludes that the printing changes neither what
    [compressFileBlock] returns nor any file but the streams.  The line
    "Working, please wait ..." is printed by the goroutine of [main] while
    the workers run; the model prints it when they are done, and
    [working_at_any_time] shows that the store is the same had it been
    printed before them.

    ** What the theorems show

    - [Planner]: on [plannable] inputs (a positive granule, a file whose
      size rounded up to the granule stays below 2^63, at least one thread)
      the plan has one segment per thread, is a contiguous partition of the
      file, every segment is [aligned], no share exceeds the base share by
      more than one granule, and the slices at the planned ranges put end to
      end are the file; for every file above the bound the arithmetic
      wraps and the plan of one thread ends at a negative offset; a zero
      thread count panics; with more threads than granules the cut at the
      file size falls on the segment of the last granule, wherever the
      file ends, and the segments after it are empty.
    - [Codec]: decoding a concatenation of frames yields the concatenation
      of the payloads; [store_codec] satisfies the laws.
    - [Names]: [Atoi] reads back what [%d] prints; names of different
      indexes differ.
    - [Flags]: [Parse] is the loop of [parseOne], which takes at least one
      argument at a time; parsing keeps the flags and their kinds and
      leaves an end of the arguments; [ParseInt] reads back what [%d]
      prints; the arguments rendered for a list of settings parse to these
      settings.
    - [Usage]: the flags are printed in the order of their names, which
      is a total order, so that the message does not depend on the order
      of the declarations.
    - [Worker]: on an aligned segment [compressPart] reads exactly the
      segment and writes frames that decode to it; on a segment that ends
      off the grid it reads into the next segment and panics; on a segment
      that ends after the end of the file it stops at the end of the file
      and returns no error; its error paths; it returns on every store and
      every segment;
      [compressSegment] writes frames that decode to what the reader
      held, also over a reader that answers short reads.
    - [Reassembler]: the index is read back from a part's name; the output
      does not depend on the order of the names; the output is the
      concatenation of the parts in index order and the parts are removed;
      a name without an index fails after the output was created;
      [concatenateFiles] never panics; on pairwise distinct indexes every
      sort that keeps the contract of [sort.Slice] gives the same result,
      and on equal indexes two such sorts give different outputs.
    - [Pipeline]: for every completion order the output of block mode
      decodes to the input, the store afterwards is the store before plus
      the output, and the result is the same for any two orders; what
      happens when planning fails, when a worker fails, and when the
      reassembly fails.
    - [Frame]: the operations of [FileSys] on a file run away from every
      other file, and so do binds and loops of calls that do;
      [compressPart], the workers, [concatenateFiles] and
      [compressFileBlock] run away from every file with an absolute name
      that is neither the input nor the output.
    - [Interleave]: a step of a goroutine depends on its view of the
      store only and changes its part file only; [compressPart] is the
      run of [part_step] from [AtOpen]; the invariant [fine_inv] of the
      system (every goroutine is where steps on its own take it, the
      channels hold what the goroutines have sent) holds in every state;
      refinement: every complete interleaving has the outcome of a
      schedule of [Pipeline], and every schedule is an interleaving; block
      mode decodes to the input under every interleaving; every
      interleaving ends, and a turn for everyone in rotation ends the
      program; the places are well formed (a goroutine holds handles on
      the input and on its own part file only); the channels stay within
      their capacity.
    - [Stream]: the output of stream mode decodes to the input; a
      decompression writes the decoded stream, or fails and leaves in the
      output what the decoder passed on before the frame it could not
      read.
    - [PlayMode]: the in-memory block mode decodes to the input for every
      thread count and every completion order, with no alignment asked of
      the file; its failures.
    - [Cli]: compressing with [main] and decompressing its output with
      [main] gives back the input, in block mode and in stream mode, for
      each of the three programs, and in block mode of the working program
      under every interleaving of the goroutines that takes them to their
      end; naming the input as the output destroys
      it; the argument guard of block mode never fires; block mode of
      play/tmp/main.go takes standard input for a file.
    - [ChunkPool]: [step] and [fire] agree; every run of the pool is
      finite, with a bound in the size of the input and the number of
      workers, and no reachable state is a deadlock; for every input, in
      every state of every run each chunk that was read is with the
      reader, with one worker or in the output ([pool_inv]), so a run that
      returns has written one block per chunk, made of as many bytes of
      the buffer as a chunk has, and on an input of whole chunks each
      block is the block of a chunk of the input; on an input of one
      chunk every run therefore writes the same block, which is a
      truncated frame because [compressBlock] takes the buffer before the
      encoder is closed; on two chunks there are runs that write the second chunk
      twice (the reader overwrites the buffer a worker still holds) and
      runs that write the blocks in the wrong order; without workers
      nothing is written and no error is returned; [decompressFile]
      decodes read by read; [main] followed by [main -d] never restores an
      input of one chunk.
    - [OneShot]: [main] followed by [main -d] restores the input, also in
      place; without a destination the work is done and dropped;
      [compressData] returns the frames of its input and leaves a writer
      that was closed twice.
    - [Argv]: the arguments that spell the values of the flag variables
      parse to them, so that [main] from these arguments is [main] on these
      values; refused arguments end the program with code 0 or 2 and
      change the two standard streams only; the working program prints its
      failures on standard output, after the data when the data goes
      there; play/tmp/main.go knows the level as [-1] and refuses [-l];
      what [compressFileBlock] prints changes neither its outcome nor a
      file but the streams; block mode from the arguments exits with code
      0, leaves standard output as it was and one line on standard error,
      and decompression from the arguments gives back the input; a worker
      that cannot create its part file has its error printed on standard
      output before the panic; without a file and without [-o] the working
      program is a filter from standard input to standard output, and two
      of them in a pipe, the second with [-d], give back what went in.
    - [Readme]: the help text of the README is, character by character,
      what the stream-mode program prints for [-h] when built as the
      README says, and is not what the working program prints, which
      src/build.sh builds; the pipe of the README: the stream-mode program
      without arguments compresses standard input to standard output at
      level 3 and says so on standard error, with [-l 9] at level 9, and
      with [-d] gives back what was compressed.

    Where the code does something else than its documentation asks, the
    theorem states what the code does, and the manifest lists the
    difference as a finding.

    ** Not modelled

    The zstd engine itself (a library, behind [Codec]); the text of an
    error, the line package flag prints for an error of the parse, the
    quoting of a string default ([strconv.Quote]; no program has one), and
    what the runtime prints for a panic; how much of a corrupt frame a
    decoder has passed on (the laws of [decodeWritten] fix the frames
    before it); interleavings inside a goroutine of play/tmp/main.go (each
    runs to its end before the next starts; no goroutine reads what
    another writes); in part_000, steps of other
    processes on the same files between the steps of the program, and the
    moment at which the main goroutine takes a name off the channel (it
    acts on the names when the channels are closed); torn reads of the
    shared buffer in part_002; what the C library does with the encoder of
    part_001 when it is closed a second time (the model counts the calls);
    of the build script and the README (src/build.sh,
    src/README.md, src/unnamed/part_003) the shell itself ([env],
    [go build] and its other options, [date]), the benchmark and the
    prose. *)

From Stdlib.Strings Require Export Byte.
From stdpp Require Export base tactics option list numbers strings gmap sorting pretty.

(** This file holds what the components share: machine integers, outcomes,
    the [io] monad, byte strings and slices, and the automation. *)

#[global] Open Scope Z_scope.

(** ** Automation *)

Create HintDb gozstd discriminated.
Create Rewrite HintDb gozstd.

(** Reduce a closed boolean or arithmetic side condition. *)
Ltac by_compute := vm_compute; first [ reflexivity | intuition congruence ].

(** Close a decidable goal on closed terms by running its decision. *)
Ltac by_decide := apply (bool_decide_unpack _); vm_compute; exact I.

(** Case analysis on the comparisons the code makes. *)
Ltac case_cmp :=
  repeat match goal with
  | |- context [bool_decide ?P] => destruct (bool_decide_reflect P)
  | H : context [bool_decide ?P] |- _ => destruct (bool_decide_reflect P)
  end.

(** [lia] with truncated division made explicit. *)
Ltac zlia := Z.to_euclidean_division_equations; lia.

(** ** Byte strings *)

Abbreviation byte := Byte.byte.
Abbreviation bytes := (list Byte.byte).

#[global] Instance byte_eq_dec : EqDecision byte := Byte.byte_eq_dec.

(** ** Go's int64 *)

Definition int64_min : Z := - 2 ^ 63.
Definition int64_max : Z := 2 ^ 63 - 1.

Definition in_int64 (z : Z) : Prop := int64_min ≤ z ≤ int64_max.

#[global] Instance in_int64_dec z : Decision (in_int64 z).
Proof. unfold in_int64. apply _. Defined.

(** The value a 64-bit signed computation leaves: the result modulo 2^64,
    read as a two's complement number. *)
Definition wrap64 (z : Z) : Z := (z + 2 ^ 63) `mod` 2 ^ 64 - 2 ^ 63.

Definition add64 (a b : Z) : Z := wrap64 (a + b).
Definition sub64 (a b : Z) : Z := wrap64 (a - b).
Definition mul64 (a b : Z) : Z := wrap64 (a * b).

(** ** Results of a call *)

(** The errors of the operating system that the model distinguishes. *)
Inductive oserr : Set :=
| ENOENT   (* no such file *)
| EACCES   (* permission denied *)
| EINVAL   (* invalid argument (a negative seek offset) *)
| EIO.     (* the device failed *)

(** The errors the program returns, one constructor per [fmt.Errorf] or
    returned [err] of the sources. *)
Inductive error : Set :=
| ErrOpenFile (e : oserr)          (* "failed to create openfile: %w" *)
| ErrCreateOutput (e : oserr)      (* "failed to create output file: %w" *)
| ErrCreateEncoder                 (* "failed to create zstd encoder: %w" *)
| ErrReadInput (e : oserr)         (* "failed to read input: %w" *)
| ErrWriteOutput (e : oserr)       (* "failed to write output: %w" *)
| ErrCurrentOffset (e : oserr)     (* "failed to get current offset: %w" *)
| ErrStat (e : oserr)              (* the error of os.Stat, returned as it is *)
| ErrSeekInput (e : oserr)         (* "failed to seek input file: %w" *)
| ErrStatInput (e : oserr)         (* "failed to stat input file: %w" *)
| ErrOpenInput (e : oserr)         (* "failed to open input file: %w" *)
| ErrWriteCompressed (e : oserr)   (* "failed to write compressed data: %w" *)
| ErrInvalidPattern (f : string)   (* "invalid filename pattern: %s" *)
| ErrInvalidIndex (f : string)     (* "invalid index in filename: %s" *)
| ErrOpenPart (f : string) (e : oserr) (* "failed to open input file %s: %v" *)
| ErrCopyOutput (e : oserr)        (* "failed to write to output file: %v" *)
| ErrCompress                      (* "failed to compress data: %w" *)
| ErrDecompress                    (* "failed to decompress data: %w" *)
| ErrReadInputFile (e : oserr)     (* "failed to read input file: %w" *)
| ErrCompressBlock                 (* "failed to compress block: %w" *)
| ErrDecodeBlock                   (* "failed to decompress block: %w", of decompressBlock *)
| ErrDecompressBlock               (* the same, wrapped once more by decompressFile *)
| ErrWriteDecompressed (e : oserr) (* "failed to write decompressed data: %w" *)
| ErrCloseEncoder.                 (* "failed to close encoder: %w" *)

(** The panics: those the program raises and those of the Go runtime. *)
Inductive panic : Set :=
| PanicDivideByZero    (* runtime: integer divide by zero *)
| PanicMakeChan        (* runtime: makechan: size out of range *)
| PanicMakeSlice       (* runtime: makeslice: len out of range *)
| PanicIndexOutOfRange (* runtime: index out of range *)
| PanicReadOverEnd     (* "[ERROR] I read over the endOffset. ..." *)
| PanicSomeErrors      (* "[ERROR] some errors see above" *)
| PanicBlockModeArgs   (* "[ERROR] Block mode does not support ..." *)
| PanicSendOnClosed.   (* runtime: send on closed channel *)

Inductive outcome (A : Type) : Type :=
| Ok (a : A)
| Err (e : error)
| Panic (p : panic)
| OutOfFuel.

Arguments Ok {A} a.
Arguments Err {A} e.
Arguments Panic {A} p.
Arguments OutOfFuel {A}.

#[global] Instance oserr_eq_dec : EqDecision oserr.
Proof. solve_decision. Defined.
#[global] Instance error_eq_dec : EqDecision error.
Proof. solve_decision. Defined.
#[global] Instance panic_eq_dec : EqDecision panic.
Proof. solve_decision. Defined.
#[global] Instance outcome_eq_dec `{EqDecision A} : EqDecision (outcome A).
Proof. solve_decision. Defined.

#[global] Instance outcome_ret : MRet outcome := λ A a, Ok a.
#[global] Instance outcome_bind : MBind outcome := λ A B k m,
  match m with
  | Ok a => k a
  | Err e => Err e
  | Panic p => Panic p
  | OutOfFuel => OutOfFuel
  end.

Definition is_Ok {A} (o : outcome A) : Prop :=
  match o with Ok _ => True | _ => False end.

#[global] Instance is_Ok_dec {A} (o : outcome A) : Decision (is_Ok o).
Proof. destruct o; simpl; apply _. Defined.

(** The function has returned, a value or an error: it has not panicked and
    has not run out of fuel. *)
Definition is_return {A} (o : outcome A) : Prop :=
  match o with Ok _ | Err _ => True | _ => False end.

#[global] Instance is_return_dec {A} (o : outcome A) : Decision (is_return o).
Proof. destruct o; simpl; apply _. Defined.

(** Integer division truncates towards zero; a zero divisor panics. *)
Definition quot64 (a b : Z) : outcome Z :=
  if bool_decide (b = 0) then Panic PanicDivideByZero else Ok (wrap64 (a `quot` b)).
Definition rem64 (a b : Z) : outcome Z :=
  if bool_decide (b = 0) then Panic PanicDivideByZero else Ok (wrap64 (a `rem` b)).

(** ** The monad of calls that change a state [W] *)

(** The state is returned on every path: an error leaves behind what the
    call had done before it failed. *)
Definition io (W A : Type) : Type := W → outcome A * W.

Definition io_ret {W A} (a : A) : io W A := λ w, (Ok a, w).

Definition io_bind {W A B} (m : io W A) (k : A → io W B) : io W B :=
  λ w, match m w with
       | (Ok a, w') => k a w'
       | (Err e, w') => (Err e, w')
       | (Panic p, w') => (Panic p, w')
       | (OutOfFuel, w') => (OutOfFuel, w')
       end.

Definition io_fail {W A} (e : error) : io W A := λ w, (Err e, w).
Definition io_panic {W A} (p : panic) : io W A := λ w, (Panic p, w).
Definition io_lift {W A} (o : outcome A) : io W A := λ w, (o, w).

Declare Scope io_scope.
Delimit Scope io_scope with io.
Notation "x <- m ;; k" := (io_bind m (λ x, k))
  (at level 100, m at next level, right associativity) : io_scope.
Notation "m ;;; k" := (io_bind m (λ _, k))
  (at level 100, right associativity) : io_scope.

(** ** Slices and chunks *)

Section lists.
Context {A : Type}.
Implicit Types l : list A.

(** The elements of [l] at the offsets [lo <= i < hi]. *)
Definition slice (lo hi : Z) l : list A :=
  take (Z.to_nat (hi - lo)) (drop (Z.to_nat lo) l).

Fixpoint chunks_go (fuel n : nat) l : list (list A) :=
  match fuel with
  | O => []
  | S fuel =>
      match l with
      | [] => []
      | _ => take n l :: chunks_go fuel n (drop n l)
      end
  end.

(** [l] cut into pieces of [n] elements, the last one shorter when [n] does
    not divide the length: what a reader hands out through a buffer of [n]
    bytes. *)
Definition chunks (n : nat) l : list (list A) := chunks_go (length l) n l.

Lemma slice_length lo hi l :
  0 ≤ lo ≤ hi → hi ≤ Z.of_nat (length l) → length (slice lo hi l) = Z.to_nat (hi - lo).
Proof. intros ??. unfold slice. rewrite length_take, length_drop. lia. Qed.

Lemma slice_nil lo hi l : hi ≤ lo → slice lo hi l = [].
Proof. intros ?. unfold slice. by replace (Z.to_nat (hi - lo)) with O by lia. Qed.

Lemma slice_full l : slice 0 (Z.of_nat (length l)) l = l.
Proof.
  unfold slice. rewrite Z.sub_0_r, Nat2Z.id. simpl. apply firstn_all.
Qed.

Lemma slice_app lo mid hi l :
  0 ≤ lo ≤ mid → mid ≤ hi → slice lo mid l ++ slice mid hi l = slice lo hi l.
Proof.
  intros ??. unfold slice.
  replace (Z.to_nat mid) with (Z.to_nat lo + Z.to_nat (mid - lo))%nat by lia.
  replace (Z.to_nat (hi - lo)) with (Z.to_nat (mid - lo) + Z.to_nat (hi - mid))%nat by lia.
  by rewrite <-drop_drop, take_take_drop.
Qed.

Lemma slice_drop lo hi l :
  0 ≤ lo → Z.of_nat (length l) ≤ hi → slice lo hi l = drop (Z.to_nat lo) l.
Proof. intros ??. unfold slice. apply take_ge. rewrite length_drop. lia. Qed.

Lemma chunks_go_concat fuel n l :
  (0 < n)%nat → (length l ≤ fuel)%nat → concat (chunks_go fuel n l) = l.
Proof.
  intros Hn. revert l. induction fuel as [|fuel IH]; intros [|x l] Hl; simpl in *; try done; [lia|].
  destruct n as [|n]; [lia|]. simpl. f_equal.
  rewrite IH by (rewrite length_drop; lia). apply take_drop.
Qed.

Lemma chunks_concat n l : (0 < n)%nat → concat (chunks n l) = l.
Proof. intros. by apply chunks_go_concat. Qed.

Lemma chunks_go_fuel fuel fuel' n l :
  (0 < n)%nat → (length l ≤ fuel)%nat → (length l ≤ fuel')%nat →
  chunks_go fuel n l = chunks_go fuel' n l.
Proof.
  intros Hn. revert fuel' l.
  induction fuel as [|fuel IH]; intros [|fuel'] [|x l] ??; simpl in *; try done; try lia.
  f_equal. apply IH; rewrite ?length_drop; simpl; lia.
Qed.

Lemma chunks_nil n : chunks n (@nil A) = [].
Proof. done. Qed.

Lemma chunks_cons n l :
  (0 < n)%nat → l ≠ [] → chunks n l = take n l :: chunks n (drop n l).
Proof.
  intros Hn Hl. unfold chunks. destruct l as [|x l]; [done|]. simpl length.
  cbn [chunks_go]. f_equal. apply chunks_go_fuel; rewrite ?length_drop; simpl; lia.
Qed.

Lemma chunks_nonempty n l c : (0 < n)%nat → c ∈ chunks n l → c ≠ [].
Proof.
  intros Hn. unfold chunks. generalize (length l) as fuel. intros fuel. revert l.
  induction fuel as [|fuel IH]; intros l; simpl; [by intros ?%elem_of_nil|].
  destruct l as [|x l]; [by intros ?%elem_of_nil|].
  intros [->|?]%elem_of_cons; [by destruct n; [lia|]|eauto].
Qed.

Lemma chunks_bound n l c : c ∈ chunks n l → (length c ≤ n)%nat.
Proof.
  unfold chunks. generalize (length l) as fuel. intros fuel. revert l.
  induction fuel as [|fuel IH]; intros l; simpl; [by intros ?%elem_of_nil|].
  destruct l as [|x l]; [by intros ?%elem_of_nil|].
  intros [->|?]%elem_of_cons; [rewrite length_take; lia|eauto].
Qed.

Lemma slice_take lo mid hi l :
  0 ≤ lo ≤ mid → mid ≤ hi → take (Z.to_nat (mid - lo)) (slice lo hi l) = slice lo mid l.
Proof. intros ??. unfold slice. rewrite take_take. f_equal. lia. Qed.

Lemma slice_drop_prefix lo mid hi l :
  0 ≤ lo ≤ mid → mid ≤ hi → drop (Z.to_nat (mid - lo)) (slice lo hi l) = slice mid hi l.
Proof.
  intros ??. unfold slice. rewrite skipn_firstn_comm, drop_drop. f_equal; [lia|f_equal; lia].
Qed.

(** A slice stops at the end of the list. *)
Lemma slice_clip lo hi l :
  Z.of_nat (length l) ≤ hi → slice lo hi l = slice lo (Z.of_nat (length l)) l.
Proof.
  intros ?. unfold slice. destruct (decide (lo ≤ Z.of_nat (length l))).
  - rewrite !take_ge; [done|rewrite length_drop; lia..].
  - rewrite !drop_ge by lia. by rewrite !take_nil.
Qed.

Lemma slice_length_min lo hi l :
  0 ≤ lo → length (slice lo hi l) = Z.to_nat (Z.min hi (Z.of_nat (length l)) - lo).
Proof. intros ?. unfold slice. rewrite length_take, length_drop. lia. Qed.

Lemma chunks_single n l : l ≠ [] → (length l ≤ n)%nat → chunks n l = [l].
Proof.
  intros Hl Hn. unfold chunks. destruct l as [|x l]; [done|]. simpl length. cbn [chunks_go].
  rewrite take_ge by done. f_equal. rewrite drop_ge by done. by destruct (length l).
Qed.

Lemma slice_nonempty lo hi l : 0 ≤ lo < hi → lo < Z.of_nat (length l) → slice lo hi l ≠ [].
Proof.
  intros ?? Hnil%(f_equal length). rewrite slice_length_min in Hnil by lia. simpl in Hnil. lia.
Qed.

(** Two ends that cut the list at the same place give the same slice. *)
Lemma slice_same_end lo hi hi' l :
  Z.min hi (Z.of_nat (length l)) = Z.min hi' (Z.of_nat (length l)) →
  slice lo hi l = slice lo hi' l.
Proof.
  intros Hmin.
  destruct (decide (hi ≤ Z.of_nat (length l))), (decide (hi' ≤ Z.of_nat (length l))).
  - f_equal. lia.
  - rewrite (slice_clip lo hi') by lia. f_equal. lia.
  - rewrite (slice_clip lo hi) by lia. f_equal. lia.
  - by rewrite (slice_clip lo hi), (slice_clip lo hi') by lia.
Qed.

(** The first chunk of a slice longer than a chunk. *)
Lemma chunks_slice_step g lo hi l :
  0 < g → 0 ≤ lo → lo + g < hi → lo + g < Z.of_nat (length l) →
  chunks (Z.to_nat g) (slice lo hi l) =
    slice lo (lo + g) l :: chunks (Z.to_nat g) (slice (lo + g) hi l).
Proof.
  intros ????. rewrite chunks_cons by (lia || apply slice_nonempty; lia). f_equal.
  - rewrite <-(slice_take lo (lo + g) hi l) by lia. f_equal. lia.
  - f_equal. rewrite <-(slice_drop_prefix lo (lo + g) hi l) by lia. f_equal. lia.
Qed.

(** A slice of at most a chunk is one chunk. *)
Lemma chunks_slice_last g lo hi l :
  0 ≤ lo < hi → hi ≤ lo + g → lo < Z.of_nat (length l) →
  chunks (Z.to_nat g) (slice lo hi l) = [slice lo hi l].
Proof.
  intros ???. apply chunks_single; [by apply slice_nonempty|].
  rewrite slice_length_min by lia. lia.
Qed.

(** A list of [q] times [n] elements is cut into chunks of [n]. *)
Lemma chunks_whole n l q :
  (0 < n)%nat → length l = (q * n)%nat → Forall (λ c, length c = n) (chunks n l).
Proof.
  intros Hn. revert l. induction q as [|q IH]; intros l Hl.
  - destruct l; [|done]. by rewrite chunks_nil.
  - rewrite chunks_cons by (done || intros ->; simpl in Hl; lia). constructor.
    + rewrite length_take. lia.
    + apply IH. rewrite length_drop. lia.
Qed.

(** The first chunk of what is left of [l] at the offset [pos]. *)
Lemma chunks_drop_step g pos l :
  0 < g → 0 ≤ pos < Z.of_nat (length l) →
  chunks (Z.to_nat g) (drop (Z.to_nat pos) l) =
    slice pos (pos + g) l ::
    chunks (Z.to_nat g) (drop (Z.to_nat (Z.min (pos + g) (Z.of_nat (length l)))) l).
Proof.
  intros ??. rewrite chunks_cons; [|lia|].
  - unfold slice. replace (pos + g - pos) with g by lia. f_equal. rewrite drop_drop.
    destruct (decide (pos + g ≤ Z.of_nat (length l))).
    + do 2 f_equal. lia.
    + by rewrite !drop_ge by lia.
  - intros Hnil%(f_equal length). rewrite length_drop in Hnil. simpl in Hnil. lia.
Qed.

End lists.

(** ** int64: when nothing wraps *)

Lemma wrap64_id z : in_int64 z → wrap64 z = z.
Proof.
  unfold in_int64, int64_min, int64_max, wrap64. intros ?.
  rewrite Z.mod_small; lia.
Qed.

Lemma wrap64_range z : in_int64 (wrap64 z).
Proof.
  unfold in_int64, int64_min, int64_max, wrap64.
  pose proof (Z.mod_pos_bound (z + 2 ^ 63) (2 ^ 64)). lia.
Qed.

(** One turn past the largest value: the result is negative. *)
Lemma wrap64_above z : int64_max < z ≤ int64_max + 2 ^ 63 → wrap64 z = z - 2 ^ 64.
Proof.
  unfold int64_max, wrap64. intros ?.
  replace (z + 2 ^ 63) with (z - 2 ^ 64 + 2 ^ 63 + 1 * 2 ^ 64) by lia.
  rewrite Z_mod_plus_full, Z.mod_small; lia.
Qed.

Lemma add64_id a b : in_int64 (a + b) → add64 a b = a + b.
Proof. apply wrap64_id. Qed.

Lemma sub64_id a b : in_int64 (a - b) → sub64 a b = a - b.
Proof. apply wrap64_id. Qed.

Lemma mul64_id a b : in_int64 (a * b) → mul64 a b = a * b.
Proof. apply wrap64_id. Qed.

(** Truncated division of a natural number by a positive one. *)
Lemma quot_rem_nonneg a b :
  0 ≤ a → 0 < b →
  0 ≤ a `quot` b ≤ a ∧ 0 ≤ a `rem` b ≤ a ∧ a `rem` b < b ∧ a = b * a `quot` b + a `rem` b.
Proof.
  intros ??. pose proof (Z.quot_rem' a b). pose proof (Z.rem_bound_pos a b).
  pose proof (Z.quot_pos a b). pose proof (Z.rem_le a b). nia.
Qed.

Lemma quot64_id a b : b ≠ 0 → in_int64 (a `quot` b) → quot64 a b = Ok (a `quot` b).
Proof. intros ??. unfold quot64. rewrite bool_decide_eq_false_2, wrap64_id; done. Qed.

Lemma rem64_id a b : b ≠ 0 → in_int64 (a `rem` b) → rem64 a b = Ok (a `rem` b).
Proof. intros ??. unfold rem64. rewrite bool_decide_eq_false_2, wrap64_id; done. Qed.

Lemma quot64_zero a : quot64 a 0 = Panic PanicDivideByZero.
Proof. done. Qed.

(** A positive multiple of [g] holds at least one [g], and what is left is
    a multiple again; one [g] more keeps a multiple a multiple. *)
Lemma mod_granule_step g a :
  0 < g → 0 < a → a `mod` g = 0 → g ≤ a ∧ (a - g) `mod` g = 0.
Proof.
  intros ?? Hmod. apply Z.mod_divide in Hmod as [q ->]; [|lia].
  assert (1 ≤ q) by nia. split; [nia|].
  replace (q * g - g) with ((q - 1) * g) by lia. apply Z.mod_mul. lia.
Qed.

Lemma mod_granule_back g a : 0 < g → (a - g) `mod` g = 0 → a `mod` g = 0.
Proof.
  intros ? Hmod. apply Z.mod_divide in Hmod as [q Hq]; [|lia].
  replace a with ((q + 1) * g) by lia. apply Z.mod_mul. lia.
Qed.

(** Close a range condition; rewrite an operation that does not wrap into
    the exact one. *)
Ltac int64_lia := unfold in_int64, int64_min, int64_max in *; lia.
Ltac int64_nia := unfold in_int64, int64_min, int64_max in *; nia.

#[export] Hint Rewrite wrap64_id add64_id sub64_id mul64_id using int64_lia : gozstd.

(** Replace, innermost first, every operation whose result is in range by
    the exact one. *)
Ltac no_wrap_step :=
  match goal with
  | |- context [add64 ?a ?b] => rewrite (add64_id a b) by int64_nia
  | |- context [sub64 ?a ?b] => rewrite (sub64_id a b) by int64_nia
  | |- context [mul64 ?a ?b] => rewrite (mul64_id a b) by int64_nia
  | |- context [wrap64 ?a] => rewrite (wrap64_id a) by int64_nia
  | H : context [add64 ?a ?b] |- _ => rewrite (add64_id a b) in H by int64_nia
  | H : context [sub64 ?a ?b] |- _ => rewrite (sub64_id a b) in H by int64_nia
  | H : context [mul64 ?a ?b] |- _ => rewrite (mul64_id a b) in H by int64_nia
  end.
Ltac no_wrap := repeat no_wrap_step.

(** ** The monad laws the proofs use *)

Lemma concat_concat {A} (l : list (list (list A))) :
  concat (concat l) = concat ((λ x, concat x) <$> l).
Proof. induction l as [|x l IH]; [done|]. csimpl. by rewrite concat_app, IH. Qed.

(** [l[i]] for an [int] index: [None] where Go panics. *)
Definition lookupZ {A} (l : list A) (i : Z) : option A :=
  if bool_decide (0 ≤ i) then l !! Z.to_nat i else None.

Lemma lookupZ_Some {A} (l : list A) i x :
  lookupZ l i = Some x ↔ 0 ≤ i ∧ l !! Z.to_nat i = Some x.
Proof. unfold lookupZ. case_bool_decide; naive_solver. Qed.

Lemma lookupZ_lt {A} (l : list A) i :
  0 ≤ i < Z.of_nat (length l) → is_Some (lookupZ l i).
Proof.
  intros ?. unfold lookupZ. rewrite bool_decide_eq_true_2 by lia.
  apply lookup_lt_is_Some. lia.
Qed.

(** Running over the indexes of a list is running over the list. *)
Lemma fmap_lookupZ_seqZ {A B} (f : A → B) (d : A) (l : list A) :
  (λ i, f (default d (lookupZ l i))) <$> seqZ 0 (Z.of_nat (length l)) = f <$> l.
Proof.
  apply list_eq. intros k. rewrite !list_lookup_fmap.
  destruct (decide (k < length l)%nat) as [Hk|Hk].
  - rewrite lookup_seqZ_lt by lia. destruct (lookup_lt_is_Some_2 l k Hk) as [x Hx].
    rewrite Hx. simpl. unfold lookupZ. rewrite bool_decide_eq_true_2 by lia.
    by rewrite Z.add_0_l, Nat2Z.id, Hx.
  - rewrite lookup_seqZ_ge by lia. by rewrite lookup_ge_None_2 by lia.
Qed.

(** Members of a list on which [f] has no duplicates are told apart by
    [f]. *)
Lemma NoDup_fmap_inj {A B} (f : A → B) (l : list A) x y :
  NoDup (f <$> l) → x ∈ l → y ∈ l → f x = f y → x = y.
Proof.
  induction l as [|a l IH]; [by intros _ ?%elem_of_nil|].
  rewrite fmap_cons, NoDup_cons. intros [Hnotin ?] Hx Hy Heq.
  apply elem_of_cons in Hx as [->|Hx], Hy as [->|Hy]; [done| | |by apply IH].
  - destruct Hnotin. rewrite Heq. by apply list_elem_of_fmap_2.
  - destruct Hnotin. rewrite <-Heq. by apply list_elem_of_fmap_2.
Qed.

Lemma Sorted_seqZ m n : Sorted Z.le (seqZ m n).
Proof.
  remember (Z.to_nat n) as k eqn:Hk. revert m n Hk.
  induction k as [|k IH]; intros m n Hk.
  - rewrite seqZ_nil by lia. constructor.
  - rewrite seqZ_cons by lia. constructor; [apply IH; lia|].
    destruct (decide (0 < Z.pred n)); [|rewrite seqZ_nil by lia; constructor].
    rewrite seqZ_cons by lia. constructor. lia.
Qed.

(** Replacing one element of a list changes the sum of a weight over the
    list by the difference of the two weights. *)
Lemma sum_list_fmap_insert {A} (f : A → nat) (l : list A) i x y :
  l !! i = Some y →
  (sum_list (f <$> <[i := x]> l) + f y = sum_list (f <$> l) + f x)%nat.
Proof.
  revert i. induction l as [|a l IH]; intros [|i] Hi; simpl in Hi; simplify_eq.
  - csimpl. lia.
  - specialize (IH _ Hi). csimpl in *. lia.
Qed.

Lemma sum_list_fmap_zero {A} (f : A → nat) (l : list A) :
  sum_list (f <$> l) = 0%nat ↔ Forall (λ a, f a = 0%nat) l.
Proof.
  induction l as [|a l IH]; csimpl; [by split|].
  rewrite Forall_cons, <-IH. lia.
Qed.

(** The sum of a list does not depend on the order of its elements. *)
#[global] Instance sum_list_Permutation : Proper ((≡ₚ) ==> (=)) sum_list.
Proof. induction 1; simpl; lia. Qed.

Lemma length_concat_sum {A} (ls : list (list A)) :
  length (concat ls) = sum_list (length <$> ls).
Proof. induction ls as [|l ls IH]; [done|]. csimpl. rewrite length_app. lia. Qed.

(** Replacing one list of a list of lists moves its elements in and out
    of the concatenation. *)
Lemma concat_insert_Permutation {A} (ls : list (list A)) i x y :
  ls !! i = Some x → y ++ concat ls ≡ₚ x ++ concat (<[i := y]> ls).
Proof.
  revert i. induction ls as [|a ls IH]; intros [|i] Hi; simpl in Hi; simplify_eq; simpl.
  - solve_Permutation.
  - rewrite (Permutation_app_swap_app y), (IH _ Hi). solve_Permutation.
Qed.

(** A list all of whose elements have been dropped is no longer than the
    number dropped. *)
Lemma drop_nil_length {A} (l : list A) k : drop k l = [] → (length l ≤ k)%nat.
Proof. intros Hd%(f_equal length). rewrite length_drop in Hd. simpl in Hd. lia. Qed.

Lemma pair_eq {A B} (p : A * B) a b : p.1 = a → p.2 = b → p = (a, b).
Proof. destruct p. simpl. by intros -> ->. Qed.

Section io_laws.
Context {W A B : Type}.

Lemma io_bind_ret (a : A) (k : A → io W B) w : io_bind (io_ret a) k w = k a w.
Proof. done. Qed.

Lemma io_bind_Ok (m : io W A) (k : A → io W B) w a w' :
  m w = (Ok a, w') → io_bind m k w = k a w'.
Proof. unfold io_bind. by intros ->. Qed.

Lemma io_bind_not_Ok (m : io W A) (k : A → io W B) w o w' :
  m w = (o, w') → ¬ is_Ok o →
  io_bind m k w = (match o with Ok _ => OutOfFuel | Err e => Err e | Panic p => Panic p | OutOfFuel => OutOfFuel end, w').
Proof. unfold io_bind. intros -> ?. by destruct o. Qed.

Lemma io_bind_Err (m : io W A) (k : A → io W B) w e w' :
  m w = (Err e, w') → io_bind m k w = (Err e, w').
Proof. unfold io_bind. by intros ->. Qed.

Lemma io_bind_Panic (m : io W A) (k : A → io W B) w p w' :
  m w = (Panic p, w') → io_bind m k w = (Panic p, w').
Proof. unfold io_bind. by intros ->. Qed.

End io_laws.

(** ** Loops *)

(** Go's [for { ... }] with [break]: the body, run on the loop's variables,
    says whether the loop goes on, and with which values.  The loop takes
    fuel; [io_loop_rule] shows when the fuel is enough. *)
Inductive loopres (S : Type) : Type :=
| Continue (s : S)
| Break (s : S).
Arguments Continue {S} s.
Arguments Break {S} s.

Fixpoint io_loop {W S} (fuel : nat) (body : S → io W (loopres S)) (s : S) : io W S :=
  match fuel with
  | O => io_lift OutOfFuel
  | S fuel =>
      io_bind (body s) (λ r,
        match r with
        | Break s' => io_ret s'
        | Continue s' => io_loop fuel body s'
        end)
  end.

Section loop_rule.
Context {W S : Type}.
Context (body : S → io W (loopres S)).
Context (I : S → W → Prop) (measure : S → W → nat) (Q : outcome S → W → Prop).

(** One iteration from a state of the invariant [I] either goes on in a
    state of [I] with a smaller [measure], or leaves the loop with an
    outcome of [Q]. *)
Definition loop_step_ok : Prop :=
  ∀ s w, I s w →
    match body s w with
    | (Ok (Continue s'), w') => I s' w' ∧ (measure s' w' < measure s w)%nat
    | (Ok (Break s'), w') => Q (Ok s') w'
    | (Err e, w') => Q (Err e) w'
    | (Panic p, w') => Q (Panic p) w'
    | (OutOfFuel, w') => Q OutOfFuel w'
    end.

(** Total correctness of a loop: with more fuel than the measure, the loop
    ends with an outcome of [Q]. *)
Lemma io_loop_rule fuel s w :
  loop_step_ok → I s w → (measure s w < fuel)%nat →
  Q (io_loop fuel body s w).1 (io_loop fuel body s w).2.
Proof.
  intros Hstep. revert s w. induction fuel as [|fuel IH]; intros s w HI Hm; [lia|].
  specialize (Hstep s w HI). cbn [io_loop]. unfold io_bind.
  destruct (body s w) as [[[s'|s']|e|p|] w']; try done.
  destruct Hstep as [HI' Hm']. apply IH; [done|lia].
Qed.

End loop_rule.

(** A loop that has ended gives the same outcome with any more fuel. *)
Lemma io_loop_more {W S} (body : S → io W (loopres S)) fuel fuel' s w :
  (io_loop fuel body s w).1 ≠ OutOfFuel → (fuel ≤ fuel')%nat →
  io_loop fuel' body s w = io_loop fuel body s w.
Proof.
  revert fuel' s w. induction fuel as [|fuel IH]; intros [|fuel'] s w; try done; [lia|].
  cbn [io_loop]. unfold io_bind. intros Hend ?.
  destruct (body s w) as [[[s'|s']|e|p|] w']; try done. apply IH; [done|lia].
Qed.

(** What every iteration keeps of the state, the loop keeps, also when it
    runs out of fuel. *)
Lemma io_loop_keeps {W S} (body : S → io W (loopres S)) (P : W → Prop) fuel s w :
  (∀ s w, P w → P (body s w).2) → P w → P (io_loop fuel body s w).2.
Proof.
  intros Hbody. revert s w. induction fuel as [|fuel IH]; intros s w Hw; [done|].
  cbn [io_loop]. unfold io_bind. specialize (Hbody s w Hw).
  destruct (body s w) as [[[s'|s']|e|p|] w']; try done. by apply IH.
Qed.

(** ** Lists of lists *)

Lemma imap_insert {A B} (f : nat → A → B) (l : list A) i x :
  imap f (<[i := x]> l) = <[i := f i x]> (imap f l).
Proof.
  revert f i. induction l as [|a l IH]; intros f [|i]; simpl; [done..|].
  f_equal. apply (IH (f ∘ S)).
Qed.

(** Appending to one of the lists appends to their concatenation, up to
    the order. *)
Lemma join_insert_app {A} (ls : list (list A)) i l l' :
  ls !! i = Some l → mjoin (<[i := l ++ l']> ls) ≡ₚ mjoin ls ++ l'.
Proof.
  revert i. induction ls as [|l0 ls IH]; intros [|i] Hi; simplify_eq/=.
  - by rewrite <-!(assoc_L (++)), (comm (++) l').
  - by rewrite IH, (assoc_L (++)).
Qed.

Lemma join_singletons {A B} (f : A → B) (l : list A) : mjoin ((λ x, [f x]) <$> l) = f <$> l.
Proof. induction l as [|x l IH]; [done|]. csimpl. by rewrite IH. Qed.

(** A list that is a permutation of an image is the image of a
    permutation. *)
Lemma Permutation_fmap_inv {A B} (f : A → B) (l : list B) (k : list A) :
  l ≡ₚ f <$> k → ∃ k', k' ≡ₚ k ∧ l = f <$> k'.
Proof.
  intros Hl. destruct (Permutation_map_inv f k Hl) as (k' & -> & Hk).
  exists k'. by split.
Qed.

(** Replacing one element of a list changes the sum of a weight that
    depends on the position by the difference of the two weights. *)
Lemma sum_list_imap_insert {A} (f : nat → A → nat) (l : list A) i x y :
  l !! i = Some y →
  (sum_list (imap f (<[i := x]> l)) + f i y = sum_list (imap f l) + f i x)%nat.
Proof.
  revert f i. induction l as [|a l IH]; intros f [|i] Hi; simplify_eq/=; [lia|].
  specialize (IH (f ∘ S) i Hi). simpl in IH. lia.
Qed.
