(* ===== verification/Planner.v ===== *)
(** * The segment planner

    [divideFileIntoSegments] of the working program (src/unnamed/part_000)
    and the planner inlined in [compressFileBlock] of src/play/tmp/main.go,
    with the invariants of a plan: [chain] (a contiguous partition) and
    [aligned] (what the segment worker needs). *)

From S2P Require Import Prelude.

(** ** Data *)

(** A segment is Go's [[2]int64{start, end}]: the bytes [start <= i < end]. *)
Abbreviation Segment := (Z * Z)%type.

(** [const oneMB = 1 << 20] *)
Definition oneMB : Z := 1 ≪ 20.

(** ** Operations *)

(** [divmod]: quotient and remainder of Go's truncated division. *)
Definition divmod (numerator denominator : Z) : outcome (Z * Z) :=
  quotient ← quot64 numerator denominator;
  remainder ← rem64 numerator denominator;
  mret (quotient, remainder).

(** One iteration of the loop of [divideFileIntoSegments]: from the units
    still to hand out as extra and the start of the segment, the segment's
    end and the extra units left. *)
Definition divideStep (g fileSize segmentSizeMB remainingMB start : Z) : Z * Z :=
  let end0 := add64 start (mul64 segmentSizeMB g) in
  let '(end1, remainingMB') :=
    if bool_decide (0 < remainingMB)
    then (add64 end0 g, sub64 remainingMB 1)
    else (end0, remainingMB) in
  let end2 := if bool_decide (fileSize < end1) then fileSize else end1 in
  (end2, remainingMB').

(** The loop [for i := 0; i < threadCount; i++], by the number of
    iterations left. *)
Fixpoint divideLoop (g fileSize segmentSizeMB : Z) (n : nat) (remainingMB start : Z)
  : list Segment :=
  match n with
  | O => []
  | S n =>
      let '(end_, remainingMB') := divideStep g fileSize segmentSizeMB remainingMB start in
      (start, end_) :: divideLoop g fileSize segmentSizeMB n remainingMB' end_
  end.

(** [divideFileIntoSegments] for a granule of [g] bytes. *)
Definition divideSegments (g fileSize threadCount : Z) : outcome (list Segment) :=
  fileSizeMB ← quot64 (sub64 (add64 fileSize g) 1) g;
  segmentSizeMB ← quot64 fileSizeMB threadCount;
  remainingMB ← rem64 fileSizeMB threadCount;
  mret (divideLoop g fileSize segmentSizeMB (Z.to_nat threadCount) remainingMB 0).

Definition divideFileIntoSegments (fileSize threadCount : Z) : outcome (list Segment) :=
  divideSegments oneMB fileSize threadCount.

(** The planner of play/tmp/main.go: equal parts of [partSize] bytes, the
    last one taking what is left. *)
Definition partBounds (fileSize numThreads partSize i : Z) : Segment :=
  let start := mul64 i partSize in
  let end_ := add64 start partSize in
  (start, if bool_decide (i = sub64 numThreads 1) then fileSize else end_).

Definition partPlan (fileSize numThreads : Z) : outcome (list Segment) :=
  partSize ← quot64 fileSize numThreads;
  mret (partBounds fileSize numThreads partSize <$> seqZ 0 numThreads).

(** ** Invariants of a plan *)

(** [chain a l b]: the segments of [l] follow one another from [a] to [b]
    with no gap and no overlap. *)
Fixpoint chain (a : Z) (l : list Segment) (b : Z) : Prop :=
  match l with
  | [] => a = b
  | (s, e) :: l => s = a ∧ s ≤ e ∧ chain e l b
  end.

#[global] Instance chain_dec a l b : Decision (chain a l b).
Proof. revert a. induction l as [|[s e] l IH]; intros a; simpl; apply _. Defined.

(** A segment the worker of [compressPart] can process on a file of
    [fileSize] bytes read through a buffer of [g] bytes: it lies in the
    file, and it ends at the end of the file or after a positive number of
    full buffers. *)
Definition aligned (g fileSize : Z) (seg : Segment) : Prop :=
  0 ≤ seg.1 ∧ seg.1 ≤ seg.2 ∧ seg.2 ≤ fileSize ∧
  (seg.2 = fileSize ∨ (seg.1 < seg.2 ∧ (seg.2 - seg.1) `mod` g = 0)).

#[global] Instance aligned_dec g fileSize seg : Decision (aligned g fileSize seg).
Proof. unfold aligned. apply _. Defined.

(** The number of granules of a file, rounded up. *)
Definition units (g fileSize : Z) : Z := (fileSize + g - 1) `quot` g.

(** The inputs on which the planner's arithmetic does not wrap: a positive
    granule, a file size that stays below [int64_max] when rounded up, and at
    least one thread. *)
Definition plannable (g fileSize threadCount : Z) : Prop :=
  0 < g ∧ 0 ≤ fileSize ∧ fileSize + g ≤ int64_max ∧ 0 < threadCount.

#[global] Instance plannable_dec g fileSize threadCount :
  Decision (plannable g fileSize threadCount).
Proof. unfold plannable. apply _. Defined.

Lemma oneMB_eq : oneMB = 1048576.
Proof. done. Qed.

(** ** Chains *)

Section chain.

Lemma chain_le a l b : chain a l b → a ≤ b.
Proof.
  revert a. induction l as [|[s e] l IH]; simpl; intros a; [lia|].
  intros (-> & ? & ?%IH). lia.
Qed.

Lemma chain_app a l1 m l2 b : chain a l1 m → chain m l2 b → chain a (l1 ++ l2) b.
Proof.
  revert a. induction l1 as [|[s e] l1 IH]; simpl; intros a; [by intros ->|].
  intros (-> & ? & ?); eauto.
Qed.

(** The slices of a chain, put end to end, are the slice between its ends. *)
Lemma chain_slices {A} (data : list A) a l b :
  0 ≤ a → chain a l b →
  concat ((λ s : Segment, slice s.1 s.2 data) <$> l) = slice a b data.
Proof.
  revert a. induction l as [|[s e] l IH]; csimpl; intros a Ha.
  - intros <-. by rewrite slice_nil.
  - intros (-> & ? & Hc). rewrite (IH e) by (done || lia).
    apply slice_app; [lia|]. by eapply chain_le.
Qed.

Lemma chain_Forall_bounds a l b :
  chain a l b → Forall (λ s : Segment, a ≤ s.1 ∧ s.1 ≤ s.2 ∧ s.2 ≤ b) l.
Proof.
  revert a. induction l as [|[s e] l IH]; simpl; intros a; [done|].
  intros (-> & ? & Hc). constructor; [simpl; split_and!; try lia; by eapply chain_le|].
  eapply Forall_impl; [by apply IH|]. simpl. lia.
Qed.

End chain.

(** ** The loop of [divideFileIntoSegments] *)

Section loop.
Context (g fileSize segmentSizeMB : Z).
Context (Hg : 0 < g) (Hseg : 0 ≤ segmentSizeMB) (HF : 0 ≤ fileSize).

(** The granules the next segment receives. *)
Definition share (remainingMB : Z) : Z :=
  segmentSizeMB + (if bool_decide (0 < remainingMB) then 1 else 0).

(** The loop invariant, [n] iterations before the end: the extra granules
    can all be handed out, the segments so far end inside the file, and the
    granules still to hand out reach the end of the file without leaving
    the range of [int64]. *)
Definition loop_pre (n : nat) (remainingMB start : Z) : Prop :=
  0 ≤ remainingMB ≤ Z.of_nat n ∧ 0 ≤ start ≤ fileSize ∧
  fileSize ≤ start + (Z.of_nat n * segmentSizeMB + remainingMB) * g ≤ int64_max.

Lemma divideStep_spec remainingMB start :
  0 ≤ remainingMB ≤ int64_max → 0 ≤ start → start + share remainingMB * g ≤ int64_max →
  divideStep g fileSize segmentSizeMB remainingMB start =
    (Z.min (start + share remainingMB * g) fileSize,
     if bool_decide (0 < remainingMB) then remainingMB - 1 else remainingMB).
Proof.
  intros ?? Hb. unfold divideStep, share in *.
  assert (0 ≤ segmentSizeMB * g) by lia.
  case_bool_decide; no_wrap; case_bool_decide; f_equal; lia.
Qed.

Lemma loop_pre_step n remainingMB start :
  loop_pre (S n) remainingMB start →
  start + share remainingMB * g ≤ int64_max ∧
  loop_pre n (if bool_decide (0 < remainingMB) then remainingMB - 1 else remainingMB)
    (Z.min (start + share remainingMB * g) fileSize).
Proof. unfold loop_pre, share. intros (? & ? & ?). case_bool_decide; nia. Qed.

(** One unfolding of the loop under its invariant. *)
Lemma divideLoop_S n remainingMB start :
  loop_pre (S n) remainingMB start →
  ∃ end_ remainingMB',
    divideLoop g fileSize segmentSizeMB (S n) remainingMB start =
      (start, end_) :: divideLoop g fileSize segmentSizeMB n remainingMB' end_ ∧
    end_ = Z.min (start + share remainingMB * g) fileSize ∧
    loop_pre n remainingMB' end_.
Proof.
  intros Hpre. destruct (loop_pre_step _ _ _ Hpre) as [? Hpre'].
  eexists _, _. split_and!; [|done|exact Hpre'].
  simpl. rewrite divideStep_spec; [done|unfold loop_pre in Hpre; int64_lia..|done].
Qed.

Lemma divideLoop_length n remainingMB start :
  length (divideLoop g fileSize segmentSizeMB n remainingMB start) = n.
Proof.
  revert remainingMB start. induction n as [|n IH]; intros; simpl; [done|].
  destruct (divideStep _ _ _ _ _). simpl. by rewrite IH.
Qed.

Lemma divideLoop_chain n remainingMB start :
  loop_pre n remainingMB start →
  chain start (divideLoop g fileSize segmentSizeMB n remainingMB start) fileSize.
Proof.
  revert remainingMB start. induction n as [|n IH]; intros remainingMB start Hpre.
  - unfold loop_pre in Hpre. simpl. lia.
  - destruct (divideLoop_S _ _ _ Hpre) as (e & r' & -> & He & Hpre').
    simpl. split_and!; [done|unfold loop_pre, share in *; case_bool_decide; nia|by apply IH].
Qed.

Lemma divideLoop_aligned n remainingMB start :
  loop_pre n remainingMB start →
  Forall (aligned g fileSize) (divideLoop g fileSize segmentSizeMB n remainingMB start).
Proof.
  revert remainingMB start. induction n as [|n IH]; intros remainingMB start Hpre; [constructor|].
  destruct (divideLoop_S _ _ _ Hpre) as (e & r' & -> & He & Hpre').
  constructor; [|by apply IH]. unfold aligned, loop_pre, share in *. simpl.
  destruct (decide (e = fileSize)) as [|Hne]; [split_and!; [lia..|by left]|].
  assert (e = start + share remainingMB * g) as Hen by (unfold share; lia).
  split_and!; [lia|unfold share in *; case_bool_decide; nia|lia|right].
  rewrite Hen. replace (start + share remainingMB * g - start) with (share remainingMB * g) by lia.
  rewrite Z.mod_mul by lia. split; [|done]. unfold share in *. case_bool_decide; nia.
Qed.

Lemma divideLoop_balanced n remainingMB start :
  loop_pre n remainingMB start →
  Forall (λ s : Segment, s.2 - s.1 ≤ (segmentSizeMB + 1) * g)
    (divideLoop g fileSize segmentSizeMB n remainingMB start).
Proof.
  revert remainingMB start. induction n as [|n IH]; intros remainingMB start Hpre; [constructor|].
  destruct (divideLoop_S _ _ _ Hpre) as (e & r' & -> & He & Hpre').
  constructor; [|by apply IH]. simpl. unfold share in *. case_bool_decide; nia.
Qed.

(** With more threads than granules every share is the granule a thread
    is given as extra: the segment that receives the last of the
    [remainingMB] granules ends at the end of the file, wherever that is. *)
Lemma divideLoop_early n remainingMB start :
  segmentSizeMB = 0 → loop_pre n remainingMB start → 0 < remainingMB →
  start + (remainingMB - 1) * g < fileSize →
  divideLoop g fileSize segmentSizeMB n remainingMB start !! Z.to_nat (remainingMB - 1) =
    Some (start + (remainingMB - 1) * g, fileSize).
Proof.
  intros Hzero. revert remainingMB start.
  induction n as [|n IH]; intros remainingMB start Hpre ? ?; [unfold loop_pre in Hpre; lia|].
  destruct (loop_pre_step _ _ _ Hpre) as [Hb Hpre']. cbn [divideLoop].
  rewrite divideStep_spec by (done || unfold loop_pre in Hpre; int64_lia).
  assert (share remainingMB = 1) as Hshare
    by (unfold share; rewrite bool_decide_eq_true_2 by done; lia).
  rewrite Hshare, bool_decide_eq_true_2 in * by done. unfold loop_pre in Hpre.
  destruct (decide (remainingMB = 1)) as [->|].
  - simpl. do 2 f_equal; lia.
  - replace (Z.to_nat (remainingMB - 1)) with (S (Z.to_nat (remainingMB - 1 - 1))) by lia.
    replace (Z.min (start + 1 * g) fileSize) with (start + g) in * by nia.
    simpl. rewrite IH by (done || lia). do 2 f_equal. lia.
Qed.

End loop.

(** ** [divideFileIntoSegments] *)

Section plan.
Context (g fileSize threadCount : Z).
Context (Hp : plannable g fileSize threadCount).

Lemma units_bounds :
  0 ≤ units g fileSize ∧ fileSize ≤ units g fileSize * g ≤ fileSize + g - 1.
Proof.
  destruct Hp as (? & ? & ? & ?). unfold units.
  pose proof (quot_rem_nonneg (fileSize + g - 1) g). nia.
Qed.

(** On plannable inputs nothing wraps and nothing panics: the plan is the
    loop run on the exact quotient and remainder. *)
Lemma divideSegments_unfold :
  divideSegments g fileSize threadCount =
    Ok (divideLoop g fileSize (units g fileSize `quot` threadCount) (Z.to_nat threadCount)
          (units g fileSize `rem` threadCount) 0).
Proof.
  pose proof units_bounds. destruct Hp as (? & ? & ? & ?).
  pose proof (quot_rem_nonneg (units g fileSize) threadCount).
  unfold divideSegments, units in *. no_wrap.
  rewrite quot64_id by int64_nia. cbn [mbind outcome_bind].
  rewrite quot64_id by int64_nia. cbn [mbind outcome_bind].
  by rewrite rem64_id by int64_nia.
Qed.

Lemma divideSegments_loop_pre :
  loop_pre g fileSize (units g fileSize `quot` threadCount) (Z.to_nat threadCount)
    (units g fileSize `rem` threadCount) 0.
Proof.
  pose proof units_bounds. destruct Hp as (? & ? & ? & ?).
  pose proof (quot_rem_nonneg (units g fileSize) threadCount).
  unfold loop_pre. rewrite Z2Nat.id by lia. nia.
Qed.

Lemma units_quot_nonneg : 0 ≤ units g fileSize `quot` threadCount.
Proof.
  pose proof units_bounds. destruct Hp as (? & ? & ? & ?).
  pose proof (quot_rem_nonneg (units g fileSize) threadCount). lia.
Qed.

(** The side conditions of the loop lemmas at the top-level call. *)
Ltac plan_side :=
  first [ done | lia | apply units_quot_nonneg | apply divideSegments_loop_pre ].

(** What the rest of the program uses of the planner: one segment per
    thread, a chain from 0 to the file size, every segment aligned. *)
Lemma divideSegments_plan :
  ∃ plan, divideSegments g fileSize threadCount = Ok plan ∧
    length plan = Z.to_nat threadCount ∧ chain 0 plan fileSize ∧
    Forall (aligned g fileSize) plan.
Proof.
  destruct Hp as (? & ? & ? & ?). rewrite divideSegments_unfold. eexists. split; [done|].
  split_and!; [apply divideLoop_length|apply divideLoop_chain; plan_side
              |apply divideLoop_aligned; plan_side].
Qed.

(** C5. The partition invariant: on a plannable input the planner returns
    one segment per thread, and the segments are contiguous, ordered, do not
    overlap, start at 0 and end at the file size. *)
Theorem divideSegments_partition :
  ∃ plan, divideSegments g fileSize threadCount = Ok plan ∧
    length plan = Z.to_nat threadCount ∧ chain 0 plan fileSize.
Proof.
  destruct Hp as (? & ? & ? & ?). rewrite divideSegments_unfold. eexists. split; [done|].
  split; [apply divideLoop_length|].
  apply divideLoop_chain; plan_side.
Qed.

(** With more threads than granules the segment of the last granule ends
    at the end of the file, and the threads after it have nothing. *)
Lemma divideSegments_early :
  0 < fileSize → units g fileSize < threadCount →
  divideLoop g fileSize (units g fileSize `quot` threadCount) (Z.to_nat threadCount)
      (units g fileSize `rem` threadCount) 0 !! Z.to_nat (units g fileSize - 1) =
    Some ((units g fileSize - 1) * g, fileSize).
Proof.
  intros ??. pose proof units_bounds as [? ?]. pose proof divideSegments_loop_pre as Hpre.
  destruct Hp as (? & ? & ? & ?).
  rewrite Z.quot_small, Z.rem_small in * by lia.
  rewrite divideLoop_early by (done || nia). repeat f_equal; lia.
Qed.

(** C7. Every segment of the plan is one the worker can process: it lies
    in the file and ends at the end of the file or after a positive number
    of full granules; in particular an empty segment starts at the end of
    the file.  No more holds of the ends: when there are more threads than
    granules, the segment of the last granule ends at the end of the file,
    on the grid or off it, however many segments follow it. *)
Theorem divideSegments_aligned :
  ∃ plan, divideSegments g fileSize threadCount = Ok plan ∧
    Forall (aligned g fileSize) plan ∧
    (0 < fileSize → units g fileSize < threadCount →
     plan !! Z.to_nat (units g fileSize - 1) = Some ((units g fileSize - 1) * g, fileSize)).
Proof.
  destruct Hp as (? & ? & ? & ?). rewrite divideSegments_unfold. eexists. split; [done|].
  split; [apply divideLoop_aligned; plan_side|apply divideSegments_early].
Qed.

(** The shares are balanced: no segment is longer than the base share
    of [units / threadCount] granules plus one granule. *)
Theorem divideSegments_balanced :
  ∃ plan, divideSegments g fileSize threadCount = Ok plan ∧
    Forall (λ s : Segment, s.2 - s.1 ≤ (units g fileSize `quot` threadCount + 1) * g) plan.
Proof.
  destruct Hp as (? & ? & ? & ?). rewrite divideSegments_unfold. eexists. split; [done|].
  apply divideLoop_balanced; plan_side.
Qed.

(** The segments cover the file exactly: the slices of the file's
    contents taken at the planned ranges, put end to end in plan order, are
    the contents. *)
Theorem divideSegments_covers (data : bytes) :
  fileSize = Z.of_nat (length data) →
  ∃ plan, divideSegments g fileSize threadCount = Ok plan ∧
    concat ((λ s : Segment, slice s.1 s.2 data) <$> plan) = data.
Proof.
  intros Hlen. destruct divideSegments_plan as (plan & Hplan & _ & Hchain & _).
  exists plan. split; [done|].
  rewrite (chain_slices data 0 plan fileSize) by done. rewrite Hlen. apply slice_full.
Qed.

End plan.

Lemma divideSegments_partition_witness :
  ∃ plan, divideSegments 4 10 3 = Ok plan ∧ length plan = Z.to_nat 3 ∧ chain 0 plan 10.
Proof. apply (divideSegments_partition 4 10 3). unfold plannable, int64_max. lia. Defined.

Lemma divideSegments_aligned_witness :
  ∃ plan, divideSegments 4 9 5 = Ok plan ∧ Forall (aligned 4 9) plan ∧
    plan !! 2%nat = Some (8, 9).
Proof.
  destruct (divideSegments_aligned 4 9 5) as (plan & ? & ? & Hearly);
    [unfold plannable, int64_max; lia|].
  exists plan. split_and!; [done..|]. apply Hearly; by vm_compute.
Defined.

Lemma divideSegments_balanced_witness :
  ∃ plan, divideSegments 4 30 3 = Ok plan ∧
    Forall (λ s : Segment, s.2 - s.1 ≤ (units 4 30 `quot` 3 + 1) * 4) plan.
Proof. apply (divideSegments_balanced 4 30 3). unfold plannable, int64_max. lia. Defined.

Lemma divideSegments_covers_witness :
  ∃ plan, divideSegments 2 5 2 = Ok plan ∧
    concat ((λ s : Segment, slice s.1 s.2 ["a"; "b"; "c"; "d"; "e"]%byte) <$> plan)
      = ["a"; "b"; "c"; "d"; "e"]%byte.
Proof.
  apply (divideSegments_covers 2 5 2); [unfold plannable, int64_max; lia|done].
Defined.

(** The working program's planner, at its granule of 1 MiB: for a file
    of at most [int64_max - oneMB] bytes and at least one thread the plan is
    a partition of the file into aligned segments, one per thread. *)
Theorem divideFileIntoSegments_plan fileSize threadCount :
  0 ≤ fileSize ≤ int64_max - oneMB → 0 < threadCount →
  ∃ plan, divideFileIntoSegments fileSize threadCount = Ok plan ∧
    length plan = Z.to_nat threadCount ∧ chain 0 plan fileSize ∧
    Forall (aligned oneMB fileSize) plan.
Proof.
  intros ??. assert (plannable oneMB fileSize threadCount) as Hp.
  { unfold plannable, int64_max in *. rewrite oneMB_eq in *. lia. }
  apply (divideSegments_plan _ _ _ Hp).
Qed.

Lemma divideFileIntoSegments_plan_witness :
  ∃ plan, divideFileIntoSegments (10 * oneMB + 17) 4 = Ok plan ∧
    length plan = Z.to_nat 4 ∧ chain 0 plan (10 * oneMB + 17) ∧
    Forall (aligned oneMB (10 * oneMB + 17)) plan.
Proof.
  apply (divideFileIntoSegments_plan (10 * oneMB + 17) 4); [|lia].
  unfold int64_max. rewrite oneMB_eq. lia.
Defined.

(** The scenario of the specification: a file of 3 MiB and three
    threads give the segments [0,1MiB), [1MiB,2MiB), [2MiB,3MiB). *)
Example divideFileIntoSegments_3MiB :
  divideFileIntoSegments (3 * oneMB) 3 =
    Ok [(0, oneMB); (oneMB, 2 * oneMB); (2 * oneMB, 3 * oneMB)].
Proof. by vm_compute. Qed.

(** More threads than granules: the threads past the last granule
    receive empty segments at the end of the file, and an empty file gives
    every thread the empty segment. *)
Example divideFileIntoSegments_more_threads :
  divideFileIntoSegments (oneMB + 5) 4 =
    Ok [(0, oneMB); (oneMB, oneMB + 5); (oneMB + 5, oneMB + 5); (oneMB + 5, oneMB + 5)] ∧
  divideFileIntoSegments 0 3 = Ok [(0, 0); (0, 0); (0, 0)].
Proof. by vm_compute. Qed.

(** A thread count of zero makes the planner panic with Go's integer
    division by zero, whatever the file. *)
Theorem divideSegments_zero_threads g fileSize :
  g ≠ 0 → divideSegments g fileSize 0 = Panic PanicDivideByZero.
Proof.
  intros ?. unfold divideSegments, quot64.
  by rewrite (bool_decide_eq_false_2 (g = 0)) by done.
Qed.

Lemma divideSegments_zero_threads_witness :
  divideSegments oneMB 12345 0 = Panic PanicDivideByZero.
Proof. apply (divideSegments_zero_threads oneMB 12345). by vm_compute. Defined.

(** A negative thread count does not panic in the planner: the loop
    does not run and the plan is empty. *)
Theorem divideSegments_negative_threads g fileSize threadCount :
  g ≠ 0 → threadCount < 0 → divideSegments g fileSize threadCount = Ok [].
Proof.
  intros ??. unfold divideSegments, quot64, rem64.
  rewrite !bool_decide_eq_false_2 by lia. cbn [mbind outcome_bind mret outcome_ret].
  by replace (Z.to_nat threadCount) with O by lia.
Qed.

Lemma divideSegments_negative_threads_witness :
  divideSegments oneMB 12345 (-2) = Ok [].
Proof. apply (divideSegments_negative_threads oneMB 12345 (-2)); [by vm_compute|lia]. Defined.

(** C40. Past the bound of [plannable] the rounding up wraps: for every
    file of more than [int64_max - oneMB + 1] bytes the sum
    [fileSize + oneMB - 1] is negative in [int64], so is the number of MiB,
    and the single segment planned for one thread ends at a negative
    offset: the plan is no partition of the file. *)
Theorem divideFileIntoSegments_wraps fileSize :
  int64_max - oneMB + 1 < fileSize ≤ int64_max →
  ∃ end_, divideFileIntoSegments fileSize 1 = Ok [(0, end_)] ∧
    int64_min ≤ end_ < 0 ∧ ¬ chain 0 [(0, end_)] fileSize.
Proof.
  intros Hsize. rewrite oneMB_eq in Hsize.
  exists ((fileSize + oneMB - 2 ^ 64 - 1) `quot` oneMB * oneMB).
  pose proof (Z.quot_rem' (fileSize + oneMB - 2 ^ 64 - 1) oneMB) as Hq.
  pose proof (Z.rem_bound_pos_neg (fileSize + oneMB - 2 ^ 64 - 1) oneMB) as Hr.
  rewrite oneMB_eq in *. unfold int64_max, int64_min in *.
  specialize (Hr ltac:(lia) ltac:(lia)).
  split_and!; [|lia|lia|simpl; lia].
  unfold divideFileIntoSegments, divideSegments. rewrite oneMB_eq.
  unfold add64 at 1. rewrite wrap64_above by (unfold int64_max; lia).
  rewrite sub64_id by int64_lia. rewrite quot64_id by (done || int64_lia).
  cbn [mbind outcome_bind].
  rewrite quot64_id, Z.quot_1_r by (done || rewrite ?Z.quot_1_r; int64_lia).
  cbn [mbind outcome_bind].
  rewrite rem64_id, Z.rem_1_r by (done || rewrite ?Z.rem_1_r; int64_lia).
  cbn [mbind outcome_bind mret outcome_ret]. change (Z.to_nat 1) with 1%nat.
  cbn [divideLoop]. unfold divideStep. rewrite bool_decide_eq_false_2 by lia.
  rewrite mul64_id, add64_id by int64_lia. by rewrite bool_decide_eq_false_2 by lia.
Qed.

Lemma divideFileIntoSegments_wraps_witness :
  ∃ end_, divideFileIntoSegments int64_max 1 = Ok [(0, end_)] ∧
    int64_min ≤ end_ < 0 ∧ ¬ chain 0 [(0, end_)] int64_max.
Proof. apply (divideFileIntoSegments_wraps int64_max). by vm_compute. Defined.

(** The largest file: the segment ends a MiB above the least [int64]. *)
Example divideFileIntoSegments_largest :
  divideFileIntoSegments int64_max 1 = Ok [(0, - int64_max - 1 + oneMB)].
Proof. by vm_compute. Qed.

(** With more threads than granules the clamped end comes early: of four
    segments of a file of one granule and a half, the second ends at the
    end of the file, off the grid; only the plain statement of
    [divideSegments_aligned] holds of segment ends. *)
Example divideSegments_early_clamp :
  divideSegments 2 3 4 = Ok [(0, 2); (2, 3); (3, 3); (3, 3)] ∧
  divideFileIntoSegments (oneMB + oneMB / 2) 4 =
    Ok [(0, oneMB); (oneMB, oneMB + oneMB / 2);
        (oneMB + oneMB / 2, oneMB + oneMB / 2); (oneMB + oneMB / 2, oneMB + oneMB / 2)] ∧
  (oneMB + oneMB / 2) `mod` oneMB ≠ 0.
Proof. by vm_compute. Qed.

(** ** The planner of play/tmp/main.go *)

Section part.
Context (fileSize numThreads : Z).
Context (HF : 0 ≤ fileSize ≤ int64_max) (HT : 0 < numThreads ≤ int64_max).

Lemma partBounds_spec i :
  0 ≤ i < numThreads →
  partBounds fileSize numThreads (fileSize `quot` numThreads) i =
    (i * (fileSize `quot` numThreads),
     if bool_decide (i = numThreads - 1) then fileSize
     else (i + 1) * (fileSize `quot` numThreads)).
Proof.
  intros ?. pose proof (quot_rem_nonneg fileSize numThreads).
  unfold partBounds. no_wrap. f_equal. case_bool_decide; [done|lia].
Qed.

Lemma partBounds_chain (k : nat) a :
  0 ≤ a → a + Z.of_nat k = numThreads →
  chain (if k is O then fileSize else a * (fileSize `quot` numThreads))
    (partBounds fileSize numThreads (fileSize `quot` numThreads) <$> seqZ a (Z.of_nat k))
    fileSize.
Proof.
  revert a. induction k as [|k IH]; intros a ??; [done|].
  rewrite seqZ_cons by lia. rewrite fmap_cons, partBounds_spec by lia. cbn [chain].
  replace (Z.pred (Z.of_nat (S k))) with (Z.of_nat k) by lia.
  pose proof (quot_rem_nonneg fileSize numThreads).
  specialize (IH (Z.succ a)). destruct k as [|k].
  - rewrite bool_decide_eq_true_2 by lia. split_and!; [done|nia|by apply IH; lia].
  - rewrite bool_decide_eq_false_2 by lia. split_and!; [done|nia|].
    replace ((a + 1) * fileSize `quot` numThreads)
      with (Z.succ a * fileSize `quot` numThreads) by lia.
    apply IH; lia.
Qed.

Lemma partPlan_plan :
  partPlan fileSize numThreads =
    Ok (partBounds fileSize numThreads (fileSize `quot` numThreads) <$> seqZ 0 numThreads) ∧
  chain 0 (partBounds fileSize numThreads (fileSize `quot` numThreads) <$> seqZ 0 numThreads)
    fileSize.
Proof.
  pose proof (quot_rem_nonneg fileSize numThreads).
  unfold partPlan. rewrite quot64_id by int64_lia. split; [done|].
  pose proof (partBounds_chain (Z.to_nat numThreads) 0) as Hc.
  rewrite Z2Nat.id in Hc by lia. destruct (Z.to_nat numThreads) eqn:?; [lia|].
  rewrite Z.mul_0_l in Hc. apply Hc; lia.
Qed.

(** The planner of play/tmp/main.go returns one segment per thread, and
    the segments are a contiguous partition of the file: equal parts, the
    last one taking the remainder. *)
Theorem partPlan_partition :
  ∃ plan, partPlan fileSize numThreads = Ok plan ∧
    length plan = Z.to_nat numThreads ∧ chain 0 plan fileSize.
Proof.
  destruct partPlan_plan as [-> ?]. eexists. split; [done|].
  by rewrite length_fmap, length_seqZ.
Qed.

End part.

Lemma partPlan_partition_witness :
  ∃ plan, partPlan 10 3 = Ok plan ∧ length plan = Z.to_nat 3 ∧ chain 0 plan 10.
Proof. apply (partPlan_partition 10 3); unfold int64_max; lia. Defined.
