(* ===== verification/Codec.v ===== *)
(** * The codec adapter

    The zstd engine is a library (github.com/klauspost/compress/zstd); the
    program uses three of its entry points.  The class [Codec] states what
    the program relies on: a frame made by [EncodeAll] or by a stream writer
    can be followed by any decodable stream, and the decoder then yields the
    frame's payload followed by the rest; and a decoder that fails has
    passed on the payload of the frames before the one it could not read.
    [store_codec] is an executable codec that satisfies the laws (raw blocks
    behind a length byte); the witnesses of the development run on it. *)

From S2P Require Import Prelude.

(** ** The interface *)

Class Codec : Type := {
  (** [zstd.NewWriter(nil, WithEncoderLevel(EncoderLevelFromZstd(level)))]
      then [EncodeAll(src, nil)]: the input as frames of its own.  Every
      integer is a level: the library maps it to one of its four speeds. *)
  encodeAll : Z → bytes → bytes;
  (** [zstd.NewWriter(w, level)], [io.Copy] of the whole input, [Close]:
      what the stream writer has written to [w]. *)
  encodeStream : Z → bytes → bytes;
  (** The same with [zstd.WithEncoderConcurrency(n)] among the options. *)
  encodeConcurrent : Z → Z → bytes → bytes;
  (** [zstd.NewReader(r)] then [io.Copy]: the decoded stream, or [None] for
      an input that is no sequence of frames. *)
  decodeAll : bytes → option bytes;
  decode_nil : decodeAll [] = Some [];
  decode_frame level src rest out :
    decodeAll rest = Some out →
    decodeAll (encodeAll level src ++ rest) = Some (src ++ out);
  decode_stream level src rest out :
    decodeAll rest = Some out →
    decodeAll (encodeStream level src ++ rest) = Some (src ++ out);
  decode_concurrent n level src rest out :
    decodeAll rest = Some out →
    decodeAll (encodeConcurrent n level src ++ rest) = Some (src ++ out);
  (** What the decoder has passed to the writer of [io.Copy] when the copy
      returns: the decoded stream, or, when a frame is corrupt or cut short,
      what it decoded before it met that frame. *)
  decodeWritten : bytes → bytes;
  decoded_whole s out : decodeAll s = Some out → decodeWritten s = out;
  decoded_frame level src rest :
    decodeWritten (encodeAll level src ++ rest) = src ++ decodeWritten rest;
  decoded_stream level src rest :
    decodeWritten (encodeStream level src ++ rest) = src ++ decodeWritten rest;
  decoded_concurrent n level src rest :
    decodeWritten (encodeConcurrent n level src ++ rest) = src ++ decodeWritten rest;
}.

(** A stream writer that has been written to and not closed.  [Write]
    buffers its input and passes on what it has compressed so far; the last
    block and the end of the frame reach the sink when [Close] runs.
    [encodeWritten level src] is what the sink holds when [Write(src)] has
    returned: a proper prefix of the frame, which does not decode to [src]. *)
Class Unclosed `{Codec} : Type := {
  encodeWritten : Z → bytes → bytes;
  written_prefix level src :
    src ≠ [] → ∃ rest, rest ≠ [] ∧ encodeStream level src = encodeWritten level src ++ rest;
  written_lost level src :
    src ≠ [] → decodeAll (encodeWritten level src) ≠ Some src;
}.

(** ** What follows from the laws *)

Section codec.
Context `{Codec}.

(** The compressed form of a list of chunks, each encoded on its own. *)
Definition encodeChunks (level : Z) (cs : list bytes) : bytes :=
  concat (encodeAll level <$> cs).

Lemma encodeChunks_nil level : encodeChunks level [] = [].
Proof. done. Qed.

Lemma encodeChunks_cons level c cs :
  encodeChunks level (c :: cs) = encodeAll level c ++ encodeChunks level cs.
Proof. done. Qed.

Lemma encodeChunks_app level cs1 cs2 :
  encodeChunks level (cs1 ++ cs2) = encodeChunks level cs1 ++ encodeChunks level cs2.
Proof. unfold encodeChunks. by rewrite fmap_app, concat_app. Qed.

Lemma decode_chunks_app level cs rest out :
  decodeAll rest = Some out →
  decodeAll (encodeChunks level cs ++ rest) = Some (concat cs ++ out).
Proof.
  intros Hrest. induction cs as [|c cs IH]; [done|].
  rewrite encodeChunks_cons. cbn [concat]. rewrite <-!(assoc_L (++)).
  by apply decode_frame.
Qed.

(** Frames concatenate: a run of independently encoded chunks decodes to
    the chunks put end to end. *)
Lemma decode_chunks level cs : decodeAll (encodeChunks level cs) = Some (concat cs).
Proof.
  pose proof (decode_chunks_app level cs [] [] decode_nil) as Hd.
  by rewrite !app_nil_r in Hd.
Qed.

(** Runs of frames concatenate: what the reassembler relies on. *)
Lemma decode_segments level (segs : list (list bytes)) :
  decodeAll (concat (encodeChunks level <$> segs)) = Some (concat (concat segs)).
Proof.
  induction segs as [|s segs IH]; csimpl; [apply decode_nil|].
  rewrite concat_app. by apply decode_chunks_app.
Qed.

Lemma decode_stream_whole level src : decodeAll (encodeStream level src) = Some src.
Proof.
  pose proof (decode_stream level src [] [] decode_nil) as Hd.
  by rewrite !app_nil_r in Hd.
Qed.

Lemma decode_concurrent_whole n level src :
  decodeAll (encodeConcurrent n level src) = Some src.
Proof.
  pose proof (decode_concurrent n level src [] [] decode_nil) as Hd.
  by rewrite !app_nil_r in Hd.
Qed.

(** The frames in front of a stream are passed on whatever follows them. *)
Lemma decoded_chunks level cs rest :
  decodeWritten (encodeChunks level cs ++ rest) = concat cs ++ decodeWritten rest.
Proof.
  induction cs as [|c cs IH]; [done|].
  rewrite encodeChunks_cons. cbn [concat].
  by rewrite <-!(assoc_L (++)), decoded_frame, IH.
Qed.

Lemma decoded_nil : decodeWritten [] = [].
Proof. apply decoded_whole, decode_nil. Qed.

End codec.

(** ** An executable codec *)

(** The store codec writes the input as raw blocks of at most 255 bytes,
    each behind one byte that holds its length; an empty input gives no
    block, as [EncodeAll] gives no frame. *)

Definition byte_of_nat (n : nat) : byte := default "000"%byte (Byte.of_nat n).

Definition store_block (c : bytes) : bytes := byte_of_nat (length c) :: c.

Definition store_encode (src : bytes) : bytes :=
  concat (store_block <$> chunks 255 src).

(** The decoder, by the number of payload bytes the current block still
    owes: a length byte of zero and an input that ends inside a block are
    corrupt. *)
Fixpoint store_decode_go (owed : nat) (l : bytes) : option bytes :=
  match owed, l with
  | O, [] => Some []
  | O, n :: l =>
      match Byte.to_nat n with
      | O => None
      | owed => store_decode_go owed l
      end
  | S _, [] => None
  | S owed, b :: l => (b ::.) <$> store_decode_go owed l
  end.

Definition store_decode (l : bytes) : option bytes := store_decode_go 0 l.

(** What the decoder has copied when it stops: everything up to the length
    byte of zero or the end of the input. *)
Fixpoint store_decoded_go (owed : nat) (l : bytes) : bytes :=
  match owed, l with
  | _, [] => []
  | O, n :: l =>
      match Byte.to_nat n with
      | O => []
      | owed => store_decoded_go owed l
      end
  | S owed, b :: l => b :: store_decoded_go owed l
  end.

Definition store_decoded (l : bytes) : bytes := store_decoded_go 0 l.

Lemma byte_of_nat_to_nat n : (n ≤ 255)%nat → Byte.to_nat (byte_of_nat n) = n.
Proof.
  intros Hn. unfold byte_of_nat. rewrite Byte.of_nat_via_N, Byte.to_nat_via_N.
  destruct (Byte.of_N (N.of_nat n)) as [b|] eqn:Hb.
  - simpl. apply Byte.to_of_N in Hb. rewrite Hb. lia.
  - apply Byte.of_N_None_iff in Hb. lia.
Qed.

(** Inside a block the decoder copies the payload. *)
Lemma store_decode_go_payload c l :
  store_decode_go (length c) (c ++ l) = (c ++.) <$> store_decode_go 0 l.
Proof.
  induction c as [|b c IH]; simpl.
  - by destruct (store_decode_go 0 l).
  - rewrite IH. by destruct (store_decode_go 0 l).
Qed.

Lemma store_decode_block c l :
  c ≠ [] → (length c ≤ 255)%nat →
  store_decode_go 0 (store_block c ++ l) = (c ++.) <$> store_decode_go 0 l.
Proof.
  intros Hc Hlen. unfold store_block. cbn [app store_decode_go].
  rewrite byte_of_nat_to_nat by done.
  destruct (length c) as [|n] eqn:Hn; [by destruct c|].
  rewrite <-Hn. apply store_decode_go_payload.
Qed.

Lemma store_decode_blocks cs l :
  Forall (λ c : bytes, c ≠ [] ∧ (length c ≤ 255)%nat) cs →
  store_decode_go 0 (concat (store_block <$> cs) ++ l) = (concat cs ++.) <$> store_decode_go 0 l.
Proof.
  induction 1 as [|c cs [??] _ IH]; [csimpl; by destruct (store_decode_go 0 l)|].
  rewrite fmap_cons. cbn [concat].
  rewrite <-(assoc_L (++)), store_decode_block, IH by done.
  destruct (store_decode_go 0 l); [|done]. simpl. by rewrite (assoc_L (++)).
Qed.

Lemma store_decode_encode src rest out :
  store_decode rest = Some out →
  store_decode (store_encode src ++ rest) = Some (src ++ out).
Proof.
  intros Hrest. unfold store_decode, store_encode in *.
  rewrite store_decode_blocks, Hrest; [simpl; by rewrite chunks_concat by lia|].
  apply Forall_forall. intros c Hc. split.
  - by eapply (chunks_nonempty 255); [lia|].
  - by eapply chunks_bound.
Qed.

Lemma store_decoded_go_whole owed l out :
  store_decode_go owed l = Some out → store_decoded_go owed l = out.
Proof.
  revert owed out. induction l as [|b l IH]; intros [|owed] out; simpl; try congruence.
  - destruct (Byte.to_nat b); [done|]. apply IH.
  - destruct (store_decode_go owed l) as [out'|] eqn:Hl; [|done].
    intros [= <-]. f_equal. by apply IH.
Qed.

Lemma store_decoded_go_payload c l :
  store_decoded_go (length c) (c ++ l) = c ++ store_decoded_go 0 l.
Proof.
  induction c as [|b c IH]; simpl; [by destruct l|]. by rewrite IH.
Qed.

Lemma store_decoded_blocks cs l :
  Forall (λ c : bytes, c ≠ [] ∧ (length c ≤ 255)%nat) cs →
  store_decoded_go 0 (concat (store_block <$> cs) ++ l) = concat cs ++ store_decoded_go 0 l.
Proof.
  induction 1 as [|c cs [Hc ?] _ IH]; [done|].
  rewrite fmap_cons. cbn [concat]. rewrite <-!(assoc_L (++)), <-IH.
  unfold store_block at 1. cbn [app store_decoded_go].
  rewrite byte_of_nat_to_nat by done.
  destruct (length c) as [|n] eqn:Hn; [by destruct c|].
  rewrite <-Hn. apply store_decoded_go_payload.
Qed.

Lemma store_decoded_encode src rest :
  store_decoded (store_encode src ++ rest) = src ++ store_decoded rest.
Proof.
  unfold store_decoded, store_encode.
  rewrite store_decoded_blocks; [by rewrite chunks_concat by lia|].
  apply Forall_forall. intros c Hc. split.
  - by eapply (chunks_nonempty 255); [lia|].
  - by eapply chunks_bound.
Qed.

#[global] Program Instance store_codec : Codec := {|
  encodeAll _ src := store_encode src;
  encodeStream _ src := store_encode src;
  encodeConcurrent _ _ src := store_encode src;
  decodeAll := store_decode;
  decodeWritten := store_decoded;
|}.
Next Obligation. done. Qed.
Next Obligation. intros level src rest out. apply store_decode_encode. Qed.
Next Obligation. intros level src rest out. apply store_decode_encode. Qed.
Next Obligation. intros n level src rest out. apply store_decode_encode. Qed.
Next Obligation. intros s out. apply store_decoded_go_whole. Qed.
Next Obligation. intros level src rest. apply store_decoded_encode. Qed.
Next Obligation. intros level src rest. apply store_decoded_encode. Qed.
Next Obligation. intros n level src rest. apply store_decoded_encode. Qed.

(** An unclosed writer of the store codec has passed on every block but
    the last. *)
Definition store_written (src : bytes) : bytes :=
  concat (store_block <$> removelast (chunks 255 src)).

Lemma chunks_removelast (src : bytes) :
  src ≠ [] →
  ∃ c, c ≠ [] ∧ chunks 255 src = removelast (chunks 255 src) ++ [c] ∧
    Forall (λ c : bytes, c ≠ [] ∧ (length c ≤ 255)%nat) (removelast (chunks 255 src)).
Proof.
  intros Hsrc.
  assert (Forall (λ c : bytes, c ≠ [] ∧ (length c ≤ 255)%nat) (chunks 255 src)) as Hall.
  { apply Forall_forall. intros c Hc. split; [by eapply (chunks_nonempty 255); [lia|]|].
    by eapply chunks_bound. }
  destruct (chunks 255 src) as [|c0 cs] eqn:Hcs.
  { pose proof (chunks_concat 255 src ltac:(lia)) as Hc. by rewrite Hcs in Hc. }
  rewrite <-Hcs in *. assert (chunks 255 src ≠ []) as Hne by (by rewrite Hcs).
  pose proof (app_removelast_last [] Hne) as Heq.
  exists (List.last (chunks 255 src) []).
  rewrite Heq in Hall at 1. apply Forall_app in Hall as [Hinit Hlast].
  apply Forall_singleton in Hlast as [??]. done.
Qed.

Lemma store_written_prefix (src : bytes) :
  src ≠ [] → ∃ rest, rest ≠ [] ∧ store_encode src = store_written src ++ rest.
Proof.
  intros (c & Hc & Heq & _)%chunks_removelast. exists (store_block c). split; [done|].
  unfold store_encode, store_written. rewrite Heq at 1.
  by rewrite fmap_app, concat_app; simpl; rewrite app_nil_r.
Qed.

Lemma store_written_lost (src : bytes) :
  src ≠ [] → store_decode (store_written src) ≠ Some src.
Proof.
  intros (c & Hc & Heq & Hall)%chunks_removelast. unfold store_decode, store_written.
  pose proof (store_decode_blocks _ [] Hall) as Hd. rewrite app_nil_r in Hd. rewrite Hd. simpl.
  rewrite app_nil_r. intros [= Hsrc].
  pose proof (chunks_concat 255 src ltac:(lia)) as Hcat.
  rewrite Heq, concat_app, Hsrc in Hcat. simpl in Hcat. rewrite app_nil_r in Hcat.
  apply (f_equal length) in Hcat. rewrite length_app in Hcat. destruct c; [done|simpl in *; lia].
Qed.

#[global] Program Instance store_unclosed : Unclosed := {|
  encodeWritten _ src := store_written src;
|}.
Next Obligation. intros level src. apply store_written_prefix. Qed.
Next Obligation. intros level src. apply store_written_lost. Qed.

(** A corrupt stream is refused: a block that announces more bytes than
    the input holds, and a length byte of zero. *)
Example store_decode_corrupt :
  store_decode ["003"; "a"; "b"]%byte = None ∧ store_decode ["000"]%byte = None.
Proof. by vm_compute. Qed.

(** Before the corrupt block the decoder has passed on the blocks it could
    read. *)
Example store_decoded_corrupt :
  store_decode (store_encode ["a"; "b"] ++ ["000"])%byte = None ∧
  store_decoded (store_encode ["a"; "b"] ++ ["000"])%byte = ["a"; "b"]%byte.
Proof. by vm_compute. Qed.

Example store_codec_run :
  decodeAll (encodeAll 3 ["a"; "b"]%byte ++ encodeAll 19 ["c"]%byte) = Some ["a"; "b"; "c"]%byte.
Proof. by vm_compute. Qed.
