(* ===== verification/FileSys.v ===== *)
(** * Files and readers

    The part of Go's [os] and [io] packages the program calls, over a store
    of files: [os.Stat], [os.Open], [os.Create], [os.Remove], the methods
    [Read], [Seek] and [Write] of [os.File], [io.Copy] between files, and
    the interface [io.Reader] with its instances for a file and for
    [io.LimitReader].  The packages are libraries; the definitions follow
    their documented behaviour on regular files. *)

From S2P Require Import Prelude.

(** ** The store *)

(** The files by path, and the two permission faults the error paths of the
    program react to: paths that cannot be opened for reading and paths
    that cannot be created. *)
Record world : Type := mkWorld {
  files : gmap string bytes;
  unreadable : gset string;
  unwritable : gset string;
}.

Definition set_files (f : gmap string bytes → gmap string bytes) (w : world) : world :=
  {| files := f (files w); unreadable := unreadable w; unwritable := unwritable w |}.

(** A call of the operating system: the state afterwards, and a value or
    an error. *)
Definition sys (A : Type) : Type := world → (oserr + A) * world.

(** [if err != nil { return fmt.Errorf("...: %w", err) }] *)
Definition wrap_err {A} (f : oserr → error) (m : sys A) : io world A :=
  λ w, match m w with
       | (inl e, w') => (Err (f e), w')
       | (inr a, w') => (Ok a, w')
       end.

(** An open file: its path and the offset of the next read or write. *)
Record File : Set := mkFile { f_name : string; f_pos : Z }.

#[global] Instance File_eq_dec : EqDecision File.
Proof. solve_decision. Defined.

(** ** Operations of [os] *)

(** [os.Stat(name)] followed by [Size()]. *)
Definition os_Stat (name : string) : sys Z :=
  λ w, match files w !! name with
       | Some data => (inr (Z.of_nat (length data)), w)
       | None => (inl ENOENT, w)
       end.

(** [os.Open(name)]: for reading, at offset 0. *)
Definition os_Open (name : string) : sys File :=
  λ w, match files w !! name with
       | None => (inl ENOENT, w)
       | Some _ =>
           if bool_decide (name ∈ unreadable w) then (inl EACCES, w)
           else (inr (mkFile name 0), w)
       end.

(** [os.Create(name)]: the file is created, or truncated when it exists. *)
Definition os_Create (name : string) : sys File :=
  λ w, if bool_decide (name ∈ unwritable w) then (inl EACCES, w)
       else (inr (mkFile name 0), set_files <[name := []]> w).

(** [os.Remove(name)] *)
Definition os_Remove (name : string) : sys () :=
  λ w, match files w !! name with
       | None => (inl ENOENT, w)
       | Some _ => (inr (), set_files (delete name) w)
       end.

(** [os.ReadFile(name)]: the whole file. *)
Definition os_ReadFile (name : string) : sys bytes :=
  λ w, match files w !! name with
       | None => (inl ENOENT, w)
       | Some data =>
           if bool_decide (name ∈ unreadable w) then (inl EACCES, w) else (inr data, w)
       end.

(** [os.WriteFile(name, data, perm)]: the file is created or truncated and
    holds [data]. *)
Definition os_WriteFile (name : string) (data : bytes) : sys () :=
  λ w, if bool_decide (name ∈ unwritable w) then (inl EACCES, w)
       else (inr (), set_files <[name := data]> w).

(** What a write of [data] at offset [pos] leaves in a file that held [old]:
    a gap between the end of the file and [pos] reads as zeros. *)
Definition write_at (pos : Z) (data old : bytes) : bytes :=
  resize (Z.to_nat pos) "000"%byte old ++ data ++ drop (Z.to_nat pos + length data) old.

(** [os.File.Write]: all of [data] at the handle's offset.  A handle whose
    file has been removed still accepts the write; nothing shows in the
    store. *)
Definition file_Write (h : File) (data : bytes) : sys File :=
  λ w, (inr (mkFile (f_name h) (f_pos h + Z.of_nat (length data))),
        set_files (alter (write_at (f_pos h) data) (f_name h)) w).

(** [os.File.Seek(offset, whence)] for [io.SeekStart = 0],
    [io.SeekCurrent = 1] and [io.SeekEnd = 2]: the new offset, or [EINVAL]
    and an unchanged handle when it would be negative. *)
Definition file_Seek (h : File) (offset whence : Z) (w : world) : (oserr + Z) * File :=
  let base :=
    if bool_decide (whence = 0) then Some 0
    else if bool_decide (whence = 1) then Some (f_pos h)
    else if bool_decide (whence = 2)
         then (λ data : bytes, Z.of_nat (length data)) <$> files w !! f_name h
         else None in
  match base with
  | None => (inl EINVAL, h)
  | Some b =>
      if bool_decide (b + offset < 0) then (inl EINVAL, h)
      else (inr (b + offset), mkFile (f_name h) (b + offset))
  end.

(** ** Readers *)

(** The [err] of a [Read]: [nil], [io.EOF], or an error of the system. *)
Inductive rderr : Set :=
| RdNil
| RdEOF
| RdErr (e : oserr).

#[global] Instance rderr_eq_dec : EqDecision rderr.
Proof. solve_decision. Defined.

(** [io.Reader]: [read r len w] is [r.Read(p)] for a buffer [p] of [len]
    bytes: the bytes placed in [p[:n]], the error, and the reader
    afterwards.  Reading does not change the store. *)
Class Reader (R : Type) : Type := read : R → Z → world → (bytes * rderr) * R.

(** [os.File.Read] on a regular file: as many bytes as the buffer holds,
    fewer at the end of the file, and [0, io.EOF] past it. *)
Definition file_Read (h : File) (len : Z) (w : world) : (bytes * rderr) * File :=
  match files w !! f_name h with
  | None => (([], RdErr ENOENT), h)
  | Some data =>
      if bool_decide (len ≤ 0) then (([], RdNil), h)
      else if bool_decide (Z.of_nat (length data) ≤ f_pos h) then (([], RdEOF), h)
      else
        let d := take (Z.to_nat len) (drop (Z.to_nat (f_pos h)) data) in
        ((d, RdNil), mkFile (f_name h) (f_pos h + Z.of_nat (length d)))
  end.

#[global] Instance file_reader : Reader File := file_Read.

(** [io.LimitedReader]: the reader [R] and the bytes [N] still allowed. *)
Record LimitedReader (R : Type) : Type := mkLimited { lr_R : R; lr_N : Z }.
Arguments mkLimited {R} lr_R lr_N.
Arguments lr_R {R} l.
Arguments lr_N {R} l.

(** [io.LimitReader(r, n)] *)
Definition LimitReader {R} (r : R) (n : Z) : LimitedReader R := mkLimited r n.

(** [LimitedReader.Read]: the buffer is cut to the [N] bytes left; the
    count read is at most [N], so [N -= n] does not wrap. *)
Definition limited_Read `{Reader R} (l : LimitedReader R) (len : Z) (w : world)
  : (bytes * rderr) * LimitedReader R :=
  if bool_decide (lr_N l ≤ 0) then (([], RdEOF), l)
  else
    let len' := if bool_decide (lr_N l < len) then lr_N l else len in
    let '((d, e), r') := read (lr_R l) len' w in
    ((d, e), mkLimited r' (lr_N l - Z.of_nat (length d))).

#[global] Instance limited_reader `{Reader R} : Reader (LimitedReader R) := limited_Read.

(** A file that hands out at most [short] bytes per read: what the contract
    of [io.Reader] allows and a regular file does not do. *)
Record ShortFile : Set := mkShort { sf_file : File; sf_max : Z }.

Definition short_Read (s : ShortFile) (len : Z) (w : world) : (bytes * rderr) * ShortFile :=
  let '(r, h) := file_Read (sf_file s) (Z.min len (sf_max s)) w in
  (r, mkShort h (sf_max s)).

#[global] Instance short_reader : Reader ShortFile := short_Read.

(** [io.Copy(dst, src)] from a file to a file: what is left of [src] is
    written at the offset of [dst]. *)
Definition io_Copy (dst src : File) : sys (File * File) :=
  λ w, match files w !! f_name src with
       | None => (inl ENOENT, w)
       | Some data =>
           let rest := drop (Z.to_nat (f_pos src)) data in
           match file_Write dst rest w with
           | (inl e, w') => (inl e, w')
           | (inr dst', w') =>
               (inr (dst', mkFile (f_name src) (f_pos src + Z.of_nat (length rest))), w')
           end
       end.

(** ** What a reader promises *)

(** A reader is lawful when, as long as it is [valid] in a store, each read
    into a buffer of positive length hands out a prefix of what is
    [pending], at most the buffer's length, without an error, and hands out
    nothing only when nothing is pending. *)
Class LawfulReader (R : Type) `{Reader R} : Type := {
  valid : R → world → Prop;
  pending : R → world → bytes;
  read_lawful r len w :
    valid r w → 0 < len →
    ∃ d e r', read r len w = ((d, e), r') ∧ valid r' w ∧
      pending r w = d ++ pending r' w ∧ Z.of_nat (length d) ≤ len ∧
      (e = RdNil ∨ e = RdEOF) ∧ (d = [] → pending r w = []);
}.

(** A full reader fills the buffer whenever enough is pending, as a regular
    file does. *)
Class FullReader (R : Type) `{LawfulReader R} : Prop := {
  read_full r len w :
    valid r w → 0 < len → (read r len w).1.1 = take (Z.to_nat len) (pending r w);
}.

(** ** The store after an operation *)

Lemma wrap_err_inr {A} (f : oserr → error) (m : sys A) w a w' :
  m w = (inr a, w') → wrap_err f m w = (Ok a, w').
Proof. unfold wrap_err. by intros ->. Qed.

Lemma wrap_err_inl {A} (f : oserr → error) (m : sys A) w e w' :
  m w = (inl e, w') → wrap_err f m w = (Err (f e), w').
Proof. unfold wrap_err. by intros ->. Qed.

Lemma files_set_files f w : files (set_files f w) = f (files w).
Proof. done. Qed.

Lemma set_files_set_files f g w : set_files f (set_files g w) = set_files (f ∘ g) w.
Proof. done. Qed.

Lemma set_files_id f w : f (files w) = files w → set_files f w = w.
Proof. destruct w. unfold set_files. simpl. by intros ->. Qed.

Lemma set_files_ext f g w : f (files w) = g (files w) → set_files f w = set_files g w.
Proof. unfold set_files. by intros ->. Qed.

(** Two stores with the same files and the same permissions are the same. *)
Lemma world_eq w1 w2 :
  files w1 = files w2 → unreadable w1 = unreadable w2 → unwritable w1 = unwritable w2 → w1 = w2.
Proof. destruct w1, w2. simpl. by intros -> -> ->. Qed.

(** A write at the end of a file appends. *)
Lemma write_at_end data old : write_at (Z.of_nat (length old)) data old = old ++ data.
Proof.
  unfold write_at. rewrite Nat2Z.id, resize_all. f_equal.
  rewrite drop_ge by lia. apply app_nil_r.
Qed.

Section file_ops.
Context (w : world) (name : string) (data : bytes).
Context (Hfile : files w !! name = Some data).

Lemma os_Stat_Some : os_Stat name w = (inr (Z.of_nat (length data)), w).
Proof. unfold os_Stat. by rewrite Hfile. Qed.

Lemma os_Open_Some : name ∉ unreadable w → os_Open name w = (inr (mkFile name 0), w).
Proof. intros ?. unfold os_Open. by rewrite Hfile, bool_decide_eq_false_2. Qed.

Lemma os_Open_unreadable : name ∈ unreadable w → os_Open name w = (inl EACCES, w).
Proof. intros ?. unfold os_Open. by rewrite Hfile, bool_decide_eq_true_2. Qed.

Lemma file_Write_append pos more :
  pos = Z.of_nat (length data) →
  file_Write (mkFile name pos) more w =
    (inr (mkFile name (pos + Z.of_nat (length more))),
     set_files <[name := data ++ more]> w).
Proof.
  intros ->. unfold file_Write. simpl. f_equal. apply set_files_ext.
  apply map_eq. intros k. destruct (decide (k = name)) as [->|].
  - by rewrite lookup_alter_eq, lookup_insert_eq, Hfile, <-write_at_end.
  - by rewrite lookup_alter_ne, lookup_insert_ne.
Qed.

(** A read inside the file hands out the buffer's length in bytes, or what
    is left of the file. *)
Lemma file_Read_data pos len :
  0 < len → 0 ≤ pos < Z.of_nat (length data) →
  file_Read (mkFile name pos) len w =
    ((slice pos (pos + len) data, RdNil),
     mkFile name (Z.min (pos + len) (Z.of_nat (length data)))).
Proof.
  intros ??. unfold file_Read, slice. simpl. rewrite Hfile.
  rewrite !bool_decide_eq_false_2 by lia.
  replace (pos + len - pos) with len by lia. do 3 f_equal.
  rewrite length_take, length_drop. lia.
Qed.

Lemma file_Read_eof pos len :
  0 < len → Z.of_nat (length data) ≤ pos →
  file_Read (mkFile name pos) len w = (([], RdEOF), mkFile name pos).
Proof.
  intros ??. unfold file_Read. simpl. rewrite Hfile.
  by rewrite bool_decide_eq_false_2, bool_decide_eq_true_2 by lia.
Qed.

End file_ops.

Lemma os_Stat_None w name : files w !! name = None → os_Stat name w = (inl ENOENT, w).
Proof. intros Hn. unfold os_Stat. by rewrite Hn. Qed.

Lemma os_Create_ok w name :
  name ∉ unwritable w → os_Create name w = (inr (mkFile name 0), set_files <[name := []]> w).
Proof. intros ?. unfold os_Create. by rewrite bool_decide_eq_false_2. Qed.

Lemma os_Create_unwritable w name :
  name ∈ unwritable w → os_Create name w = (inl EACCES, w).
Proof. intros ?. unfold os_Create. by rewrite bool_decide_eq_true_2. Qed.

Lemma file_Seek_start h offset w :
  0 ≤ offset → file_Seek h offset 0 w = (inr offset, mkFile (f_name h) offset).
Proof.
  intros ?. unfold file_Seek. rewrite bool_decide_eq_true_2 by done.
  by rewrite bool_decide_eq_false_2 by lia.
Qed.

Lemma file_Seek_start_negative h offset w :
  offset < 0 → file_Seek h offset 0 w = (inl EINVAL, h).
Proof.
  intros ?. unfold file_Seek. rewrite bool_decide_eq_true_2 by done.
  by rewrite bool_decide_eq_true_2 by lia.
Qed.

Lemma file_Seek_current name pos w :
  0 ≤ pos → file_Seek (mkFile name pos) 0 1 w = (inr pos, mkFile name pos).
Proof.
  intros ?. unfold file_Seek. simpl. rewrite bool_decide_eq_false_2 by lia.
  by rewrite Z.add_0_r.
Qed.

(** ** The readers are lawful *)

#[global] Program Instance file_lawful : LawfulReader File := {|
  valid h w := is_Some (files w !! f_name h) ∧ 0 ≤ f_pos h;
  pending h w := drop (Z.to_nat (f_pos h)) (default [] (files w !! f_name h));
|}.
Next Obligation.
  intros [name pos] len w [[data Hdata] Hpos] Hlen. simpl in *. rewrite Hdata. simpl.
  unfold read, file_reader.
  destruct (decide (pos < Z.of_nat (length data))).
  - rewrite (file_Read_data w name data) by (done || lia).
    eexists _, _, _. split; [done|]. simpl. rewrite Hdata. simpl.
    assert (length (slice pos (pos + len) data) = Z.to_nat (Z.min (pos + len) (Z.of_nat (length data)) - pos)) as Hl.
    { unfold slice. rewrite length_take, length_drop. lia. }
    split_and!; [eauto|lia| |lia|by left|].
    + unfold slice. replace (pos + len - pos) with len by lia.
      replace (Z.to_nat (Z.min (pos + len) (Z.of_nat (length data))))
        with (Z.to_nat pos + Z.to_nat (Z.min len (Z.of_nat (length data) - pos)))%nat by lia.
      rewrite <-drop_drop.
      rewrite <-(take_drop (Z.to_nat len) (drop (Z.to_nat pos) data)) at 1. f_equal.
      destruct (decide (len ≤ Z.of_nat (length data) - pos)).
      * by replace (Z.min len (Z.of_nat (length data) - pos)) with len by lia.
      * rewrite !drop_ge; [done|rewrite length_drop; lia..].
    + intros Hnil. rewrite Hnil in Hl. simpl in Hl. lia.
  - rewrite (file_Read_eof w name data) by (done || lia).
    eexists _, _, _. split; [done|]. simpl. rewrite Hdata. simpl.
    rewrite drop_ge by lia. split_and!; eauto; simpl; lia.
Qed.

#[global] Instance file_full : FullReader File.
Proof.
  split. intros [name pos] len w [[data Hdata] Hpos] Hlen. simpl in *. rewrite Hdata. simpl.
  unfold read, file_reader. destruct (decide (pos < Z.of_nat (length data))).
  - rewrite (file_Read_data w name data) by (done || lia). simpl. unfold slice.
    by replace (pos + len - pos) with len by lia.
  - rewrite (file_Read_eof w name data) by (done || lia). simpl.
    by rewrite drop_ge, take_nil by lia.
Qed.

Section limited.
Context `{LawfulReader R}.

#[global] Program Instance limited_lawful : LawfulReader (LimitedReader R) := {|
  valid l w := valid (lr_R l) w;
  pending l w := take (Z.to_nat (lr_N l)) (pending (lr_R l) w);
|}.
Next Obligation.
  intros [r n] len w Hvalid Hlen. simpl in *. unfold read, limited_reader, limited_Read. simpl.
  case_bool_decide as Hn.
  { eexists _, _, _. split; [done|]. simpl. replace (Z.to_nat n) with O by lia.
    split_and!; eauto; simpl; lia. }
  set (len' := if bool_decide (n < len) then n else len).
  assert (0 < len' ∧ len' ≤ n ∧ len' ≤ len) as (? & ? & ?) by (unfold len'; case_bool_decide; lia).
  destruct (read_lawful r len' w) as (d & e & r' & -> & ? & Hp & ? & ? & Hnil); [done..|].
  eexists _, _, _. split; [done|]. simpl. split_and!; [done| |lia|done|].
  - rewrite Hp. replace (Z.to_nat n) with (length d + Z.to_nat (n - Z.of_nat (length d)))%nat by lia.
    by rewrite take_app_add.
  - intros ->. by rewrite Hnil, take_nil.
Qed.

#[global] Instance limited_full `{!FullReader R} : FullReader (LimitedReader R).
Proof.
  split. intros [r n] len w Hvalid Hlen. simpl in *. unfold read, limited_reader, limited_Read. simpl.
  case_bool_decide as Hn.
  { simpl. replace (Z.to_nat n) with O by lia. by rewrite take_0, take_nil. }
  set (len' := if bool_decide (n < len) then n else len).
  assert (0 < len') by (unfold len'; case_bool_decide; lia).
  pose proof (read_full r len' w Hvalid) as Hfull.
  destruct (read r len' w) as [[d e] r']. simpl in *. rewrite Hfull by done.
  rewrite take_take. f_equal. unfold len'. case_bool_decide; lia.
Qed.

End limited.

#[global] Program Instance short_lawful : LawfulReader ShortFile := {|
  valid s w := valid (sf_file s) w ∧ 0 < sf_max s;
  pending s w := pending (sf_file s) w;
|}.
Next Obligation.
  intros [h m] len w [Hvalid Hm] Hlen. simpl in *. unfold read, short_reader, short_Read. simpl.
  destruct (read_lawful h (Z.min len m) w) as (d & e & r' & Hr & ? & Hp & ? & ? & Hnil);
    [done|lia|].
  unfold read, file_reader in Hr. rewrite Hr.
  eexists _, _, _. split; [done|]. simpl. split; [by split|].
  split; [done|]. split; [lia|]. by split.
Qed.

(** ** Readers that signal the end *)

(** [io.Copy] reads until [io.EOF].  It ends, and has then read
    everything, on a reader that answers [io.EOF] when it hands out nothing
    and only when nothing is pending any more. *)
Class EofReader (R : Type) `{LawfulReader R} : Prop := {
  read_eof r len w :
    valid r w → 0 < len →
    let '((d, e), r') := read r len w in
    (d = [] → e = RdEOF) ∧ (e = RdEOF → pending r' w = []);
}.

#[global] Instance file_eof : EofReader File.
Proof.
  split. intros [name pos] len w [[data Hdata] Hpos] Hlen. simpl in *.
  unfold read, file_reader. destruct (decide (pos < Z.of_nat (length data))).
  - rewrite (file_Read_data w name data) by (done || lia). split; [|done].
    intros Hnil. by apply slice_nonempty in Hnil; [|lia..].
  - rewrite (file_Read_eof w name data) by (done || lia). split; [done|].
    intros _. simpl. rewrite Hdata. simpl. by rewrite drop_ge by lia.
Qed.

#[global] Instance limited_eof `{EofReader R} : EofReader (LimitedReader R).
Proof.
  split. intros [r n] len w Hvalid Hlen. simpl in *.
  unfold read, limited_reader, limited_Read. simpl. case_bool_decide as Hn.
  { split; [done|]. intros _. simpl. by replace (Z.to_nat n) with O by lia. }
  set (len' := if bool_decide (n < len) then n else len).
  assert (0 < len') by (unfold len'; case_bool_decide; lia).
  pose proof (read_eof r len' w Hvalid) as Heof.
  destruct (read r len' w) as [[d e] r']. destruct Heof as [Hnil Hdone]; [done|].
  split; [done|]. intros He. simpl. by rewrite Hdone, take_nil.
Qed.

#[global] Instance short_eof : EofReader ShortFile.
Proof.
  split. intros [h m] len w [Hvalid Hm] Hlen. simpl in *.
  unfold read, short_reader, short_Read. simpl.
  pose proof (read_eof h (Z.min len m) w Hvalid) as Heof.
  unfold read, file_reader in Heof. destruct (file_Read h (Z.min len m) w) as [[d e] r'].
  apply Heof. lia.
Qed.
