(* ===== verification/Names.v ===== *)
(** * Names of the intermediate files

    A segment worker writes its output to a file whose name starts with the
    segment's index ([fmt.Sprintf] in [compressPart]); the reassembler gets
    the index back from the name ([filepath.Base], [strings.SplitN] and
    [strconv.Atoi] in [concatenateFiles]).  This file holds the printer, the
    parsers and the round trip between them.  The functions of Go's
    libraries are modelled from their documentation; [%d] is stdpp's
    [pretty] on [Z]. *)

From Stdlib Require Import Ascii.
From S2P Require Import Prelude.

(** ** Strings *)

Fixpoint has_char (x : ascii) (s : string) : bool :=
  match s with
  | "" => false
  | String c r => bool_decide (c = x) || has_char x r
  end.

(** The value of a decimal digit. *)
Definition digit_of (c : ascii) : option Z :=
  let n := N_of_ascii c in
  if (48 <=? n)%N && (n <=? 57)%N then Some (Z.of_N n - 48) else None.

Fixpoint all_digits (s : string) : bool :=
  match s with
  | "" => true
  | String c r => bool_decide (is_Some (digit_of c)) && all_digits r
  end.

(** ** [filepath.Base] on a system whose separator is the slash *)

(** The path without its trailing slashes. *)
Fixpoint strip_slashes (s : string) : string :=
  match s with
  | "" => ""
  | String c r =>
      let r' := strip_slashes r in
      if bool_decide (c = "/"%char) && bool_decide (r' = "") then "" else String c r'
  end.

(** What follows the last slash. *)
Fixpoint last_elem (s : string) : string :=
  match s with
  | "" => ""
  | String c r =>
      if has_char "/" r then last_elem r
      else if bool_decide (c = "/"%char) then r else String c r
  end.

Definition filepath_Base (path : string) : string :=
  if bool_decide (path = "") then "."
  else
    let e := last_elem (strip_slashes path) in
    if bool_decide (e = "") then "/" else e.

(** ** [strings.SplitN(s, sep, 2)] for a separator of one character *)

(** The text before and after the first [sep]. *)
Fixpoint cut (sep : ascii) (s : string) : option (string * string) :=
  match s with
  | "" => None
  | String c r =>
      if bool_decide (c = sep) then Some ("", r)
      else (λ p : string * string, (String c p.1, p.2)) <$> cut sep r
  end.

Definition SplitN2 (s : string) (sep : ascii) : list string :=
  match cut sep s with
  | None => [s]
  | Some (a, b) => [a; b]
  end.

(** ** [strconv.Atoi] *)

Fixpoint parse_digits (acc : Z) (s : string) : option Z :=
  match s with
  | "" => Some acc
  | String c r => d ← digit_of c; parse_digits (acc * 10 + d) r
  end.

(** An optional sign, then at least one decimal digit and nothing else; the
    value must be an [int] (64 bits). *)
Definition Atoi (s : string) : option Z :=
  match s with
  | "" => None
  | String c r =>
      let '(neg, body) :=
        if bool_decide (c = "-"%char) then (true, r)
        else if bool_decide (c = "+"%char) then (false, r)
        else (false, s) in
      if bool_decide (body = "") then None
      else
        n ← parse_digits 0 body;
        let v := if neg : bool then - n else n in
        if bool_decide (in_int64 v) then Some v else None
  end.

(** ** The name of a segment's file *)

(** [fmt.Sprintf("%d-%s-output-segment.part%d", segmentIndex,
    filepath.Base(inputFile), segmentIndex)] *)
Definition segmentFileName (segmentIndex : Z) (inputFile : string) : string :=
  pretty segmentIndex +:+ "-" +:+ filepath_Base inputFile +:+ "-output-segment.part"
    +:+ pretty segmentIndex.

(** ** Characters of a string *)

Lemma has_char_app x s1 s2 : has_char x (s1 +:+ s2) = has_char x s1 || has_char x s2.
Proof. induction s1 as [|c s1 IH]; simpl; [done|]. by rewrite IH, orb_assoc. Qed.

Lemma all_digits_has_char x s :
  digit_of x = None → all_digits s = true → has_char x s = false.
Proof.
  intros Hx. induction s as [|c s IH]; simpl; [done|].
  intros [Hc ?]%andb_prop. rewrite IH, orb_false_r by done.
  apply bool_decide_eq_false. intros ->. apply bool_decide_eq_true in Hc.
  rewrite Hx in Hc. by destruct Hc.
Qed.

Lemma string_app_nil_r s : s +:+ "" = s.
Proof. induction s as [|c s IH]; [done|]. unfold String.app in *. simpl. by rewrite IH. Qed.

Lemma string_app_assoc s1 s2 s3 : (s1 +:+ s2) +:+ s3 = s1 +:+ s2 +:+ s3.
Proof.
  induction s1 as [|c s1 IH]; [done|]. unfold String.app in *. simpl. by rewrite IH.
Qed.

Lemma string_app_cons c s1 s2 : String c s1 +:+ s2 = String c (s1 +:+ s2).
Proof. done. Qed.

(** ** Decimal numbers *)

Lemma digit_of_pretty_N_char d :
  (d < 10)%N → digit_of (pretty_N_char d) = Some (Z.of_N d).
Proof.
  intros Hd.
  assert (d = 0 ∨ d = 1 ∨ d = 2 ∨ d = 3 ∨ d = 4 ∨ d = 5 ∨ d = 6 ∨ d = 7 ∨ d = 8 ∨ d = 9)%N
    as Hc by lia.
  repeat (destruct Hc as [->|Hc]; [done|]). by subst.
Qed.

(** The printer prepends the digits of [x] to [s]. *)
Lemma parse_digits_pretty_N_go x s :
  parse_digits 0 (pretty_N_go x s) = parse_digits (Z.of_N x) s.
Proof.
  revert s. induction (N.lt_wf_0 x) as [x _ IH]; intros s.
  destruct (decide (x = 0)%N) as [->|]; [done|].
  rewrite pretty_N_go_step by lia. rewrite IH by (apply N.div_lt; lia).
  cbn [parse_digits]. rewrite digit_of_pretty_N_char by (apply N.mod_lt; lia).
  cbn [mbind option_bind]. f_equal. pose proof (N.div_mod x 10). lia.
Qed.

Lemma all_digits_pretty_N_go x s : all_digits (pretty_N_go x s) = all_digits s.
Proof.
  revert s. induction (N.lt_wf_0 x) as [x _ IH]; intros s.
  destruct (decide (x = 0)%N) as [->|]; [done|].
  rewrite pretty_N_go_step by lia. rewrite IH by (apply N.div_lt; lia).
  cbn [all_digits]. rewrite digit_of_pretty_N_char by (apply N.mod_lt; lia).
  by rewrite bool_decide_eq_true_2 by done.
Qed.

Lemma pretty_N_go_nonempty x s : (0 < x)%N → pretty_N_go x s ≠ "".
Proof.
  revert s. induction (N.lt_wf_0 x) as [x _ IH]; intros s Hx.
  rewrite pretty_N_go_step by done.
  destruct (decide (x `div` 10 = 0)%N) as [->|Hdiv]; [done|].
  apply IH; [apply N.div_lt; lia|]. by apply N.neq_0_lt_0.
Qed.

(** A natural number prints as a nonempty string of digits that reads back
    as the number. *)
Lemma pretty_N_digits (x : N) :
  pretty x ≠ "" ∧ all_digits (pretty x) = true ∧ parse_digits 0 (pretty x) = Some (Z.of_N x).
Proof.
  unfold pretty, pretty_N. case_decide as Hx; [by subst|].
  split_and!; [apply pretty_N_go_nonempty; lia|by rewrite all_digits_pretty_N_go|].
  by rewrite parse_digits_pretty_N_go.
Qed.

Lemma pretty_Z_nonneg (n : Z) : 0 ≤ n → pretty n = pretty (Z.to_N n).
Proof. intros ?. destruct n as [|p|p]; [done|done|lia]. Qed.

Lemma pretty_Z_neg (n : Z) : n < 0 → pretty n = "-" +:+ pretty (Z.to_N (- n)).
Proof. intros ?. destruct n as [|p|p]; [lia|lia|done]. Qed.

Lemma all_digits_pretty (n : Z) : 0 ≤ n → all_digits (pretty n) = true.
Proof. intros ?. rewrite pretty_Z_nonneg by done. apply pretty_N_digits. Qed.

Lemma all_digits_head c r : all_digits (String c r) = true → is_Some (digit_of c).
Proof. simpl. intros [Hc ?]%andb_prop. by apply bool_decide_eq_true in Hc. Qed.

(** Reading a string of digits with no sign. *)
Lemma Atoi_digits s n :
  s ≠ "" → all_digits s = true → parse_digits 0 s = Some n → in_int64 n →
  Atoi s = Some n.
Proof.
  intros Hs Hd Hp Hn. destruct s as [|c r]; [done|]. unfold Atoi.
  apply all_digits_head in Hd as [d Hd].
  assert (c ≠ "-"%char) by (intros ->; by vm_compute in Hd).
  assert (c ≠ "+"%char) by (intros ->; by vm_compute in Hd).
  rewrite !bool_decide_eq_false_2 by done.
  rewrite Hp. cbn [mbind option_bind]. by rewrite bool_decide_eq_true_2.
Qed.

(** Reading a minus sign followed by a string of digits. *)
Lemma Atoi_minus s n :
  s ≠ "" → parse_digits 0 s = Some n → in_int64 (- n) →
  Atoi ("-" +:+ s) = Some (- n).
Proof.
  intros Hs Hp Hn. change ("-" +:+ s) with (String "-"%char s). unfold Atoi.
  rewrite (bool_decide_eq_true_2 ("-"%char = "-"%char)) by done.
  rewrite bool_decide_eq_false_2 by done.
  rewrite Hp. cbn [mbind option_bind]. by rewrite bool_decide_eq_true_2.
Qed.

Lemma Atoi_pretty_nonneg (n : Z) : 0 ≤ n → in_int64 n → Atoi (pretty n) = Some n.
Proof.
  intros ??. rewrite pretty_Z_nonneg by done.
  destruct (pretty_N_digits (Z.to_N n)) as (? & ? & Hp).
  apply Atoi_digits; [done..| |done]. rewrite Hp. f_equal. lia.
Qed.

Lemma Atoi_pretty_neg (n : Z) : n < 0 → in_int64 n → Atoi (pretty n) = Some n.
Proof.
  intros ??. rewrite pretty_Z_neg by lia.
  destruct (pretty_N_digits (Z.to_N (- n))) as (? & ? & Hp).
  replace n with (- Z.of_N (Z.to_N (- n))) at 2 by lia.
  apply Atoi_minus; [done..|]. by replace (- Z.of_N (Z.to_N (- n))) with n by lia.
Qed.

(** Round trip of the index: [strconv.Atoi] reads back what [%d] prints,
    for every [int]. *)
Theorem Atoi_pretty (n : Z) : in_int64 n → Atoi (pretty n) = Some n.
Proof.
  intros ?. destruct (decide (0 ≤ n)); [by apply Atoi_pretty_nonneg|apply Atoi_pretty_neg; [lia|done]].
Qed.

Lemma Atoi_pretty_witness : Atoi (pretty 1234) = Some 1234 ∧ Atoi (pretty (-7)) = Some (-7).
Proof. split; [apply (Atoi_pretty 1234)|apply (Atoi_pretty (-7))]; unfold in_int64, int64_min, int64_max; lia. Defined.

(** What [Atoi] refuses: the empty string, a sign alone, a letter, and a
    number that is no [int]. *)
Example Atoi_refuses :
  Atoi "" = None ∧ Atoi "-" = None ∧ Atoi "12a" = None ∧
  Atoi "9223372036854775808" = None ∧ Atoi "+5" = Some 5.
Proof. by vm_compute. Qed.

(** ** Paths *)

Lemma strip_slashes_no_slash s : has_char "/" s = false → strip_slashes s = s.
Proof.
  induction s as [|c s IH]; simpl; [done|]. intros [Hc ?]%orb_false_elim.
  rewrite Hc, IH by done. done.
Qed.

Lemma last_elem_no_slash s : has_char "/" s = false → last_elem s = s.
Proof.
  induction s as [|c s IH]; simpl; [done|]. intros [Hc Hs]%orb_false_elim.
  by rewrite Hs, Hc.
Qed.

(** A name without a slash is its own base. *)
Lemma filepath_Base_no_slash s : s ≠ "" → has_char "/" s = false → filepath_Base s = s.
Proof.
  intros ??. unfold filepath_Base.
  rewrite bool_decide_eq_false_2, strip_slashes_no_slash, last_elem_no_slash by done.
  by rewrite bool_decide_eq_false_2.
Qed.

Lemma last_elem_has_slash s : has_char "/" (last_elem s) = false.
Proof.
  induction s as [|c s IH]; simpl; [done|].
  destruct (has_char "/" s) eqn:Hs; [done|]. case_bool_decide; [done|].
  simpl. by rewrite bool_decide_eq_false_2, Hs.
Qed.

(** The base of a path holds no slash, unless the path is all slashes. *)
Lemma filepath_Base_has_slash s :
  filepath_Base s ≠ "/" → has_char "/" (filepath_Base s) = false.
Proof.
  unfold filepath_Base. repeat case_bool_decide; try done. intros _. apply last_elem_has_slash.
Qed.

Example filepath_Base_examples :
  filepath_Base "" = "." ∧ filepath_Base "/" = "/" ∧ filepath_Base "a/b//" = "b" ∧
  filepath_Base "/tmp/in.bin" = "in.bin" ∧ filepath_Base "in.bin" = "in.bin".
Proof. by vm_compute. Qed.

(** ** Splitting *)

Lemma cut_app sep a b :
  has_char sep a = false → cut sep (a +:+ String sep b) = Some (a, b).
Proof.
  induction a as [|c a IH]; cbn [has_char].
  - intros _. change ("" +:+ String sep b) with (String sep b). cbn [cut].
    by rewrite bool_decide_eq_true_2.
  - intros [Hc ?]%orb_false_elim. rewrite string_app_cons. cbn [cut].
    rewrite Hc, IH by done. done.
Qed.

Lemma cut_None sep s : has_char sep s = false → cut sep s = None.
Proof.
  induction s as [|c s IH]; simpl; [done|]. intros [Hc ?]%orb_false_elim.
  by rewrite Hc, IH.
Qed.

(** ** The segment file's name *)

Lemma string_length_app s1 s2 :
  String.length (s1 +:+ s2) = (String.length s1 + String.length s2)%nat.
Proof. induction s1 as [|c s1 IH]; [done|]. rewrite string_app_cons. simpl. by rewrite IH. Qed.

Lemma strip_slashes_app a b :
  b ≠ "" → has_char "/" b = false → strip_slashes (a +:+ b) = a +:+ b.
Proof.
  intros ??. induction a as [|c a IH]; [by apply strip_slashes_no_slash|].
  rewrite string_app_cons. cbn [strip_slashes]. rewrite IH.
  rewrite (bool_decide_eq_false_2 (a +:+ b = "")), andb_false_r; [done|].
  destruct a; [done|]. by rewrite string_app_cons.
Qed.

Lemma last_elem_app a b :
  has_char "/" b = false → last_elem (a +:+ String "/" b) = b.
Proof.
  intros Hb. induction a as [|c a IH].
  - change ("" +:+ String "/"%char b) with (String "/"%char b). cbn [last_elem].
    by rewrite Hb, bool_decide_eq_true_2.
  - rewrite string_app_cons. cbn [last_elem].
    rewrite has_char_app. cbn [has_char]. rewrite bool_decide_eq_true_2 by done.
    by rewrite orb_true_r.
Qed.

(** The base of a path that ends in a slash-free element is that element. *)
Lemma filepath_Base_app a b :
  b ≠ "" → has_char "/" b = false → filepath_Base (a +:+ String "/" b) = b.
Proof.
  intros ??. unfold filepath_Base.
  rewrite bool_decide_eq_false_2 by (by destruct a).
  change (String "/"%char b) with ("/" +:+ b). rewrite <-string_app_assoc.
  rewrite strip_slashes_app by done. rewrite string_app_assoc.
  change ("/" +:+ b) with (String "/"%char b). rewrite last_elem_app by done.
  by rewrite bool_decide_eq_false_2.
Qed.

Lemma has_char_pretty_slash (i : Z) : has_char "/" (pretty i) = false.
Proof.
  destruct (decide (0 ≤ i)).
  - apply all_digits_has_char; [done|by apply all_digits_pretty].
  - rewrite pretty_Z_neg by lia. change ("-" +:+ ?s) with (String "-"%char s). cbn [has_char].
    rewrite bool_decide_eq_false_2 by done.
    apply all_digits_has_char; [done|apply pretty_N_digits].
Qed.

Lemma pretty_Z_nonempty (i : Z) : pretty i ≠ "".
Proof.
  destruct (decide (0 ≤ i)).
  - rewrite pretty_Z_nonneg by done. apply pretty_N_digits.
  - by rewrite pretty_Z_neg by lia.
Qed.

Lemma segmentFileName_nonempty i inputFile : segmentFileName i inputFile ≠ "".
Proof.
  unfold segmentFileName. pose proof (pretty_Z_nonempty i). by destruct (pretty i).
Qed.

(** The name splits at its first dash into the printed index and the
    rest. *)
Lemma segmentFileName_cut i inputFile :
  0 ≤ i →
  cut "-" (segmentFileName i inputFile) =
    Some (pretty i, filepath_Base inputFile +:+ "-output-segment.part" +:+ pretty i).
Proof.
  intros ?. unfold segmentFileName. apply (cut_app "-").
  apply all_digits_has_char; [done|by apply all_digits_pretty].
Qed.

(** A worker never writes to its own input: the name of a segment's
    file differs from the path of the input, whatever the path. *)
Theorem segmentFileName_fresh i inputFile : segmentFileName i inputFile ≠ inputFile.
Proof.
  intros Heq.
  assert (filepath_Base (segmentFileName i inputFile) = filepath_Base inputFile) as Hbase
    by (by rewrite Heq).
  clear Heq. unfold segmentFileName in Hbase.
  set (B := filepath_Base inputFile) in *.
  set (S := "-output-segment.part" +:+ pretty i) in *.
  assert (has_char "/" S = false) as HS.
  { unfold S. rewrite has_char_app. by rewrite has_char_pretty_slash. }
  destruct (decide (B = "/")) as [HB|HB].
  - rewrite HB in Hbase at 1. change ("/" +:+ ?s) with (String "/"%char s) in Hbase.
    rewrite <-string_app_assoc in Hbase. rewrite filepath_Base_app in Hbase by done.
    by rewrite HB in Hbase.
  - apply filepath_Base_has_slash in HB. fold B in HB.
    rewrite filepath_Base_no_slash in Hbase.
    + apply (f_equal String.length) in Hbase. rewrite !string_length_app in Hbase.
      unfold S in Hbase. rewrite string_length_app in Hbase. simpl in Hbase. lia.
    + pose proof (pretty_Z_nonempty i). by destruct (pretty i).
    + rewrite !has_char_app. by rewrite has_char_pretty_slash, HB, HS.
Qed.

Lemma segmentFileName_eq_inv i j inputFile :
  0 ≤ i → 0 ≤ j → segmentFileName i inputFile = segmentFileName j inputFile → i = j.
Proof.
  intros ?? Heq. apply (f_equal (cut "-")) in Heq.
  rewrite !segmentFileName_cut in Heq by done. simplify_eq. by apply (inj pretty).
Qed.

(** Two workers never share a file: the names of the segment files of
    one input are distinct for distinct indices. *)
Theorem segmentFileName_inj i j inputFile :
  0 ≤ i → 0 ≤ j → i ≠ j → segmentFileName i inputFile ≠ segmentFileName j inputFile.
Proof. intros ??? Heq. by apply segmentFileName_eq_inv in Heq. Qed.

Lemma segmentFileName_inj_witness :
  segmentFileName 3 "in.bin" ≠ segmentFileName 4 "in.bin".
Proof. apply (segmentFileName_inj 3 4 "in.bin"); lia. Defined.

Lemma segmentFileName_has_slash i inputFile :
  filepath_Base inputFile ≠ "/" → has_char "/" (segmentFileName i inputFile) = false.
Proof.
  intros ?. unfold segmentFileName. rewrite !has_char_app.
  by rewrite has_char_pretty_slash, filepath_Base_has_slash.
Qed.

(** Unless the input's path is all slashes, the name of a segment's file is
    its own base. *)
Lemma segmentFileName_Base i inputFile :
  filepath_Base inputFile ≠ "/" →
  filepath_Base (segmentFileName i inputFile) = segmentFileName i inputFile.
Proof.
  intros ?. apply filepath_Base_no_slash; [apply segmentFileName_nonempty|].
  by apply segmentFileName_has_slash.
Qed.

Example segmentFileName_example :
  segmentFileName 12 "/data/in.bin" = "12-in.bin-output-segment.part12".
Proof. by vm_compute. Qed.
