(* ===== verification/Flags.v ===== *)
(** * Package flag

    Every [main] declares its flags with [flag.Bool], [flag.Int] and
    [flag.String] and calls [flag.Parse].  The package is Go's library: this
    file models it from its documentation, as far as the programs use it.
    A flag set is a map from the names of the flags to their values, which
    are the defaults until an argument sets them.  [parseOne] takes one flag
    off the arguments, with its value; [Parse] repeats it until the first
    argument that is no flag.  [ParseBool] and [ParseInt] are the readers of
    [strconv] that the values of the flags are set with.

    What [PrintDefaults] prints of the declarations is in [Usage].
    Declaring a flag twice, which panics in Go, overwrites the first
    declaration here (no program does it). *)

From Stdlib Require Import Ascii.
From S2P Require Import Prelude Names.

(** ** Values *)

(** The three kinds of flags the programs declare ([boolValue], [intValue]
    and [stringValue] of the package). *)
Inductive Value : Set :=
| BoolValue (b : bool)
| IntValue (n : Z)
| StringValue (s : string).

#[global] Instance Value_eq_dec : EqDecision Value.
Proof. solve_decision. Defined.

(** Two values of the same kind. *)
Definition same_kind (v v' : Value) : Prop :=
  match v, v' with
  | BoolValue _, BoolValue _ | IntValue _, IntValue _ | StringValue _, StringValue _ => True
  | _, _ => False
  end.

#[global] Instance same_kind_dec v v' : Decision (same_kind v v').
Proof. destruct v, v'; simpl; apply _. Defined.

(** [strconv.ParseBool] *)
Definition ParseBool (str : string) : option bool :=
  if bool_decide (str ∈ ["1"; "t"; "T"; "TRUE"; "true"; "True"]) then Some true
  else if bool_decide (str ∈ ["0"; "f"; "F"; "FALSE"; "false"; "False"]) then Some false
  else None.

(** ** [strconv.ParseInt(s, 0, 64)] *)

(** The value of a digit in a base up to 36: the letters count from ten,
    in either case. *)
Definition digit_val (c : ascii) : option Z :=
  let n := Z.of_N (N_of_ascii c) in
  if bool_decide (48 ≤ n ≤ 57) then Some (n - 48)
  else if bool_decide (97 ≤ n ≤ 122) then Some (n - 97 + 10)
  else if bool_decide (65 ≤ n ≤ 90) then Some (n - 65 + 10)
  else None.

(** The loop over the digits: an underscore is passed over, a digit that
    is no digit of the base is a syntax error. *)
Fixpoint parse_base (base acc : Z) (s : string) : option Z :=
  match s with
  | "" => Some acc
  | String c r =>
      if bool_decide (c = "_"%char) then parse_base base acc r
      else
        d ← digit_val c;
        if bool_decide (d < base) then parse_base base (acc * base + d) r else None
  end.

Definition is_letter (lo : ascii) (c : ascii) : bool :=
  bool_decide (c = lo) || bool_decide (N_of_ascii c + 32 = N_of_ascii lo)%N.

(** Base zero: the base is read off the prefix, [0b], [0o] or [0x] in
    front of at least one more character, or a leading [0] for octal. *)
Definition base_prefix (s : string) : Z * string :=
  match s with
  | String "0" r =>
      match r with
      | String c (String d r') =>
          if is_letter "b" c then (2, String d r')
          else if is_letter "o" c then (8, String d r')
          else if is_letter "x" c then (16, String d r')
          else (8, r)
      | _ => (8, r)
      end
  | _ => (10, s)
  end.

(** What [underscoreOK] has last seen. *)
Inductive saw : Set := SawStart | SawDigit | SawUnderscore | SawOther.

#[global] Instance saw_eq_dec : EqDecision saw.
Proof. solve_decision. Defined.

Definition is_hex_digit (hex : bool) (c : ascii) : bool :=
  let n := Z.of_N (N_of_ascii c) in
  bool_decide (48 ≤ n ≤ 57) || hex && (bool_decide (97 ≤ n ≤ 102) || bool_decide (65 ≤ n ≤ 70)).

(** An underscore must follow a digit or the base prefix and be followed by
    a digit. *)
Fixpoint underscores_go (hex : bool) (last : saw) (s : string) : bool :=
  match s with
  | "" => bool_decide (last ≠ SawUnderscore)
  | String c r =>
      if is_hex_digit hex c then underscores_go hex SawDigit r
      else if bool_decide (c = "_"%char)
      then bool_decide (last = SawDigit) && underscores_go hex SawUnderscore r
      else bool_decide (last ≠ SawUnderscore) && underscores_go hex SawOther r
  end.

Definition underscoreOK (s : string) : bool :=
  match s with
  | String "0" (String c r) =>
      if is_letter "b" c || is_letter "o" c || is_letter "x" c
      then underscores_go (is_letter "x" c) SawDigit r
      else underscores_go false SawStart s
  | _ => underscores_go false SawStart s
  end.

(** [strconv.ParseUint(s, 0, 64)] *)
Definition ParseUint (s : string) : option Z :=
  if bool_decide (s = "") then None
  else
    let '(base, digits) := base_prefix s in
    n ← parse_base base 0 digits;
    if has_char "_" digits && negb (underscoreOK s) then None
    else if bool_decide (n < 2 ^ 64) then Some n else None.

(** An optional sign in front of an unsigned number; the value must be an
    [int] (64 bits). *)
Definition ParseInt (s : string) : option Z :=
  match s with
  | "" => None
  | String c r =>
      let '(neg, body) :=
        if bool_decide (c = "+"%char) then (false, r)
        else if bool_decide (c = "-"%char) then (true, r)
        else (false, s) in
      un ← ParseUint body;
      let v := if neg : bool then - un else un in
      if bool_decide (in_int64 v) then Some v else None
  end.

(** ** Flag sets *)

(** [FlagSet.formal] and [FlagSet.actual] in one map: the value of every
    declared flag. *)
Abbreviation FlagSet := (gmap string Value).

(** [flag.Flag]: what a declaration records, the name, the usage message
    and the default. *)
Record Flag : Set := mkFlag {
  flag_Name : string;
  flag_Usage : string;
  flag_DefValue : Value;
}.

#[global] Instance Flag_eq_dec : EqDecision Flag.
Proof. solve_decision. Defined.

(** [flag.Bool(name, value, usage)], [flag.Int] and [flag.String]. *)
Definition flag_Bool (name : string) (value : bool) (usage : string) : Flag :=
  mkFlag name usage (BoolValue value).

Definition flag_Int (name : string) (value : Z) (usage : string) : Flag :=
  mkFlag name usage (IntValue value).

Definition flag_String (name : string) (value : string) (usage : string) : Flag :=
  mkFlag name usage (StringValue value).

(** The declarations of a program, in their order, on the set that
    [flag.CommandLine] is: every flag has its default. *)
Definition declare (ds : list Flag) : FlagSet :=
  foldl (λ fs d, <[flag_Name d := flag_DefValue d]> fs) ∅ ds.

(** What the pointers that the declarations return point to. *)
Definition get_bool (fs : FlagSet) (name : string) : bool :=
  match fs !! name with Some (BoolValue b) => b | _ => false end.

Definition get_int (fs : FlagSet) (name : string) : Z :=
  match fs !! name with Some (IntValue n) => n | _ => 0 end.

Definition get_string (fs : FlagSet) (name : string) : string :=
  match fs !! name with Some (StringValue s) => s | _ => "" end.

(** [Value.Set]: the value a string stands for, in the kind of the
    flag. *)
Definition Value_Set (v : Value) (s : string) : option Value :=
  match v with
  | BoolValue _ => BoolValue <$> ParseBool s
  | IntValue _ => IntValue <$> ParseInt s
  | StringValue _ => Some (StringValue s)
  end.

(** ** Parsing *)

(** The errors of [parseOne]. *)
Inductive flag_error : Set :=
| ErrHelp                                   (* "flag: help requested" *)
| BadSyntax (s : string)                    (* "bad flag syntax: %s" *)
| NotDefined (name : string)                (* "flag provided but not defined: -%s" *)
| InvalidBoolean (value name : string)      (* "invalid boolean value %q for -%s: %v" *)
| NeedsArgument (name : string)             (* "flag needs an argument: -%s" *)
| InvalidValue (value name : string).       (* "invalid value %q for flag -%s: %v" *)

#[global] Instance flag_error_eq_dec : EqDecision flag_error.
Proof. solve_decision. Defined.

(** What an argument is, before the flag is looked up. *)
Inductive arg_form : Set :=
| NoFlag                                        (* shorter than two, or no dash in front *)
| Terminator                                    (* "--" *)
| Malformed                                     (* nothing, a dash or an equals sign for a name *)
| Named (name : string) (value : option string) (* -name or -name=value, one dash or two *).

(** The name up to the first equals sign, and what follows it. *)
Fixpoint cut_value (s : string) : string * option string :=
  match s with
  | "" => ("", None)
  | String c r =>
      if bool_decide (c = "="%char) then ("", Some r)
      else let '(name, value) := cut_value r in (String c name, value)
  end.

Definition arg_form_of (s : string) : arg_form :=
  match s with
  | String "-" (String c r) =>
      if bool_decide (c = "-"%char) && bool_decide (r = "") then Terminator
      else
        match (if bool_decide (c = "-"%char) then r else String c r) with
        | "" => Malformed
        | String c0 tail =>
            if bool_decide (c0 = "-"%char) || bool_decide (c0 = "="%char) then Malformed
            else let '(name, value) := cut_value tail in Named (String c0 name) value
        end
  | _ => NoFlag
  end.

(** What [parseOne] returns: a flag was seen, the flags have ended, or an
    error. *)
Inductive parsed : Type :=
| Seen (fs : FlagSet) (args : list string)
| Ended (args : list string)
| Failed (e : flag_error).

(** A flag that is set to [value]. *)
Definition set_flag (fs : FlagSet) (name : string) (v : Value) (value : string)
    (args : list string) : parsed :=
  match Value_Set v value with
  | Some v' => Seen (<[name := v']> fs) args
  | None =>
      match v with
      | BoolValue _ => Failed (InvalidBoolean value name)
      | _ => Failed (InvalidValue value name)
      end
  end.

(** [FlagSet.parseOne]: a boolean flag needs no value, any other takes
    the next argument for its value when none is joined to it. *)
Definition parseOne (fs : FlagSet) (args : list string) : parsed :=
  match args with
  | [] => Ended []
  | s :: rest =>
      match arg_form_of s with
      | NoFlag => Ended args
      | Terminator => Ended rest
      | Malformed => Failed (BadSyntax s)
      | Named name value =>
          match fs !! name with
          | None =>
              if bool_decide (name = "help") || bool_decide (name = "h")
              then Failed ErrHelp else Failed (NotDefined name)
          | Some (BoolValue _ as v) => set_flag fs name v (default "true" value) rest
          | Some v =>
              match value, rest with
              | Some value, _ => set_flag fs name v value rest
              | None, value :: rest' => set_flag fs name v value rest'
              | None, [] => Failed (NeedsArgument name)
              end
          end
      end
  end.

(** [FlagSet.Parse]: [parseOne] until the flags have ended.  The recursion
    is on the arguments: a flag takes one or two of them. *)
Fixpoint Parse (fs : FlagSet) (args : list string) : flag_error + FlagSet * list string :=
  match args with
  | [] => inr (fs, [])
  | s :: rest =>
      match arg_form_of s with
      | NoFlag => inr (fs, args)
      | Terminator => inr (fs, rest)
      | Malformed => inl (BadSyntax s)
      | Named name value =>
          match fs !! name with
          | None =>
              if bool_decide (name = "help") || bool_decide (name = "h")
              then inl ErrHelp else inl (NotDefined name)
          | Some (BoolValue _ as v) =>
              match set_flag fs name v (default "true" value) rest with
              | Seen fs' _ => Parse fs' rest
              | Ended _ => inr (fs, rest)
              | Failed e => inl e
              end
          | Some v =>
              match value, rest with
              | Some value, _ =>
                  match set_flag fs name v value rest with
                  | Seen fs' _ => Parse fs' rest
                  | Ended _ => inr (fs, rest)
                  | Failed e => inl e
                  end
              | None, value :: rest' =>
                  match set_flag fs name v value rest' with
                  | Seen fs' _ => Parse fs' rest'
                  | Ended _ => inr (fs, rest')
                  | Failed e => inl e
                  end
              | None, [] => inl (NeedsArgument name)
              end
          end
      end
  end.

(** ** The loop of [Parse] *)

Lemma set_flag_args fs name v value args fs' args' :
  set_flag fs name v value args = Seen fs' args' → args' = args.
Proof. unfold set_flag. intros. repeat case_match; by simplify_eq. Qed.

Lemma set_flag_Ended fs name v value args args' :
  set_flag fs name v value args ≠ Ended args'.
Proof. unfold set_flag. by repeat case_match. Qed.

(** [Parse] is the loop of the package: it calls [parseOne] as long as a
    flag is seen. *)
Lemma Parse_parseOne fs args :
  Parse fs args =
    match parseOne fs args with
    | Seen fs' args' => Parse fs' args'
    | Ended args' => inr (fs, args')
    | Failed e => inl e
    end.
Proof.
  destruct args as [|s rest]; [done|]. cbn [Parse parseOne].
  destruct (arg_form_of s) as [| | |name value]; try done.
  destruct (fs !! name) as [v|]; [|by case_match].
  destruct v, value as [value|], rest as [|value' rest']; try done;
    destruct (set_flag _ _ _ _ _) eqn:Hset;
    first [done | by apply set_flag_Ended in Hset | by apply set_flag_args in Hset as ->].
Qed.

(** A flag that is seen takes at least one argument: the loop ends. *)
Lemma parseOne_shorter fs args fs' args' :
  parseOne fs args = Seen fs' args' → (length args' < length args)%nat.
Proof.
  destruct args as [|s rest]; [done|]. cbn [parseOne]. intros Hp.
  repeat case_match; simplify_eq;
    match goal with H : set_flag _ _ _ _ _ = Seen _ _ |- _ => apply set_flag_args in H as -> end;
    simpl; lia.
Qed.

(** ** What parsing keeps *)

(** The set after [parseOne] has the flags it had, each of its kind. *)
Definition same_flags (fs fs' : FlagSet) : Prop :=
  ∀ name, match fs !! name, fs' !! name with
          | Some v, Some v' => same_kind v v'
          | None, None => True
          | _, _ => False
          end.

#[global] Instance same_flags_refl : Reflexive same_flags.
Proof. intros fs name. by destruct (fs !! name) as [[]|]. Qed.

#[global] Instance same_flags_trans : Transitive same_flags.
Proof.
  intros fs1 fs2 fs3 H12 H23 name. specialize (H12 name). specialize (H23 name).
  destruct (fs1 !! name) as [[]|], (fs2 !! name) as [[]|], (fs3 !! name) as [[]|]; done.
Qed.

Lemma Value_Set_kind v s v' : Value_Set v s = Some v' → same_kind v v'.
Proof. destruct v; simpl; intros; by simplify_option_eq. Qed.

Lemma set_flag_same fs name v value args fs' args' :
  fs !! name = Some v → set_flag fs name v value args = Seen fs' args' → same_flags fs fs'.
Proof.
  unfold set_flag. intros Hv Hset. destruct (Value_Set v value) as [v'|] eqn:Hs;
    [|by destruct v]. simplify_eq. intros name'.
  destruct (decide (name' = name)) as [->|].
  - rewrite Hv, lookup_insert_eq. by eapply Value_Set_kind.
  - rewrite lookup_insert_ne by done. by destruct (fs !! name') as [[]|].
Qed.

Lemma parseOne_same fs args fs' args' :
  parseOne fs args = Seen fs' args' → same_flags fs fs'.
Proof.
  destruct args as [|s rest]; [done|]. cbn [parseOne]. intros Hp.
  repeat case_match; simplify_eq; by eapply set_flag_same.
Qed.

Lemma Parse_same fs args fs' rest :
  Parse fs args = inr (fs', rest) → same_flags fs fs'.
Proof.
  remember (length args) as n eqn:Hn. revert fs args Hn.
  induction (lt_wf n) as [n _ IH]. intros fs args -> .
  rewrite Parse_parseOne. destruct (parseOne fs args) as [fs1 args1| |] eqn:Hp; [|by intros [= <- _]|done].
  intros Hparse. etrans; [by eapply parseOne_same|].
  eapply (IH (length args1)); [by eapply parseOne_shorter|done..].
Qed.

(** What is left of the arguments is their end. *)
Lemma parseOne_suffix fs args :
  match parseOne fs args with
  | Seen _ args' | Ended args' => args' `suffix_of` args
  | Failed _ => True
  end.
Proof.
  destruct args as [|s rest]; [by simpl|]. cbn [parseOne].
  repeat case_match; try done; simplify_eq;
    try match goal with H : set_flag _ _ _ _ _ = Seen _ _ |- _ => apply set_flag_args in H as -> end;
    try match goal with H : set_flag _ _ _ _ _ = Ended _ |- _ => by apply set_flag_Ended in H end;
    first [reflexivity | by apply suffix_cons_r | by do 2 apply suffix_cons_r].
Qed.

Lemma Parse_suffix fs args fs' rest :
  Parse fs args = inr (fs', rest) → rest `suffix_of` args.
Proof.
  remember (length args) as n eqn:Hn. revert fs args Hn.
  induction (lt_wf n) as [n _ IH]. intros fs args ->.
  rewrite Parse_parseOne. pose proof (parseOne_suffix fs args) as Hsuf.
  destruct (parseOne fs args) as [fs1 args1| |] eqn:Hp; [|by intros [= _ <-]|done].
  intros Hparse. etrans; [|done].
  eapply (IH (length args1)); [by eapply parseOne_shorter|done..].
Qed.

(** ** Decimal numbers *)

Lemma digit_val_digit c d : digit_of c = Some d → digit_val c = Some d ∧ 0 ≤ d < 10.
Proof.
  unfold digit_of, digit_val. intros Hd.
  destruct ((48 <=? N_of_ascii c)%N && (N_of_ascii c <=? 57)%N) eqn:Hc; [|done].
  apply andb_prop in Hc as [?%N.leb_le ?%N.leb_le]. simplify_eq.
  rewrite bool_decide_eq_true_2 by lia. split; [done|lia].
Qed.

Lemma digits_no_underscore s : all_digits s = true → has_char "_" s = false.
Proof. by apply all_digits_has_char. Qed.

(** On a string of decimal digits the loop in base ten is the one of
    [Atoi]. *)
Lemma parse_base_digits acc s :
  all_digits s = true → parse_base 10 acc s = parse_digits acc s.
Proof.
  revert acc. induction s as [|c s IH]; intros acc; [done|].
  intros Hall. pose proof (all_digits_head _ _ Hall) as [d Hd].
  apply andb_prop in Hall as [_ Hall]. cbn [parse_base parse_digits].
  destruct (digit_val_digit c d Hd) as [Hv ?].
  rewrite bool_decide_eq_false_2 by (intros ->; by vm_compute in Hd).
  rewrite Hv, Hd. cbn [mbind option_bind]. rewrite bool_decide_eq_true_2 by lia. by apply IH.
Qed.

(** A positive number does not print with a zero in front. *)
Lemma pretty_N_go_head x s :
  (0 < x)%N → ∃ c r, pretty_N_go x s = String c r ∧ c ≠ "0"%char.
Proof.
  revert s. induction (N.lt_wf_0 x) as [x _ IH]; intros s Hx.
  rewrite pretty_N_go_step by done.
  destruct (decide (x `div` 10 = 0)%N) as [Hdiv|Hdiv].
  - rewrite Hdiv, pretty_N_go_0. eexists _, _. split; [done|].
    assert (x < 10)%N as Hlt by (by apply N.div_small_iff in Hdiv).
    rewrite N.mod_small by done.
    assert (x = 1 ∨ x = 2 ∨ x = 3 ∨ x = 4 ∨ x = 5 ∨ x = 6 ∨ x = 7 ∨ x = 8 ∨ x = 9)%N
      as Hc by lia.
    repeat (destruct Hc as [->|Hc]; [done|]). by subst.
  - apply IH; [apply N.div_lt; lia|by apply N.neq_0_lt_0].
Qed.

Lemma ParseUint_pretty (x : N) : (Z.of_N x < 2 ^ 64) → ParseUint (pretty x) = Some (Z.of_N x).
Proof.
  intros Hx. destruct (pretty_N_digits x) as (Hne & Hall & Hp). unfold ParseUint.
  rewrite bool_decide_eq_false_2 by done.
  destruct (decide (x = 0)%N) as [->|]; [by vm_compute|].
  revert Hne Hall Hp. unfold pretty, pretty_N. rewrite decide_False by done.
  destruct (pretty_N_go_head x "" ltac:(lia)) as (c & r & -> & Hc). intros _ Hall Hp.
  assert (base_prefix (String c r) = (10, String c r)) as ->.
  { unfold base_prefix. destruct c as [[] [] [] [] [] [] [] []]; done. }
  rewrite parse_base_digits, Hp by done. cbn [mbind option_bind].
  by rewrite digits_no_underscore, bool_decide_eq_true_2 by done.
Qed.

(** Round trip of an integer flag: what [%d] prints, [ParseInt] reads
    back, for every [int]. *)
Lemma ParseInt_pretty (n : Z) : in_int64 n → ParseInt (pretty n) = Some n.
Proof.
  intros Hn. assert (in_int64 n) as [??] by done. unfold int64_min, int64_max in *.
  destruct (decide (0 ≤ n)).
  - rewrite pretty_Z_nonneg by done.
    destruct (pretty_N_digits (Z.to_N n)) as (Hne & Hall & _).
    destruct (pretty (Z.to_N n)) as [|c r] eqn:Hpretty; [done|]. unfold ParseInt.
    pose proof (all_digits_head _ _ Hall) as [d Hd].
    rewrite !bool_decide_eq_false_2 by (intros ->; by vm_compute in Hd).
    rewrite <-Hpretty, ParseUint_pretty by lia. cbn [mbind option_bind].
    rewrite Z2N.id by done. by rewrite bool_decide_eq_true_2.
  - rewrite pretty_Z_neg by lia. change ("-" +:+ ?s) with (String "-"%char s).
    unfold ParseInt. rewrite bool_decide_eq_false_2 by done.
    rewrite (bool_decide_eq_true_2 ("-"%char = "-"%char)) by done.
    rewrite ParseUint_pretty by lia. cbn [mbind option_bind].
    replace (- Z.of_N (Z.to_N (- n))) with n by lia. by rewrite bool_decide_eq_true_2.
Qed.

(** ** The readers at work *)

Example ParseInt_run :
  ParseInt "19" = Some 19 ∧ ParseInt "-3" = Some (-3) ∧ ParseInt "0x1f" = Some 31 ∧
  ParseInt "017" = Some 15 ∧ ParseInt "0b101" = Some 5 ∧ ParseInt "1_000" = Some 1000 ∧
  ParseInt "08" = None ∧ ParseInt "_1" = None ∧ ParseInt "10_" = None ∧
  ParseInt "" = None ∧ ParseInt "-" = None ∧ ParseInt "12a" = None ∧
  ParseInt "9223372036854775808" = None ∧
  ParseInt "-9223372036854775808" = Some (-9223372036854775808).
Proof. by vm_compute. Qed.

Example ParseBool_run :
  ParseBool "true" = Some true ∧ ParseBool "T" = Some true ∧ ParseBool "0" = Some false ∧
  ParseBool "yes" = None ∧ ParseBool "" = None.
Proof. by vm_compute. Qed.

Example arg_form_run :
  arg_form_of "-o" = Named "o" None ∧ arg_form_of "--o=x=y" = Named "o" (Some "x=y") ∧
  arg_form_of "--" = Terminator ∧ arg_form_of "-" = NoFlag ∧ arg_form_of "in.bin" = NoFlag ∧
  arg_form_of "---o" = Malformed ∧ arg_form_of "-=x" = Malformed.
Proof. by vm_compute. Qed.

(** ** Arguments that set given values *)

(** A name that can follow a dash: not empty, no dash in front, no equals
    sign. *)
Definition plain (name : string) : Prop :=
  match name with
  | "" => False
  | String c r => c ≠ "-"%char ∧ has_char "=" name = false
  end.

#[global] Instance plain_dec name : Decision (plain name).
Proof. destruct name; simpl; apply _. Defined.

(** The arguments that set the flag [name] to [v]: a boolean joined to
    the name, any other value in the argument that follows. *)
Definition render_one (s : string * Value) : list string :=
  match s.2 with
  | BoolValue b => ["-" +:+ s.1 +:+ "=" +:+ (if b then "true" else "false")]
  | IntValue n => ["-" +:+ s.1; pretty n]
  | StringValue str => ["-" +:+ s.1; str]
  end.

(** The arguments that set the flags of [settings], in their order, and
    end the flags in front of [args]. *)
Definition render (settings : list (string * Value)) (args : list string) : list string :=
  concat (render_one <$> settings) ++ "--" :: args.

(** A setting the flag set accepts: the flag is declared with a value of
    that kind, and an integer is an [int]. *)
Definition settable (fs : FlagSet) (s : string * Value) : Prop :=
  plain s.1 ∧ (∃ v0, fs !! s.1 = Some v0 ∧ same_kind v0 s.2) ∧
  match s.2 with IntValue n => in_int64 n | _ => True end.

Definition set_all (fs : FlagSet) (settings : list (string * Value)) : FlagSet :=
  foldl (λ fs s, <[s.1 := s.2]> fs) fs settings.

Lemma cut_value_plain r : has_char "=" r = false → cut_value r = (r, None).
Proof.
  induction r as [|c r IH]; simpl; [done|]. intros [Hc ?]%orb_false_elim.
  rewrite Hc, IH by done. done.
Qed.

Lemma cut_value_joined r v : has_char "=" r = false → cut_value (r +:+ "=" +:+ v) = (r, Some v).
Proof.
  induction r as [|c r IH]; simpl; [done|]. intros [Hc ?]%orb_false_elim.
  rewrite Hc. change (String.app r ?s) with (r +:+ s). by rewrite IH.
Qed.

Lemma arg_form_plain name : plain name → arg_form_of ("-" +:+ name) = Named name None.
Proof.
  destruct name as [|c r]; [done|]. intros [Hc [Heq%bool_decide_eq_false ?]%orb_false_elim].
  change ("-" +:+ String c r) with (String "-"%char (String c r)). cbn [arg_form_of].
  repeat case_bool_decide; try done; cbn [andb orb]; by rewrite cut_value_plain.
Qed.

Lemma arg_form_joined name v :
  plain name → arg_form_of ("-" +:+ name +:+ "=" +:+ v) = Named name (Some v).
Proof.
  destruct name as [|c r]; [done|]. intros [Hc [Heq%bool_decide_eq_false ?]%orb_false_elim].
  change ("-" +:+ String c r +:+ ?s) with (String "-"%char (String c (r +:+ s))).
  cbn [arg_form_of].
  repeat case_bool_decide; try done; cbn [andb orb]; by rewrite cut_value_joined.
Qed.

(** [parseOne] takes a rendered setting off the arguments and sets the
    flag. *)
Lemma parseOne_render_one fs s rest :
  settable fs s → parseOne fs (render_one s ++ rest) = Seen (<[s.1 := s.2]> fs) rest.
Proof.
  destruct s as [name v]. intros (Hplain & (v0 & Hv0 & Hkind) & Hint). cbn [fst snd] in *.
  unfold render_one. cbn [snd fst].
  destruct v as [b|n|str], v0 as [b0|n0|str0]; try done; cbn [app parseOne].
  - rewrite arg_form_joined, Hv0 by done. by destruct b.
  - rewrite arg_form_plain, Hv0 by done. unfold set_flag, Value_Set.
    by rewrite ParseInt_pretty.
  - by rewrite arg_form_plain, Hv0.
Qed.

Lemma settable_same fs fs' s : same_flags fs fs' → settable fs s → settable fs' s.
Proof.
  intros Hsame (? & (v0 & Hv0 & Hkind) & ?). split_and!; [done| |done].
  specialize (Hsame s.1). rewrite Hv0 in Hsame.
  destruct (fs' !! s.1) as [v1|]; [|done]. exists v1. split; [done|].
  by destruct v0, v1, s.2.
Qed.

Lemma insert_same_flags (fs : FlagSet) name v v0 :
  fs !! name = Some v0 → same_kind v0 v → same_flags fs (<[name := v]> fs).
Proof.
  intros Hv0 Hkind name'. destruct (decide (name' = name)) as [->|].
  - by rewrite Hv0, lookup_insert_eq.
  - rewrite lookup_insert_ne by done. by destruct (fs !! name') as [[]|].
Qed.

(** Round trip of the command line: the arguments rendered for a list
    of settings parse to the flag set with these settings made, and leave
    the arguments that follow the flags. *)
Lemma Parse_render fs settings args :
  Forall (settable fs) settings →
  Parse fs (render settings args) = inr (set_all fs settings, args).
Proof.
  unfold render. revert fs. induction settings as [|s settings IH]; intros fs Hall; [done|].
  apply Forall_cons in Hall as [Hs Hall]. cbn [fmap list_fmap concat set_all foldl].
  rewrite <-(assoc_L (++)), Parse_parseOne, parseOne_render_one by done.
  apply IH. destruct Hs as (? & (v0 & ? & ?) & ?).
  eapply Forall_impl; [done|]. intros s'. by eapply settable_same, insert_same_flags.
Qed.
