(* ===== verification/Usage.v ===== *)
(** * The usage message

    [flag.PrintDefaults] and the default [flag.Usage] of Go's package flag,
    modelled from the library's documentation: the declared flags are
    visited in the order of their names, and each is printed with the name
    of its type, its usage message and its default when that is not the
    zero value of the type.  The programs print this on [-h] and on every
    argument their flag set refuses.

    [strconv.Quote], which the package prints the default of a string flag
    with, is a parameter; no program declares such a default. *)

From Stdlib Require Import Ascii.
From S2P Require Import Prelude Names Flags.

(** The end of a line, and the tabulator. *)
Definition nl : string := String "010"%char "".
Definition tab : string := String "009"%char "".

(** ** The order of the flags *)

(** [strings.Compare(a, b) <= 0]: byte by byte. *)
Fixpoint string_leb (a b : string) : bool :=
  match a, b with
  | "", _ => true
  | String _ _, "" => false
  | String x a, String y b =>
      if (N_of_ascii x <? N_of_ascii y)%N then true
      else if (N_of_ascii y <? N_of_ascii x)%N then false
      else string_leb a b
  end.

Definition name_le (f1 f2 : Flag) : Prop := string_leb (flag_Name f1) (flag_Name f2).

#[global] Instance name_le_dec f1 f2 : Decision (name_le f1 f2).
Proof. unfold name_le. apply _. Defined.

(** [sortFlags]: the flags by name. *)
Definition sortFlags (ds : list Flag) : list Flag := merge_sort name_le ds.

(** ** One flag *)

(** The name [UnquoteUsage] gives the value of a flag that names none in
    its usage message. *)
Definition type_name (v : Value) : string :=
  match v with
  | BoolValue _ => ""
  | IntValue _ => "int"
  | StringValue _ => "string"
  end.

(** [flag.UnquoteUsage]: a name between back quotes in the usage message is
    the name of the value, and the message is printed without the quotes;
    without such a name it is the name of the type. *)
Definition UnquoteUsage (f : Flag) : string * string :=
  match cut "`" (flag_Usage f) with
  | Some (before, rest) =>
      match cut "`" rest with
      | Some (name, after) => (name, before +:+ name +:+ after)
      | None => (type_name (flag_DefValue f), flag_Usage f)
      end
  | None => (type_name (flag_DefValue f), flag_Usage f)
  end.

(** [strings.ReplaceAll(usage, "\n", "\n    \t")] *)
Fixpoint indent (usage : string) : string :=
  match usage with
  | "" => ""
  | String c r =>
      if bool_decide (c = "010"%char) then String c ("    " +:+ tab +:+ indent r)
      else String c (indent r)
  end.

(** [isZeroValue]: the default is what a flag of the type has when nothing
    sets it. *)
Definition isZeroValue (v : Value) : bool :=
  match v with
  | BoolValue b => negb b
  | IntValue n => bool_decide (n = 0)
  | StringValue s => bool_decide (s = "")
  end.

Section print.
Context (Quote : string → string).

(** [%v] of the default, and [%q] when it is a string. *)
Definition default_text (v : Value) : string :=
  match v with
  | BoolValue b => if b then "true" else "false"
  | IntValue n => pretty n
  | StringValue s => Quote s
  end.

(** The body of the function [PrintDefaults] visits the flags with.  A
    flag whose name and type take four bytes at most (a boolean flag of one
    letter) has its usage on the same line. *)
Definition print_flag (f : Flag) : string :=
  let '(name, usage) := UnquoteUsage f in
  let b := "  -" +:+ flag_Name f +:+ (if bool_decide (name = "") then "" else " " +:+ name) in
  b +:+ (if bool_decide (String.length b ≤ 4)%nat then tab else nl +:+ "    " +:+ tab)
    +:+ indent usage
    +:+ (if isZeroValue (flag_DefValue f) then ""
         else " (default " +:+ default_text (flag_DefValue f) +:+ ")")
    +:+ nl.

(** [flag.PrintDefaults()] *)
Definition PrintDefaults (ds : list Flag) : string :=
  foldr (λ f text, print_flag f +:+ text) "" (sortFlags ds).

(** The usage function of a program that sets none, [Args0] being
    [os.Args[0]]. *)
Definition defaultUsage (Args0 : string) (ds : list Flag) : string :=
  "Usage of " +:+ Args0 +:+ ":" +:+ nl +:+ PrintDefaults ds.

End print.

(** ** The order is a total order *)

Lemma string_leb_refl a : string_leb a a.
Proof. induction a as [|x a IH]; [done|]. simpl. by rewrite N.ltb_irrefl. Qed.

Lemma string_leb_total a b : string_leb a b ∨ string_leb b a.
Proof.
  revert b. induction a as [|x a IH]; intros [|y b]; simpl; [by left..|by right|].
  destruct (N.ltb_spec (N_of_ascii x) (N_of_ascii y)); [by left|].
  destruct (N.ltb_spec (N_of_ascii y) (N_of_ascii x)); [by right|]. apply IH.
Qed.

Lemma string_leb_antisym a b : string_leb a b → string_leb b a → a = b.
Proof.
  revert b. induction a as [|x a IH]; intros [|y b]; simpl; try done.
  destruct (N.ltb_spec (N_of_ascii x) (N_of_ascii y)),
           (N.ltb_spec (N_of_ascii y) (N_of_ascii x)); try done; try lia.
  intros ??. f_equal; [|by apply IH].
  rewrite <-(ascii_N_embedding x), <-(ascii_N_embedding y). f_equal. lia.
Qed.

Lemma string_leb_trans a b c : string_leb a b → string_leb b c → string_leb a c.
Proof.
  revert b c. induction a as [|x a IH]; intros [|y b] [|z c]; simpl; try done.
  destruct (N.ltb_spec (N_of_ascii x) (N_of_ascii y)),
           (N.ltb_spec (N_of_ascii y) (N_of_ascii x)),
           (N.ltb_spec (N_of_ascii y) (N_of_ascii z)),
           (N.ltb_spec (N_of_ascii z) (N_of_ascii y)),
           (N.ltb_spec (N_of_ascii x) (N_of_ascii z)),
           (N.ltb_spec (N_of_ascii z) (N_of_ascii x)); try done; try lia.
  apply IH.
Qed.

#[global] Instance name_le_total : Total name_le.
Proof. intros f1 f2. apply string_leb_total. Qed.

#[global] Instance name_le_trans : Transitive name_le.
Proof. intros f1 f2 f3. apply string_leb_trans. Qed.

Lemma sortFlags_Sorted ds : Sorted name_le (sortFlags ds).
Proof. apply (Sorted_merge_sort name_le). Qed.

Lemma sortFlags_Permutation ds : sortFlags ds ≡ₚ ds.
Proof. apply (merge_sort_Permutation name_le). Qed.

(** Flags that were declared once each have one order. *)
Lemma sortFlags_unique ds sorted :
  NoDup (flag_Name <$> ds) → Sorted name_le sorted → sorted ≡ₚ ds → sorted = sortFlags ds.
Proof.
  intros Hnodup Hsorted Hperm.
  apply (Sorted_unique_strong name_le); [|done|apply sortFlags_Sorted|].
  - intros f1 f2 Hf1 Hf2 ??. rewrite Hperm in Hf1. rewrite sortFlags_Permutation in Hf2.
    apply (NoDup_fmap_inj flag_Name ds); [done..|]. by apply string_leb_antisym.
  - by rewrite sortFlags_Permutation.
Qed.

(** ** What [PrintDefaults] prints *)

(** The message does not depend on the order of the declarations. *)
Theorem PrintDefaults_order Quote ds1 ds2 :
  NoDup (flag_Name <$> ds1) → ds1 ≡ₚ ds2 → PrintDefaults Quote ds1 = PrintDefaults Quote ds2.
Proof.
  intros Hnodup Hperm. unfold PrintDefaults. f_equal. symmetry.
  apply sortFlags_unique; [done|apply sortFlags_Sorted|].
  by rewrite sortFlags_Permutation.
Qed.

(** A boolean flag of one letter is printed on one line, a flag with a
    value on two; the default is printed when it is not the zero value. *)
Example print_flag_run :
  print_flag id (flag_Bool "c" false "Write output to stdout") =
    "  -c" +:+ tab +:+ "Write output to stdout" +:+ nl ∧
  print_flag id (flag_Int "l" 3 "Set compression level") =
    "  -l int" +:+ nl +:+ "    " +:+ tab +:+ "Set compression level (default 3)" +:+ nl ∧
  print_flag id (flag_String "o" "" "Output `file` to write") =
    "  -o file" +:+ nl +:+ "    " +:+ tab +:+ "Output file to write" +:+ nl ∧
  print_flag id (flag_Bool "block" true "Use block mode") =
    "  -block" +:+ nl +:+ "    " +:+ tab +:+ "Use block mode (default true)" +:+ nl.
Proof. by vm_compute. Qed.

Lemma PrintDefaults_order_witness :
  PrintDefaults id [flag_Bool "d" false "Decompress"; flag_Int "T" 2 "Threads"] =
  PrintDefaults id [flag_Int "T" 2 "Threads"; flag_Bool "d" false "Decompress"].
Proof.
  apply (PrintDefaults_order id [flag_Bool "d" false "Decompress"; flag_Int "T" 2 "Threads"]);
    [by_decide|apply Permutation_swap].
Defined.
