(* ===== verification/Worker.v ===== *)
(** * The segment worker

    [compressPart] of the working program (src/unnamed/part_000): a worker
    opens the input for itself, seeks to the start of its segment, and
    compresses one buffer after the other into a file of its own until the
    offset reaches the segment's end.  [compressSegment] of
    src/play/tmp/main.go: the same loop over any reader, which ends when the
    reader is exhausted. *)

From S2P Require Import Prelude Planner Codec FileSys Names.

Section worker.
Context `{Codec}.

(** ** [compressPart] *)

(** The body of the loop of [compressPart], on the two open files: read a
    buffer of [g] bytes, leave when nothing was read, write the buffer's
    frame, then compare the input's offset with the segment's end. *)
Definition compressPart_iter (g level endOffset : Z) (s : File * File)
  : io world (loopres (File * File)) :=
  λ w,
    let '(input, output) := s in
    let '((buf, err), input) := file_Read input g w in
    match err with
    | RdErr e => (Err (ErrReadInput e), w)
    | _ =>
        if bool_decide (buf = []) then (Ok (Break (input, output)), w)
        else
          let compressed := encodeAll level buf in
          match file_Write output compressed w with
          | (inl e, w) => (Err (ErrWriteOutput e), w)
          | (inr output, w) =>
              match file_Seek input 0 1 w with
              | (inl e, _) => (Err (ErrCurrentOffset e), w)
              | (inr currentOffset, input) =>
                  if bool_decide (currentOffset = endOffset)
                  then (Ok (Break (input, output)), w)
                  else if bool_decide (endOffset < currentOffset)
                  then (Panic PanicReadOverEnd, w)
                  else (Ok (Continue (input, output)), w)
              end
          end
    end.

(** [compressPart] with a buffer of [g] bytes.  The error of the first
    [Seek] is dropped, as in the source. *)
Definition compressPartG (fuel : nat) (g : Z) (inputFile : string) (segmentIndex : Z)
    (offset : Segment) (compressionLevel : Z) : io world string :=
  (input <- wrap_err ErrOpenFile (os_Open inputFile);;
   let outputFile := segmentFileName segmentIndex inputFile in
   output <- wrap_err ErrCreateOutput (os_Create outputFile);;
   let '(startOffset, endOffset) := offset in
   λ w,
     let '(_, input) := file_Seek input startOffset 0 w in
     (io_loop fuel (compressPart_iter g compressionLevel endOffset) (input, output);;;
      io_ret outputFile) w)%io.

Definition compressPart (fuel : nat) := compressPartG fuel oneMB.

(** ** [compressSegment] *)

(** The body of the loop of [compressSegment], on the reader and on what
    the pipe has received so far. *)
Definition compressSegment_iter `{Reader R} (g level : Z) (s : R * bytes)
  : io world (loopres (R * bytes)) :=
  λ w,
    let '(input, output) := s in
    let '((buf, err), input) := read input g w in
    match err with
    | RdErr e => (Err (ErrReadInput e), w)
    | _ =>
        if bool_decide (buf = []) then (Ok (Break (input, output)), w)
        else (Ok (Continue (input, output ++ encodeAll level buf)), w)
    end.

(** [compressSegment] with a buffer of [g] bytes: what has been written to
    [output] when the reader is exhausted. *)
Definition compressSegmentG `{Reader R} (fuel : nat) (g : Z) (input : R) (compressionLevel : Z)
  : io world bytes :=
  (s <- io_loop fuel (compressSegment_iter g compressionLevel) (input, []);;
   io_ret s.2)%io.

Definition compressSegment `{Reader R} (fuel : nat) := compressSegmentG (R:=R) fuel (1 ≪ 20).

End worker.

(** ** The loop of [compressPart] on a segment *)

(** The worker of one segment, between [os.Create] and the end of its loop:
    the store [w0] holds the input; the part file [out] holds [acc]. *)
Section part.
Context `{Codec}.
Context (g level : Z) (inputFile out : string) (data : bytes) (w0 : world) (e : Z).
Context (Hg : 0 < g).
Context (Hin : files w0 !! inputFile = Some data).
Context (Hne : out ≠ inputFile).

Definition part_world (acc : bytes) : world := set_files <[out := acc]> w0.

Definition part_state (p : Z) (acc : bytes) : File * File :=
  (mkFile inputFile p, mkFile out (Z.of_nat (length acc))).

Lemma part_world_input acc : files (part_world acc) !! inputFile = Some data.
Proof. unfold part_world. simpl. by rewrite lookup_insert_ne. Qed.

Lemma part_world_output acc : files (part_world acc) !! out = Some acc.
Proof. unfold part_world. simpl. by rewrite lookup_insert_eq. Qed.

Lemma part_world_write acc more :
  set_files <[out := acc ++ more]> (part_world acc) = part_world (acc ++ more).
Proof.
  unfold part_world. rewrite set_files_set_files. apply set_files_ext.
  simpl. by rewrite insert_insert_eq.
Qed.

(** One turn of the loop inside the file: a buffer is read, its frame is
    appended, and the new offset decides. *)
Lemma compressPart_iter_data p acc :
  0 ≤ p < Z.of_nat (length data) →
  compressPart_iter g level e (part_state p acc) (part_world acc) =
    let p' := Z.min (p + g) (Z.of_nat (length data)) in
    let acc' := acc ++ encodeAll level (slice p (p + g) data) in
    if bool_decide (p' = e) then (Ok (Break (part_state p' acc')), part_world acc')
    else if bool_decide (e < p') then (Panic PanicReadOverEnd, part_world acc')
    else (Ok (Continue (part_state p' acc')), part_world acc').
Proof.
  intros ?. unfold compressPart_iter, part_state.
  rewrite (file_Read_data _ _ data) by (apply part_world_input || done).
  rewrite bool_decide_eq_false_2 by (apply slice_nonempty; lia).
  rewrite (file_Write_append _ _ acc) by (apply part_world_output || done).
  rewrite part_world_write. rewrite file_Seek_current by lia.
  rewrite length_app, Nat2Z.inj_add. done.
Qed.

(** One turn of the loop at the end of the file: nothing is read. *)
Lemma compressPart_iter_eof p acc :
  Z.of_nat (length data) ≤ p →
  compressPart_iter g level e (part_state p acc) (part_world acc) =
    (Ok (Break (part_state p acc)), part_world acc).
Proof.
  intros ?. unfold compressPart_iter, part_state.
  by rewrite (file_Read_eof _ _ data) by (apply part_world_input || done).
Qed.

(** The invariant on an aligned segment: the worker is at offset [p], and
    what it has written, followed by the frames of the rest of the segment,
    is [X]. *)
Definition part_inv (X : bytes) (s : File * File) (w : world) : Prop :=
  ∃ p acc, s = part_state p acc ∧ w = part_world acc ∧
    aligned g (Z.of_nat (length data)) (p, e) ∧
    acc ++ encodeChunks level (chunks (Z.to_nat g) (slice p e data)) = X.

Definition part_measure (s : File * File) (w : world) : nat :=
  Z.to_nat (Z.of_nat (length data) - f_pos s.1).

Definition part_post (X : bytes) (o : outcome (File * File)) (w : world) : Prop :=
  is_Ok o ∧ w = part_world X.

(** Where the next read ends, on an aligned segment. *)
Lemma aligned_next p :
  aligned g (Z.of_nat (length data)) (p, e) → p < Z.of_nat (length data) →
  let p' := Z.min (p + g) (Z.of_nat (length data)) in
  p < e ∧ p' ≤ e ∧ (p' < e → p' = p + g ∧ aligned g (Z.of_nat (length data)) (p', e)).
Proof.
  intros (Hp & Hpe & HeF & Hal) Hlt p'. cbn [fst snd] in *. unfold aligned. cbn [fst snd].
  destruct Hal as [He|[? Hmod]].
  - unfold p'. split_and!; [lia..|]. intros ?. split_and!; [lia..|by left].
  - apply mod_granule_step in Hmod as [??]; [|lia..]. unfold p'. split_and!; [lia..|].
    intros ?. split_and!; [lia..|right; split; [lia|]].
    replace (Z.min (p + g) (Z.of_nat (length data))) with (p + g) by lia.
    by replace (e - (p + g)) with (e - p - g) by lia.
Qed.

Lemma compressPart_step_ok X :
  loop_step_ok (compressPart_iter g level e) (part_inv X) part_measure (part_post X).
Proof.
  intros s w (p & acc & -> & -> & Hal & HX).
  destruct (decide (p < Z.of_nat (length data))) as [Hlt|Hge].
  - destruct (aligned_next p Hal Hlt) as (? & ? & Hnext). destruct Hal as (? & ? & ? & _).
    cbn [fst snd] in *. rewrite compressPart_iter_data by lia. cbv zeta.
    case_bool_decide as Hend; [|rewrite bool_decide_eq_false_2 by lia].
    + split; [done|]. f_equal. rewrite <-HX.
      rewrite chunks_slice_last by lia. rewrite encodeChunks_cons, encodeChunks_nil, app_nil_r.
      do 2 f_equal. apply slice_same_end. lia.
    + destruct Hnext as [Hp' Hal']; [lia|]. split; [|unfold part_measure; simpl; lia].
      eexists _, _. split_and!; [done..|].
      rewrite <-HX, (chunks_slice_step g p e data), encodeChunks_cons by lia.
      by rewrite Hp', (assoc_L (++)).
  - destruct Hal as (? & ? & ? & _). cbn [fst snd] in *.
    rewrite compressPart_iter_eof by lia. split; [done|]. f_equal. rewrite <-HX.
    by rewrite slice_nil, chunks_nil, encodeChunks_nil, app_nil_r by lia.
Qed.

(** On an aligned segment the loop ends, with the frames of the segment's
    buffers in the part file. *)
Lemma compressPart_loop fuel s acc :
  aligned g (Z.of_nat (length data)) (s, e) →
  (length data < fuel)%nat →
  ∃ st, io_loop fuel (compressPart_iter g level e) (part_state s acc) (part_world acc) =
    (Ok st, part_world (acc ++ encodeChunks level (chunks (Z.to_nat g) (slice s e data)))).
Proof.
  intros Hal Hfuel.
  set (X := acc ++ encodeChunks level (chunks (Z.to_nat g) (slice s e data))).
  destruct (io_loop_rule (compressPart_iter g level e) (part_inv X) part_measure (part_post X)
              fuel (part_state s acc) (part_world acc)) as [Hok Hw].
  - apply compressPart_step_ok.
  - by exists s, acc.
  - unfold part_measure. simpl. destruct Hal as (? & _). simpl in *. lia.
  - destruct (io_loop _ _ _ _) as [[st| | |] w']; try done. simpl in Hw. subst w'. by exists st.
Qed.

(** The invariant on a segment that ends inside the file and off the
    buffers' grid: the offset never meets the segment's end. *)
Definition part_inv_off (s : File * File) (w : world) : Prop :=
  ∃ p acc, s = part_state p acc ∧ w = part_world acc ∧
    0 ≤ p ≤ e ∧ e < Z.of_nat (length data) ∧ ¬ (p < e ∧ (e - p) `mod` g = 0).

Definition part_post_off (o : outcome (File * File)) (w : world) : Prop :=
  o = Panic PanicReadOverEnd ∧ ∃ acc, w = part_world acc.

Lemma compressPart_step_off :
  loop_step_ok (compressPart_iter g level e) part_inv_off part_measure part_post_off.
Proof.
  intros s w (p & acc & -> & -> & ? & ? & Hoff).
  rewrite compressPart_iter_data by lia. cbv zeta.
  assert (Z.min (p + g) (Z.of_nat (length data)) ≠ e).
  { intros Hend. apply Hoff. split; [lia|].
    replace (e - p) with (1 * g) by lia. apply Z.mod_mul. lia. }
  rewrite bool_decide_eq_false_2 by done. case_bool_decide; [split; eauto|].
  split; [|unfold part_measure; simpl; lia].
  eexists _, _. split_and!; [done|done|lia..|].
  intros [? Hmod]. apply Hoff. split; [lia|]. apply mod_granule_back; [done|].
  by replace (e - p - g) with (e - Z.min (p + g) (Z.of_nat (length data))) by lia.
Qed.

Lemma compressPart_loop_off fuel s acc :
  0 ≤ s ≤ e → e < Z.of_nat (length data) → ¬ (s < e ∧ (e - s) `mod` g = 0) →
  (length data < fuel)%nat →
  ∃ acc', io_loop fuel (compressPart_iter g level e) (part_state s acc) (part_world acc) =
    (Panic PanicReadOverEnd, part_world acc').
Proof.
  intros ??? Hfuel.
  destruct (io_loop_rule (compressPart_iter g level e) part_inv_off part_measure part_post_off
              fuel (part_state s acc) (part_world acc)) as [Hp [acc' Hw]].
  - apply compressPart_step_off.
  - by exists s, acc.
  - unfold part_measure. simpl. lia.
  - exists acc'. destruct (io_loop _ _ _ _) as [o w']. simpl in *. by subst.
Qed.

(** The invariant on a segment that ends after the end of the file: the
    offset stays below the segment's end, and what has been written,
    followed by the frames of the rest of the file, is [X]. *)
Definition part_inv_short (X : bytes) (s : File * File) (w : world) : Prop :=
  ∃ p acc, s = part_state p acc ∧ w = part_world acc ∧
    0 ≤ p ≤ Z.of_nat (length data) ∧ Z.of_nat (length data) < e ∧
    acc ++ encodeChunks level (chunks (Z.to_nat g) (slice p (Z.of_nat (length data)) data)) = X.

Lemma compressPart_step_short X :
  loop_step_ok (compressPart_iter g level e) (part_inv_short X) part_measure (part_post X).
Proof.
  intros s w (p & acc & -> & -> & ? & ? & HX).
  destruct (decide (p < Z.of_nat (length data))) as [Hlt|Hge].
  - rewrite compressPart_iter_data by lia. cbv zeta.
    rewrite !bool_decide_eq_false_2 by lia. split; [|unfold part_measure; simpl; lia].
    eexists _, _. split_and!; [done|done|lia..|]. rewrite <-HX, <-(assoc_L (++)). f_equal.
    destruct (decide (p + g < Z.of_nat (length data))).
    + rewrite (chunks_slice_step g p) by lia.
      by replace (Z.min (p + g) (Z.of_nat (length data))) with (p + g) by lia.
    + rewrite (chunks_slice_last g p) by lia.
      replace (Z.min (p + g) (Z.of_nat (length data))) with (Z.of_nat (length data)) by lia.
      rewrite (slice_nil (Z.of_nat (length data))), chunks_nil, encodeChunks_nil by lia.
      rewrite encodeChunks_cons, encodeChunks_nil. do 2 f_equal. apply slice_same_end. lia.
  - rewrite compressPart_iter_eof by lia. split; [done|]. f_equal. rewrite <-HX.
    by rewrite slice_nil, chunks_nil, encodeChunks_nil, app_nil_r by lia.
Qed.

(** On a segment that ends after the end of the file the loop ends at the
    end of the file, without an error. *)
Lemma compressPart_loop_short fuel s acc :
  0 ≤ s ≤ Z.of_nat (length data) → Z.of_nat (length data) < e →
  (length data < fuel)%nat →
  ∃ st, io_loop fuel (compressPart_iter g level e) (part_state s acc) (part_world acc) =
    (Ok st, part_world (acc ++ encodeChunks level
                                 (chunks (Z.to_nat g) (slice s (Z.of_nat (length data)) data)))).
Proof.
  intros ?? Hfuel.
  set (X := acc ++ encodeChunks level
                     (chunks (Z.to_nat g) (slice s (Z.of_nat (length data)) data))).
  destruct (io_loop_rule (compressPart_iter g level e) (part_inv_short X) part_measure
              (part_post X) fuel (part_state s acc) (part_world acc)) as [Hok Hw].
  - apply compressPart_step_short.
  - by exists s, acc.
  - unfold part_measure. simpl. lia.
  - destruct (io_loop _ _ _ _) as [[st| | |] w']; try done. simpl in Hw. subst w'. by exists st.
Qed.

End part.

(** ** [compressPart], from the call to the return *)

Section compressPart.
Context `{Codec}.
Context (g level : Z) (inputFile : string) (segmentIndex : Z) (w : world).

(** The input cannot be opened: the error is returned and nothing is
    created. *)
Lemma compressPartG_open_error fuel seg e :
  os_Open inputFile w = (inl e, w) →
  compressPartG fuel g inputFile segmentIndex seg level w = (Err (ErrOpenFile e), w).
Proof.
  intros Hopen. unfold compressPartG.
  by erewrite io_bind_Err by (by eapply wrap_err_inl).
Qed.

Context (data : bytes).
Context (Hin : files w !! inputFile = Some data).
Context (Hreadable : inputFile ∉ unreadable w).

(** The part file cannot be created: the error is returned. *)
Lemma compressPartG_create_error fuel seg :
  segmentFileName segmentIndex inputFile ∈ unwritable w →
  compressPartG fuel g inputFile segmentIndex seg level w = (Err (ErrCreateOutput EACCES), w).
Proof.
  intros Hcreate. unfold compressPartG.
  erewrite io_bind_Ok by (by eapply wrap_err_inr, os_Open_Some).
  by erewrite io_bind_Err by (by eapply wrap_err_inl, os_Create_unwritable).
Qed.

Context (Hg : 0 < g).
Context (Hwritable : segmentFileName segmentIndex inputFile ∉ unwritable w).

(** On an aligned segment the worker returns the name of its part file,
    which holds one frame for each buffer of the segment. *)
Lemma compressPartG_aligned fuel seg :
  aligned g (Z.of_nat (length data)) seg →
  (length data < fuel)%nat →
  compressPartG fuel g inputFile segmentIndex seg level w =
    (Ok (segmentFileName segmentIndex inputFile),
     set_files <[segmentFileName segmentIndex inputFile :=
                   encodeChunks level (chunks (Z.to_nat g) (slice seg.1 seg.2 data))]> w).
Proof.
  intros Hal Hfuel. destruct seg as [s e]. unfold compressPartG.
  erewrite io_bind_Ok by (by eapply wrap_err_inr, os_Open_Some).
  erewrite io_bind_Ok by (by eapply wrap_err_inr, os_Create_ok).
  rewrite file_Seek_start by (by destruct Hal).
  destruct (compressPart_loop g level inputFile (segmentFileName segmentIndex inputFile) data w e
              Hg Hin (segmentFileName_fresh _ _) fuel s [] Hal Hfuel) as [st Hloop].
  unfold part_state, part_world in Hloop. simpl in Hloop.
  by erewrite io_bind_Ok by exact Hloop.
Qed.

(** On a segment that ends inside the file and off the buffers' grid the
    worker panics, and leaves a part file behind. *)
Lemma compressPartG_off_grid fuel seg :
  0 ≤ seg.1 ≤ seg.2 → seg.2 < Z.of_nat (length data) →
  ¬ aligned g (Z.of_nat (length data)) seg →
  (length data < fuel)%nat →
  ∃ acc, compressPartG fuel g inputFile segmentIndex seg level w =
    (Panic PanicReadOverEnd, set_files <[segmentFileName segmentIndex inputFile := acc]> w).
Proof.
  intros ?? Hoff Hfuel. destruct seg as [s e]. cbn [fst snd] in *. unfold compressPartG.
  erewrite io_bind_Ok by (by eapply wrap_err_inr, os_Open_Some).
  erewrite io_bind_Ok by (by eapply wrap_err_inr, os_Create_ok).
  rewrite file_Seek_start by lia.
  destruct (compressPart_loop_off g level inputFile (segmentFileName segmentIndex inputFile) data w e
              Hg Hin (segmentFileName_fresh _ _) fuel s []) as [acc Hloop]; [lia..| |done|].
  { intros [??]. apply Hoff. unfold aligned. cbn [fst snd]. split_and!; [lia..|by right]. }
  exists acc. unfold part_state, part_world in Hloop. simpl in Hloop.
  by erewrite io_bind_Panic by exact Hloop.
Qed.

(** On a segment that starts in the file and ends after its end the
    worker returns the name of its part file, as on a whole segment: the
    part holds the frames of the file's bytes from the start of the
    segment on. *)
Lemma compressPartG_short fuel seg :
  0 ≤ seg.1 ≤ Z.of_nat (length data) → Z.of_nat (length data) < seg.2 →
  (length data < fuel)%nat →
  compressPartG fuel g inputFile segmentIndex seg level w =
    (Ok (segmentFileName segmentIndex inputFile),
     set_files <[segmentFileName segmentIndex inputFile :=
                   encodeChunks level (chunks (Z.to_nat g)
                                         (slice seg.1 (Z.of_nat (length data)) data))]> w).
Proof.
  intros ?? Hfuel. destruct seg as [s e]. cbn [fst snd] in *. unfold compressPartG.
  erewrite io_bind_Ok by (by eapply wrap_err_inr, os_Open_Some).
  erewrite io_bind_Ok by (by eapply wrap_err_inr, os_Create_ok).
  rewrite file_Seek_start by lia.
  destruct (compressPart_loop_short g level inputFile (segmentFileName segmentIndex inputFile)
              data w e Hg Hin (segmentFileName_fresh _ _) fuel s []) as [st Hloop]; [done..|].
  unfold part_state, part_world in Hloop. simpl in Hloop.
  by erewrite io_bind_Ok by exact Hloop.
Qed.

End compressPart.

(** ** Termination of [compressPart] *)

(** The loop of [compressPart] on any store and any segment: a turn that
    goes on has read at least one byte and has left the offset before the
    segment's end, so the distance to the end shrinks. *)
Section termination.
Context `{Codec}.
Context (g level endOffset : Z).

Definition part_distance (s : File * File) (w : world) : nat := Z.to_nat (endOffset - f_pos s.1).

Lemma file_Read_advances h len w buf err h' :
  file_Read h len w = ((buf, err), h') → buf ≠ [] → f_pos h' = f_pos h + Z.of_nat (length buf).
Proof.
  unfold file_Read. intros Hread Hbuf.
  repeat case_match; by simplify_eq.
Qed.

Lemma file_Seek_current_pos h w cur h' :
  file_Seek h 0 1 w = (inr cur, h') → cur = f_pos h ∧ h' = mkFile (f_name h) (f_pos h).
Proof.
  unfold file_Seek. simpl. rewrite Z.add_0_r. by case_bool_decide; intros; simplify_eq.
Qed.

Lemma compressPart_iter_shrinks :
  loop_step_ok (compressPart_iter g level endOffset) (λ _ _, True) part_distance
    (λ r _, r ≠ OutOfFuel).
Proof.
  intros [input output] w _. unfold compressPart_iter, part_distance.
  destruct (file_Read input g w) as [[buf err] input'] eqn:Hread.
  destruct err; try done; case_bool_decide as Hbuf; try done; unfold file_Write.
  all: destruct (file_Seek input' 0 1 _) as [[e|cur] input''] eqn:Hseek; [done|].
  all: apply file_Seek_current_pos in Hseek as [-> ->].
  all: apply file_Read_advances in Hread; [|done].
  all: assert (0 < length buf)%nat by (destruct buf; [done|simpl; lia]).
  all: repeat case_bool_decide; try done; simpl; split; [done|lia].
Qed.

End termination.

(** With more fuel than the bytes between the start of a segment, or the
    start of the file when that is negative, and its end the worker
    returns: a name, an error or a panic. *)
Lemma compressPartG_fuel `{Codec} fuel g inputFile segmentIndex seg level w :
  (Z.to_nat (seg.2 - Z.max 0 seg.1) < fuel)%nat →
  (compressPartG fuel g inputFile segmentIndex seg level w).1 ≠ OutOfFuel.
Proof.
  intros Hfuel. destruct seg as [s e]. cbn [fst snd] in Hfuel.
  unfold compressPartG, io_bind, wrap_err, os_Open, os_Create.
  repeat case_match; simplify_eq; try done.
  match goal with
  | Hs : file_Seek _ _ _ _ = (_, ?input), Hl : io_loop _ _ (_, ?output) ?w' = _ |- _ =>
      pose proof (λ Hm, io_loop_rule _ _ _ _ fuel (input, output) w'
                          (compressPart_iter_shrinks g level e) Logic.I Hm) as Hloop;
      rewrite Hl in Hloop; exfalso; apply Hloop; [|done]; unfold part_distance; cbn [fst];
      destruct (decide (0 ≤ s));
        [rewrite file_Seek_start in Hs by done
        |rewrite file_Seek_start_negative in Hs by lia]; simplify_eq; simpl; lia
  end.
Qed.

(** A worker that has returned returns the same with any more fuel. *)
Lemma compressPartG_more `{Codec} fuel fuel' g inputFile segmentIndex seg level w :
  (compressPartG fuel g inputFile segmentIndex seg level w).1 ≠ OutOfFuel → (fuel ≤ fuel')%nat →
  compressPartG fuel' g inputFile segmentIndex seg level w =
    compressPartG fuel g inputFile segmentIndex seg level w.
Proof.
  destruct seg as [s e]. unfold compressPartG, io_bind, wrap_err. intros Hend ?.
  repeat case_match; simplify_eq; try done.
  all: match goal with
       | Hl : io_loop ?f _ _ _ = _, Hl' : io_loop ?f' _ _ _ = _ |- _ =>
           rewrite (io_loop_more _ f f') in Hl' by (by rewrite ?Hl; simpl);
           rewrite Hl in Hl'; by simplify_eq
       end.
Qed.

(** [compressPart] ends on every store, every segment and every size of
    buffer: with more fuel than the bytes between the segment's start (or
    the start of the file, when the segment starts before it) and its end,
    the worker returns a name, an error or a panic, and it returns the same
    with any more fuel. *)
Theorem compressPart_terminates `{Codec} fuel fuel' g inputFile segmentIndex seg level w :
  (Z.to_nat (seg.2 - Z.max 0 seg.1) < fuel)%nat → (fuel ≤ fuel')%nat →
  (compressPartG fuel g inputFile segmentIndex seg level w).1 ≠ OutOfFuel ∧
  compressPartG fuel' g inputFile segmentIndex seg level w =
    compressPartG fuel g inputFile segmentIndex seg level w.
Proof.
  intros Hfuel ?. split; [by apply compressPartG_fuel|].
  apply compressPartG_more; [by apply compressPartG_fuel|done].
Qed.

(** ** [compressSegment] reads only *)

(** [compressSegment] writes to the writer it is given and reads from its
    reader: whatever the reader does, the store is left as it was. *)
Lemma compressSegmentG_world `{Codec} `{Reader R} fuel g (r : R) level w :
  (compressSegmentG fuel g r level w).2 = w.
Proof.
  unfold compressSegmentG, io_bind.
  pose proof (io_loop_keeps (compressSegment_iter g level) (λ w', w' = w) fuel (r, []) w) as Hw.
  destruct (io_loop _ _ _ _) as [[s|e|p|] w']; simpl in *; apply Hw; try done;
    intros [r' out] ? ->; unfold compressSegment_iter;
    destruct (read r' g w) as [[buf []] ?]; simpl; by try case_bool_decide.
Qed.

(** ** [compressSegment] on a lawful reader *)

Section segment.
Context `{Codec} `{LawfulReader R}.
Context (g level : Z) (Hg : 0 < g) (w : world).

(** One turn of the loop: a read that hands out [d] appends the frame of
    [d]; a read that hands out nothing ends the loop. *)
Lemma compressSegment_iter_lawful r out :
  valid r w →
  ∃ d r', valid r' w ∧ pending r w = d ++ pending r' w ∧
    (d = [] → pending r w = []) ∧ (read r g w).1.1 = d ∧
    compressSegment_iter g level (r, out) w =
      if bool_decide (d = []) then (Ok (Break (r', out)), w)
      else (Ok (Continue (r', out ++ encodeAll level d)), w).
Proof.
  intros Hvalid.
  destruct (read_lawful r g w Hvalid Hg) as (d & e & r' & Hread & ? & ? & _ & He & ?).
  exists d, r'. unfold compressSegment_iter. rewrite Hread.
  split_and!; [done..|]. by destruct He as [->| ->].
Qed.

(** The invariant: the pipe holds the frames of chunks that, followed by
    what is pending, are the segment [P]. *)
Definition segment_inv (P : bytes) (s : R * bytes) (w' : world) : Prop :=
  w' = w ∧ valid s.1 w ∧
  ∃ cs, s.2 = encodeChunks level cs ∧ concat cs ++ pending s.1 w = P.

Definition segment_measure (s : R * bytes) (w' : world) : nat := length (pending s.1 w).

Definition segment_post (P : bytes) (o : outcome (R * bytes)) (w' : world) : Prop :=
  w' = w ∧ ∃ s cs, o = Ok s ∧ s.2 = encodeChunks level cs ∧ concat cs = P.

Lemma compressSegment_step_ok P :
  loop_step_ok (compressSegment_iter g level) (segment_inv P) segment_measure (segment_post P).
Proof.
  intros [r out] w' (-> & Hvalid & cs & Hout & HP). cbn [fst snd] in *.
  destruct (compressSegment_iter_lawful r out Hvalid) as (d & r' & ? & Hpend & Hnil & _ & ->).
  case_bool_decide as Hd.
  - split; [done|]. exists (r', out), cs. split_and!; [done..|].
    by rewrite Hnil, app_nil_r in HP.
  - split.
    + split_and!; [done..|]. exists (cs ++ [d]). cbn [fst snd].
      rewrite encodeChunks_app, encodeChunks_cons, encodeChunks_nil, app_nil_r, Hout.
      split; [done|]. by rewrite concat_app, <-(assoc_L (++)), <-HP, Hpend; simpl; rewrite app_nil_r.
    + unfold segment_measure. cbn [fst]. rewrite Hpend, length_app.
      destruct d; [done|simpl; lia].
Qed.

(** With fuel for one turn per pending byte and one more, [compressSegment]
    returns frames that hold what was pending, and leaves the store alone. *)
Lemma compressSegmentG_lawful fuel r :
  valid r w → (length (pending r w) < fuel)%nat →
  ∃ cs, compressSegmentG fuel g r level w = (Ok (encodeChunks level cs), w) ∧
        concat cs = pending r w.
Proof.
  intros Hvalid Hfuel.
  destruct (io_loop_rule (compressSegment_iter g level) (segment_inv (pending r w))
              segment_measure (segment_post (pending r w)) fuel (r, []) w)
    as (Hw & s & cs & Ho & Hs & Hcs).
  - apply compressSegment_step_ok.
  - split_and!; [done..|]. by exists [].
  - done.
  - exists cs. split; [|done]. unfold compressSegmentG.
    erewrite io_bind_Ok by (by apply pair_eq). by rewrite <-Hs.
Qed.

End segment.

(** ** [compressSegment] on a full reader *)

Section segment_full.
Context `{Codec} `{FullReader R}.
Context (g level : Z) (Hg : 0 < g) (w : world).

Definition full_inv (X : bytes) (s : R * bytes) (w' : world) : Prop :=
  w' = w ∧ valid s.1 w ∧
  s.2 ++ encodeChunks level (chunks (Z.to_nat g) (pending s.1 w)) = X.

Definition full_post (X : bytes) (o : outcome (R * bytes)) (w' : world) : Prop :=
  w' = w ∧ ∃ s, o = Ok s ∧ s.2 = X.

Lemma compressSegment_step_full X :
  loop_step_ok (compressSegment_iter g level) (full_inv X) (segment_measure w) (full_post X).
Proof.
  intros [r out] w' (-> & Hvalid & HX). cbn [fst snd] in *.
  destruct (compressSegment_iter_lawful g level Hg w r out Hvalid)
    as (d & r' & ? & Hpend & Hnil & Hd & ->).
  rewrite read_full in Hd by done.
  case_bool_decide as Hempty.
  - split; [done|]. exists (r', out). split; [done|].
    by rewrite Hnil, chunks_nil, encodeChunks_nil, app_nil_r in HX.
  - assert (pending r w ≠ []) by (intros Hp; by rewrite Hp, take_nil in Hd).
    assert (pending r' w = drop (Z.to_nat g) (pending r w)) as Hdrop.
    { rewrite <-(take_drop (Z.to_nat g) (pending r w)), Hd in Hpend at 1.
      by apply app_inv_head in Hpend. }
    split.
    + split_and!; [done..|]. cbn [fst snd].
      rewrite <-HX, (chunks_cons _ (pending r w)) by (done || lia).
      by rewrite encodeChunks_cons, Hd, Hdrop, (assoc_L (++)).
    + unfold segment_measure. cbn [fst]. rewrite Hpend, length_app.
      destruct d; [done|simpl; lia].
Qed.

(** A full reader gives one frame for each buffer of what was pending. *)
Lemma compressSegmentG_full fuel r :
  valid r w → (length (pending r w) < fuel)%nat →
  compressSegmentG fuel g r level w =
    (Ok (encodeChunks level (chunks (Z.to_nat g) (pending r w))), w).
Proof.
  intros Hvalid Hfuel.
  destruct (io_loop_rule (compressSegment_iter g level)
              (full_inv (encodeChunks level (chunks (Z.to_nat g) (pending r w))))
              (segment_measure w)
              (full_post (encodeChunks level (chunks (Z.to_nat g) (pending r w)))) fuel (r, []) w)
    as (Hw & s & Ho & Hs).
  - apply compressSegment_step_full.
  - by split_and!.
  - done.
  - unfold compressSegmentG. erewrite io_bind_Ok by (by apply pair_eq). by rewrite <-Hs.
Qed.

End segment_full.

(** ** What the worker promises *)

Section worker_spec.
Context `{Codec}.
Context (g level : Z) (inputFile : string) (segmentIndex : Z) (data : bytes) (w : world).

(** C6. Boundary exactness: on an aligned segment of a readable input,
    [compressPart] returns the name of its part file, changes nothing but
    that file, and the file decodes to exactly the bytes of the segment. *)
Theorem compressPart_boundary_exact fuel seg :
  0 < g →
  files w !! inputFile = Some data →
  inputFile ∉ unreadable w →
  segmentFileName segmentIndex inputFile ∉ unwritable w →
  aligned g (Z.of_nat (length data)) seg →
  (length data < fuel)%nat →
  ∃ part,
    compressPartG fuel g inputFile segmentIndex seg level w =
      (Ok (segmentFileName segmentIndex inputFile),
       set_files <[segmentFileName segmentIndex inputFile := part]> w) ∧
    decodeAll part = Some (slice seg.1 seg.2 data).
Proof.
  intros. eexists. split; [by eapply compressPartG_aligned|].
  rewrite decode_chunks, chunks_concat; [done|lia].
Qed.

(** C8. The worker relies on the planner: on a segment inside the file,
    [compressPart] returns normally exactly when the segment is aligned;
    on any other it panics for having read over the segment's end. *)
Theorem compressPart_ok_iff_aligned fuel seg :
  0 < g →
  files w !! inputFile = Some data →
  inputFile ∉ unreadable w →
  segmentFileName segmentIndex inputFile ∉ unwritable w →
  0 ≤ seg.1 ≤ seg.2 → seg.2 ≤ Z.of_nat (length data) →
  (length data < fuel)%nat →
  let r := (compressPartG fuel g inputFile segmentIndex seg level w).1 in
  (aligned g (Z.of_nat (length data)) seg → r = Ok (segmentFileName segmentIndex inputFile)) ∧
  (¬ aligned g (Z.of_nat (length data)) seg → r = Panic PanicReadOverEnd).
Proof.
  intros Hg Hin Hr Hw ? ? Hfuel r. unfold r. split; intros Hal.
  - by erewrite compressPartG_aligned.
  - destruct (compressPartG_off_grid g level inputFile segmentIndex w data Hin Hr Hg Hw fuel seg)
      as [acc ->]; [done| |done..].
    destruct (decide (seg.2 = Z.of_nat (length data))) as [Heq|]; [|lia].
    destruct Hal. unfold aligned. split_and!; [lia..|by left].
Qed.

(** C9. A short read is the end: on a segment that starts in the file
    and ends after the end of the file (the file is shorter than the plan
    took it to be), [compressPart] takes the read of zero bytes for the end
    of its segment and returns the name of its part file without an error;
    the part decodes to the bytes from the start of the segment to the end
    of the file, which are fewer than the segment has. *)
Theorem compressPart_short_read fuel seg :
  0 < g →
  files w !! inputFile = Some data →
  inputFile ∉ unreadable w →
  segmentFileName segmentIndex inputFile ∉ unwritable w →
  0 ≤ seg.1 ≤ Z.of_nat (length data) → Z.of_nat (length data) < seg.2 →
  (length data < fuel)%nat →
  ∃ part read,
    compressPartG fuel g inputFile segmentIndex seg level w =
      (Ok (segmentFileName segmentIndex inputFile),
       set_files <[segmentFileName segmentIndex inputFile := part]> w) ∧
    decodeAll part = Some read ∧ read = drop (Z.to_nat seg.1) data ∧
    Z.of_nat (length read) < seg.2 - seg.1.
Proof.
  intros. eexists _, _. split; [by eapply compressPartG_short|].
  rewrite decode_chunks, chunks_concat by lia. unfold slice.
  rewrite take_ge by (rewrite length_drop; lia).
  split_and!; [done..|]. rewrite length_drop. lia.
Qed.

(** The error paths before the loop: an input that does not exist or may
    not be read, and a part file that may not be created, are reported as
    errors of [os.Open] and [os.Create]; the store is unchanged. *)
Theorem compressPart_errors fuel seg :
  (files w !! inputFile = None →
   compressPartG fuel g inputFile segmentIndex seg level w = (Err (ErrOpenFile ENOENT), w)) ∧
  (files w !! inputFile = Some data → inputFile ∈ unreadable w →
   compressPartG fuel g inputFile segmentIndex seg level w = (Err (ErrOpenFile EACCES), w)) ∧
  (files w !! inputFile = Some data → inputFile ∉ unreadable w →
   segmentFileName segmentIndex inputFile ∈ unwritable w →
   compressPartG fuel g inputFile segmentIndex seg level w = (Err (ErrCreateOutput EACCES), w)).
Proof.
  split_and!.
  - intros Hnone. apply compressPartG_open_error. unfold os_Open. by rewrite Hnone.
  - intros. by eapply compressPartG_open_error, os_Open_unreadable.
  - intros. by eapply compressPartG_create_error.
Qed.

(** Whatever the reader does inside its contract (short reads included),
    [compressSegment] ends and its output decodes to what was pending. *)
Theorem compressSegment_decodes `{LawfulReader R} fuel (r : R) :
  0 < g → valid r w → (length (pending r w) < fuel)%nat →
  ∃ out, compressSegmentG fuel g r level w = (Ok out, w) ∧
         decodeAll out = Some (pending r w).
Proof.
  intros Hg Hvalid Hfuel.
  destruct (compressSegmentG_lawful g level Hg w fuel r Hvalid Hfuel) as (cs & -> & <-).
  eexists. split; [done|]. apply decode_chunks.
Qed.

(** On a segment of a file cut out by [io.LimitReader], [compressSegment]
    writes one frame for each buffer of the segment. *)
Lemma compressSegmentG_limited fuel start stop :
  0 < g → files w !! inputFile = Some data →
  0 ≤ start → (length data < fuel)%nat →
  compressSegmentG fuel g (LimitReader (mkFile inputFile start) (stop - start)) level w =
    (Ok (encodeChunks level (chunks (Z.to_nat g) (slice start stop data))), w).
Proof.
  intros Hg Hin ? Hfuel.
  rewrite compressSegmentG_full; [|done|by split; [eexists|]|].
  - simpl. by rewrite Hin.
  - simpl. rewrite Hin. simpl. rewrite length_take, length_drop. lia.
Qed.

End worker_spec.

(** ** The worker at work *)

(** A store with one input of five bytes; the runs below use the store
    codec and buffers of two bytes. *)
Definition demo_data : bytes := ["a"; "b"; "c"; "d"; "e"]%byte.
Definition demo_world : world := mkWorld {[ "in.bin" := demo_data ]} ∅ ∅.

Lemma compressPart_boundary_exact_witness :
  ∃ part,
    compressPartG 6 2 "in.bin" 1 (2, 4) 3 demo_world =
      (Ok (segmentFileName 1 "in.bin"),
       set_files <[segmentFileName 1 "in.bin" := part]> demo_world) ∧
    decodeAll part = Some (slice 2 4 demo_data).
Proof.
  apply (compressPart_boundary_exact 2 3 "in.bin" 1 demo_data demo_world 6 (2, 4));
    [lia|reflexivity|apply not_elem_of_empty|apply not_elem_of_empty|by_decide|simpl; lia].
Defined.

Lemma compressPart_ok_iff_aligned_witness :
  let r := (compressPartG 6 2 "in.bin" 0 (0, 3) 3 demo_world).1 in
  (aligned 2 5 (0, 3) → r = Ok (segmentFileName 0 "in.bin")) ∧
  (¬ aligned 2 5 (0, 3) → r = Panic PanicReadOverEnd).
Proof.
  apply (compressPart_ok_iff_aligned 2 3 "in.bin" 0 demo_data demo_world 6 (0, 3));
    [lia|reflexivity|apply not_elem_of_empty|apply not_elem_of_empty|simpl; lia..].
Defined.

(** The same segment run: the worker has written the frame of the first
    buffer when it panics. *)
Example compressPart_off_grid_run :
  compressPartG 6 2 "in.bin" 0 (0, 3) 3 demo_world =
    (Panic PanicReadOverEnd,
     set_files <[segmentFileName 0 "in.bin" :=
       encodeAll 3 ["a"; "b"]%byte ++ encodeAll 3 ["c"; "d"]%byte]> demo_world).
Proof. by vm_compute. Qed.

(** The off-grid segment again: four turns of fuel are enough. *)
Lemma compressPart_terminates_witness :
  (compressPartG 4 2 "in.bin" 0 (0, 3) 3 demo_world).1 ≠ OutOfFuel ∧
  compressPartG 9 2 "in.bin" 0 (0, 3) 3 demo_world = compressPartG 4 2 "in.bin" 0 (0, 3) 3 demo_world.
Proof. apply (compressPart_terminates 4 9 2 "in.bin" 0 (0, 3) 3 demo_world); simpl; lia. Defined.

Lemma compressPart_short_read_witness :
  ∃ part read,
    compressPartG 6 2 "in.bin" 1 (2, 8) 3 demo_world =
      (Ok (segmentFileName 1 "in.bin"),
       set_files <[segmentFileName 1 "in.bin" := part]> demo_world) ∧
    decodeAll part = Some read ∧ read = drop (Z.to_nat 2) demo_data ∧
    Z.of_nat (length read) < 8 - 2.
Proof.
  apply (compressPart_short_read 2 3 "in.bin" 1 demo_data demo_world 6 (2, 8));
    first [done | by_decide | (simpl; lia)].
Defined.

Lemma compressPart_errors_witness :
  compressPartG 6 2 "none.bin" 0 (0, 3) 3 demo_world = (Err (ErrOpenFile ENOENT), demo_world).
Proof. by apply (compressPart_errors 2 3 "none.bin" 0 [] demo_world 6 (0, 3)). Defined.

Lemma compressSegment_decodes_witness :
  ∃ out, compressSegmentG 6 2 (mkShort (mkFile "in.bin" 1) 1) 3 demo_world = (Ok out, demo_world) ∧
         decodeAll out = Some (pending (mkShort (mkFile "in.bin" 1) 1) demo_world).
Proof.
  apply (compressSegment_decodes 2 3 demo_world 6 (mkShort (mkFile "in.bin" 1) 1));
    [lia|split; [split; [by eexists|simpl; lia]|simpl; lia]|vm_compute; lia].
Defined.

(** A reader that hands out one byte at a time gives one frame per byte;
    a file gives one frame per buffer.  Both decode to the same bytes. *)
Example compressSegment_short_reads :
  compressSegmentG 6 2 (mkShort (mkFile "in.bin" 2) 1) 3 demo_world =
    (Ok (encodeChunks 3 [["c"]; ["d"]; ["e"]]%byte), demo_world) ∧
  compressSegmentG 6 2 (mkFile "in.bin" 2) 3 demo_world =
    (Ok (encodeChunks 3 [["c"; "d"]; ["e"]]%byte), demo_world).
Proof. by vm_compute. Qed.
