(* ===== verification/Reassembler.v ===== *)
(** * The reassembler

    [concatenateFiles] of the working program (src/unnamed/part_000): the
    names of the part files arrive in the order in which the workers
    finished; the index of each is read back from its name, the names are
    sorted by index, the parts are copied into the output in that order, and
    the parts are removed.  The sort is the library's: the function is
    modelled over a sort that keeps the contract of [sort.Slice]
    ([SliceSort]).  The theorems show that the order of arrival does not
    matter, what the output holds, what each error leaves behind, and that
    the sort matters only for names with the same index. *)

From Stdlib Require Import Ascii.
From S2P Require Import Prelude Codec FileSys Names.

(** ** The model *)

Record FileWithIndex : Set := mkFileWithIndex { Index : Z; Name : string }.

#[global] Instance FileWithIndex_eq_dec : EqDecision FileWithIndex.
Proof. solve_decision. Defined.

(** The body of the first loop: the index in front of the first dash of the
    name's base. *)
Definition parseIndex (filename : string) : outcome FileWithIndex :=
  let base := filepath_Base filename in
  match SplitN2 base "-" with
  | part0 :: _ :: _ =>
      match Atoi part0 with
      | Some index => Ok (mkFileWithIndex index filename)
      | None => Err (ErrInvalidIndex filename)
      end
  | _ => Err (ErrInvalidPattern filename)
  end.

(** The first loop: it stops at the first name that does not parse. *)
Fixpoint parseAll (filenames : list string) : outcome (list FileWithIndex) :=
  match filenames with
  | [] => Ok []
  | filename :: filenames =>
      file ← parseIndex filename;
      filesWithIndex ← parseAll filenames;
      Ok (file :: filesWithIndex)
  end.

(** [less] of the call of [sort.Slice] compares the indexes; a slice is
    sorted when [less] holds of no element and one before it. *)
Definition index_le (a b : FileWithIndex) : Prop := Index a ≤ Index b.

#[global] Instance index_le_dec a b : Decision (index_le a b).
Proof. unfold index_le. apply _. Defined.

(** What package sort promises of [sort.Slice]: the elements of the slice
    in a sorted order.  The sort is not stable, so the order of elements
    with the same index is not promised. *)
Class SliceSort (sort : list FileWithIndex → list FileWithIndex) : Prop := {
  sort_Sorted l : Sorted index_le (sort l);
  sort_Permutation l : sort l ≡ₚ l;
}.

(** A sort that keeps the promise, and is stable; on indexes that are
    pairwise distinct every sort gives the same list
    ([sortByIndex_unique]). *)
Definition sortByIndex (filesWithIndex : list FileWithIndex) : list FileWithIndex :=
  merge_sort index_le filesWithIndex.

(** Another one, which takes elements with the same index the other way
    round. *)
Definition sortFromEnd (filesWithIndex : list FileWithIndex) : list FileWithIndex :=
  merge_sort index_le (reverse filesWithIndex).

(** The second loop: each part is opened and copied to the output, which
    stays open; the first error ends the loop. *)
Fixpoint copyAll (out : File) (filesWithIndex : list FileWithIndex) : io world File :=
  match filesWithIndex with
  | [] => io_ret out
  | file :: filesWithIndex =>
      (input <- wrap_err (ErrOpenPart (Name file)) (os_Open (Name file));;
       r <- wrap_err ErrCopyOutput (io_Copy out input);;
       copyAll r.1 filesWithIndex)%io
  end.

(** The third loop: the parts are removed; an error of [os.Remove] is
    dropped. *)
Fixpoint removeAll (filesWithIndex : list FileWithIndex) : io world () :=
  match filesWithIndex with
  | [] => io_ret ()
  | file :: filesWithIndex => λ w, removeAll filesWithIndex (os_Remove (Name file) w).2
  end.

(** [concatenateFiles], over the sort of the library. *)
Definition concatenateFilesBy (sort : list FileWithIndex → list FileWithIndex)
    (filenames : list string) (outputFile : string) : io world () :=
  (filesWithIndex <- io_lift (parseAll filenames);;
   let filesWithIndex := sort filesWithIndex in
   out <- wrap_err ErrCreateOutput (os_Create outputFile);;
   copyAll out filesWithIndex;;;
   removeAll filesWithIndex)%io.

Definition concatenateFiles : list string → string → io world () :=
  concatenateFilesBy sortByIndex.

(** ** [concatenateFiles] returns *)

Lemma parseAll_returns filenames : is_return (parseAll filenames).
Proof.
  induction filenames as [|filename filenames IH]; [done|]. simpl. unfold parseIndex.
  repeat case_match; simpl; try done; by destruct (parseAll filenames).
Qed.

Lemma copyAll_returns out filesWithIndex w : is_return (copyAll out filesWithIndex w).1.
Proof.
  revert out w. induction filesWithIndex as [|file filesWithIndex IH]; intros out w; [done|].
  simpl. unfold io_bind, wrap_err, os_Open, io_Copy, file_Write.
  repeat case_match; simplify_eq; try done; apply IH.
Qed.

Lemma removeAll_returns filesWithIndex w : (removeAll filesWithIndex w).1 = Ok ().
Proof.
  revert w. induction filesWithIndex as [|file filesWithIndex IH]; intros w; [done|]. apply IH.
Qed.

(** [concatenateFiles] does not panic: it returns, with or without an
    error. *)
Lemma concatenateFiles_returns filenames outputFile w :
  is_return (concatenateFiles filenames outputFile w).1.
Proof.
  unfold concatenateFiles, concatenateFilesBy, io_bind, io_lift, wrap_err, os_Create.
  pose proof (parseAll_returns filenames). destruct (parseAll filenames); try done.
  case_bool_decide; [done|].
  match goal with |- context [copyAll ?o ?l ?w'] =>
    pose proof (copyAll_returns o l w'); destruct (copyAll o l w') as [[] ?] end; try done.
  simpl. by rewrite removeAll_returns.
Qed.

(** ** Reading the index back *)

Lemma parseIndex_Name filename file : parseIndex filename = Ok file → Name file = filename.
Proof.
  unfold parseIndex. destruct (SplitN2 _ _) as [|? [|??]]; [done..|].
  destruct (Atoi _); [|done]. by intros [= <-].
Qed.

(** The name a worker gives to its part file carries the worker's index. *)
Lemma parseIndex_segmentFileName i inputFile :
  0 ≤ i → in_int64 i → filepath_Base inputFile ≠ "/" →
  parseIndex (segmentFileName i inputFile) = Ok (mkFileWithIndex i (segmentFileName i inputFile)).
Proof.
  intros ???. unfold parseIndex, SplitN2.
  rewrite segmentFileName_Base, segmentFileName_cut by done.
  by rewrite Atoi_pretty_nonneg.
Qed.

Lemma parseAll_cons filename filenames files :
  parseAll (filename :: filenames) = Ok files ↔
  ∃ file files', parseIndex filename = Ok file ∧ parseAll filenames = Ok files' ∧
                 files = file :: files'.
Proof.
  cbn [parseAll]. destruct (parseIndex filename) as [file| | |]; cbn [mbind outcome_bind].
  - destruct (parseAll filenames) as [files'| | |]; cbn [mbind outcome_bind].
    + split; [intros [= <-]; eauto|]. by intros (? & ? & [= <-] & [= <-] & ->).
    + split; [done|]. by intros (? & ? & _ & ? & _).
    + split; [done|]. by intros (? & ? & _ & ? & _).
    + split; [done|]. by intros (? & ? & _ & ? & _).
  - split; [done|]. by intros (? & ? & ? & _).
  - split; [done|]. by intros (? & ? & ? & _).
  - split; [done|]. by intros (? & ? & ? & _).
Qed.

Lemma parseAll_fmap (f : Z → string) (ixs : list Z) :
  (∀ i, i ∈ ixs → parseIndex (f i) = Ok (mkFileWithIndex i (f i))) →
  parseAll (f <$> ixs) = Ok ((λ i, mkFileWithIndex i (f i)) <$> ixs).
Proof.
  induction ixs as [|i ixs IH]; intros Hparse; [done|].
  rewrite fmap_cons. apply parseAll_cons. eexists _, _. split_and!; [|apply IH|done].
  - apply Hparse. by left.
  - intros ??. apply Hparse. by right.
Qed.

(** The order of the names does not matter to what is parsed, up to the
    order. *)
Lemma parseAll_Permutation l1 l2 files1 :
  l1 ≡ₚ l2 → parseAll l1 = Ok files1 →
  ∃ files2, parseAll l2 = Ok files2 ∧ files1 ≡ₚ files2.
Proof.
  intros Hperm. revert files1.
  induction Hperm as [|x l1 l2 _ IH|x y l|l1 l2 l3 _ IH1 _ IH2]; intros files1 Hparse.
  - by exists files1.
  - apply parseAll_cons in Hparse as (file & files' & ? & Hl & ->).
    destruct (IH _ Hl) as (files2 & ? & ?). exists (file :: files2).
    split; [apply parseAll_cons; eauto 6|by constructor].
  - apply parseAll_cons in Hparse as (fy & ? & ? & Hparse & ->).
    apply parseAll_cons in Hparse as (fx & files' & ? & ? & ->).
    exists (fx :: fy :: files'). split; [|by constructor].
    apply parseAll_cons. eexists _, _. split_and!; [done| |done].
    apply parseAll_cons. eauto 6.
  - destruct (IH1 _ Hparse) as (files2 & Hparse2 & ?).
    destruct (IH2 _ Hparse2) as (files3 & ? & ?). exists files3. split; [done|by etrans].
Qed.

(** The first name without a dash in its base ends the loop. *)
Lemma parseAll_invalid_pattern good bad rest :
  is_Ok (parseAll good) → cut "-" (filepath_Base bad) = None →
  parseAll (good ++ bad :: rest) = Err (ErrInvalidPattern bad).
Proof.
  intros Hgood Hbad. induction good as [|x good IH]; cbn [app parseAll].
  - unfold parseIndex, SplitN2. by rewrite Hbad.
  - cbn [parseAll] in Hgood. destruct (parseIndex x); [|done..]. cbn [mbind outcome_bind] in *.
    destruct (parseAll good) eqn:Hg; [|done..]. by rewrite IH.
Qed.

(** ** Sorting by index *)

#[global] Instance index_le_trans : Transitive index_le.
Proof. unfold index_le. intros ???. lia. Qed.

#[global] Instance index_le_total : Total index_le.
Proof. unfold index_le. intros ??. lia. Qed.

Lemma sortByIndex_Sorted l : Sorted index_le (sortByIndex l).
Proof. apply (Sorted_merge_sort index_le). Qed.

Lemma sortByIndex_Permutation l : sortByIndex l ≡ₚ l.
Proof. apply (merge_sort_Permutation index_le). Qed.

#[global] Instance sortByIndex_SliceSort : SliceSort sortByIndex.
Proof. split; [apply sortByIndex_Sorted|apply sortByIndex_Permutation]. Qed.

#[global] Instance sortFromEnd_SliceSort : SliceSort sortFromEnd.
Proof.
  split; intros l; unfold sortFromEnd; [apply (Sorted_merge_sort index_le)|].
  by rewrite (merge_sort_Permutation index_le), reverse_Permutation.
Qed.


(** On pairwise distinct indexes there is one sorted order: whatever
    [sort.Slice] does, it returns this list. *)
Lemma sortByIndex_unique l sorted :
  NoDup (Index <$> l) → Sorted index_le sorted → sorted ≡ₚ l → sorted = sortByIndex l.
Proof.
  intros Hnodup Hsorted Hperm.
  apply (Sorted_unique_strong index_le); [|done|apply sortByIndex_Sorted|].
  - intros x1 x2 Hx1 Hx2 ??. rewrite Hperm in Hx1. rewrite sortByIndex_Permutation in Hx2.
    apply (NoDup_fmap_inj Index l); [done..|]. unfold index_le in *. lia.
  - by rewrite sortByIndex_Permutation.
Qed.

(** On pairwise distinct indexes every sort that keeps the promise gives
    the list of [sortByIndex]. *)
Lemma sort_unique sort `{!SliceSort sort} l :
  NoDup (Index <$> l) → sort l = sortByIndex l.
Proof. intros ?. apply sortByIndex_unique; [done|apply sort_Sorted|apply sort_Permutation]. Qed.

(** ** Copying and removing *)

(** What the parts hold, in the order of the list. *)
Definition contents (w : world) (filesWithIndex : list FileWithIndex) : list bytes :=
  (λ file, default [] (files w !! Name file)) <$> filesWithIndex.

(** What the loop of [os.Remove] leaves of a store. *)
Definition delete_all (names : list string) (m : gmap string bytes) : gmap string bytes :=
  foldr delete m names.

(** A part can be copied: it is not the output, it exists and may be
    read. *)
Definition copyable (outputFile : string) (w : world) (name : string) : Prop :=
  name ≠ outputFile ∧ is_Some (files w !! name) ∧ name ∉ unreadable w.

Lemma copyable_write outputFile acc w name :
  copyable outputFile w name → copyable outputFile (set_files <[outputFile := acc]> w) name.
Proof. intros (? & ? & ?). split_and!; [done| |done]. simpl. by rewrite lookup_insert_ne. Qed.

Lemma contents_write outputFile acc w l :
  Forall (copyable outputFile w) (Name <$> l) →
  contents (set_files <[outputFile := acc]> w) l = contents w l.
Proof.
  intros Hall. rewrite Forall_fmap in Hall. unfold contents. apply Forall_fmap_ext_1.
  eapply Forall_impl; [exact Hall|]. intros file (? & _). simpl. by rewrite lookup_insert_ne.
Qed.

Lemma copyAll_ok outputFile l : ∀ acc w,
  files w !! outputFile = Some acc →
  Forall (copyable outputFile w) (Name <$> l) →
  copyAll (mkFile outputFile (Z.of_nat (length acc))) l w =
    (Ok (mkFile outputFile (Z.of_nat (length (acc ++ concat (contents w l))))),
     set_files <[outputFile := acc ++ concat (contents w l)]> w).
Proof.
  induction l as [|file l IH]; intros acc w Hout Hall.
  - cbn [copyAll contents fmap list_fmap concat]. rewrite app_nil_r. unfold io_ret.
    f_equal. symmetry. apply set_files_id. by apply insert_id.
  - rewrite fmap_cons in Hall. apply Forall_cons in Hall as [(? & [data Hdata] & ?) Hall].
    cbn [copyAll]. erewrite io_bind_Ok by (by eapply wrap_err_inr, os_Open_Some).
    erewrite io_bind_Ok.
    2:{ eapply wrap_err_inr. unfold io_Copy. cbn [f_name f_pos]. rewrite Hdata.
        by erewrite (file_Write_append _ _ acc). }
    cbn [fst drop Z.to_nat]. rewrite <-Nat2Z.inj_add, <-length_app.
    rewrite IH; [|simpl; by rewrite lookup_insert_eq|
                 eapply Forall_impl; [exact Hall|apply copyable_write]].
    rewrite contents_write by done. unfold contents at 3 4. rewrite fmap_cons. cbn [concat].
    rewrite Hdata. cbn [default]. rewrite !(assoc_L (++)). f_equal.
    rewrite set_files_set_files. apply set_files_ext. simpl. by rewrite insert_insert_eq.
Qed.

Lemma delete_all_cons name names (m : gmap string bytes) :
  delete_all (name :: names) m = delete name (delete_all names m).
Proof. done. Qed.

Lemma delete_all_delete name names (m : gmap string bytes) :
  delete_all names (delete name m) = delete name (delete_all names m).
Proof.
  induction names as [|n names IH]; [done|].
  by rewrite !delete_all_cons, IH, delete_delete.
Qed.

Lemma removeAll_ok l : ∀ w,
  removeAll l w = (Ok (), set_files (delete_all (Name <$> l)) w).
Proof.
  induction l as [|file l IH]; intros w.
  - cbn. unfold io_ret. f_equal. by destruct w.
  - cbn [removeAll]. rewrite IH. f_equal. unfold os_Remove.
    destruct (files w !! Name file) eqn:Hfile; cbn [snd].
    + rewrite set_files_set_files. apply set_files_ext. simpl. apply delete_all_delete.
    + apply set_files_ext. rewrite fmap_cons, delete_all_cons, <-delete_all_delete.
      by rewrite delete_id.
Qed.

Lemma lookup_delete_all names (m : gmap string bytes) name :
  delete_all names m !! name = if bool_decide (name ∈ names) then None else m !! name.
Proof.
  induction names as [|n names IH]; [done|]. rewrite delete_all_cons.
  destruct (decide (n = name)) as [->|].
  - rewrite lookup_delete_eq. by rewrite bool_decide_eq_true_2 by left.
  - rewrite lookup_delete_ne, IH by done.
    rewrite (bool_decide_ext (name ∈ n :: names) (name ∈ names)); [done|].
    rewrite elem_of_cons. split; [intros [?|?]; [congruence|done]|by right].
Qed.

(** ** [concatenateFiles], from the call to the return *)

Lemma parseAll_Names filenames parsed :
  parseAll filenames = Ok parsed → Name <$> parsed = filenames.
Proof.
  revert parsed. induction filenames as [|x l IH]; intros parsed Hparse.
  - by injection Hparse as <-.
  - apply parseAll_cons in Hparse as (file & parsed' & ?%parseIndex_Name & ?%IH & ->).
    rewrite fmap_cons. by f_equal.
Qed.

Lemma sort_Names sort `{!SliceSort sort} filenames parsed :
  parseAll filenames = Ok parsed → Name <$> sort parsed ≡ₚ filenames.
Proof. intros <-%parseAll_Names. by rewrite sort_Permutation. Qed.

Lemma sortByIndex_Names filenames parsed :
  parseAll filenames = Ok parsed → Name <$> sortByIndex parsed ≡ₚ filenames.
Proof. apply (sort_Names sortByIndex). Qed.

Section concatenate.
Context (outputFile : string) (w : world).

(** The store after a run without error: the output holds the parts in the
    sorted order, and the parts are gone. *)
Definition concatenated (sorted : list FileWithIndex) : world :=
  set_files (λ m, delete_all (Name <$> sorted)
                    (<[outputFile := concat (contents w sorted)]> m)) w.

Lemma concatenateFilesBy_parsed sort `{!SliceSort sort} filenames parsed :
  parseAll filenames = Ok parsed →
  outputFile ∉ unwritable w →
  Forall (copyable outputFile w) filenames →
  concatenateFilesBy sort filenames outputFile w = (Ok (), concatenated (sort parsed)).
Proof.
  intros Hparse ? Hall. rewrite <-(sort_Names sort _ _ Hparse) in Hall.
  unfold concatenateFilesBy. erewrite io_bind_Ok by (unfold io_lift; by rewrite Hparse).
  cbv zeta. erewrite io_bind_Ok by (by eapply wrap_err_inr, os_Create_ok).
  change 0 with (Z.of_nat (length (@nil byte))).
  erewrite io_bind_Ok.
  2:{ apply copyAll_ok; [simpl; by rewrite lookup_insert_eq|].
      eapply Forall_impl; [exact Hall|apply copyable_write]. }
  rewrite removeAll_ok, contents_write by done. f_equal.
  unfold concatenated. rewrite !set_files_set_files. apply set_files_ext.
  simpl. by rewrite insert_insert_eq.
Qed.

Lemma concatenateFiles_parsed filenames parsed :
  parseAll filenames = Ok parsed →
  outputFile ∉ unwritable w →
  Forall (copyable outputFile w) filenames →
  concatenateFiles filenames outputFile w = (Ok (), concatenated (sortByIndex parsed)).
Proof. apply (concatenateFilesBy_parsed sortByIndex). Qed.

(** On pairwise distinct indexes the sort does not matter. *)
Lemma concatenateFilesBy_distinct sort `{!SliceSort sort} filenames parsed :
  parseAll filenames = Ok parsed → NoDup (Index <$> parsed) →
  concatenateFilesBy sort filenames outputFile w = concatenateFiles filenames outputFile w.
Proof.
  intros Hparse Hnodup. unfold concatenateFiles, concatenateFilesBy.
  rewrite !(io_bind_Ok (io_lift (parseAll filenames)) _ w parsed w)
    by (unfold io_lift; by rewrite Hparse).
  cbv zeta. by rewrite (sort_unique sort).
Qed.

(** An output that cannot be created: the error is returned and the parts
    stay. *)
Lemma concatenateFiles_create_error filenames parsed :
  parseAll filenames = Ok parsed → outputFile ∈ unwritable w →
  concatenateFiles filenames outputFile w = (Err (ErrCreateOutput EACCES), w).
Proof.
  intros Hparse ?. unfold concatenateFiles, concatenateFilesBy.
  erewrite io_bind_Ok by (unfold io_lift; by rewrite Hparse). cbv zeta.
  by erewrite io_bind_Err by (by eapply wrap_err_inl, os_Create_unwritable).
Qed.

(** The first loop fails before anything is created. *)
Lemma concatenateFiles_parse_error filenames e :
  parseAll filenames = Err e → concatenateFiles filenames outputFile w = (Err e, w).
Proof.
  intros Hparse. unfold concatenateFiles, concatenateFilesBy.
  by erewrite io_bind_Err by (unfold io_lift; by rewrite Hparse).
Qed.

End concatenate.

(** ** What the reassembler promises *)

(** A store with two parts of the same index. *)
Definition ties_world : world :=
  mkWorld {[ "1-a" := ["a"]%byte; "1-b" := ["b"]%byte ]} ∅ ∅.

(** The name of a part file carries its index: what [compressPart] prints
    in front of the name, [concatenateFiles] reads back, for every index a
    thread can have and every input that is not a directory of slashes. *)
Theorem parseIndex_roundtrip i inputFile :
  0 ≤ i → in_int64 i → filepath_Base inputFile ≠ "/" →
  ∃ file, parseIndex (segmentFileName i inputFile) = Ok file ∧
          Index file = i ∧ Name file = segmentFileName i inputFile.
Proof. intros. eexists. by rewrite parseIndex_segmentFileName. Qed.

(** Order independence: the names may arrive in any order.  When they parse
    to pairwise distinct indexes, [concatenateFiles] returns the same
    result and leaves the same store for every permutation of them. *)
Theorem concatenateFiles_order_independent filenames1 filenames2 parsed outputFile w :
  filenames1 ≡ₚ filenames2 →
  parseAll filenames1 = Ok parsed → NoDup (Index <$> parsed) →
  concatenateFiles filenames1 outputFile w = concatenateFiles filenames2 outputFile w.
Proof.
  intros Hperm Hparse1 Hnodup.
  destruct (parseAll_Permutation _ _ _ Hperm Hparse1) as (parsed2 & Hparse2 & Hparsed).
  assert (sortByIndex parsed2 = sortByIndex parsed) as Hsort.
  { apply sortByIndex_unique; [done|apply sortByIndex_Sorted|].
    by rewrite sortByIndex_Permutation. }
  unfold concatenateFiles, concatenateFilesBy.
  erewrite (io_bind_Ok (io_lift (parseAll filenames1))) by (unfold io_lift; by rewrite Hparse1).
  erewrite (io_bind_Ok (io_lift (parseAll filenames2))) by (unfold io_lift; by rewrite Hparse2).
  cbv zeta. by rewrite Hsort.
Qed.

(** C10. The output holds the parts in the order of their indexes, the parts are
    removed, and no other file changes. *)
Theorem concatenateFiles_output filenames parsed outputFile w :
  parseAll filenames = Ok parsed →
  outputFile ∉ unwritable w →
  Forall (copyable outputFile w) filenames →
  ∃ sorted w',
    concatenateFiles filenames outputFile w = (Ok (), w') ∧
    sorted ≡ₚ parsed ∧ Sorted index_le sorted ∧
    files w' !! outputFile = Some (concat (contents w sorted)) ∧
    (∀ name, name ∈ filenames → files w' !! name = None) ∧
    (∀ name, name ∉ filenames → name ≠ outputFile → files w' !! name = files w !! name).
Proof.
  intros Hparse ? Hall. exists (sortByIndex parsed), (concatenated outputFile w (sortByIndex parsed)).
  pose proof (sortByIndex_Names _ _ Hparse) as Hnames.
  split_and!; [by apply concatenateFiles_parsed|apply sortByIndex_Permutation
              |apply sortByIndex_Sorted|..]; simpl.
  - rewrite lookup_delete_all, bool_decide_eq_false_2, lookup_insert_eq; [done|].
    rewrite Hnames. intros Hin. rewrite Forall_forall in Hall. by destruct (Hall _ Hin).
  - intros name Hin. rewrite lookup_delete_all, bool_decide_eq_true_2; [done|by rewrite Hnames].
  - intros name ??. rewrite lookup_delete_all, bool_decide_eq_false_2 by (by rewrite Hnames).
    by rewrite lookup_insert_ne.
Qed.

(** C11. [concatenateFiles] under the contract of [sort.Slice].  For every
    sort that returns the elements of the slice in a sorted order, and
    names that parse to pairwise distinct indexes, [concatenateFiles]
    returns what it returns with the stable sort of the model and leaves
    the same store: the theorems on the reassembler hold for the sort of
    the library, whichever it is.  On two names with the same index the
    contract leaves the order open: of two sorts that keep it, one makes
    the output of the parts [1-a] and [1-b] the first part followed by the
    second, the other the second followed by the first. *)
Theorem concatenateFiles_sort_contract sort filenames parsed outputFile w :
  SliceSort sort → parseAll filenames = Ok parsed → NoDup (Index <$> parsed) →
  concatenateFilesBy sort filenames outputFile w = concatenateFiles filenames outputFile w ∧
  SliceSort sortByIndex ∧ SliceSort sortFromEnd ∧
  files (concatenateFilesBy sortByIndex ["1-a"; "1-b"] "out.zst" ties_world).2 !! "out.zst" =
    Some ["a"; "b"]%byte ∧
  files (concatenateFilesBy sortFromEnd ["1-a"; "1-b"] "out.zst" ties_world).2 !! "out.zst" =
    Some ["b"; "a"]%byte.
Proof.
  intros ? Hparse Hnodup.
  split_and!; [by apply (concatenateFilesBy_distinct _ _ sort _ parsed)|apply _..| |];
    by vm_compute.
Qed.

(** A name without an index ends the run before the output is created:
    the pattern error names the first such file and the store is
    unchanged. *)
Theorem concatenateFiles_invalid_pattern good bad rest outputFile w :
  is_Ok (parseAll good) → cut "-" (filepath_Base bad) = None →
  concatenateFiles (good ++ bad :: rest) outputFile w = (Err (ErrInvalidPattern bad), w).
Proof. intros. by apply concatenateFiles_parse_error, parseAll_invalid_pattern. Qed.

(** ** The reassembler at work *)

(** A store with three parts, which arrive in the order 2, 0, 1. *)
Definition parts_world : world :=
  mkWorld {[ "0-in-output-segment.part0" := ["a"; "b"]%byte;
             "1-in-output-segment.part1" := ["c"]%byte;
             "2-in-output-segment.part2" := ["d"; "e"]%byte;
             "other" := ["x"]%byte ]} ∅ ∅.

Definition parts_arrived : list string :=
  ["2-in-output-segment.part2"; "0-in-output-segment.part0"; "1-in-output-segment.part1"].

Lemma parseIndex_roundtrip_witness :
  ∃ file, parseIndex (segmentFileName 12 "/data/in.bin") = Ok file ∧
          Index file = 12 ∧ Name file = segmentFileName 12 "/data/in.bin".
Proof.
  apply (parseIndex_roundtrip 12 "/data/in.bin");
    [lia|unfold in_int64, int64_min, int64_max; lia|by vm_compute].
Defined.

Lemma concatenateFiles_order_independent_witness :
  concatenateFiles parts_arrived "out.zst" parts_world =
  concatenateFiles (reverse parts_arrived) "out.zst" parts_world.
Proof.
  eapply (concatenateFiles_order_independent parts_arrived (reverse parts_arrived));
    [by rewrite reverse_Permutation|reflexivity|by_decide].
Defined.

Lemma concatenateFiles_sort_contract_witness :
  concatenateFilesBy sortFromEnd parts_arrived "out.zst" parts_world =
    concatenateFiles parts_arrived "out.zst" parts_world ∧
  SliceSort sortByIndex ∧ SliceSort sortFromEnd ∧
  files (concatenateFilesBy sortByIndex ["1-a"; "1-b"] "out.zst" ties_world).2 !! "out.zst" =
    Some ["a"; "b"]%byte ∧
  files (concatenateFilesBy sortFromEnd ["1-a"; "1-b"] "out.zst" ties_world).2 !! "out.zst" =
    Some ["b"; "a"]%byte.
Proof.
  eapply (concatenateFiles_sort_contract sortFromEnd parts_arrived _ "out.zst" parts_world);
    [apply _|reflexivity|by_decide].
Defined.

Lemma concatenateFiles_output_witness :
  ∃ sorted w',
    concatenateFiles parts_arrived "out.zst" parts_world = (Ok (), w') ∧
    sorted ≡ₚ [mkFileWithIndex 2 "2-in-output-segment.part2";
               mkFileWithIndex 0 "0-in-output-segment.part0";
               mkFileWithIndex 1 "1-in-output-segment.part1"] ∧
    Sorted index_le sorted ∧
    files w' !! "out.zst" = Some (concat (contents parts_world sorted)) ∧
    (∀ name, name ∈ parts_arrived → files w' !! name = None) ∧
    (∀ name, name ∉ parts_arrived → name ≠ "out.zst" →
             files w' !! name = files parts_world !! name).
Proof.
  apply (concatenateFiles_output parts_arrived _ "out.zst" parts_world);
    [reflexivity|apply not_elem_of_empty|].
  repeat constructor; try done; by eexists.
Defined.

(** The same run: the output holds the parts in the order 0, 1, 2. *)
Example concatenateFiles_run :
  concatenateFiles parts_arrived "out.zst" parts_world =
    (Ok (), mkWorld {[ "out.zst" := ["a"; "b"; "c"; "d"; "e"]%byte; "other" := ["x"]%byte ]} ∅ ∅).
Proof. by vm_compute. Qed.

Lemma concatenateFiles_invalid_pattern_witness :
  concatenateFiles (["0-in-output-segment.part0"] ++ "" :: ["1-in-output-segment.part1"])
    "out.zst" parts_world = (Err (ErrInvalidPattern ""), parts_world).
Proof.
  by apply (concatenateFiles_invalid_pattern ["0-in-output-segment.part0"] ""
              ["1-in-output-segment.part1"] "out.zst" parts_world).
Defined.

(** A part that is missing ends the second loop: the output has been
    created and holds the parts before the missing one, and no part has
    been removed. *)
Example concatenateFiles_missing_part :
  concatenateFiles ["1-gone"; "0-in-output-segment.part0"] "out.zst" parts_world =
    (Err (ErrOpenPart "1-gone" ENOENT),
     set_files <["out.zst" := ["a"; "b"]%byte]> parts_world).
Proof. by vm_compute. Qed.

(** Two names with the same index are both copied, in an order that is the
    sort's to choose; an index that is no [int] is refused. *)
Example concatenateFiles_odd_names :
  is_Ok (parseAll ["1-a"; "1-b"]) ∧
  parseAll ["0-a"; "x-b"] = Err (ErrInvalidIndex "x-b") ∧
  parseAll ["dir/3-a"] = Ok [mkFileWithIndex 3 "dir/3-a"].
Proof. by vm_compute. Qed.
