(* ===== verification/Pipeline.v ===== *)
(** * The pipeline of the working program

    [calculateSegment] and [compressFileBlock] of src/unnamed/part_000: the
    plan is computed from the size of the input, one goroutine per thread
    runs [compressPart] on its segment and sends the name of its part file
    (or an empty name and its error) on a channel, and when all are done
    the parts are concatenated in index order.

    The goroutines share nothing but the store, in which each writes a file
    of its own.  The model runs them one after the other in an order
    [sched], which is the order in which the names arrive on the channel;
    the theorems hold for every permutation of the thread indexes. *)

From S2P Require Import Prelude Planner Codec FileSys Names Worker Reassembler.

Section pipeline.
Context `{Codec}.

(** ** The model *)

(** [calculateSegment] for a granule of [g] bytes.  The error of [os.Stat]
    is returned as it is. *)
Definition calculateSegmentG (g : Z) (inputFile : string) (numThreads : Z)
  : io world (list Segment) :=
  λ w, match os_Stat inputFile w with
       | (inl e, w) => (Err (ErrStat e), w)
       | (inr fSize, w) => (divideSegments g fSize numThreads, w)
       end.

Definition calculateSegment : string → Z → io world (list Segment) :=
  calculateSegmentG oneMB.

(** What has been sent on the two channels of [compressFileBlock]. *)
Record channels : Type := mkChannels {
  outputFileName : list string;
  errChan : list error;
}.

(** The goroutine of thread [i], from its start to its last send.  A panic
    inside it ends the program. *)
Definition goWorker (fuel : nat) (g : Z) (inputFile : string) (offset : list Segment)
    (compressionLevel : Z) (i : Z) (ch : channels) : io world channels :=
  λ w, match lookupZ offset i with
       | None => (Panic PanicIndexOutOfRange, w)
       | Some seg =>
           match compressPartG fuel g inputFile i seg compressionLevel w with
           | (Ok outfile, w) =>
               (Ok (mkChannels (outputFileName ch ++ [outfile]) (errChan ch)), w)
           | (Err err, w) =>
               (Ok (mkChannels (outputFileName ch ++ [""]) (errChan ch ++ [err])), w)
           | (Panic p, w) => (Panic p, w)
           | (OutOfFuel, w) => (OutOfFuel, w)
           end
       end.

(** The goroutines, in the order [sched] in which they run. *)
Fixpoint runWorkers (fuel : nat) (g : Z) (inputFile : string) (offset : list Segment)
    (compressionLevel : Z) (sched : list Z) (ch : channels) : io world channels :=
  match sched with
  | [] => io_ret ch
  | i :: sched =>
      (ch <- goWorker fuel g inputFile offset compressionLevel i ch;;
       runWorkers fuel g inputFile offset compressionLevel sched ch)%io
  end.

(** [compressFileBlock] for a granule of [g] bytes and a schedule [sched]
    of its goroutines.  A negative thread count panics in [make(chan)]; one
    error on [errChan] is a panic; the error of [concatenateFiles] is
    dropped.  This is the function on the files; with the two lines it
    prints on the standard streams it is [WorkingCmd.compressFileBlockG]
    of [Argv]. *)
Definition compressFileBlockG (fuel : nat) (g : Z) (sched : list Z)
    (inputFile outputFile : string) (compressionLevel numThreads : Z) : io world () :=
  (offset <- calculateSegmentG g inputFile numThreads;;
   if bool_decide (numThreads < 0) then io_panic PanicMakeChan
   else
     ch <- runWorkers fuel g inputFile offset compressionLevel sched (mkChannels [] []);;
     match errChan ch with
     | _ :: _ => io_panic PanicSomeErrors
     | [] =>
         λ w, match concatenateFiles (outputFileName ch) outputFile w with
              | (Ok _, w) | (Err _, w) => (Ok (), w)
              | (Panic p, w) => (Panic p, w)
              | (OutOfFuel, w) => (OutOfFuel, w)
              end
     end)%io.

Definition compressFileBlock (fuel : nat) : list Z → string → string → Z → Z → io world () :=
  compressFileBlockG fuel oneMB.

(** The schedules of [numThreads] goroutines: every thread runs once. *)
Definition schedule (numThreads : Z) (sched : list Z) : Prop :=
  sched ≡ₚ seqZ 0 numThreads.

#[global] Instance schedule_dec numThreads sched : Decision (schedule numThreads sched).
Proof. unfold schedule. apply _. Defined.

End pipeline.

(** ** The goroutines *)

(** The workers of one run: the input holds [data], the plan is [offset],
    and [U] is the set of paths that cannot be created. *)
Section run.
Context `{Codec}.
Context (g level : Z) (inputFile : string) (data : bytes) (offset : list Segment).
Context (fuel : nat) (U : gset string).
Context (Hg : 0 < g) (Hfuel : (length data < fuel)%nat).

(** What a worker writes for a segment: one frame per buffer. *)
Definition part_bytes (seg : Segment) : bytes :=
  encodeChunks level (chunks (Z.to_nat g) (slice seg.1 seg.2 data)).

Definition part_of (i : Z) : bytes := part_bytes (default (0, 0) (lookupZ offset i)).

Definition write_part (m : gmap string bytes) (i : Z) : gmap string bytes :=
  <[segmentFileName i inputFile := part_of i]> m.

(** The store after the workers of [sched] have written their parts. *)
Definition parts_written (sched : list Z) (m : gmap string bytes) : gmap string bytes :=
  foldl write_part m sched.

(** A thread whose part file cannot be created. *)
Definition blocked (i : Z) : Prop := segmentFileName i inputFile ∈ U.

#[global] Instance blocked_dec i : Decision (blocked i).
Proof. unfold blocked. apply _. Defined.

(** What thread [i] sends on [outputFileName]. *)
Definition sent (i : Z) : string :=
  if decide (blocked i) then "" else segmentFileName i inputFile.

(** A store in which the workers of [sched] run: the input is there and
    may be read, and each thread has an aligned segment of the plan. *)
Definition ready (sched : list Z) (w : world) : Prop :=
  files w !! inputFile = Some data ∧ (inputFile ∉ unreadable w) ∧ unwritable w = U ∧
  Forall (λ i, ∃ seg, lookupZ offset i = Some seg ∧ aligned g (Z.of_nat (length data)) seg) sched.

Lemma ready_cons i sched w : ready (i :: sched) w → ready sched w.
Proof. intros (? & ? & ? & [_ ?]%Forall_cons). by split_and!. Qed.

Lemma ready_write sched w i :
  ready sched w → ready sched (set_files (λ m, write_part m i) w).
Proof.
  intros (? & ? & ? & ?). split_and!; [|done..]. simpl. unfold write_part.
  rewrite lookup_insert_ne; [done|apply segmentFileName_fresh].
Qed.

Lemma goWorker_blocked i sched ch w :
  ready (i :: sched) w → blocked i →
  goWorker fuel g inputFile offset level i ch w =
    (Ok (mkChannels (outputFileName ch ++ [""]) (errChan ch ++ [ErrCreateOutput EACCES])), w).
Proof.
  intros (? & ? & HU & [(seg & Hseg & ?) _]%Forall_cons) Hb. unfold goWorker. rewrite Hseg.
  erewrite compressPartG_create_error; [done..|]. by rewrite HU.
Qed.

Lemma goWorker_ok i sched ch w :
  ready (i :: sched) w → ¬ blocked i →
  goWorker fuel g inputFile offset level i ch w =
    (Ok (mkChannels (outputFileName ch ++ [segmentFileName i inputFile]) (errChan ch)),
     set_files (λ m, write_part m i) w).
Proof.
  intros (? & ? & HU & [(seg & Hseg & ?) _]%Forall_cons) Hb. unfold goWorker. rewrite Hseg.
  erewrite compressPartG_aligned; [|done..|by rewrite HU|done|done].
  unfold write_part, part_of. by rewrite Hseg.
Qed.

(** All goroutines run to their last send: the names arrive in the order of
    the schedule, a blocked thread sends an empty name and its error, and
    the others have written their parts. *)
Lemma runWorkers_run sched : ∀ ch w,
  ready sched w →
  runWorkers fuel g inputFile offset level sched ch w =
    (Ok (mkChannels (outputFileName ch ++ (sent <$> sched))
           (errChan ch ++ ((λ _, ErrCreateOutput EACCES) <$> filter blocked sched))),
     set_files (parts_written (filter (λ i, ¬ blocked i) sched)) w).
Proof.
  induction sched as [|i sched IH]; intros ch w Hready.
  - cbn. unfold io_ret. rewrite !app_nil_r. by destruct ch, w.
  - cbn [runWorkers]. pose proof (ready_cons _ _ _ Hready).
    destruct (decide (blocked i)) as [Hb|Hb].
    + erewrite io_bind_Ok by (by eapply goWorker_blocked). rewrite IH by done. cbn [outputFileName errChan].
      rewrite filter_cons_True, filter_cons_False, !fmap_cons by auto.
      unfold sent at 2. rewrite decide_True by done. by rewrite <-!(assoc_L (++)).
    + erewrite io_bind_Ok by (by eapply goWorker_ok). rewrite IH by (by apply ready_write).
      cbn [outputFileName errChan]. rewrite filter_cons_False, filter_cons_True, !fmap_cons by auto.
      unfold sent at 2. rewrite decide_False by done. by rewrite <-!(assoc_L (++)).
Qed.

(** When no thread is blocked every name arrives and no error does. *)
Lemma runWorkers_ok sched w :
  ready sched w → Forall (λ i, ¬ blocked i) sched →
  runWorkers fuel g inputFile offset level sched (mkChannels [] []) w =
    (Ok (mkChannels ((λ i, segmentFileName i inputFile) <$> sched) []),
     set_files (parts_written sched) w).
Proof.
  intros Hready Hall. rewrite runWorkers_run by done. cbn [outputFileName errChan app].
  assert (filter blocked sched = []) as ->.
  { clear Hready. induction Hall; [done|]. by rewrite filter_cons_False by auto. }
  assert (filter (λ i, ¬ blocked i) sched = sched) as ->.
  { clear Hready. induction Hall as [|???? IH]; [done|]. by rewrite filter_cons_True, IH by done. }
  do 3 f_equal. apply Forall_fmap_ext_1. eapply Forall_impl; [exact Hall|].
  intros i ?. unfold sent. by rewrite decide_False.
Qed.

(** ** The store after the workers *)

Lemma parts_written_snoc sched i m :
  parts_written (sched ++ [i]) m = write_part (parts_written sched m) i.
Proof. unfold parts_written. by rewrite foldl_app. Qed.

Lemma lookup_parts_written_ne sched m name :
  name ∉ (λ i, segmentFileName i inputFile) <$> sched →
  parts_written sched m !! name = m !! name.
Proof.
  induction sched as [|i sched IH] using rev_ind; [done|].
  rewrite fmap_app, not_elem_of_app, parts_written_snoc. cbn. rewrite not_elem_of_cons.
  intros [? [? _]]. unfold write_part. rewrite lookup_insert_ne by done. by apply IH.
Qed.

Lemma lookup_parts_written sched m i :
  Forall (λ j, 0 ≤ j) sched → i ∈ sched →
  parts_written sched m !! segmentFileName i inputFile = Some (part_of i).
Proof.
  induction sched as [|j sched IH] using rev_ind; [by intros _ ?%elem_of_nil|].
  rewrite Forall_app, Forall_singleton, elem_of_app, list_elem_of_singleton, parts_written_snoc.
  intros [Hall ?] Hin. unfold write_part.
  destruct (decide (i = j)) as [->|Hne]; [by rewrite lookup_insert_eq|].
  destruct Hin as [Hin|?]; [|done]. rewrite lookup_insert_ne; [by apply IH|].
  intros Heq. apply segmentFileName_eq_inv in Heq; [done..|].
  rewrite Forall_forall in Hall. by apply Hall.
Qed.

End run.

(** ** [compressFileBlock], from the call to the return *)

(** [calculateSegment] on a file that exists is the planner on its size. *)
Lemma calculateSegmentG_Some g inputFile numThreads w data :
  files w !! inputFile = Some data →
  calculateSegmentG g inputFile numThreads w =
    (divideSegments g (Z.of_nat (length data)) numThreads, w).
Proof. intros Hin. unfold calculateSegmentG. by rewrite (os_Stat_Some _ _ data). Qed.

Lemma calculateSegmentG_None g inputFile numThreads w :
  files w !! inputFile = None →
  calculateSegmentG g inputFile numThreads w = (Err (ErrStat ENOENT), w).
Proof. intros Hin. unfold calculateSegmentG. by rewrite os_Stat_None. Qed.

(** What block mode writes to the output: the parts of the plan's segments
    in plan order. *)
Definition block_output `{Codec} (g level : Z) (data : bytes) (plan : list Segment) : bytes :=
  concat (part_bytes g level data <$> plan).

(** The store after block mode: the output is written, no part file is
    left, and nothing else has changed. *)
Definition block_world `{Codec} (g level : Z) (inputFile outputFile : string) (data : bytes)
    (numThreads : Z) (plan : list Segment) (w : world) : world :=
  set_files (λ m, delete_all ((λ i, segmentFileName i inputFile) <$> seqZ 0 numThreads)
                    (<[outputFile := block_output g level data plan]> m)) w.

(** Part files that are written and then removed leave no trace. *)
Lemma delete_parts_written `{Codec} g level inputFile data offset sched names outputFile X m :
  (λ i, segmentFileName i inputFile) <$> sched ≡ₚ names →
  delete_all names (<[outputFile := X]> (parts_written g level inputFile data offset sched m)) =
  delete_all names (<[outputFile := X]> m).
Proof.
  intros Hnames. apply map_eq. intros k. rewrite !lookup_delete_all.
  case_bool_decide as Hk; [done|]. destruct (decide (k = outputFile)) as [->|].
  - by rewrite !lookup_insert_eq.
  - rewrite !lookup_insert_ne by done. apply lookup_parts_written_ne. by rewrite Hnames.
Qed.

(** One run of block mode: a readable input, a plannable thread count, and
    part files and an output that can be created and do not collide. *)
Section block.
Context `{Codec}.
Context (g level : Z) (inputFile outputFile : string) (data : bytes) (w : world).
Context (numThreads : Z) (fuel : nat) (plan : list Segment).
Context (Hin : files w !! inputFile = Some data).
Context (Hreadable : inputFile ∉ unreadable w).
Context (Hp : plannable g (Z.of_nat (length data)) numThreads).
Context (Hint : numThreads ≤ int64_max).
Context (Hbase : filepath_Base inputFile ≠ "/").
Context (Hplan : divideSegments g (Z.of_nat (length data)) numThreads = Ok plan).
Context (Hfuel : (length data < fuel)%nat).

#[local] Abbreviation name := (λ i : Z, segmentFileName i inputFile).
#[local] Abbreviation entry := (λ i : Z, mkFileWithIndex i (segmentFileName i inputFile)).

Lemma plan_length : Z.of_nat (length plan) = numThreads.
Proof.
  destruct (divideSegments_plan _ _ _ Hp) as (? & Hplan' & Hlen & _).
  rewrite Hplan in Hplan'. injection Hplan' as <-. destruct Hp as (_ & _ & _ & ?). lia.
Qed.

Lemma plan_aligned : Forall (aligned g (Z.of_nat (length data))) plan.
Proof.
  destruct (divideSegments_plan _ _ _ Hp) as (? & Hplan' & _ & _ & ?).
  rewrite Hplan in Hplan'. by injection Hplan' as <-.
Qed.

Lemma plan_slices : concat ((λ s : Segment, slice s.1 s.2 data) <$> plan) = data.
Proof.
  destruct (divideSegments_plan _ _ _ Hp) as (? & Hplan' & _ & ? & _).
  rewrite Hplan in Hplan'. injection Hplan' as <-.
  rewrite (chain_slices data 0 plan (Z.of_nat (length data))) by done. apply slice_full.
Qed.

Section sched.
Context (sched : list Z) (Hsched : schedule numThreads sched).

Lemma sched_range i : i ∈ sched ↔ 0 ≤ i < numThreads.
Proof. rewrite Hsched, elem_of_seqZ. lia. Qed.

Lemma sched_ready : ready g inputFile data plan (unwritable w) sched w.
Proof.
  split_and!; [done..|]. apply Forall_forall. intros i Hi%sched_range.
  destruct (lookupZ_lt plan i) as [seg Hseg]; [rewrite plan_length; lia|].
  exists seg. split; [done|]. apply lookupZ_Some in Hseg as [_ Hseg].
  by eapply Forall_lookup_1 in Hseg; [|apply plan_aligned].
Qed.

(** Whatever the schedule, the names sort to the thread indexes in
    order. *)
Lemma sched_sorted : sortByIndex (entry <$> sched) = entry <$> seqZ 0 numThreads.
Proof.
  symmetry. apply sortByIndex_unique.
  - rewrite <-list_fmap_compose. rewrite (list_fmap_ext _ id sched) by done.
    rewrite list_fmap_id, Hsched. apply NoDup_seqZ.
  - apply (Sorted_fmap _ Z.le index_le); [by intros ???|apply Sorted_seqZ].
  - by rewrite Hsched.
Qed.

Lemma sched_parsed : parseAll (name <$> sched) = Ok (entry <$> sched).
Proof.
  apply (parseAll_fmap name). intros i Hi%sched_range.
  apply parseIndex_segmentFileName; [lia| |done]. unfold in_int64, int64_min, int64_max in *. lia.
Qed.

(** The names of the parts have the indexes of the goroutines, one each:
    on them [concatenateFiles] is the same under every sort that keeps the
    contract of [sort.Slice]. *)
Lemma sched_any_sort sort `{!SliceSort sort} out w0 :
  concatenateFilesBy sort (name <$> sched) out w0 = concatenateFiles (name <$> sched) out w0.
Proof.
  apply (concatenateFilesBy_distinct _ _ sort _ (entry <$> sched)); [apply sched_parsed|].
  rewrite <-list_fmap_compose. rewrite (list_fmap_ext _ id sched) by done.
  rewrite list_fmap_id, Hsched. apply NoDup_seqZ.
Qed.

(** The run up to the end of the goroutines. *)
Lemma compressFileBlockG_workers :
  compressFileBlockG fuel g sched inputFile outputFile level numThreads w =
    (ch <- runWorkers fuel g inputFile plan level sched (mkChannels [] []);;
     match errChan ch with
     | _ :: _ => io_panic PanicSomeErrors
     | [] =>
         λ w, match concatenateFiles (outputFileName ch) outputFile w with
              | (Ok _, w) | (Err _, w) => (Ok (), w)
              | (Panic p, w) => (Panic p, w)
              | (OutOfFuel, w) => (OutOfFuel, w)
              end
     end)%io w.
Proof.
  unfold compressFileBlockG.
  erewrite io_bind_Ok by (by rewrite (calculateSegmentG_Some _ _ _ _ data), Hplan).
  by rewrite bool_decide_eq_false_2 by (destruct Hp as (_ & _ & _ & ?); lia).
Qed.

(** One thread whose part file cannot be created is enough for the panic;
    the parts of the other threads have been written by then. *)
Lemma compressFileBlockG_blocked k :
  0 ≤ k < numThreads → blocked inputFile (unwritable w) k →
  compressFileBlockG fuel g sched inputFile outputFile level numThreads w =
    (Panic PanicSomeErrors,
     set_files (parts_written g level inputFile data plan
                  (filter (λ i, ¬ blocked inputFile (unwritable w) i) sched)) w).
Proof.
  intros Hk%sched_range Hb. rewrite compressFileBlockG_workers.
  erewrite io_bind_Ok.
  2:{ apply (runWorkers_run g level inputFile data plan fuel (unwritable w));
        [by destruct Hp|done|apply sched_ready]. }
  cbn [errChan app]. assert (k ∈ filter (blocked inputFile (unwritable w)) sched) as Hin'
    by (by apply list_elem_of_filter).
  by destruct (filter _ sched); [apply elem_of_nil in Hin'|].
Qed.

Context (Hparts : ∀ i, 0 ≤ i < numThreads →
  (segmentFileName i inputFile ∉ unwritable w) ∧ (segmentFileName i inputFile ∉ unreadable w) ∧
  segmentFileName i inputFile ≠ outputFile).
Lemma sched_not_blocked : Forall (λ i, ¬ blocked inputFile (unwritable w) i) sched.
Proof. apply Forall_forall. intros i Hi%sched_range. by apply Hparts. Qed.

(** After the workers every part can be copied to the output. *)
Lemma sched_copyable :
  Forall (copyable outputFile (set_files (parts_written g level inputFile data plan sched) w))
    (name <$> sched).
Proof.
  apply Forall_fmap, Forall_forall. intros i Hi. pose proof Hi as Hrange%sched_range.
  destruct (Hparts i Hrange) as (? & ? & ?). split; [done|split; [|done]]. simpl.
  rewrite (lookup_parts_written g level inputFile data plan sched); [by eexists| |done].
  apply Forall_forall. intros j ?%sched_range. lia.
Qed.

(** What the reassembler finds in the parts, in index order. *)
Lemma sched_contents :
  contents (set_files (parts_written g level inputFile data plan sched) w)
    (entry <$> seqZ 0 numThreads) = part_bytes g level data <$> plan.
Proof.
  unfold contents. rewrite <-list_fmap_compose.
  rewrite <-(fmap_lookupZ_seqZ (part_bytes g level data) (0, 0) plan), plan_length.
  apply Forall_fmap_ext_1, Forall_forall. intros i Hi%elem_of_seqZ. simpl.
  rewrite (lookup_parts_written g level inputFile data plan sched); [done| |apply sched_range; lia].
  apply Forall_forall. intros j ?%sched_range. lia.
Qed.

(** The run up to the call of [concatenateFiles]: every part is written
    and every name has arrived. *)
Lemma compressFileBlockG_parts :
  compressFileBlockG fuel g sched inputFile outputFile level numThreads w =
    match concatenateFiles (name <$> sched) outputFile
            (set_files (parts_written g level inputFile data plan sched) w) with
    | (Ok _, w) | (Err _, w) => (Ok (), w)
    | (Panic p, w) => (Panic p, w)
    | (OutOfFuel, w) => (OutOfFuel, w)
    end.
Proof.
  rewrite compressFileBlockG_workers.
  by erewrite io_bind_Ok
    by (apply (runWorkers_ok g level inputFile data plan fuel (unwritable w));
        [by destruct Hp|done|apply sched_ready|apply sched_not_blocked]).
Qed.

(** Block mode returns without error and leaves [block_world], whatever
    the schedule. *)
Lemma compressFileBlockG_run :
  outputFile ∉ unwritable w →
  compressFileBlockG fuel g sched inputFile outputFile level numThreads w =
    (Ok (), block_world g level inputFile outputFile data numThreads plan w).
Proof.
  intros ?. rewrite compressFileBlockG_parts.
  rewrite (concatenateFiles_parsed _ _ _ (entry <$> sched));
    [|apply sched_parsed|done|apply sched_copyable].
  rewrite sched_sorted. f_equal. unfold concatenated, block_world.
  rewrite set_files_set_files. apply set_files_ext. cbn [compose].
  rewrite sched_contents, <-list_fmap_compose. apply delete_parts_written.
  by rewrite Hsched.
Qed.

(** When the output cannot be created, block mode still returns without
    error: the error of [concatenateFiles] is dropped, and the parts stay. *)
Lemma compressFileBlockG_no_output :
  outputFile ∈ unwritable w →
  compressFileBlockG fuel g sched inputFile outputFile level numThreads w =
    (Ok (), set_files (parts_written g level inputFile data plan sched) w).
Proof.
  intros ?. rewrite compressFileBlockG_parts.
  by erewrite concatenateFiles_create_error by (apply sched_parsed || done).
Qed.

End sched.
End block.

(** ** What block mode promises *)

(** A store in which every worker succeeds: the input exists and may be
    read, the planner's arithmetic does not wrap, the thread count is an
    [int], the input is not a directory of slashes, and the part files can
    be created and read back and none of them is the output. *)
Definition workers_ready (g : Z) (inputFile outputFile : string) (numThreads : Z)
    (data : bytes) (w : world) : Prop :=
  files w !! inputFile = Some data ∧ (inputFile ∉ unreadable w) ∧
  plannable g (Z.of_nat (length data)) numThreads ∧ numThreads ≤ int64_max ∧
  filepath_Base inputFile ≠ "/" ∧
  Forall (λ i, (segmentFileName i inputFile ∉ unwritable w) ∧
               (segmentFileName i inputFile ∉ unreadable w) ∧
               segmentFileName i inputFile ≠ outputFile) (seqZ 0 numThreads).

(** The runs of block mode the theorems are about: every worker succeeds
    and the output can be created. *)
Definition block_ready (g : Z) (inputFile outputFile : string) (numThreads : Z)
    (data : bytes) (w : world) : Prop :=
  workers_ready g inputFile outputFile numThreads data w ∧ outputFile ∉ unwritable w.

#[global] Instance workers_ready_dec g inputFile outputFile numThreads data w :
  Decision (workers_ready g inputFile outputFile numThreads data w).
Proof. unfold workers_ready. apply _. Defined.

#[global] Instance block_ready_dec g inputFile outputFile numThreads data w :
  Decision (block_ready g inputFile outputFile numThreads data w).
Proof. unfold block_ready. apply _. Defined.

Section block_spec.
Context `{Codec}.
Context (g level : Z) (inputFile outputFile : string) (data : bytes) (w : world).
Context (numThreads : Z) (fuel : nat).
Context (Hready : block_ready g inputFile outputFile numThreads data w).
Context (Hfuel : (length data < fuel)%nat).

(** A ready run, for any schedule, ends in [block_world] of the plan. *)
Lemma compressFileBlockG_ready sched :
  schedule numThreads sched →
  ∃ plan, divideSegments g (Z.of_nat (length data)) numThreads = Ok plan ∧
    chain 0 plan (Z.of_nat (length data)) ∧
    compressFileBlockG fuel g sched inputFile outputFile level numThreads w =
      (Ok (), block_world g level inputFile outputFile data numThreads plan w).
Proof.
  intros Hsched. destruct Hready as ((? & ? & Hp & ? & ? & Hparts) & ?).
  destruct (divideSegments_plan _ _ _ Hp) as (plan & Hplan & _ & ? & _).
  exists plan. split_and!; [done..|]. apply compressFileBlockG_run; try done.
  intros i ?. rewrite Forall_forall in Hparts. apply Hparts, elem_of_seqZ. lia.
Qed.

Lemma block_output_decodes plan :
  chain 0 plan (Z.of_nat (length data)) →
  decodeAll (block_output g level data plan) = Some data.
Proof.
  intros Hchain. destruct Hready as ((_ & _ & (? & _) & _) & _).
  unfold block_output.
  replace (part_bytes g level data <$> plan)
    with (encodeChunks level <$> ((λ s : Segment, chunks (Z.to_nat g) (slice s.1 s.2 data)) <$> plan))
    by (by rewrite <-list_fmap_compose).
  rewrite decode_segments, concat_concat, <-list_fmap_compose. f_equal.
  transitivity (concat ((λ s : Segment, slice s.1 s.2 data) <$> plan)).
  - f_equal. apply list_fmap_ext. intros ? seg _. simpl. apply chunks_concat. lia.
  - rewrite (chain_slices data 0 plan (Z.of_nat (length data))) by done. apply slice_full.
Qed.

Lemma block_world_output plan :
  files (block_world g level inputFile outputFile data numThreads plan w) !! outputFile =
    Some (block_output g level data plan).
Proof.
  destruct Hready as ((_ & _ & _ & _ & _ & Hparts) & _). simpl.
  rewrite lookup_delete_all, bool_decide_eq_false_2, lookup_insert_eq; [done|].
  intros (i & Heq & Hi)%list_elem_of_fmap. rewrite Forall_forall in Hparts.
  by destruct (Hparts i Hi) as (_ & _ & []).
Qed.

(** C1. End to end: block mode returns without error, and the output it leaves
    decodes to the input, for every schedule of the goroutines. *)
Theorem compressFileBlock_roundtrip sched :
  schedule numThreads sched →
  ∃ out w',
    compressFileBlockG fuel g sched inputFile outputFile level numThreads w = (Ok (), w') ∧
    files w' !! outputFile = Some out ∧ decodeAll out = Some data.
Proof.
  intros Hsched. destruct (compressFileBlockG_ready sched Hsched) as (plan & _ & ? & ->).
  eexists _, _. split_and!; [done|apply block_world_output|by apply block_output_decodes].
Qed.

(** C4. Order independence: two schedules of the same goroutines give the same
    result and leave the same store. *)
Theorem compressFileBlock_order_independent sched1 sched2 :
  schedule numThreads sched1 → schedule numThreads sched2 →
  compressFileBlockG fuel g sched1 inputFile outputFile level numThreads w =
  compressFileBlockG fuel g sched2 inputFile outputFile level numThreads w.
Proof.
  intros Hs1 Hs2.
  destruct (compressFileBlockG_ready sched1 Hs1) as (plan & Hplan & _ & ->).
  destruct (compressFileBlockG_ready sched2 Hs2) as (plan' & Hplan' & _ & ->).
  rewrite Hplan in Hplan'. by injection Hplan' as <-.
Qed.

(** C14. No residue: after a run no part file is left, and no file but the
    output has changed. *)
Theorem compressFileBlock_cleans_up sched :
  schedule numThreads sched →
  ∃ w',
    compressFileBlockG fuel g sched inputFile outputFile level numThreads w = (Ok (), w') ∧
    (∀ i, 0 ≤ i < numThreads → files w' !! segmentFileName i inputFile = None) ∧
    (∀ name, name ≠ outputFile → (∀ i, 0 ≤ i < numThreads → name ≠ segmentFileName i inputFile) →
             files w' !! name = files w !! name).
Proof.
  intros Hsched. destruct (compressFileBlockG_ready sched Hsched) as (plan & _ & _ & ->).
  eexists. split_and!; [done|..]; simpl.
  - intros i ?. rewrite lookup_delete_all, bool_decide_eq_true_2; [done|].
    apply list_elem_of_fmap. exists i. split; [done|]. apply elem_of_seqZ. lia.
  - intros name ? Hne. rewrite lookup_delete_all, bool_decide_eq_false_2.
    + by rewrite lookup_insert_ne.
    + intros (i & -> & Hi%elem_of_seqZ)%list_elem_of_fmap. by apply (Hne i); [lia|].
Qed.

End block_spec.

(** ** What block mode does when something fails *)

Section block_failures.
Context `{Codec}.
Context (g level : Z) (inputFile outputFile : string) (w : world).
Context (numThreads : Z) (fuel : nat) (sched : list Z).

(** C39. Failures of planning: an input that does not exist is the error of
    [os.Stat]; a thread count of zero is a division by zero in the planner;
    a negative one is a panic of [make(chan)].  The store is unchanged. *)
Theorem compressFileBlock_planning_failures :
  g ≠ 0 →
  (files w !! inputFile = None →
   compressFileBlockG fuel g sched inputFile outputFile level numThreads w =
     (Err (ErrStat ENOENT), w)) ∧
  (is_Some (files w !! inputFile) → numThreads = 0 →
   compressFileBlockG fuel g sched inputFile outputFile level numThreads w =
     (Panic PanicDivideByZero, w)) ∧
  (is_Some (files w !! inputFile) → numThreads < 0 →
   compressFileBlockG fuel g sched inputFile outputFile level numThreads w =
     (Panic PanicMakeChan, w)).
Proof.
  intros ?. unfold compressFileBlockG. split_and!.
  - intros Hin. by erewrite io_bind_Err by (by apply calculateSegmentG_None).
  - intros [data Hin] ->. erewrite io_bind_Panic; [done|].
    by rewrite (calculateSegmentG_Some _ _ _ _ data), divideSegments_zero_threads.
  - intros [data Hin] ?. erewrite io_bind_Ok.
    2:{ by rewrite (calculateSegmentG_Some _ _ _ _ data), divideSegments_negative_threads. }
    by rewrite bool_decide_eq_true_2.
Qed.

Context (data : bytes).
Context (Hsched : schedule numThreads sched) (Hfuel : (length data < fuel)%nat).

(** C17. No failure isolation: when one worker cannot create its part file,
    block mode panics; the other workers have written their part files,
    which stay in the store, and no other file has changed. *)
Theorem compressFileBlock_worker_error k :
  files w !! inputFile = Some data → inputFile ∉ unreadable w →
  plannable g (Z.of_nat (length data)) numThreads →
  0 ≤ k < numThreads → segmentFileName k inputFile ∈ unwritable w →
  ∃ w',
    compressFileBlockG fuel g sched inputFile outputFile level numThreads w =
      (Panic PanicSomeErrors, w') ∧
    (∀ i, 0 ≤ i < numThreads → segmentFileName i inputFile ∉ unwritable w →
          is_Some (files w' !! segmentFileName i inputFile)) ∧
    (∀ name, (∀ i, 0 ≤ i < numThreads → name ≠ segmentFileName i inputFile) →
             files w' !! name = files w !! name).
Proof.
  intros Hin ? Hp Hk Hb. destruct (divideSegments_plan _ _ _ Hp) as (plan & Hplan & _).
  eexists. split; [by eapply compressFileBlockG_blocked|]. simpl. split.
  - intros i ??. erewrite lookup_parts_written; [by eexists|..].
    + apply Forall_forall. intros j [_ Hj]%list_elem_of_filter. rewrite Hsched in Hj.
      apply elem_of_seqZ in Hj. lia.
    + apply list_elem_of_filter. split; [done|]. rewrite Hsched. apply elem_of_seqZ. lia.
  - intros name Hne. apply lookup_parts_written_ne.
    intros (i & -> & [_ Hi]%list_elem_of_filter)%list_elem_of_fmap.
    rewrite Hsched in Hi. apply elem_of_seqZ in Hi. by apply (Hne i); [lia|].
Qed.

(** C18. The error of the reassembler is dropped: when every worker succeeds
    and the output cannot be created, block mode returns no error; the
    output is as it was and the part files stay in the store. *)
Theorem compressFileBlock_drops_concat_error :
  workers_ready g inputFile outputFile numThreads data w →
  outputFile ∈ unwritable w →
  ∃ w',
    compressFileBlockG fuel g sched inputFile outputFile level numThreads w = (Ok (), w') ∧
    files w' !! outputFile = files w !! outputFile ∧
    (∀ i, 0 ≤ i < numThreads → is_Some (files w' !! segmentFileName i inputFile)).
Proof.
  intros (? & ? & Hp & ? & ? & Hparts) ?. rewrite Forall_forall in Hparts.
  destruct (divideSegments_plan _ _ _ Hp) as (plan & Hplan & _).
  assert (∀ i, i ∈ sched ↔ 0 ≤ i < numThreads) as Hrange
    by (intros i; rewrite Hsched, elem_of_seqZ; lia).
  eexists. split; [eapply compressFileBlockG_no_output; try done|]; simpl.
  - intros i ?. apply Hparts, elem_of_seqZ. lia.
  - split.
    + apply lookup_parts_written_ne. intros (i & -> & Hi%Hrange)%list_elem_of_fmap.
      destruct (Hparts i) as (_ & _ & []); [apply elem_of_seqZ; lia|done].
    + intros i ?. erewrite lookup_parts_written; [by eexists| |by apply Hrange].
      apply Forall_forall. intros j ?%Hrange. lia.
Qed.

End block_failures.

(** ** Block mode at work *)

(** A store with one input of seven bytes; the runs below use the store
    codec, buffers of two bytes and three threads, which finish in the
    order 2, 0, 1. *)
Definition block_data : bytes := ["a"; "b"; "c"; "d"; "e"; "f"; "g"]%byte.
Definition block_demo : world := mkWorld {[ "in.bin" := block_data ]} ∅ ∅.

Lemma compressFileBlock_roundtrip_witness :
  ∃ out w',
    compressFileBlockG 8 2 [2; 0; 1] "in.bin" "out.zst" 3 3 block_demo = (Ok (), w') ∧
    files w' !! "out.zst" = Some out ∧ decodeAll out = Some block_data.
Proof.
  apply (compressFileBlock_roundtrip 2 3 "in.bin" "out.zst" block_data block_demo 3 8);
    [by_decide|simpl; lia|by_decide].
Defined.

Lemma compressFileBlock_order_independent_witness :
  compressFileBlockG 8 2 [2; 0; 1] "in.bin" "out.zst" 3 3 block_demo =
  compressFileBlockG 8 2 [0; 1; 2] "in.bin" "out.zst" 3 3 block_demo.
Proof.
  apply (compressFileBlock_order_independent 2 3 "in.bin" "out.zst" block_data block_demo 3 8);
    [by_decide|simpl; lia|by_decide|by_decide].
Defined.

Lemma compressFileBlock_cleans_up_witness :
  ∃ w',
    compressFileBlockG 8 2 [2; 0; 1] "in.bin" "out.zst" 3 3 block_demo = (Ok (), w') ∧
    (∀ i, 0 ≤ i < 3 → files w' !! segmentFileName i "in.bin" = None) ∧
    (∀ name, name ≠ "out.zst" → (∀ i, 0 ≤ i < 3 → name ≠ segmentFileName i "in.bin") →
             files w' !! name = files block_demo !! name).
Proof.
  apply (compressFileBlock_cleans_up 2 3 "in.bin" "out.zst" block_data block_demo 3 8);
    [by_decide|simpl; lia|by_decide].
Defined.

(** The same run: three segments of four, two and one bytes, each in frames
    of two bytes, in the order of the plan. *)
Example compressFileBlock_run :
  compressFileBlockG 8 2 [2; 0; 1] "in.bin" "out.zst" 3 3 block_demo =
    (Ok (), set_files <["out.zst" :=
       encodeChunks 3 [["a"; "b"]; ["c"; "d"]; ["e"; "f"]; ["g"]]%byte]> block_demo).
Proof. by vm_compute. Qed.

Lemma compressFileBlock_planning_failures_witness :
  compressFileBlockG 8 2 [] "in.bin" "out.zst" 3 0 block_demo =
    (Panic PanicDivideByZero, block_demo).
Proof.
  by apply (compressFileBlock_planning_failures 2 3 "in.bin" "out.zst" block_demo 0 8 []);
    [lia|eexists|].
Defined.

(** A store in which thread 1 cannot create its part file. *)
Definition blocked_demo : world :=
  mkWorld {[ "in.bin" := block_data ]} ∅ {[ "1-in.bin-output-segment.part1" ]}.

Lemma compressFileBlock_worker_error_witness :
  ∃ w',
    compressFileBlockG 8 2 [2; 0; 1] "in.bin" "out.zst" 3 3 blocked_demo =
      (Panic PanicSomeErrors, w') ∧
    (∀ i, 0 ≤ i < 3 → segmentFileName i "in.bin" ∉ unwritable blocked_demo →
          is_Some (files w' !! segmentFileName i "in.bin")) ∧
    (∀ name, (∀ i, 0 ≤ i < 3 → name ≠ segmentFileName i "in.bin") →
             files w' !! name = files blocked_demo !! name).
Proof.
  apply (compressFileBlock_worker_error 2 3 "in.bin" "out.zst" blocked_demo 3 8 [2; 0; 1]
           block_data) with (k := 1);
    [by_decide|simpl; lia|reflexivity|apply not_elem_of_empty|by_decide|lia|by_decide].
Defined.

(** The same run: the parts of threads 2 and 0 are left in the store. *)
Example compressFileBlock_worker_error_run :
  compressFileBlockG 8 2 [2; 0; 1] "in.bin" "out.zst" 3 3 blocked_demo =
    (Panic PanicSomeErrors,
     set_files (λ m, <["0-in.bin-output-segment.part0" :=
                         encodeChunks 3 [["a"; "b"]; ["c"; "d"]]%byte]>
                     (<["2-in.bin-output-segment.part2" := encodeChunks 3 [["g"]]%byte]> m))
       blocked_demo).
Proof. by vm_compute. Qed.

(** A store in which the output cannot be created. *)
Definition no_output_demo : world :=
  mkWorld {[ "in.bin" := block_data ]} ∅ {[ "out.zst" ]}.

Lemma compressFileBlock_drops_concat_error_witness :
  ∃ w',
    compressFileBlockG 8 2 [2; 0; 1] "in.bin" "out.zst" 3 3 no_output_demo = (Ok (), w') ∧
    files w' !! "out.zst" = files no_output_demo !! "out.zst" ∧
    (∀ i, 0 ≤ i < 3 → is_Some (files w' !! segmentFileName i "in.bin")).
Proof.
  apply (compressFileBlock_drops_concat_error 2 3 "in.bin" "out.zst" no_output_demo 3 8
           [2; 0; 1] block_data); [by_decide|simpl; lia|by_decide|by_decide].
Defined.
