(* ===== verification/Frame.v ===== *)
(** * Files a call leaves alone

    A frame rule for the calls of the program.  [compressFileBlock] of the
    working program prints while its goroutines run, and every [main]
    prints at its end; the theorems on what these functions do to the files
    they are given are proved on stores without a thought for the standard
    streams.  This file shows that they may be: a call that is given no
    handle on a file and no name of it runs [away] from that file, that is,
    a change of the file's contents before the call is the same change
    after it, and the call returns what it returned without.

    The rule is proved for the operations of [FileSys], carried through
    binds and loops, and from there to [compressPart], the workers,
    [concatenateFiles] and [compressFileBlock]. *)

From Stdlib Require Import Ascii.
From S2P Require Import Prelude Planner Codec FileSys Names Worker Reassembler Pipeline.

(** ** The rule *)

(** A change of the contents of the file [d], when it exists. *)
Definition touch (d : string) (f : bytes → bytes) : world → world :=
  set_files (alter f d).

(** The call [m] runs away from [d]. *)
Definition away {X} (d : string) (m : world → X * world) : Prop :=
  ∀ f w, m (touch d f w) = ((m w).1, touch d f (m w).2).

(** The observation [r] does not see [d]. *)
Definition blind {X} (d : string) (r : world → X) : Prop :=
  ∀ f w, r (touch d f w) = r w.

Create HintDb frame discriminated.

Section rule.
Context (d : string).

(** *** The store *)

Lemma lookup_touch_ne f w name : name ≠ d → files (touch d f w) !! name = files w !! name.
Proof. intros. unfold touch. simpl. by rewrite lookup_alter_ne. Qed.

Lemma lookup_touch_is_Some f w name : is_Some (files (touch d f w) !! name) ↔ is_Some (files w !! name).
Proof. unfold touch. simpl. apply lookup_alter_is_Some. Qed.

Lemma touch_insert f w name data :
  name ≠ d → set_files <[name := data]> (touch d f w) = touch d f (set_files <[name := data]> w).
Proof. intros. apply world_eq; [|done..]. simpl. by apply insert_alter_ne. Qed.

Lemma touch_delete f w name :
  name ≠ d → set_files (delete name) (touch d f w) = touch d f (set_files (delete name) w).
Proof. intros. apply world_eq; [|done..]. simpl. by apply delete_alter_ne. Qed.

Lemma touch_alter f w name h :
  name ≠ d → set_files (alter h name) (touch d f w) = touch d f (set_files (alter h name) w).
Proof. intros. apply world_eq; [|done..]. simpl. by apply alter_alter_ne. Qed.

(** *** The monad *)

Lemma away_ret {A} (a : A) : away d (io_ret a).
Proof. done. Qed.

Lemma away_lift {A} (o : outcome A) : away d (io_lift o).
Proof. done. Qed.

Lemma away_fail {A} e : away d (io_fail (A:=A) e).
Proof. done. Qed.

Lemma away_panic {A} p : away d (io_panic (A:=A) p).
Proof. done. Qed.

Lemma away_bind {A B} (m : io world A) (k : A → io world B) :
  away d m → (∀ a w, (m w).1 = Ok a → away d (k a)) → away d (io_bind m k).
Proof.
  intros Hm Hk f w. unfold io_bind. rewrite Hm.
  destruct (m w) as [[a|e|p|] w'] eqn:Hr; cbn [fst snd]; try done.
  apply (Hk a w). by rewrite Hr.
Qed.

Lemma away_wrap_err {A} (e : oserr → error) (m : sys A) : away d m → away d (wrap_err e m).
Proof. intros Hm f w. unfold wrap_err. rewrite Hm. by destruct (m w) as [[?|?] ?]. Qed.

(** A loop whose iterations run away from [d], as long as the loop's
    variables keep [I], runs away from it. *)
Lemma away_loop {S} (I : S → Prop) (body : S → io world (loopres S)) fuel s :
  (∀ s, I s → away d (body s)) →
  (∀ s w s', I s → (body s w).1 = Ok (Continue s') → I s') →
  I s → away d (io_loop fuel body s).
Proof.
  intros Hbody Hnext. revert s. induction fuel as [|fuel IH]; intros s Hs; [done|].
  cbn [io_loop]. apply away_bind; [by apply Hbody|].
  intros [s'|s'] w Hr; [|done]. eapply IH, Hnext; done.
Qed.

(** *** The operations of the system *)

Lemma os_Stat_away name : name ≠ d → away d (os_Stat name).
Proof.
  intros ? f w. unfold os_Stat. rewrite lookup_touch_ne by done.
  by destruct (files w !! name).
Qed.

Lemma os_Open_away name : name ≠ d → away d (os_Open name).
Proof.
  intros ? f w. unfold os_Open. rewrite lookup_touch_ne by done.
  destruct (files w !! name); [|done]. simpl. by case_bool_decide.
Qed.

Lemma os_Create_away name : name ≠ d → away d (os_Create name).
Proof.
  intros ? f w. unfold os_Create. simpl. case_bool_decide; [done|].
  simpl. by rewrite touch_insert.
Qed.

Lemma os_Remove_away name : name ≠ d → away d (os_Remove name).
Proof.
  intros ? f w. unfold os_Remove. rewrite lookup_touch_ne by done.
  destruct (files w !! name); [|done]. simpl. by rewrite touch_delete.
Qed.

Lemma file_Write_away h data : f_name h ≠ d → away d (file_Write h data).
Proof. intros ? f w. unfold file_Write. simpl. by rewrite touch_alter. Qed.

Lemma io_Copy_away dst src : f_name dst ≠ d → f_name src ≠ d → away d (io_Copy dst src).
Proof.
  intros ?? f w. unfold io_Copy. rewrite lookup_touch_ne by done.
  destruct (files w !! f_name src); [|done]. by rewrite file_Write_away.
Qed.

Lemma file_Read_blind h len : f_name h ≠ d → blind d (file_Read h len).
Proof. intros ? f w. unfold file_Read. by rewrite lookup_touch_ne. Qed.

Lemma file_Seek_blind h offset whence : f_name h ≠ d → blind d (file_Seek h offset whence).
Proof. intros ? f w. unfold file_Seek. by rewrite lookup_touch_ne. Qed.

(** The handle keeps its name. *)
Lemma file_Read_name h len w : f_name (file_Read h len w).2 = f_name h.
Proof. unfold file_Read. by repeat case_match. Qed.

Lemma file_Seek_name h offset whence w : f_name (file_Seek h offset whence w).2 = f_name h.
Proof. unfold file_Seek. by repeat case_match. Qed.

Lemma file_Write_name h data w h' w' : file_Write h data w = (inr h', w') → f_name h' = f_name h.
Proof. by intros [= <- _]. Qed.

End rule.

#[export] Hint Resolve away_ret away_lift away_fail away_panic away_wrap_err : frame.
#[export] Hint Resolve os_Stat_away os_Open_away os_Create_away os_Remove_away : frame.
#[export] Hint Resolve file_Write_away io_Copy_away : frame.

(** ** The workers *)

Section workers.
Context `{Codec}.
Context (d : string).

(** What [os.Open] and [os.Create] return is a handle on the path. *)
Lemma os_Open_name name w h w' : os_Open name w = (inr h, w') → f_name h = name.
Proof. unfold os_Open. repeat case_match; by intros [= <- _]. Qed.

Lemma os_Create_name name w h w' : os_Create name w = (inr h, w') → f_name h = name.
Proof. unfold os_Create. repeat case_match; by intros [= <- _]. Qed.

Lemma wrap_err_Ok {A} (e : oserr → error) (m : sys A) w a :
  (wrap_err e m w).1 = Ok a → ∃ w', m w = (inr a, w').
Proof. unfold wrap_err. destruct (m w) as [[?|?] w']; intros [= <-]. by exists w'. Qed.

(** The handles of [compressPart] keep their names through the loop. *)
Lemma compressPart_iter_names g level endOffset s w s' :
  (compressPart_iter g level endOffset s w).1 = Ok (Continue s') →
  f_name s'.1 = f_name s.1 ∧ f_name s'.2 = f_name s.2.
Proof.
  destruct s as [input output]. unfold compressPart_iter, file_Write.
  pose proof (file_Read_name input g w) as Hname.
  destruct (file_Read input g w) as [[buf err] input']. cbn [fst snd] in *.
  pose proof (file_Seek_name input' 0 1 (set_files (alter (write_at (f_pos output)
    (encodeAll level buf)) (f_name output)) w)) as Hseek.
  repeat case_match; simplify_eq/=; try done; intros [= <-]; simpl; split; congruence.
Qed.

Lemma compressPart_iter_away g level endOffset s :
  f_name s.1 ≠ d → f_name s.2 ≠ d → away d (compressPart_iter g level endOffset s).
Proof.
  destruct s as [input output]. cbn [fst snd]. intros Hi Ho f w.
  unfold compressPart_iter, file_Write. rewrite file_Read_blind by done.
  pose proof (file_Read_name input g w) as Hname.
  destruct (file_Read input g w) as [[buf err] input']. cbn [fst snd] in *.
  rewrite touch_alter by done. rewrite file_Seek_blind by congruence.
  by repeat case_match.
Qed.

Lemma compressPartG_name fuel g inputFile i seg level w outfile :
  (compressPartG fuel g inputFile i seg level w).1 = Ok outfile →
  outfile = segmentFileName i inputFile.
Proof.
  unfold compressPartG, io_bind, io_ret. destruct seg as [start stop].
  repeat case_match; simplify_eq/=; try done. by intros [= <-].
Qed.

Lemma compressPartG_away fuel g inputFile i seg level :
  inputFile ≠ d → segmentFileName i inputFile ≠ d →
  away d (compressPartG fuel g inputFile i seg level).
Proof.
  intros ??. unfold compressPartG.
  apply away_bind; [auto with frame|]. intros input w [? ?%os_Open_name]%wrap_err_Ok.
  apply away_bind; [auto with frame|]. intros output w' [? ?%os_Create_name]%wrap_err_Ok.
  destruct seg as [start stop]. intros f w''. rewrite file_Seek_blind by congruence.
  pose proof (file_Seek_name input start 0 w'') as Hseek.
  destruct (file_Seek input start 0 w'') as [? input']. cbn [snd] in Hseek.
  apply away_bind; [|auto with frame].
  apply (away_loop d (λ s, f_name s.1 ≠ d ∧ f_name s.2 ≠ d)).
  - intros st [??]. by apply compressPart_iter_away.
  - intros st w0 st' [??] [-> ->]%compressPart_iter_names. done.
  - simpl. split; congruence.
Qed.

Section run.
Context (fuel : nat) (g : Z) (inputFile : string) (offset : list Segment) (level : Z).
Context (Hin : inputFile ≠ d) (Hparts : ∀ i, segmentFileName i inputFile ≠ d).

Lemma goWorker_away i ch : away d (goWorker fuel g inputFile offset level i ch).
Proof.
  intros f w. unfold goWorker. destruct (lookupZ offset i) as [seg|]; [|done].
  rewrite compressPartG_away by done.
  by destruct (compressPartG _ _ _ _ _ _ _) as [[] ?].
Qed.

Lemma runWorkers_away sched ch : away d (runWorkers fuel g inputFile offset level sched ch).
Proof.
  revert ch. induction sched as [|i sched IH]; intros ch; [done|].
  cbn [runWorkers]. apply away_bind; [apply goWorker_away|]. intros ch' _ _. apply IH.
Qed.

(** The names on [outputFileName] are the names of part files, or empty. *)
Lemma goWorker_names i ch w ch' :
  (goWorker fuel g inputFile offset level i ch w).1 = Ok ch' →
  ∃ name, outputFileName ch' = outputFileName ch ++ [name] ∧
          (name = "" ∨ name = segmentFileName i inputFile).
Proof.
  unfold goWorker. destruct (lookupZ offset i) as [seg|]; [|done].
  pose proof (compressPartG_name fuel g inputFile i seg level w) as Hname.
  destruct (compressPartG _ _ _ _ _ _ _) as [[outfile| | |] ?]; intros [= <-]; simpl.
  - eexists. split; [done|]. right. by apply Hname.
  - eexists. split; [done|]. by left.
Qed.

Lemma runWorkers_names sched ch w ch' :
  d ≠ "" → Forall (λ name, name ≠ d) (outputFileName ch) →
  (runWorkers fuel g inputFile offset level sched ch w).1 = Ok ch' →
  Forall (λ name, name ≠ d) (outputFileName ch').
Proof.
  intros ?. revert ch w. induction sched as [|i sched IH]; intros ch w Hch.
  - by intros [= <-].
  - cbn [runWorkers]. unfold io_bind.
    pose proof (goWorker_names i ch w) as Hnames.
    destruct (goWorker _ _ _ _ _ _ _ _) as [[ch1| | |] w1]; try done.
    destruct (Hnames ch1 eq_refl) as (name & Heq & Hname). apply IH.
    rewrite Heq. apply Forall_app. split; [done|]. apply Forall_singleton.
    destruct Hname as [-> | ->]; [done|apply Hparts].
Qed.

End run.

End workers.

(** ** [concatenateFiles] *)

Section concatenate.
Context (d : string).

Lemma copyAll_away filesWithIndex : ∀ out,
  f_name out ≠ d → Forall (λ file, Name file ≠ d) filesWithIndex →
  away d (copyAll out filesWithIndex).
Proof.
  induction filesWithIndex as [|file l IH]; intros out Hout Hall; [done|].
  apply Forall_cons in Hall as [? ?]. cbn [copyAll].
  apply away_bind; [auto with frame|]. intros input w [? ?%os_Open_name]%wrap_err_Ok.
  apply away_bind; [apply away_wrap_err, io_Copy_away; congruence|].
  intros [out' ?] w' [w'' Hcopy]%wrap_err_Ok. apply IH; [|done]. simpl.
  unfold io_Copy, file_Write in Hcopy. by repeat case_match; simplify_eq/=.
Qed.

Lemma removeAll_away filesWithIndex :
  Forall (λ file, Name file ≠ d) filesWithIndex → away d (removeAll filesWithIndex).
Proof.
  induction filesWithIndex as [|file l IH]; intros Hall; [done|].
  apply Forall_cons in Hall as [? ?]. intros f w. cbn [removeAll].
  rewrite os_Remove_away by done. by apply IH.
Qed.

Lemma concatenateFiles_away filenames outputFile :
  Forall (λ name, name ≠ d) filenames → outputFile ≠ d →
  away d (concatenateFiles filenames outputFile).
Proof.
  intros Hall ?. unfold concatenateFiles.
  apply away_bind; [auto with frame|]. intros parsed _ [= Hparsed].
  assert (Forall (λ file, Name file ≠ d) (sortByIndex parsed)) as Hsorted.
  { apply (Forall_fmap Name (λ name, name ≠ d)).
    by rewrite (sortByIndex_Names filenames). }
  apply away_bind; [auto with frame|]. intros out w [? ?%os_Create_name]%wrap_err_Ok.
  apply away_bind; [apply copyAll_away; [congruence|done]|].
  intros _ _ _. by apply removeAll_away.
Qed.

End concatenate.

(** ** [compressFileBlock] *)

(** A part file has a relative name, and the standard streams have not. *)
Lemma segmentFileName_relative i inputFile d : segmentFileName i inputFile ≠ String "/"%char d.
Proof.
  unfold segmentFileName. pose proof (has_char_pretty_slash i) as Hslash.
  pose proof (pretty_Z_nonempty i). destruct (pretty i) as [|c r]; [done|].
  simpl in *. intros [= -> _]. by rewrite bool_decide_eq_true_2 in Hslash.
Qed.

Lemma compressFileBlockG_away `{Codec} fuel g sched inputFile outputFile level numThreads d :
  inputFile ≠ String "/"%char d → outputFile ≠ String "/"%char d →
  away (String "/"%char d) (compressFileBlockG fuel g sched inputFile outputFile level numThreads).
Proof.
  intros ??. unfold compressFileBlockG.
  apply away_bind.
  { intros f w. unfold calculateSegmentG. rewrite os_Stat_away by done.
    by destruct (os_Stat inputFile w) as [[] ?]. }
  intros offset _ _. case_bool_decide; [auto with frame|].
  apply away_bind; [apply runWorkers_away; [done|]; intros; apply segmentFileName_relative|].
  intros ch w Hch. destruct (errChan ch); [|auto with frame].
  apply (runWorkers_names (String "/"%char d)) in Hch;
    [|intros; apply segmentFileName_relative|done|done].
  intros f w'. rewrite concatenateFiles_away by done.
  by destruct (concatenateFiles _ _ _) as [[] ?].
Qed.
