(* ===== verification/Interleave.v ===== *)
(** * The goroutines of [compressFileBlock], one system call at a time

    [Pipeline] runs each goroutine of [compressFileBlock]
    (src/unnamed/part_000) from its start to its last send before the next
    one starts.  This file models what the Go runtime may do: every
    goroutine is at a place of its code ([place]), and a step of the system
    ([fine_move], [fine_fire]) lets one goroutine, chosen freely, go to its
    next place: open the input, create its part file, read a buffer, write
    a frame ([part_step], which is [compressPart] cut at its system calls),
    send on a channel, or panic, which ends the program wherever the others
    are.  [compressFileBlockF] is [compressFileBlock] for the order [steps]
    in which the goroutines are given their turns.

    The theorems show that the coarse model loses nothing and adds
    nothing.  A goroutine looks at the input, its own part file and the
    permissions only ([same_view]) and changes its part file only
    ([changes_only]), so in every state of every interleaving each
    goroutine is where some number of steps on its own would have taken it
    ([tracks], [fine_inv]).  Hence from every complete interleaving one
    reads a schedule of [Pipeline] with the same outcome, and every
    schedule of [Pipeline] is the interleaving in which the goroutines
    take their steps in blocks.  Every step lowers [fine_measure], so
    every interleaving ends; the channels never hold more than they have
    room for, so no send waits. *)

From stdpp Require Import relations.
From S2P Require Import Prelude Planner Codec FileSys Names Worker Reassembler Pipeline.

Section fine.
Context `{Codec}.
Context (g level : Z) (inputFile : string) (offset : list Segment).

(** ** Places and steps of one goroutine *)

(** Where a goroutine is: before [os.Open]; before [os.Create]; before
    [input.Read]; before [output.Write], holding the buffer read; before one
    of its three sends; before a panic; gone. *)
Inductive place : Type :=
| AtOpen
| AtCreate (seg : Segment) (input : File)
| AtRead (endOffset : Z) (input output : File)
| AtWrite (endOffset : Z) (input output : File) (buf : bytes)
| AtSendName (outfile : string)
| AtSendErr (err : error)
| AtSendEmpty
| AtPanic (p : panic)
| Gone.

#[global] Instance place_eq_dec : EqDecision place.
Proof. solve_decision. Defined.

(** The part of goroutine [i] that touches the store: [offset[i]] and
    [compressPart], cut at its system calls. A goroutine that is about to
    send, to panic or has gone stays where it is. *)
Definition part_step (i : Z) (p : place) (w : world) : place * world :=
  match p with
  | AtOpen =>
      match lookupZ offset i with
      | None => (AtPanic PanicIndexOutOfRange, w)
      | Some seg =>
          match os_Open inputFile w with
          | (inl e, w) => (AtSendErr (ErrOpenFile e), w)
          | (inr input, w) => (AtCreate seg input, w)
          end
      end
  | AtCreate seg input =>
      match os_Create (segmentFileName i inputFile) w with
      | (inl e, w) => (AtSendErr (ErrCreateOutput e), w)
      | (inr output, w) =>
          let '(startOffset, endOffset) := seg in
          let '(_, input) := file_Seek input startOffset 0 w in
          (AtRead endOffset input output, w)
      end
  | AtRead endOffset input output =>
      let '((buf, err), input) := file_Read input g w in
      match err with
      | RdErr e => (AtSendErr (ErrReadInput e), w)
      | _ =>
          if bool_decide (buf = []) then (AtSendName (segmentFileName i inputFile), w)
          else (AtWrite endOffset input output buf, w)
      end
  | AtWrite endOffset input output buf =>
      let compressed := encodeAll level buf in
      match file_Write output compressed w with
      | (inl e, w) => (AtSendErr (ErrWriteOutput e), w)
      | (inr output, w) =>
          match file_Seek input 0 1 w with
          | (inl e, _) => (AtSendErr (ErrCurrentOffset e), w)
          | (inr currentOffset, input) =>
              if bool_decide (currentOffset = endOffset)
              then (AtSendName (segmentFileName i inputFile), w)
              else if bool_decide (endOffset < currentOffset)
              then (AtPanic PanicReadOverEnd, w)
              else (AtRead endOffset input output, w)
          end
      end
  | _ => (p, w)
  end.

(** [k] steps of goroutine [i] on its own. *)
Fixpoint part_run (k : nat) (i : Z) (c : place * world) : place * world :=
  match k with
  | O => c
  | S k => part_run k i (part_step i c.1 c.2)
  end.

(** ** The system *)

(** The store, the place of every goroutine, what the channels have
    received, and the panic that has ended the program. *)
Record fine : Type := mkFine {
  fine_world : world;
  fine_places : list place;
  fine_chan : channels;
  fine_crashed : option panic;
}.

(** [compressFileBlock] after its [for] loop: every goroutine at its start,
    the channels empty. *)
Definition fine_init (numThreads : Z) (w : world) : fine :=
  mkFine w (replicate (Z.to_nat numThreads) AtOpen) (mkChannels [] []) None.

(** A step of goroutine [i] from its place [p]: a send, a panic, or a step
    on the store; a goroutine that has gone has no step. *)
Definition fine_move (i : nat) (p : place) (s : fine) : option fine :=
  let ch := fine_chan s in
  match p with
  | Gone => None
  | AtPanic p => Some (mkFine (fine_world s) (fine_places s) ch (Some p))
  | AtSendErr err =>
      Some (mkFine (fine_world s) (<[i := AtSendEmpty]> (fine_places s))
              (mkChannels (outputFileName ch) (errChan ch ++ [err])) None)
  | AtSendEmpty =>
      Some (mkFine (fine_world s) (<[i := Gone]> (fine_places s))
              (mkChannels (outputFileName ch ++ [""]) (errChan ch)) None)
  | AtSendName outfile =>
      Some (mkFine (fine_world s) (<[i := Gone]> (fine_places s))
              (mkChannels (outputFileName ch ++ [outfile]) (errChan ch)) None)
  | _ =>
      let '(p', w') := part_step (Z.of_nat i) p (fine_world s) in
      Some (mkFine w' (<[i := p']> (fine_places s)) ch None)
  end.

(** The step of the system in which goroutine [i] moves.  Nothing moves
    once the program has panicked. *)
Definition fine_fire (i : nat) (s : fine) : option fine :=
  match fine_crashed s, fine_places s !! i with
  | None, Some p => fine_move i p s
  | _, _ => None
  end.

Definition fine_step (s s' : fine) : Prop := ∃ i, fine_fire i s = Some s'.

Definition fine_runs : relation fine := rtc fine_step.

(** The goroutines named by [steps] move in turn; a name whose goroutine
    cannot move is passed over. *)
Definition fine_exec (steps : list nat) (s : fine) : fine :=
  foldl (λ s i, default s (fine_fire i s)) s steps.

(** All goroutines have gone: [wg.Wait()] returns and the channels are
    closed. *)
Definition all_gone (s : fine) : Prop := Forall (λ p, p = Gone) (fine_places s).

#[global] Instance all_gone_dec s : Decision (all_gone s).
Proof. unfold all_gone. apply _. Defined.

(** [compressFileBlock] from the first [range] on: the names are collected,
    one error on [errChan] is a panic, and the parts are concatenated; the
    error of [concatenateFiles] is dropped. *)
Definition collect (outputFile : string) (ch : channels) : io world () :=
  match errChan ch with
  | _ :: _ => io_panic PanicSomeErrors
  | [] =>
      λ w, match concatenateFiles (outputFileName ch) outputFile w with
           | (Ok _, w) | (Err _, w) => (Ok (), w)
           | (Panic p, w) => (Panic p, w)
           | (OutOfFuel, w) => (OutOfFuel, w)
           end
  end.

(** The end of the program in a state in which the goroutines have gone or
    one of them has panicked. *)
Definition fine_finish (outputFile : string) (s : fine) : outcome () * world :=
  match fine_crashed s with
  | Some p => (Panic p, fine_world s)
  | None => collect outputFile (fine_chan s) (fine_world s)
  end.

(** ** What a goroutine sees and what it changes *)

#[local] Abbreviation part_name i := (segmentFileName i inputFile).

(** The places from which a goroutine touches the store no more. *)
Definition returned (p : place) : Prop :=
  match p with
  | AtOpen | AtCreate _ _ | AtRead _ _ _ | AtWrite _ _ _ _ => False
  | _ => True
  end.

#[global] Instance returned_dec p : Decision (returned p).
Proof. destruct p; simpl; apply _. Defined.

(** The handles of goroutine [i] are open on the input and on its own part
    file. *)
Definition place_ok (i : Z) (p : place) : Prop :=
  match p with
  | AtCreate _ input => f_name input = inputFile
  | AtRead _ input output | AtWrite _ input output _ =>
      f_name input = inputFile ∧ f_name output = part_name i
  | _ => True
  end.

#[global] Instance place_ok_dec i p : Decision (place_ok i p).
Proof. destruct p; simpl; apply _. Defined.

(** What goroutine [i] can see of the store: the input, its part file and
    the permissions. *)
Definition same_view (i : Z) (w1 w2 : world) : Prop :=
  files w1 !! inputFile = files w2 !! inputFile ∧
  files w1 !! part_name i = files w2 !! part_name i ∧
  unreadable w1 = unreadable w2 ∧ unwritable w1 = unwritable w2.

(** [changes_only name w w']: the store [w'] is [w] but for the file
    [name]. *)
Definition changes_only (name : string) (w w' : world) : Prop :=
  unreadable w' = unreadable w ∧ unwritable w' = unwritable w ∧
  ∀ f, f ≠ name → files w' !! f = files w !! f.

#[global] Instance same_view_equiv i : Equivalence (same_view i).
Proof.
  unfold same_view. split; [done|intros ?? (-> & -> & -> & ->)|
    intros ??? (-> & -> & -> & ->) (-> & -> & -> & ->)]; done.
Qed.

#[global] Instance changes_only_preorder name : PreOrder (changes_only name).
Proof.
  unfold changes_only. split; [done|].
  intros w1 w2 w3 (-> & -> & H12) (-> & -> & H23). split_and!; [done..|].
  intros f ?. by rewrite H23, H12.
Qed.

Lemma part_step_returned i p w : returned p → part_step i p w = (p, w).
Proof. by destruct p. Qed.

Lemma part_run_returned k i p w : returned p → part_run k i (p, w) = (p, w).
Proof. intros ?. induction k as [|k IH]; [done|]. simpl. by rewrite part_step_returned. Qed.

Lemma part_run_add k k' i c : part_run (k + k') i c = part_run k' i (part_run k i c).
Proof. revert c. induction k as [|k IH]; intros c; [done|]. simpl. apply IH. Qed.

Lemma part_run_S k i c :
  part_run (S k) i c = part_step i (part_run k i c).1 (part_run k i c).2.
Proof. by rewrite <-Nat.add_1_r, part_run_add. Qed.

Lemma part_run_stable k k' i c :
  returned (part_run k i c).1 → (k ≤ k')%nat → part_run k' i c = part_run k i c.
Proof.
  intros Hret Hk. replace k' with (k + (k' - k))%nat by lia.
  rewrite part_run_add. destruct (part_run k i c). by apply part_run_returned.
Qed.

(** A step keeps the handles on their files. *)
Lemma part_step_ok i p w : place_ok i p → place_ok i (part_step i p w).1.
Proof.
  destruct p as [|[??]| | | | | | |]; simpl; intros Hok;
    unfold os_Open, os_Create, file_Read, file_Seek; repeat case_match; simplify_eq; simpl; naive_solver.
Qed.

(** A step looks at nothing but the goroutine's view. *)
Lemma part_step_local i p w1 w2 :
  place_ok i p → same_view i w1 w2 →
  (part_step i p w1).1 = (part_step i p w2).1 ∧
  same_view i (part_step i p w1).2 (part_step i p w2).2.
Proof.
  intros Hok Hv. pose proof Hv as (Hin & Hpart & Hr & Hw).
  pose proof (segmentFileName_fresh i inputFile).
  destruct p as [|[??]| | | | | | |]; simpl in *; try done.
  - unfold os_Open. rewrite Hin, Hr. repeat case_match; simplify_eq; by simpl.
  - unfold os_Create, file_Seek. rewrite Hw. simpl.
    repeat case_match; simplify_eq; simpl; try done.
    all: split; [done|]; split_and!; simpl; [|by rewrite !lookup_insert_eq|done..].
    all: by rewrite !lookup_insert_ne.
  - destruct Hok as [Hi Ho]. unfold file_Read. rewrite Hi, Hin.
    repeat case_match; simplify_eq; by simpl.
  - destruct Hok as [Hi Ho]. unfold file_Write, file_Seek. simpl.
    repeat case_match; simplify_eq; simpl; try done.
    all: split; [done|]; split_and!; simpl; rewrite ?Ho; [|by rewrite !lookup_alter_eq, Hpart|done..].
    all: by rewrite !lookup_alter_ne.
Qed.

(** A step of goroutine [i] changes nothing but its part file. *)
Lemma part_step_frame i p w : place_ok i p → changes_only (part_name i) w (part_step i p w).2.
Proof.
  intros Hok. destruct p as [|[??]| | | | | | |]; simpl in *; try done.
  - unfold os_Open. repeat case_match; by simplify_eq.
  - unfold os_Create, file_Seek. repeat case_match; simplify_eq; try done.
    all: split_and!; [done..|]; intros name ?; simpl; by rewrite lookup_insert_ne.
  - unfold file_Read. repeat case_match; by simplify_eq.
  - destruct Hok as [Hi Ho]. unfold file_Write, file_Seek. simpl.
    repeat case_match; simplify_eq; try done.
    all: split_and!; [done..|]; intros name ?; simpl; rewrite ?Ho; by rewrite lookup_alter_ne.
Qed.

(** ** [compressPart] as a run of steps *)

(** The place of a goroutine when its [compressPart] has returned. *)
Definition place_of {A} (i : Z) (r : outcome A) : place :=
  match r with
  | Ok _ => AtSendName (part_name i)
  | Err err => AtSendErr err
  | Panic p => AtPanic p
  | OutOfFuel => AtOpen
  end.

Lemma place_of_returned {A} i (r : outcome A) : r ≠ OutOfFuel → returned (place_of i r).
Proof. by destruct r. Qed.

(** A turn of the loop is a read and a write. *)
Lemma compressPart_iter_steps i e input output w :
  part_run 2 i (AtRead e input output, w) =
    match compressPart_iter g level e (input, output) w with
    | (Ok (Continue (input', output')), w') => (AtRead e input' output', w')
    | (r, w') => (place_of i r, w')
    end.
Proof.
  unfold compressPart_iter. simpl.
  destruct (file_Read input g w) as [[buf err] input'].
  destruct err; try done; case_bool_decide; try done; simpl.
  all: destruct (file_Seek input' 0 1 _) as [[?|?] ?]; try done.
  all: by repeat case_bool_decide.
Qed.

Lemma io_loop_steps i fuel e input output w :
  (io_loop fuel (compressPart_iter g level e) (input, output) w).1 ≠ OutOfFuel →
  part_run (2 * fuel) i (AtRead e input output, w) =
    (place_of i (io_loop fuel (compressPart_iter g level e) (input, output) w).1,
     (io_loop fuel (compressPart_iter g level e) (input, output) w).2).
Proof.
  revert input output w. induction fuel as [|fuel IH]; intros input output w; [done|].
  replace (2 * S fuel)%nat with (2 + 2 * fuel)%nat by lia.
  rewrite part_run_add, compressPart_iter_steps. cbn [io_loop]. unfold io_bind.
  destruct (compressPart_iter _ _ _ _ _) as [[[[??]|[??]]|?|?|] ?]; try done.
  all: intros Hend; by (apply IH || apply part_run_returned).
Qed.

Lemma compressPartG_Ok fuel i seg w outfile w' :
  compressPartG fuel g inputFile i seg level w = (Ok outfile, w') → outfile = part_name i.
Proof.
  destruct seg. unfold compressPartG, io_bind, io_ret. intros ?.
  repeat case_match; by simplify_eq.
Qed.

(** With enough fuel, [compressPart] is the run of the goroutine from its
    start to its first send or its panic. *)
Lemma compressPartG_steps i fuel seg w :
  lookupZ offset i = Some seg →
  (compressPartG fuel g inputFile i seg level w).1 ≠ OutOfFuel →
  part_run (2 * fuel + 2) i (AtOpen, w) =
    (place_of i (compressPartG fuel g inputFile i seg level w).1,
     (compressPartG fuel g inputFile i seg level w).2).
Proof.
  intros Hseg. destruct seg as [s e]. rewrite Nat.add_comm. simpl part_run. rewrite Hseg.
  unfold compressPartG, io_bind, wrap_err. destruct (os_Open _ _) as [[?|input] w1]; simpl.
  { intros _. by apply part_run_returned. }
  destruct (os_Create _ _) as [[?|output] w2]; simpl.
  { intros _. by apply part_run_returned. }
  destruct (file_Seek _ _ _ _) as [? input'].
  pose proof (io_loop_steps i fuel e input' output w2) as Hloop.
  destruct (io_loop _ _ _ _) as [[?| | |] ?]; simpl in *; intros ?; by rewrite Hloop.
Qed.

(** ** Runs of one goroutine *)

Lemma part_run_ok k i p w : place_ok i p → place_ok i (part_run k i (p, w)).1.
Proof.
  revert p w. induction k as [|k IH]; intros p w Hok; [done|]. simpl.
  pose proof (part_step_ok i p w Hok) as Hok'.
  destruct (part_step i p w) as [p' w']. by apply IH.
Qed.

Lemma part_run_local k i p w1 w2 :
  place_ok i p → same_view i w1 w2 →
  (part_run k i (p, w1)).1 = (part_run k i (p, w2)).1 ∧
  same_view i (part_run k i (p, w1)).2 (part_run k i (p, w2)).2.
Proof.
  revert p w1 w2. induction k as [|k IH]; intros p w1 w2 Hok Hv; [done|]. simpl.
  destruct (part_step_local i p w1 w2 Hok Hv) as [Hp Hv'].
  pose proof (part_step_ok i p w1 Hok) as Hok'.
  destruct (part_step i p w1) as [p1 w1'], (part_step i p w2) as [p2 w2'].
  simpl in *. subst p2. by apply IH.
Qed.

Lemma part_run_frame k i p w :
  place_ok i p → changes_only (part_name i) w (part_run k i (p, w)).2.
Proof.
  revert p w. induction k as [|k IH]; intros p w Hok; [done|]. simpl.
  pose proof (part_step_frame i p w Hok) as Hframe.
  pose proof (part_step_ok i p w Hok) as Hok'.
  destruct (part_step i p w) as [p' w']. simpl in *.
  etransitivity; [done|]. by apply IH.
Qed.

(** What another goroutine changes is outside the view. *)
Lemma same_view_frame i j w1 w w' :
  0 ≤ i → 0 ≤ j → i ≠ j →
  same_view i w1 w → changes_only (part_name j) w w' → same_view i w1 w'.
Proof.
  intros ??? (Hin & Hpart & Hr & Hw) (Hr' & Hw' & Hfiles).
  split_and!; [|..|congruence|congruence].
  - rewrite Hfiles; [done|]. apply not_eq_sym, segmentFileName_fresh.
  - rewrite Hfiles; [done|]. intros Heq. by apply segmentFileName_eq_inv in Heq.
Qed.

(** ** Every goroutine follows its run on its own *)

(** A system of [n] goroutines started in the store [w0], with fuel enough
    for [compressPart] on every segment of the plan. *)
Section system.
Context (fuel : nat) (n : nat) (w0 : world).
Context (Hfuel : Forall (λ seg : Segment, (Z.to_nat (seg.2 - Z.max 0 seg.1) < fuel)%nat) offset).

#[local] Abbreviation name i := (part_name (Z.of_nat i)).
#[local] Abbreviation view i := (same_view (Z.of_nat i)).
#[local] Abbreviation worker i seg := (compressPartG fuel g inputFile (Z.of_nat i) seg level).

(** Goroutine [i] alone in [w0], from its start to its first send or its
    panic. *)
Definition solo (i : nat) : place * world := part_run (2 * fuel + 2) (Z.of_nat i) (AtOpen, w0).

Lemma plan_fuel i seg w :
  lookupZ offset (Z.of_nat i) = Some seg → (worker i seg w).1 ≠ OutOfFuel.
Proof.
  intros [_ Hseg]%lookupZ_Some. apply compressPartG_fuel.
  by apply (Forall_lookup_1 _ _ _ _ Hfuel Hseg).
Qed.

Lemma solo_compressPart i seg :
  lookupZ offset (Z.of_nat i) = Some seg →
  solo i = (place_of (Z.of_nat i) (worker i seg w0).1, (worker i seg w0).2).
Proof. intros Hseg. apply compressPartG_steps; [done|]. by apply plan_fuel. Qed.

Lemma solo_no_segment i :
  lookupZ offset (Z.of_nat i) = None → solo i = (AtPanic PanicIndexOutOfRange, w0).
Proof.
  intros Hseg. unfold solo. rewrite Nat.add_comm. simpl. rewrite Hseg.
  by apply part_run_returned.
Qed.

Lemma solo_returned i : returned (solo i).1.
Proof.
  destruct (lookupZ offset (Z.of_nat i)) as [seg|] eqn:Hseg.
  - rewrite (solo_compressPart i seg Hseg). by apply place_of_returned, plan_fuel.
  - by rewrite solo_no_segment.
Qed.

(** A run that has come to a send or a panic has come to the end of
    [solo]. *)
Lemma solo_stable k i :
  returned (part_run k (Z.of_nat i) (AtOpen, w0)).1 → part_run k (Z.of_nat i) (AtOpen, w0) = solo i.
Proof.
  intros Hret. destruct (decide (k ≤ 2 * fuel + 2)%nat).
  - symmetry. by apply part_run_stable.
  - apply part_run_stable; [apply solo_returned|lia].
Qed.

(** The places from which a goroutine goes on to its sends. *)
Definition sending (q : place) : Prop :=
  match q with AtSendName _ | AtSendErr _ => True | _ => False end.

(** The place [p] of a goroutine against the place [q] of its run on its
    own: the same, or one or two sends later. *)
Definition follows (q p : place) : Prop :=
  match p with
  | Gone => sending q
  | AtSendEmpty => ∃ e, q = AtSendErr e
  | _ => p = q
  end.

(** Goroutine [i] at [p] in the store [w] has done some steps of its run on
    its own, and sees what it would see there. *)
Definition tracks (i : nat) (p : place) (w : world) : Prop :=
  ∃ k, view i (part_run k (Z.of_nat i) (AtOpen, w0)).2 w ∧
       follows (part_run k (Z.of_nat i) (AtOpen, w0)).1 p.

Lemma follows_running q p : ¬ returned p → follows q p → p = q.
Proof. by destruct p. Qed.

Lemma follows_refl p : p ≠ Gone → p ≠ AtSendEmpty → follows p p.
Proof. by destruct p. Qed.

(** A step on the store is not a send. *)
Lemma part_step_place i p w :
  ¬ returned p → (part_step i p w).1 ≠ Gone ∧ (part_step i p w).1 ≠ AtSendEmpty.
Proof.
  destruct p as [|[??]| | | | | | |]; simpl; try done; intros _.
  all: unfold os_Open, os_Create, file_Read, file_Write, file_Seek; by repeat case_match.
Qed.

Lemma tracks_init i : tracks i AtOpen w0.
Proof. by exists 0%nat. Qed.

Lemma tracks_step i p w :
  tracks i p w → ¬ returned p →
  tracks i (part_step (Z.of_nat i) p w).1 (part_step (Z.of_nat i) p w).2.
Proof.
  intros (k & Hv & Hp) Hrun. apply follows_running in Hp as ->; [|done].
  exists (S k). rewrite part_run_S.
  destruct (part_step_local (Z.of_nat i) _ _ _
              (part_run_ok k _ AtOpen w0 I) Hv) as [-> Hv'].
  split; [done|]. by apply follows_refl; apply part_step_place.
Qed.

Lemma tracks_frame i j p w w' :
  i ≠ j → tracks i p w → changes_only (name j) w w' → tracks i p w'.
Proof.
  intros ? (k & Hv & Hp) Hframe. exists k. split; [|done].
  eapply same_view_frame; [| |by intros ?%(inj Z.of_nat)|done..]; lia.
Qed.

Lemma tracks_solo i p w : tracks i p w → returned p → view i (solo i).2 w ∧ follows (solo i).1 p.
Proof.
  intros (k & Hv & Hp) Hret. rewrite <-(solo_stable k); [done|].
  destruct p; simpl in *; try done;
    first [by rewrite <-Hp|by destruct Hp as [? ->]|by destruct (part_run _ _ _).1].
Qed.

Lemma tracks_ok i p w : tracks i p w → place_ok (Z.of_nat i) p.
Proof.
  intros (k & _ & Hp). destruct (decide (returned p)) as [|Hrun]; [by destruct p|].
  apply follows_running in Hp as ->; [|done]. by apply part_run_ok.
Qed.

(** ** The invariant of the system *)

(** What a goroutine sends from a place: the name of its part file, or its
    error and then the empty name. *)
Definition sent_name (q : place) : string :=
  match q with AtSendName outfile => outfile | _ => "" end.

Definition sent_err (q : place) : list error :=
  match q with AtSendErr err => [err] | _ => [] end.

(** What goroutine [i] has sent on each channel when it is at [p]. *)
Definition names_of (i : nat) (p : place) : list string :=
  match p with Gone => [sent_name (solo i).1] | _ => [] end.

Definition errs_of (i : nat) (p : place) : list error :=
  match p with AtSendEmpty | Gone => sent_err (solo i).1 | _ => [] end.

(** The store is [w0] but for the part files of the goroutines. *)
Definition outside (w : world) : Prop :=
  unreadable w = unreadable w0 ∧ unwritable w = unwritable w0 ∧
  ∀ f, (∀ i, (i < n)%nat → f ≠ name i) → files w !! f = files w0 !! f.

(** Every goroutine follows its run on its own, and the channels hold what
    the goroutines have sent, in some order. *)
Record fine_inv (s : fine) : Prop := mkFineInv {
  inv_length : length (fine_places s) = n;
  inv_tracks : ∀ i p, fine_places s !! i = Some p → tracks i p (fine_world s);
  inv_outside : outside (fine_world s);
  inv_names : outputFileName (fine_chan s) ≡ₚ mjoin (imap names_of (fine_places s));
  inv_errs : errChan (fine_chan s) ≡ₚ mjoin (imap errs_of (fine_places s));
  inv_crashed : ∀ p, fine_crashed s = Some p → ∃ i, fine_places s !! i = Some (AtPanic p);
}.

Lemma outside_frame i w w' :
  (i < n)%nat → outside w → changes_only (name i) w w' → outside w'.
Proof.
  intros ? (Hr & Hw & Hfiles) (Hr' & Hw' & Hfiles'). split_and!; [congruence..|].
  intros f Hf. rewrite Hfiles' by (by apply Hf). by apply Hfiles.
Qed.

Lemma sent_insert {A} (f : nat → place → list A) (ps : list place) i p p' l more :
  ps !! i = Some p → f i p' = f i p ++ more → l ≡ₚ mjoin (imap f ps) →
  l ++ more ≡ₚ mjoin (imap f (<[i := p']> ps)).
Proof.
  intros Hi Hf ->. rewrite imap_insert, Hf, join_insert_app; [done|].
  by rewrite list_lookup_imap, Hi.
Qed.

(** Goroutine [i] moves from [p] to [p'], changes its part file at most and
    sends [names] and [errs]. *)
Lemma fine_inv_move s i p p' w' ch' names errs :
  fine_inv s → fine_places s !! i = Some p →
  tracks i p' w' → changes_only (name i) (fine_world s) w' →
  names_of i p' = names_of i p ++ names → errs_of i p' = errs_of i p ++ errs →
  outputFileName ch' = outputFileName (fine_chan s) ++ names →
  errChan ch' = errChan (fine_chan s) ++ errs →
  fine_inv (mkFine w' (<[i := p']> (fine_places s)) ch' None).
Proof.
  intros [Hlen Htr Hout Hnames Herrs _] Hi Hp' Hframe Hn He Hcn Hce.
  split; simpl; [| | | | |done].
  - by rewrite length_insert.
  - intros j q [(<- & <- & _)|[? Hj]]%list_lookup_insert_Some; [done|].
    eapply tracks_frame; [|by apply Htr|done]. done.
  - eapply outside_frame; [|done..]. rewrite <-Hlen. by eapply lookup_lt_Some.
  - rewrite Hcn. by eapply sent_insert.
  - rewrite Hce. by eapply sent_insert.
Qed.

Lemma fine_inv_part_step s i p :
  fine_inv s → fine_places s !! i = Some p → ¬ returned p →
  fine_inv (mkFine (part_step (Z.of_nat i) p (fine_world s)).2
              (<[i := (part_step (Z.of_nat i) p (fine_world s)).1]> (fine_places s))
              (fine_chan s) None).
Proof.
  intros Hinv Hi Hrun. pose proof (inv_tracks s Hinv i p Hi) as Htr.
  destruct (part_step_place (Z.of_nat i) p (fine_world s) Hrun).
  apply (fine_inv_move s i p _ _ _ [] []); try done.
  - by apply tracks_step.
  - by eapply part_step_frame, tracks_ok.
  - by destruct (part_step _ _ _).1, p.
  - by destruct (part_step _ _ _).1, p.
  - by rewrite app_nil_r.
  - by rewrite app_nil_r.
Qed.

Lemma tracks_returned i p p' w :
  tracks i p w → returned p → follows (solo i).1 p' → tracks i p' w.
Proof.
  intros Htr Hret ?. destruct (tracks_solo i p w Htr Hret) as [Hv _].
  by exists (2 * fuel + 2)%nat.
Qed.

(** Goroutine [i] sends from [p] and goes to [p']. *)
Lemma fine_inv_send s i p p' ch' names errs :
  fine_inv s → fine_places s !! i = Some p → returned p →
  (follows (solo i).1 p → follows (solo i).1 p' ∧
     names_of i p' = names_of i p ++ names ∧ errs_of i p' = errs_of i p ++ errs) →
  outputFileName ch' = outputFileName (fine_chan s) ++ names →
  errChan ch' = errChan (fine_chan s) ++ errs →
  fine_inv (mkFine (fine_world s) (<[i := p']> (fine_places s)) ch' None).
Proof.
  intros Hinv Hi Hret Hsend ??. pose proof (inv_tracks s Hinv i p Hi) as Htr.
  destruct Hsend as (? & ? & ?); [by apply (tracks_solo i p (fine_world s))|].
  apply (fine_inv_move s i p _ _ _ names errs); try done.
  by apply (tracks_returned i p).
Qed.

(** Every step of the system keeps the invariant. *)
Lemma fine_fire_inv i s s' : fine_inv s → fine_fire i s = Some s' → fine_inv s'.
Proof.
  intros Hinv. unfold fine_fire, fine_move. destruct (fine_crashed s); [done|].
  destruct (fine_places s !! i) as [p|] eqn:Hi; [|done].
  destruct p; try done.
  1-4: pose proof (λ Hrun, fine_inv_part_step s i _ Hinv Hi Hrun) as Hstep;
       destruct (part_step _ _ _) as [p' w']; intros [= <-]; apply Hstep; simpl; tauto.
  - intros [= <-]. eapply (fine_inv_send s i _ _ _ [outfile] []); simpl; try done.
    + by intros <-.
    + by rewrite app_nil_r.
  - intros [= <-]. eapply (fine_inv_send s i _ _ _ [] [err]); simpl; try done.
    + intros <-. by split; [eexists|].
    + by rewrite app_nil_r.
  - intros [= <-]. eapply (fine_inv_send s i _ _ _ [""] []); simpl; try done.
    + intros [e He]. unfold names_of, errs_of. rewrite He, app_nil_r. done.
    + by rewrite app_nil_r.
  - intros [= <-]. destruct Hinv. split; simpl; try done. intros ? [= <-]. by exists i.
Qed.

Lemma sent_nothing {A} (f : nat → place → list A) (ps : list place) :
  Forall (λ p, ∀ i, f i p = []) ps → mjoin (imap f ps) = [].
Proof.
  intros Hps. apply join_nil_2, Forall_lookup. intros i l.
  rewrite list_lookup_imap. destruct (ps !! i) as [p|] eqn:Hi; intros [= <-].
  by apply (Forall_lookup_1 _ _ _ _ Hps Hi).
Qed.

Lemma fine_init_inv numThreads : Z.to_nat numThreads = n → fine_inv (fine_init numThreads w0).
Proof.
  intros Hn. unfold fine_init. rewrite Hn. split; simpl; [|..|done].
  - apply length_replicate.
  - intros i p [-> _]%lookup_replicate. apply tracks_init.
  - done.
  - by rewrite sent_nothing by (by apply Forall_replicate).
  - by rewrite sent_nothing by (by apply Forall_replicate).
Qed.

Lemma fine_step_inv s s' : fine_inv s → fine_step s s' → fine_inv s'.
Proof. intros ? [i ?]. by eapply fine_fire_inv. Qed.

Lemma fine_runs_inv s s' : fine_inv s → fine_runs s s' → fine_inv s'.
Proof. intros Hinv Hruns. induction Hruns; [done|]. eauto using fine_step_inv. Qed.

Lemma fine_exec_runs steps s : fine_runs s (fine_exec steps s).
Proof.
  revert s. induction steps as [|i steps IH]; intros s; [apply rtc_refl|]. simpl.
  destruct (fine_fire i s) as [s'|] eqn:Hfire; simpl; [|apply IH].
  eapply rtc_l; [by exists i|apply IH].
Qed.

(** ** The goroutines of [Pipeline], one after the other *)

(** A goroutine run from its start to its last send in a store of the same
    view does what [solo] does. *)
Lemma goWorker_solo i ch w :
  view i w0 w →
  ∃ w', changes_only (name i) w w' ∧ view i (solo i).2 w' ∧
    goWorker fuel g inputFile offset level (Z.of_nat i) ch w =
      (match (solo i).1 with
       | AtPanic p => Panic p
       | q => Ok (mkChannels (outputFileName ch ++ [sent_name q]) (errChan ch ++ sent_err q))
       end, w').
Proof.
  intros Hv. unfold goWorker.
  destruct (lookupZ offset (Z.of_nat i)) as [seg|] eqn:Hseg;
    [|rewrite solo_no_segment by done; by exists w].
  pose proof (compressPartG_steps _ fuel seg w Hseg (plan_fuel i seg w Hseg)) as Hw.
  destruct (part_run_local (2 * fuel + 2) (Z.of_nat i) AtOpen w0 w I Hv)
    as [Hp Hv'].
  pose proof (part_run_frame (2 * fuel + 2) (Z.of_nat i) AtOpen w I) as Hframe.
  pose proof (plan_fuel i seg w Hseg) as Hend.
  rewrite Hw in Hp, Hv', Hframe. fold (solo i) in Hp, Hv'. rewrite Hp.
  destruct (compressPartG _ _ _ _ _ _ w) as [[outfile|err|p|] w'] eqn:Hc; simpl in *; try done.
  all: exists w'; split_and!; try done.
  by rewrite (compressPartG_Ok _ _ _ _ _ _ Hc), app_nil_r.
Qed.

(** The store [w'] is [w] but for the part files of [order], which hold
    what the goroutines write on their own. *)
Definition parts_done (order : list nat) (w w' : world) : Prop :=
  unreadable w' = unreadable w ∧ unwritable w' = unwritable w ∧
  (∀ f, (∀ i, i ∈ order → f ≠ name i) → files w' !! f = files w !! f) ∧
  (∀ i, i ∈ order → files w' !! name i = files (solo i).2 !! name i).

Lemma name_inj i j : name i = name j → i = j.
Proof. intros Heq. apply segmentFileName_eq_inv in Heq; lia. Qed.

Lemma parts_done_cons i order w w1 w' :
  i ∉ order → changes_only (name i) w w1 → view i (solo i).2 w1 →
  parts_done order w1 w' → parts_done (i :: order) w w'.
Proof.
  intros Hi (Hr & Hw & Hf) (_ & Hpart & _) (Hr' & Hw' & Hf' & Hp').
  split_and!; [congruence..| |].
  - intros f Hne. rewrite Hf' by (intros j ?; apply Hne; by right).
    apply Hf, Hne. by left.
  - intros j [->|Hj]%elem_of_cons; [|by apply Hp'].
    rewrite Hf'; [done|]. by intros j Hj ->%name_inj.
Qed.

(** The goroutines of [order], each from its start to its last send, send
    what they send on their own and leave their part files. *)
Lemma runWorkers_solo order ch w :
  NoDup order → (∀ i, i ∈ order → view i w0 w) → Forall (λ i, sending (solo i).1) order →
  ∃ w', parts_done order w w' ∧
    runWorkers fuel g inputFile offset level (Z.of_nat <$> order) ch w =
      (Ok (mkChannels (outputFileName ch ++ ((λ i, sent_name (solo i).1) <$> order))
                      (errChan ch ++ mjoin ((λ i, sent_err (solo i).1) <$> order))), w').
Proof.
  revert ch w. induction order as [|i order IH]; intros ch w Hnd Hv Hs.
  { exists w. csimpl. rewrite !app_nil_r. split; [|by destruct ch].
    split_and!; [done..|by intros ? ?%elem_of_nil]. }
  apply NoDup_cons in Hnd as [Hi Hnd]. apply Forall_cons in Hs as [Hsi Hs].
  destruct (goWorker_solo i ch w) as (w1 & Hframe & Hv1 & Hgo); [apply Hv; by left|].
  set (ch1 := mkChannels (outputFileName ch ++ [sent_name (solo i).1])
                (errChan ch ++ sent_err (solo i).1)).
  assert (goWorker fuel g inputFile offset level (Z.of_nat i) ch w = (Ok ch1, w1)) as Hgo1
    by (rewrite Hgo; by destruct (solo i).1).
  destruct (IH ch1 w1 Hnd) as (w' & Hdone & Hrun); [|done|].
  { intros j Hj. eapply same_view_frame; [| | |by apply Hv; right|done]; [lia..|].
    intros ?%(inj Z.of_nat). by subst. }
  exists w'. split; [by eapply parts_done_cons|].
  csimpl. erewrite io_bind_Ok by exact Hgo1.
  rewrite Hrun. simpl. by rewrite <-!(assoc_L (++)).
Qed.

(** ** From a run of the system to a schedule *)

Lemma sent_all {A} (f : nat → place → list A) (h : nat → list A) (ps : list place) :
  Forall (λ p, p = Gone) ps → (∀ i, f i Gone = h i) →
  mjoin (imap f ps) = mjoin (h <$> seq 0 (length ps)).
Proof.
  intros Hps Hf. rewrite <-imap_seq_0. f_equal. apply imap_ext. intros i p Hi.
  by rewrite (Forall_lookup_1 _ _ _ _ Hps Hi).
Qed.

Lemma gone_solo s i :
  fine_inv s → all_gone s → (i < n)%nat →
  view i (solo i).2 (fine_world s) ∧ sending (solo i).1.
Proof.
  intros Hinv Hgone Hi. rewrite <-(inv_length s Hinv) in Hi.
  apply lookup_lt_is_Some in Hi as [p Hp].
  rewrite (Forall_lookup_1 _ _ _ _ Hgone Hp) in Hp.
  by apply (tracks_solo i Gone _ (inv_tracks s Hinv i _ Hp)).
Qed.

(** When all have gone the store is the one the goroutines leave when they
    run one after the other. *)
Lemma parts_done_all order s w' :
  order ≡ₚ seq 0 n → fine_inv s → all_gone s → parts_done order w0 w' → w' = fine_world s.
Proof.
  intros Horder Hinv Hgone (Hr & Hw & Hf & Hp).
  destruct (inv_outside s Hinv) as (Hr' & Hw' & Hf').
  apply world_eq; [|congruence..]. apply map_eq. intros f.
  destruct (decide (Exists (λ i : nat, f = name i) order)) as [Hex|Hnex].
  - apply Exists_exists in Hex as (i & Hi & ->). rewrite Hp by done.
    apply (gone_solo s i); [done..|]. rewrite Horder in Hi. apply elem_of_seq in Hi. lia.
  - apply not_Exists_Forall in Hnex; [|apply _]. rewrite Forall_forall in Hnex.
    rewrite Hf, Hf'; [done|..].
    + intros i ?. apply (Hnex i). rewrite Horder. apply elem_of_seq. lia.
    + intros i ?. by apply Hnex.
Qed.

(** A run in which every goroutine has gone: one after the other in some
    order, the goroutines leave the same store and the same names in the
    same order, and the same errors. *)
Lemma fine_gone_refines s :
  fine_inv s → all_gone s →
  ∃ order ch', order ≡ₚ seq 0 n ∧
    runWorkers fuel g inputFile offset level (Z.of_nat <$> order) (mkChannels [] []) w0 =
      (Ok ch', fine_world s) ∧
    outputFileName ch' = outputFileName (fine_chan s) ∧ errChan ch' ≡ₚ errChan (fine_chan s).
Proof.
  intros Hinv Hgone. pose proof (inv_names s Hinv) as Hnames. pose proof (inv_errs s Hinv) as Herrs.
  rewrite (sent_all _ (λ i, [sent_name (solo i).1])), join_singletons in Hnames by done.
  rewrite (sent_all _ (λ i, sent_err (solo i).1)) in Herrs by done.
  rewrite (inv_length s Hinv) in Hnames, Herrs.
  apply Permutation_fmap_inv in Hnames as (order & Horder & Hnames).
  destruct (runWorkers_solo order (mkChannels [] []) w0) as (w' & Hdone & Hrun).
  - rewrite Horder. apply NoDup_seq.
  - done.
  - apply Forall_forall. intros i Hi. rewrite Horder in Hi. apply elem_of_seq in Hi.
    apply (gone_solo s i); [done..|lia].
  - rewrite (parts_done_all order s w') in Hrun by done.
    eexists order, _. split_and!; [done..|]. simpl. by rewrite Herrs, Horder.
Qed.

(** A run in which a goroutine has panicked: run first, that goroutine
    panics in the same way. *)
Lemma fine_crashed_refines s p :
  fine_inv s → fine_crashed s = Some p →
  ∃ order w', order ≡ₚ seq 0 n ∧
    runWorkers fuel g inputFile offset level (Z.of_nat <$> order) (mkChannels [] []) w0 =
      (Panic p, w').
Proof.
  intros Hinv Hp. destruct (inv_crashed s Hinv p Hp) as [i Hi].
  destruct (tracks_solo i _ _ (inv_tracks s Hinv i _ Hi) I) as [_ Hsolo]. simpl in Hsolo.
  assert (i ∈ seq 0 n) as [order Horder]%elem_of_Permutation.
  { apply elem_of_seq. rewrite <-(inv_length s Hinv). apply lookup_lt_Some in Hi. lia. }
  destruct (goWorker_solo i (mkChannels [] []) w0) as (w' & _ & _ & Hgo); [done|].
  rewrite <-Hsolo in Hgo. exists (i :: order), w'. split; [done|].
  csimpl. by erewrite io_bind_Panic.
Qed.

Lemma collect_errs outputFile ch ch' w :
  outputFileName ch = outputFileName ch' → errChan ch ≡ₚ errChan ch' →
  collect outputFile ch w = collect outputFile ch' w.
Proof.
  unfold collect. intros -> Herrs.
  destruct (errChan ch), (errChan ch'); try done.
  - by apply Permutation_nil_cons in Herrs.
  - symmetry in Herrs. by apply Permutation_nil_cons in Herrs.
Qed.

(** The end of a run of the system is the end of a run of [Pipeline] for
    some order of the goroutines: the same outcome, and the same store
    unless a goroutine has panicked. *)
Lemma fine_finish_refines s outputFile :
  fine_inv s → ¬ (fine_crashed s = None ∧ ¬ all_gone s) →
  ∃ order, order ≡ₚ seq 0 n ∧
    let a := io_bind (runWorkers fuel g inputFile offset level (Z.of_nat <$> order)
                        (mkChannels [] [])) (collect outputFile) w0 in
    a.1 = (fine_finish outputFile s).1 ∧ (fine_crashed s = None → a = fine_finish outputFile s).
Proof.
  intros Hinv Hend. unfold fine_finish. destruct (fine_crashed s) as [p|] eqn:Hp.
  - destruct (fine_crashed_refines s p Hinv Hp) as (order & w' & Horder & Hrun).
    exists order. split; [done|]. simpl. by erewrite io_bind_Panic by exact Hrun.
  - destruct (decide (all_gone s)) as [Hgone|]; [|by destruct Hend].
    destruct (fine_gone_refines s Hinv Hgone) as (order & ch' & Horder & Hrun & Hnames & Herrs).
    exists order. split; [done|]. simpl. erewrite io_bind_Ok by exact Hrun.
    by rewrite (collect_errs _ ch' (fine_chan s)).
Qed.

End system.

(** ** Every interleaving ends *)

(** The steps a goroutine has left at most: two for each byte between the
    offset of its input and the end of its segment, and a few more. *)
Definition read_weight (endOffset pos : Z) : nat := (2 * Z.to_nat (endOffset - pos) + 5)%nat.

Definition place_weight (i : Z) (p : place) : nat :=
  match p with
  | AtOpen =>
      match lookupZ offset i with
      | Some seg => read_weight seg.2 (Z.max 0 seg.1) + 2
      | None => 2
      end
  | AtCreate seg input =>
      read_weight seg.2 (if bool_decide (seg.1 < 0) then f_pos input else seg.1) + 1
  | AtRead endOffset input _ => read_weight endOffset (f_pos input)
  | AtWrite endOffset input _ _ =>
      if bool_decide (f_pos input < endOffset) then read_weight endOffset (f_pos input) + 1
      else 4
  | AtSendErr _ => 2
  | AtSendName _ | AtSendEmpty | AtPanic _ => 1
  | Gone => 0
  end.

Definition fine_measure (s : fine) : nat :=
  (sum_list (imap (λ i, place_weight (Z.of_nat i)) (fine_places s)) +
   match fine_crashed s with Some _ => 0 | None => 1 end)%nat.

(** The program has ended: a goroutine has panicked, or all have gone. *)
Definition ended (s : fine) : Prop := is_Some (fine_crashed s) ∨ all_gone s.

#[global] Instance ended_dec s : Decision (ended s).
Proof. unfold ended. apply _. Defined.

(** The list of steps in which every goroutine is given [k] turns. *)
Definition round_robin (k n : nat) : list nat := mjoin (replicate k (seq 0 n)).

Lemma part_step_weight i p w :
  ¬ returned p → (place_weight i (part_step i p w).1 < place_weight i p)%nat.
Proof.
  destruct p as [|[s e] input|e input output|e input output buf| | | | |];
    simpl; try done; intros _; unfold read_weight.
  - unfold os_Open. repeat case_match; simplify_eq; simpl; unfold read_weight;
      repeat case_bool_decide; lia.
  - unfold os_Create, file_Seek. repeat case_match; simplify_eq; simpl; unfold read_weight;
      repeat case_bool_decide; simplify_eq; lia.
  - destruct (file_Read input g w) as [[buf err] input'] eqn:Hread.
    destruct err; simpl; try lia; case_bool_decide as Hbuf; simpl; try lia.
    all: apply file_Read_advances in Hread; [|done].
    all: assert (0 < length buf)%nat by (destruct buf; [done|simpl; lia]).
    all: unfold read_weight; case_bool_decide; lia.
  - unfold file_Seek. simpl. rewrite Z.add_0_r.
    repeat case_bool_decide; simpl; unfold read_weight; lia.
Qed.

Lemma fine_fire_measure i s s' :
  fine_fire i s = Some s' → (fine_measure s' < fine_measure s)%nat.
Proof.
  unfold fine_fire, fine_move, fine_measure. destruct (fine_crashed s); [done|].
  destruct (fine_places s !! i) as [p|] eqn:Hi; [|done].
  pose proof (λ p', sum_list_imap_insert (λ i, place_weight (Z.of_nat i)) _ i p' p Hi) as Hsum.
  pose proof (part_step_weight (Z.of_nat i) p (fine_world s)) as Hstep.
  destruct p; try done; try destruct (part_step _ _ _) as [p' w'];
    intros [= <-]; simpl in *;
    try (match goal with |- context [<[_ := ?q]> _] => specialize (Hsum q) end; simpl in Hsum); lia.
Qed.

Lemma fine_fire_length i s s' :
  fine_fire i s = Some s' → length (fine_places s') = length (fine_places s).
Proof.
  unfold fine_fire, fine_move. destruct (fine_crashed s); [done|].
  destruct (fine_places s !! i) as [p|]; [|done].
  destruct p; try done; try destruct (part_step _ _ _);
    intros [= <-]; simpl; by rewrite ?length_insert.
Qed.

(** No run is longer than the measure of its first state. *)
Lemma fine_nsteps_measure k s s' :
  nsteps fine_step k s s' → (k + fine_measure s' ≤ fine_measure s)%nat.
Proof.
  induction 1 as [|k s1 s2 s3 [i Hfire] _ IH]; [done|].
  apply fine_fire_measure in Hfire. lia.
Qed.

(** A program that has not ended has a goroutine that can move. *)
Lemma fine_progress s :
  ¬ ended s → ∃ i, (i < length (fine_places s))%nat ∧ is_Some (fine_fire i s).
Proof.
  intros Hend. destruct (fine_crashed s) as [p|] eqn:Hp; [by destruct Hend; left|].
  destruct (decide (all_gone s)) as [|Hgone]; [by destruct Hend; right|].
  apply not_Forall_Exists, Exists_exists in Hgone as (p & [i Hi]%list_elem_of_lookup & Hne);
    [|apply _].
  exists i. split; [by eapply lookup_lt_Some|]. unfold fine_fire, fine_move. rewrite Hp, Hi.
  destruct p; simpl in Hne; try done; by destruct (part_step _ _ _).
Qed.

Lemma fine_exec_length steps s : length (fine_places (fine_exec steps s)) = length (fine_places s).
Proof.
  revert s. induction steps as [|i steps IH]; intros s; [done|]. simpl. rewrite IH.
  destruct (fine_fire i s) eqn:Hfire; [by eapply fine_fire_length|done].
Qed.

Lemma fine_exec_measure steps s : (fine_measure (fine_exec steps s) ≤ fine_measure s)%nat.
Proof.
  revert s. induction steps as [|i steps IH]; intros s; [done|]. simpl.
  etransitivity; [apply IH|]. destruct (fine_fire i s) eqn:Hfire; [|done].
  apply Nat.lt_le_incl. by eapply fine_fire_measure.
Qed.

(** A turn given to a goroutine that can move is a step. *)
Lemma fine_exec_moves steps s i :
  i ∈ steps → is_Some (fine_fire i s) → (fine_measure (fine_exec steps s) < fine_measure s)%nat.
Proof.
  revert s. induction steps as [|j steps IH]; intros s; [by intros ?%elem_of_nil|].
  intros Hi Hfire. simpl. destruct (fine_fire j s) as [s'|] eqn:Hj; simpl.
  - eapply Nat.le_lt_trans; [apply fine_exec_measure|by eapply fine_fire_measure].
  - apply elem_of_cons in Hi as [->|Hi]; [by rewrite Hj in Hfire; destruct Hfire|].
    by apply IH.
Qed.

Lemma ended_exec steps s : ended s → fine_exec steps s = s.
Proof.
  intros Hend. induction steps as [|i steps IH]; [done|]. simpl.
  replace (fine_fire i s) with (@None fine); [done|]. symmetry. unfold fine_fire, fine_move.
  destruct Hend as [[p ->]|Hgone]; [done|].
  destruct (fine_crashed s); [done|]. destruct (fine_places s !! i) eqn:Hi; [|done].
  by rewrite (Forall_lookup_1 _ _ _ _ Hgone Hi).
Qed.

(** With as many turns for every goroutine as the measure of the state, the
    program ends. *)
Lemma round_robin_ended k s :
  (fine_measure s ≤ k)%nat → ended (fine_exec (round_robin k (length (fine_places s))) s).
Proof.
  revert s. induction k as [|k IH]; intros s Hk.
  { left. unfold fine_measure in Hk. simpl. destruct (fine_crashed s); [done|lia]. }
  destruct (decide (ended s)) as [|Hend]; [by rewrite ended_exec|].
  destruct (fine_progress s Hend) as (i & Hi & Hfire).
  unfold round_robin, fine_exec. simpl. rewrite foldl_app.
  rewrite <-(fine_exec_length (seq 0 (length (fine_places s))) s) at 2. apply IH.
  pose proof (fine_exec_moves (seq 0 (length (fine_places s))) s i) as Hmove.
  unfold fine_exec in Hmove |- *.
  rewrite elem_of_seq in Hmove. specialize (Hmove ltac:(lia) Hfire). lia.
Qed.

(** ** Every schedule is an interleaving *)

(** The interleavings in which each goroutine takes all its steps before
    the next one starts are the schedules of [Pipeline]. *)
Section blocks.
Context (fuel : nat).
Context (Hfuel : Forall (λ seg : Segment, (Z.to_nat (seg.2 - Z.max 0 seg.1) < fuel)%nat) offset).

(** Turns enough for one goroutine, and for the goroutines of [order] one
    after the other. *)
Definition block_turns : nat := (2 * fuel + 4)%nat.

Definition block_steps (order : list nat) : list nat :=
  mjoin ((λ i, replicate block_turns i) <$> order).

(** The state when goroutine [i], which has come to [c] on its own, has
    sent what it sends or has panicked. *)
Definition finished (i : nat) (c : place * world) (places : list place) (ch : channels) : fine :=
  match c.1 with
  | AtSendErr err =>
      mkFine c.2 (<[i := Gone]> places)
        (mkChannels (outputFileName ch ++ [""]) (errChan ch ++ [err])) None
  | AtPanic p => mkFine c.2 (<[i := AtPanic p]> places) ch (Some p)
  | q => mkFine c.2 (<[i := Gone]> places) (mkChannels (outputFileName ch ++ [sent_name q]) (errChan ch)) None
  end.

Lemma fine_exec_app steps1 steps2 s :
  fine_exec (steps1 ++ steps2) s = fine_exec steps2 (fine_exec steps1 s).
Proof. apply foldl_app. Qed.

Lemma fine_exec_idle m i s : fine_fire i s = None → fine_exec (replicate m i) s = s.
Proof. intros Hfire. induction m as [|m IH]; [done|]. simpl. by rewrite Hfire. Qed.

(** Reduce a step of the system without unfolding the turns to come. *)
Ltac fine_simpl :=
  cbn [fine_move from_option id fine_world fine_places fine_chan fine_crashed
       outputFileName errChan fst snd].

Lemma fine_exec_turn m i s :
  fine_exec (replicate (S m) i) s = fine_exec (replicate m i) (default s (fine_fire i s)).
Proof. done. Qed.

Lemma fine_fire_at i w places ch p :
  places !! i = Some p →
  fine_fire i (mkFine w places ch None) = fine_move i p (mkFine w places ch None).
Proof. intros Hi. unfold fine_fire. simpl. by rewrite Hi. Qed.

Lemma fine_exec_gone m i w places ch :
  (i < length places)%nat →
  fine_exec (replicate m i) (mkFine w (<[i := Gone]> places) ch None) =
    mkFine w (<[i := Gone]> places) ch None.
Proof.
  intros ?. apply fine_exec_idle.
  by rewrite (fine_fire_at _ _ _ _ Gone) by (by rewrite list_lookup_insert_eq).
Qed.

(** Two turns or more from a place after [compressPart]: the sends, or
    the panic. *)
Lemma fine_exec_sends m i p w places ch :
  places !! i = Some p → sending p ∨ (∃ q, p = AtPanic q) → (2 ≤ m)%nat →
  fine_exec (replicate m i) (mkFine w places ch None) = finished i (p, w) places ch.
Proof.
  intros Hi Hp Hm. destruct m as [|[|m]]; [lia..|]. pose proof (lookup_lt_Some _ _ _ Hi).
  rewrite fine_exec_turn, (fine_fire_at _ _ _ _ p Hi).
  destruct p; try (by destruct Hp as [[]|[? [=]]]); unfold finished; fine_simpl.
  - by rewrite fine_exec_gone.
  - rewrite fine_exec_turn, (fine_fire_at _ _ _ _ AtSendEmpty) by (by rewrite list_lookup_insert_eq).
    fine_simpl. rewrite list_insert_insert_eq. by rewrite fine_exec_gone.
  - rewrite list_insert_id by done. by rewrite fine_exec_idle.
Qed.

(** Turns enough from a place in [compressPart]: its steps, then the
    sends or the panic. *)
Lemma fine_exec_block k m i p w places ch :
  places !! i = Some p → p ≠ Gone → p ≠ AtSendEmpty →
  returned (part_run k (Z.of_nat i) (p, w)).1 → (k + 2 ≤ m)%nat →
  fine_exec (replicate m i) (mkFine w places ch None) =
    finished i (part_run k (Z.of_nat i) (p, w)) places ch.
Proof.
  revert m p w places. induction k as [|k IH]; intros m p w places Hi Hgone Hempty Hret Hm.
  { apply fine_exec_sends; [done| |lia]. destruct p; naive_solver. }
  destruct (decide (returned p)) as [Hp|Hp].
  { rewrite part_run_returned by done. apply fine_exec_sends; [done| |lia].
    destruct p; naive_solver. }
  destruct m as [|m]; [lia|]. rewrite fine_exec_turn, (fine_fire_at _ _ _ _ p Hi).
  simpl part_run in *. destruct (part_step_place (Z.of_nat i) p w Hp).
  destruct (part_step (Z.of_nat i) p w) as [p1 w1] eqn:Hstep.
  assert (fine_move i p (mkFine w places ch None) = Some (mkFine w1 (<[i := p1]> places) ch None))
    as -> by (destruct p; simpl in *; try done; by rewrite Hstep).
  fine_simpl. rewrite (IH m p1 w1); [|by rewrite list_lookup_insert_eq by (by eapply lookup_lt_Some)
                                |done..|lia].
  unfold finished. by destruct (part_run k _ _).1; rewrite list_insert_insert_eq.
Qed.

(** A block of turns for goroutine [i] is [goWorker] of [i]. *)
Lemma fine_exec_goWorker i w places ch :
  places !! i = Some AtOpen →
  match goWorker fuel g inputFile offset level (Z.of_nat i) ch w with
  | (Ok ch', w') =>
      fine_exec (replicate block_turns i) (mkFine w places ch None) =
        mkFine w' (<[i := Gone]> places) ch' None
  | (Panic p, w') =>
      fine_exec (replicate block_turns i) (mkFine w places ch None) =
        mkFine w' (<[i := AtPanic p]> places) ch (Some p)
  | _ => False
  end.
Proof.
  intros Hi. unfold goWorker.
  destruct (lookupZ offset (Z.of_nat i)) as [seg|] eqn:Hseg.
  - assert ((compressPartG fuel g inputFile (Z.of_nat i) seg level w).1 ≠ OutOfFuel) as Hend.
    { apply lookupZ_Some in Hseg as [_ Hseg]. apply compressPartG_fuel.
      by apply (Forall_lookup_1 _ _ _ _ Hfuel Hseg). }
    pose proof (compressPartG_steps _ fuel seg w Hseg Hend) as Hrun.
    rewrite (fine_exec_block (2 * fuel + 2) _ _ AtOpen) by
      (first [done | unfold block_turns; lia | rewrite Hrun; by apply place_of_returned]).
    rewrite Hrun. destruct (compressPartG _ _ _ _ _ _ w) as [[outfile| | |] w'] eqn:Hc; try done.
    by rewrite (compressPartG_Ok _ _ _ _ _ _ Hc).
  - rewrite (fine_exec_block 1 _ _ AtOpen) by
      (first [done | unfold block_turns; lia | simpl; by rewrite Hseg]).
    simpl. by rewrite Hseg.
Qed.

(** The goroutines of [order], each in a block of turns, are [runWorkers]
    of [order]: the same channels and the same store, or the same panic in
    the same store. *)
Lemma fine_exec_runWorkers order w places ch :
  NoDup order → Forall (λ i, places !! i = Some AtOpen) order →
  match runWorkers fuel g inputFile offset level (Z.of_nat <$> order) ch w with
  | (Ok ch', w') =>
      fine_exec (block_steps order) (mkFine w places ch None) =
        mkFine w' (foldl (λ ps i, <[i := Gone]> ps) places order) ch' None
  | (Panic p, w') =>
      ∃ places' ch', fine_exec (block_steps order) (mkFine w places ch None) =
                       mkFine w' places' ch' (Some p)
  | _ => False
  end.
Proof.
  revert w places ch. induction order as [|i order IH]; intros w places ch Hnd Hopen; [done|].
  apply NoDup_cons in Hnd as [Hi Hnd]. apply Forall_cons in Hopen as [Hopen_i Hopen].
  unfold block_steps. csimpl. fold (block_steps order). rewrite fine_exec_app. unfold io_bind.
  pose proof (fine_exec_goWorker i w places ch Hopen_i) as Hblock.
  destruct (goWorker _ _ _ _ _ _ ch w) as [[ch1| |p|] w1]; try done; rewrite Hblock.
  - apply IH; [done|]. rewrite Forall_forall in Hopen |- *. intros j Hj.
    rewrite list_lookup_insert_ne by (by intros ->). by apply Hopen.
  - exists (<[i := AtPanic p]> places), ch. apply ended_exec. left. by eexists.
Qed.

Lemma lookup_foldl_gone (places : list place) (order : list nat) (j : nat) p :
  foldl (λ ps i, <[i := Gone]> ps) places order !! j = Some p →
  (j ∈ order ∧ p = Gone) ∨ ((j ∉ order) ∧ places !! j = Some p).
Proof.
  revert places. induction order as [|i order IH]; intros places Hj; simpl in Hj.
  { right. split; [apply not_elem_of_nil|done]. }
  destruct (IH _ Hj) as [[??]|[? [(<- & <- & _)|[??]]%list_lookup_insert_Some]].
  - left. split; [by right|done].
  - left. split; [by left|done].
  - right. split; [|done]. by intros [->|?]%elem_of_cons.
Qed.

Lemma foldl_gone_all (places : list place) (order : list nat) :
  (∀ i, (i < length places)%nat → i ∈ order) →
  Forall (λ p, p = Gone) (foldl (λ ps i, <[i := Gone]> ps) places order).
Proof.
  intros Hall. apply Forall_lookup. intros j p Hj.
  destruct (lookup_foldl_gone _ _ _ _ Hj) as [[_ ?]|[Hout Hp]]; [done|].
  destruct Hout. by eapply Hall, lookup_lt_Some.
Qed.

End blocks.

End fine.

(** [compressFileBlock] for a granule of [g] bytes when the goroutines move
    in the order [steps]; out of fuel when [steps] ends before the
    goroutines have gone. *)
Definition compressFileBlockF `{Codec} (g : Z) (steps : list nat)
    (inputFile outputFile : string) (compressionLevel numThreads : Z) : io world () :=
  (offset <- calculateSegmentG g inputFile numThreads;;
   if bool_decide (numThreads < 0) then io_panic PanicMakeChan
   else
     λ w, let s := fine_exec g compressionLevel inputFile offset steps (fine_init numThreads w) in
          if decide (fine_crashed s = None ∧ ¬ all_gone s) then (OutOfFuel, fine_world s)
          else fine_finish outputFile s)%io.

(** ** [compressFileBlock] under every interleaving *)

Section refinement.
Context `{Codec}.

Lemma schedule_of_order numThreads order :
  order ≡ₚ seq 0 (Z.to_nat numThreads) → schedule numThreads (Z.of_nat <$> order).
Proof.
  intros Horder. unfold schedule, seqZ. rewrite Horder.
  apply reflexive_eq, list_fmap_ext. intros _ i _. lia.
Qed.

Lemma calculateSegmentG_world g inputFile numThreads w :
  (calculateSegmentG g inputFile numThreads w).2 = w.
Proof. unfold calculateSegmentG, os_Stat. by destruct (files w !! inputFile). Qed.

(** The two models after the plan: the goroutines, then the end. *)
Definition after_plan {A} (r : outcome (list Segment) * world) (numThreads : Z)
    (k : list Segment → world → outcome A * world) : outcome A * world :=
  match r with
  | (Ok offset, w) =>
      if bool_decide (numThreads < 0) then (Panic PanicMakeChan, w) else k offset w
  | (Err e, w) => (Err e, w)
  | (Panic p, w) => (Panic p, w)
  | (OutOfFuel, w) => (OutOfFuel, w)
  end.

Lemma compressFileBlockG_after_plan fuel g sched inputFile outputFile level numThreads w :
  compressFileBlockG fuel g sched inputFile outputFile level numThreads w =
    after_plan (calculateSegmentG g inputFile numThreads w) numThreads (λ offset,
      io_bind (runWorkers fuel g inputFile offset level sched (mkChannels [] []))
        (collect outputFile)).
Proof.
  unfold compressFileBlockG, after_plan. unfold io_bind at 1.
  destruct (calculateSegmentG _ _ _ _) as [[| | |] ?]; try done. by case_bool_decide.
Qed.

Lemma compressFileBlockF_after_plan g steps inputFile outputFile level numThreads w :
  compressFileBlockF g steps inputFile outputFile level numThreads w =
    after_plan (calculateSegmentG g inputFile numThreads w) numThreads (λ offset w,
      let s := fine_exec g level inputFile offset steps (fine_init numThreads w) in
      if decide (fine_crashed s = None ∧ ¬ all_gone s) then (OutOfFuel, fine_world s)
      else fine_finish outputFile s).
Proof.
  unfold compressFileBlockF, after_plan, io_bind.
  destruct (calculateSegmentG _ _ _ _) as [[| | |] ?]; try done. by case_bool_decide.
Qed.

(** From every complete interleaving to a schedule: the same outcome, and
    the same store unless the program panics. *)
Lemma compressFileBlockF_refines fuel g steps inputFile outputFile level numThreads w :
  (∀ offset, (calculateSegmentG g inputFile numThreads w).1 = Ok offset →
     Forall (λ seg : Segment, (Z.to_nat (seg.2 - Z.max 0 seg.1) < fuel)%nat) offset) →
  (compressFileBlockF g steps inputFile outputFile level numThreads w).1 ≠ OutOfFuel →
  ∃ sched, schedule numThreads sched ∧
    let r := compressFileBlockF g steps inputFile outputFile level numThreads w in
    let a := compressFileBlockG fuel g sched inputFile outputFile level numThreads w in
    a.1 = r.1 ∧ ((∀ p, r.1 ≠ Panic p) → a = r).
Proof.
  intros Hfuel. cbv zeta. setoid_rewrite compressFileBlockG_after_plan.
  rewrite compressFileBlockF_after_plan.
  pose proof (calculateSegmentG_world g inputFile numThreads w) as Hw.
  pose proof (schedule_of_order numThreads _ (reflexivity _)) as Hsched.
  destruct (calculateSegmentG g inputFile numThreads w) as [[offset| | |] w1];
    try (by exists (Z.of_nat <$> seq 0 (Z.to_nat numThreads))).
  simpl in *. subst w1. case_bool_decide; [by eexists|].
  set (s := fine_exec _ _ _ _ _ _). case_decide as Hend; [done|]. intros _.
  destruct (fine_finish_refines g level inputFile offset fuel (Z.to_nat numThreads) w
              (Hfuel offset eq_refl) s outputFile) as (order & Horder & Ha1 & Ha); [|done|].
  { apply (fine_runs_inv g level inputFile offset fuel (Z.to_nat numThreads) w
             (Hfuel offset eq_refl) (fine_init numThreads w));
      [by apply fine_init_inv|apply fine_exec_runs]. }
  exists (Z.of_nat <$> order). split; [by apply schedule_of_order|].
  split; [done|]. intros Hp. apply Ha. unfold fine_finish in Hp.
  destruct (fine_crashed s) as [p|]; [by destruct (Hp p)|done].
Qed.

(** Enough fuel for every segment of a plan. *)
Lemma plan_has_fuel (offset : list Segment) :
  ∃ fuel, Forall (λ seg : Segment, (Z.to_nat (seg.2 - Z.max 0 seg.1) < fuel)%nat) offset.
Proof.
  induction offset as [|seg offset [fuel IH]]; [by exists 0%nat|].
  exists (fuel `max` S (Z.to_nat (seg.2 - Z.max 0 seg.1)))%nat. constructor; [lia|].
  eapply Forall_impl; [done|]. simpl. lia.
Qed.

Lemma chain_has_fuel plan fileSize fuel :
  chain 0 plan fileSize → (Z.to_nat fileSize < fuel)%nat →
  Forall (λ seg : Segment, (Z.to_nat (seg.2 - Z.max 0 seg.1) < fuel)%nat) plan.
Proof.
  intros Hc%chain_Forall_bounds ?. eapply Forall_impl; [done|]. simpl. lia.
Qed.

(** The states of the system of [numThreads] goroutines on the plan
    [offset] satisfy the invariant, for some fuel. *)
Lemma fine_reachable_inv g level inputFile offset numThreads w s :
  fine_runs g level inputFile offset (fine_init numThreads w) s →
  ∃ fuel, fine_inv g level inputFile offset fuel (Z.to_nat numThreads) w s.
Proof.
  intros Hruns. destruct (plan_has_fuel offset) as [fuel Hfuel]. exists fuel.
  eapply fine_runs_inv; [done|by apply fine_init_inv|done].
Qed.

Lemma sent_length {A} (f : nat → place → list A) (ps : list place) :
  (∀ i p, length (f i p) ≤ 1)%nat → (length (mjoin (imap f ps)) ≤ length ps)%nat.
Proof.
  revert f. induction ps as [|p ps IH]; intros f Hf; [done|]. csimpl.
  rewrite length_app. pose proof (Hf 0%nat p). specialize (IH (f ∘ S) (λ i, Hf (S i))). lia.
Qed.

Lemma fine_finish_ends outputFile (s : fine) :
  (fine_finish outputFile s).1 ≠ OutOfFuel.
Proof.
  unfold fine_finish, collect. destruct (fine_crashed s); [done|].
  destruct (errChan (fine_chan s)); [|done].
  pose proof (concatenateFiles_returns (outputFileName (fine_chan s)) outputFile (fine_world s)).
  by destruct (concatenateFiles _ _ _) as [[] ?].
Qed.

(** Given turns enough, the goroutines go or panic, and
    [compressFileBlock] ends. *)
Lemma compressFileBlockF_round_robin g inputFile outputFile level numThreads w :
  ∃ k, (compressFileBlockF g (round_robin k (Z.to_nat numThreads)) inputFile outputFile level
          numThreads w).1 ≠ OutOfFuel.
Proof.
  setoid_rewrite compressFileBlockF_after_plan. unfold after_plan.
  destruct (calculateSegmentG g inputFile numThreads w) as [[offset| | |] w1] eqn:Hplan;
    try by exists 0%nat.
  - case_bool_decide; [by exists 0%nat|].
    exists (fine_measure offset (fine_init numThreads w1)). cbv zeta.
    pose proof (round_robin_ended g level inputFile offset _ (fine_init numThreads w1)
                  (reflexivity _)) as Hend.
    simpl in Hend. rewrite length_replicate in Hend.
    case_decide as Hrun; [|by apply fine_finish_ends].
    destruct Hrun as [Hnone Hgone]. destruct Hend as [[p Hp]|]; [|done]. by rewrite Hp in Hnone.
  - pose proof (f_equal fst Hplan) as Hout. unfold calculateSegmentG, os_Stat in Hout.
    destruct (files w !! inputFile); simpl in Hout; [|done].
    unfold divideSegments, quot64, rem64 in Hout.
    repeat (case_match; simplify_eq/=); done.
Qed.

Lemma schedule_order numThreads sched :
  schedule numThreads sched →
  ∃ order, order ≡ₚ seq 0 (Z.to_nat numThreads) ∧ sched = Z.of_nat <$> order.
Proof.
  unfold schedule, seqZ. intros (order & Horder & ->)%Permutation_fmap_inv.
  exists order. split; [done|]. apply list_fmap_ext. intros _ i _. lia.
Qed.

(** Every schedule is an interleaving: what [Pipeline]'s
    [compressFileBlock] does for an order [sched] of the goroutines is what
    the goroutines do when each takes all its steps in one block of turns,
    in that order. *)
Lemma compressFileBlockG_interleaves fuel g sched inputFile outputFile level
    numThreads w :
  (∀ offset, (calculateSegmentG g inputFile numThreads w).1 = Ok offset →
     Forall (λ seg : Segment, (Z.to_nat (seg.2 - Z.max 0 seg.1) < fuel)%nat) offset) →
  schedule numThreads sched →
  ∃ steps, compressFileBlockF g steps inputFile outputFile level numThreads w =
           compressFileBlockG fuel g sched inputFile outputFile level numThreads w.
Proof.
  intros Hfuel (order & Horder & ->)%schedule_order.
  setoid_rewrite compressFileBlockG_after_plan. setoid_rewrite compressFileBlockF_after_plan.
  destruct (calculateSegmentG g inputFile numThreads w) as [[offset| | |] w1]; try by exists [].
  simpl. case_bool_decide; [by exists []|]. exists (block_steps fuel order).
  assert (NoDup order) as Hnd by (rewrite Horder; apply NoDup_seq).
  assert (Forall (λ i, replicate (Z.to_nat numThreads) AtOpen !! i = Some AtOpen) order) as Hopen.
  { apply Forall_forall. intros i Hi. rewrite Horder in Hi. apply elem_of_seq in Hi.
    apply lookup_replicate. split; [done|lia]. }
  pose proof (fine_exec_runWorkers g level inputFile offset fuel (Hfuel offset eq_refl) order w1
                _ (mkChannels [] []) Hnd Hopen) as Hrun.
  unfold io_bind, fine_init.
  destruct (runWorkers _ _ _ _ _ _ _ w1) as [[ch'| |p|] w']; try done.
  - rewrite Hrun, decide_False; [done|]. intros [_ []]. apply foldl_gone_all.
    intros i Hi. rewrite length_replicate in Hi. rewrite Horder. apply elem_of_seq. lia.
  - destruct Hrun as (places' & ch' & ->). by rewrite decide_False by (by intros [[=] _]).
Qed.

(** C2. Refinement: the coarse model of [compressFileBlock], in which each
    goroutine runs from its start to its last send before the next one
    starts, loses nothing and adds nothing.  With fuel enough for
    [compressPart] on every segment of the plan: let the goroutines move one
    system call or one send at a time in any order [steps] that takes them
    to their end or to a panic; there is an order [sched] of the goroutines
    for which [Pipeline]'s [compressFileBlock] has the same outcome, and the
    same store as well unless the program panics.  The other way round,
    what [Pipeline]'s [compressFileBlock] does for an order [sched] is what
    the goroutines do when each takes all its steps in one block of turns,
    in that order: the same outcome and the same store, also when a
    goroutine panics. *)
Theorem compressFileBlock_refines fuel g inputFile outputFile level numThreads w :
  (∀ offset, (calculateSegmentG g inputFile numThreads w).1 = Ok offset →
     Forall (λ seg : Segment, (Z.to_nat (seg.2 - Z.max 0 seg.1) < fuel)%nat) offset) →
  (∀ steps,
     (compressFileBlockF g steps inputFile outputFile level numThreads w).1 ≠ OutOfFuel →
     ∃ sched, schedule numThreads sched ∧
       let r := compressFileBlockF g steps inputFile outputFile level numThreads w in
       let a := compressFileBlockG fuel g sched inputFile outputFile level numThreads w in
       a.1 = r.1 ∧ ((∀ p, r.1 ≠ Panic p) → a = r)) ∧
  (∀ sched, schedule numThreads sched →
     ∃ steps, compressFileBlockF g steps inputFile outputFile level numThreads w =
              compressFileBlockG fuel g sched inputFile outputFile level numThreads w).
Proof.
  intros Hfuel. split; [intros steps|intros sched].
  - by apply compressFileBlockF_refines.
  - by apply compressFileBlockG_interleaves.
Qed.

(** In a store in which every worker succeeds a complete interleaving
    ends in the store in which the schedules of [Pipeline] end. *)
Lemma compressFileBlockF_ready g steps inputFile outputFile level numThreads data w :
  block_ready g inputFile outputFile numThreads data w →
  (compressFileBlockF g steps inputFile outputFile level numThreads w).1 ≠ OutOfFuel →
  ∃ plan, chain 0 plan (Z.of_nat (length data)) ∧
    compressFileBlockF g steps inputFile outputFile level numThreads w =
      (Ok (), block_world g level inputFile outputFile data numThreads plan w).
Proof.
  intros Hready Hend. pose proof Hready as ((Hin & _) & _).
  pose proof (compressFileBlockG_ready g level inputFile outputFile data w numThreads
                (S (length data)) Hready (Nat.lt_succ_diag_r _)) as Hrun.
  destruct (Hrun (seqZ 0 numThreads)) as (plan & Hplan & Hchain & _); [by unfold schedule|].
  destruct (compressFileBlockF_refines (S (length data)) g steps inputFile outputFile level
              numThreads w) as (sched & Hsched & Ha1 & Ha); [|done|].
  { intros offset. rewrite (calculateSegmentG_Some _ _ _ _ data Hin). simpl.
    rewrite Hplan. intros [= <-]. eapply chain_has_fuel; [done|lia]. }
  destruct (Hrun sched Hsched) as (plan' & _ & Hchain' & Hsched_run).
  cbv zeta in Ha1, Ha. rewrite Hsched_run in Ha1, Ha.
  rewrite <-Ha by (intros p; by rewrite <-Ha1). by exists plan'.
Qed.

(** C3. Block mode under every interleaving: in a store in which every
    worker succeeds there are orders of steps that take the goroutines to
    their end, and whatever the order in which the goroutines take their
    steps, once they have gone [compressFileBlock] returns without error
    and the output it leaves decodes to the input. *)
Theorem compressFileBlock_interleaved_roundtrip g inputFile outputFile level numThreads data w :
  block_ready g inputFile outputFile numThreads data w →
  (∃ steps, (compressFileBlockF g steps inputFile outputFile level numThreads w).1 ≠ OutOfFuel) ∧
  ∀ steps, (compressFileBlockF g steps inputFile outputFile level numThreads w).1 ≠ OutOfFuel →
    ∃ out w',
      compressFileBlockF g steps inputFile outputFile level numThreads w = (Ok (), w') ∧
      files w' !! outputFile = Some out ∧ decodeAll out = Some data.
Proof.
  intros Hready. split.
  { destruct (compressFileBlockF_round_robin g inputFile outputFile level numThreads w). eauto. }
  intros steps Hend.
  destruct (compressFileBlockF_ready g steps inputFile outputFile level numThreads data w)
    as (plan & Hchain & ->); [done..|].
  eexists _, _. split_and!; [done|by apply block_world_output|].
  by apply (block_output_decodes g _ inputFile outputFile data w numThreads
              (S (length data)) Hready (Nat.lt_succ_diag_r _)).
Qed.

(** C15. Every interleaving ends: each step of the system, whichever
    goroutine takes it, lowers a measure of the state, so no interleaving is
    longer than the measure of the first state, which is at most two steps
    for each byte of each segment and eight more for each goroutine; a
    program that has not ended has a goroutine that can move; and when
    every goroutine is given that many turns, every goroutine has gone or
    one has panicked. *)
Theorem compressFileBlock_interleavings_end g level inputFile offset numThreads w :
  let s0 := fine_init numThreads w in
  (∀ k s, nsteps (fine_step g level inputFile offset) k s0 s → (k ≤ fine_measure offset s0)%nat) ∧
  (∀ s, fine_runs g level inputFile offset s0 s → ¬ ended s →
     ∃ s', fine_step g level inputFile offset s s') ∧
  ended (fine_exec g level inputFile offset
           (round_robin (fine_measure offset s0) (Z.to_nat numThreads)) s0).
Proof.
  split_and!.
  - intros k s Hk%fine_nsteps_measure. lia.
  - intros s _ (i & _ & [s' Hfire])%(fine_progress g level inputFile offset). by exists s', i.
  - pose proof (round_robin_ended g level inputFile offset _ (fine_init numThreads w)
                  (reflexivity _)) as Hend.
    simpl in Hend. by rewrite length_replicate in Hend.
Qed.

(** No send waits: the two channels of [compressFileBlock] are made
    with room for [numThreads] values, and in every state of every
    interleaving each of them holds at most [numThreads] values. *)
Theorem compressFileBlock_channels_bounded g level inputFile offset numThreads w s :
  fine_runs g level inputFile offset (fine_init numThreads w) s →
  (length (outputFileName (fine_chan s)) ≤ Z.to_nat numThreads)%nat ∧
  (length (errChan (fine_chan s)) ≤ Z.to_nat numThreads)%nat.
Proof.
  intros [fuel Hinv]%fine_reachable_inv.
  rewrite (inv_names _ _ _ _ _ _ _ _ Hinv), (inv_errs _ _ _ _ _ _ _ _ Hinv).
  rewrite <-(inv_length _ _ _ _ _ _ _ _ Hinv).
  split; apply sent_length; intros i p; unfold names_of, errs_of, sent_err;
    repeat case_match; simpl; lia.
Qed.

(** C16. The places are well formed: in every state of every interleaving
    there is one place per goroutine, the handles of goroutine [i] are open
    on the input and on the part file of [i] and of no other goroutine, and
    a program that has ended by a panic has a goroutine at that panic. *)
Theorem compressFileBlock_places_ok g level inputFile offset numThreads w s :
  fine_runs g level inputFile offset (fine_init numThreads w) s →
  length (fine_places s) = Z.to_nat numThreads ∧
  (∀ i p, fine_places s !! i = Some p → place_ok inputFile (Z.of_nat i) p) ∧
  (∀ p, fine_crashed s = Some p → ∃ i, fine_places s !! i = Some (AtPanic p)).
Proof.
  intros [fuel Hinv]%fine_reachable_inv. destruct Hinv as [Hlen Htr _ _ _ Hcrash].
  split_and!; [done| |done]. intros i p Hi. by eapply tracks_ok, Htr.
Qed.

End refinement.

(** ** The goroutines at work *)

(** The store of [Worker]'s runs, two goroutines and buffers of two bytes:
    the plan is [(0, 4); (4, 5)].  The goroutines take their steps in the
    order [demo_steps]. *)
Definition demo_steps : list nat := [0; 1; 1; 0; 0; 1; 0; 1; 1; 0; 0; 0]%nat.

Lemma compressFileBlock_refines_witness :
  (∃ sched, schedule 2 sched ∧
     let r := compressFileBlockF 2 demo_steps "in.bin" "out.zst" 3 2 demo_world in
     let a := compressFileBlockG 6 2 sched "in.bin" "out.zst" 3 2 demo_world in
     a.1 = r.1 ∧ ((∀ p, r.1 ≠ Panic p) → a = r)) ∧
  (∃ steps, compressFileBlockF 2 steps "in.bin" "out.zst" 3 2 demo_world =
            compressFileBlockG 6 2 [1; 0] "in.bin" "out.zst" 3 2 demo_world).
Proof.
  destruct (compressFileBlock_refines 6 2 "in.bin" "out.zst" 3 2 demo_world) as [Hfine Hcoarse].
  - intros offset Hplan. vm_compute in Hplan. injection Hplan as <-.
    repeat constructor; simpl; lia.
  - split; [apply Hfine; by vm_compute|apply Hcoarse; by_decide].
Defined.

Lemma compressFileBlock_interleaved_roundtrip_witness :
  (∃ steps, (compressFileBlockF 2 steps "in.bin" "out.zst" 3 2 demo_world).1 ≠ OutOfFuel) ∧
  ∀ steps, (compressFileBlockF 2 steps "in.bin" "out.zst" 3 2 demo_world).1 ≠ OutOfFuel →
    ∃ out w',
      compressFileBlockF 2 steps "in.bin" "out.zst" 3 2 demo_world = (Ok (), w') ∧
      files w' !! "out.zst" = Some out ∧ decodeAll out = Some demo_data.
Proof.
  apply (compressFileBlock_interleaved_roundtrip 2 "in.bin" "out.zst" 3 2 demo_data demo_world).
  by_decide.
Defined.

(** In the middle of [demo_steps] both goroutines hold a buffer they have
    read and not yet written, and nothing has been sent. *)
Example fine_exec_midway :
  let s := fine_exec 2 3 "in.bin" [(0, 4); (4, 5)] (take 6 demo_steps) (fine_init 2 demo_world) in
  fine_places s =
    [AtWrite 4 (mkFile "in.bin" 2) (mkFile "0-in.bin-output-segment.part0" 0) ["a"; "b"]%byte;
     AtWrite 5 (mkFile "in.bin" 5) (mkFile "1-in.bin-output-segment.part1" 0) ["e"]%byte] ∧
  fine_chan s = mkChannels [] [].
Proof. by vm_compute. Qed.

(** The second goroutine sends first: the names arrive in the order 1, 0. *)
Example fine_exec_arrival :
  outputFileName (fine_chan (fine_exec 2 3 "in.bin" [(0, 4); (4, 5)] demo_steps
                               (fine_init 2 demo_world))) =
    ["1-in.bin-output-segment.part1"; "0-in.bin-output-segment.part0"].
Proof. by vm_compute. Qed.

(** On a plan off the buffers' grid the first goroutine panics while the
    second holds a buffer to write: the program ends there, the turns left
    are not taken, and the part file of the second goroutine stays empty. *)
Definition panic_steps : list nat := [0; 1; 1; 0; 0; 1; 0; 0; 0; 0; 1; 1]%nat.

Example fine_exec_panic :
  let s := fine_exec 2 3 "in.bin" [(0, 3); (3, 5)] panic_steps (fine_init 2 demo_world) in
  fine_crashed s = Some PanicReadOverEnd ∧
  fine_places s !! 1%nat =
    Some (AtWrite 5 (mkFile "in.bin" 5) (mkFile "1-in.bin-output-segment.part1" 0) ["d"; "e"]%byte) ∧
  files (fine_world s) !! "1-in.bin-output-segment.part1" = Some [] ∧
  fine_chan s = mkChannels [] [].
Proof. by vm_compute. Qed.

Lemma compressFileBlock_channels_bounded_witness :
  let s := fine_exec 2 3 "in.bin" [(0, 4); (4, 5)] demo_steps (fine_init 2 demo_world) in
  (length (outputFileName (fine_chan s)) ≤ Z.to_nat 2)%nat ∧
  (length (errChan (fine_chan s)) ≤ Z.to_nat 2)%nat.
Proof.
  apply (compressFileBlock_channels_bounded 2 3 "in.bin" [(0, 4); (4, 5)] 2 demo_world).
  apply fine_exec_runs.
Defined.

Lemma compressFileBlock_places_ok_witness :
  let s := fine_exec 2 3 "in.bin" [(0, 3); (3, 5)] panic_steps (fine_init 2 demo_world) in
  length (fine_places s) = Z.to_nat 2 ∧
  (∀ i p, fine_places s !! i = Some p → place_ok "in.bin" (Z.of_nat i) p) ∧
  (∀ p, fine_crashed s = Some p → ∃ i, fine_places s !! i = Some (AtPanic p)).
Proof.
  apply (compressFileBlock_places_ok 2 3 "in.bin" [(0, 3); (3, 5)] 2 demo_world).
  apply fine_exec_runs.
Defined.

(** Twenty-five turns for each goroutine are enough in the store of the
    runs above. *)
Example round_robin_run :
  fine_measure [(0, 4); (4, 5)] (fine_init 2 demo_world) = 25%nat ∧
  compressFileBlockF 2 (round_robin 25 2) "in.bin" "out.zst" 3 2 demo_world =
    compressFileBlockG 6 2 [0; 1] "in.bin" "out.zst" 3 2 demo_world.
Proof. by vm_compute. Qed.
