(* ===== verification/Stream.v ===== *)
(** * Stream mode and decompression

    [compressStream] and [decompressFile] of the working program
    (src/unnamed/part_000) and of src/play/tmp/main.go, and [compress] and
    [decompress] of src/play/tmp/streammode/main.go: the whole input goes
    through one encoder or one decoder, which [io.Copy] feeds until the
    reader answers [io.EOF].

    The model reads the input to its end and then writes: the encoder's
    writes between the reads do not show in what is read, because [main]
    has created (and so emptied) the output before the first read.  A
    decoder that meets a corrupt frame has written what it decoded before
    it ([decodeWritten] of the codec): a failed decompression leaves that
    in the output. *)

From S2P Require Import Prelude Codec FileSys.

Section stream.
Context `{Codec}.

(** ** The model *)

(** The size of the buffer of [io.Copy]. *)
Definition copyBuffer : Z := 32 * 1024.

(** One turn of the loop of [io.Copy]: what was read is kept, an error or
    [io.EOF] ends the loop. *)
Definition copy_iter `{Reader R} (n : Z) (s : R * bytes * option oserr)
  : io world (loopres (R * bytes * option oserr)) :=
  λ w,
    let '(src, acc, _) := s in
    let '((buf, err), src) := read src n w in
    match err with
    | RdErr e => (Ok (Break (src, acc ++ buf, Some e)), w)
    | RdEOF => (Ok (Break (src, acc ++ buf, None)), w)
    | RdNil => (Ok (Continue (src, acc ++ buf, None)), w)
    end.

(** What [io.Copy] has taken from the reader, and the error that ended
    it. *)
Definition copyAll_from `{Reader R} (fuel : nat) (n : Z) (src : R)
  : io world (bytes * option oserr) :=
  (s <- io_loop fuel (copy_iter n) (src, [], None);;
   io_ret (s.1.2, s.2))%io.

(** The encoder [encode] between [zstd.NewWriter(output, ...)] and the
    deferred [Close]: what was read is written as one stream, then the error
    of the copy, if any, is returned. *)
Definition streamThrough `{Reader R} (encode : bytes → bytes) (fuel : nat) (n : Z)
    (input : R) (output : File) : io world File :=
  (r <- copyAll_from fuel n input;;
   output <- wrap_err (λ _, ErrCompress) (file_Write output (encode r.1));;
   match r.2 with
   | Some _ => io_fail ErrCompress
   | None => io_ret output
   end)%io.

(** [compressStream] with a copy buffer of [n] bytes. *)
Definition compressStreamG `{Reader R} (fuel : nat) (n : Z) (input : R) (output : File)
    (compressionLevel : Z) : io world File :=
  streamThrough (encodeStream compressionLevel) fuel n input output.

Definition compressStream `{Reader R} (fuel : nat) : R → File → Z → io world File :=
  compressStreamG fuel copyBuffer.

(** [compress] of the stream-mode program: the thread count, when positive,
    is an option of the encoder. *)
Definition compressG `{Reader R} (fuel : nat) (n : Z) (input : R) (output : File)
    (compressionLevel numThreads : Z) : io world File :=
  streamThrough
    (if bool_decide (0 < numThreads) then encodeConcurrent numThreads compressionLevel
     else encodeStream compressionLevel)
    fuel n input output.

Definition compress `{Reader R} (fuel : nat) : R → File → Z → Z → io world File :=
  compressG fuel copyBuffer.

(** [decompressFile] with a copy buffer of [n] bytes: the decoder reads the
    input to its end and [io.Copy] writes what it decodes; a read error and
    a corrupt stream are both the error of the copy, which is returned when
    what was decoded before it has been written. *)
Definition decompressFileG `{Reader R} (fuel : nat) (n : Z) (input : R) (output : File)
  : io world File :=
  (r <- copyAll_from fuel n input;;
   output <- wrap_err (λ _, ErrDecompress) (file_Write output (decodeWritten r.1));;
   match r.2, decodeAll r.1 with
   | None, Some _ => io_ret output
   | _, _ => io_fail ErrDecompress
   end)%io.

Definition decompressFile `{Reader R} (fuel : nat) : R → File → io world File :=
  decompressFileG fuel copyBuffer.

(** [decompress] of the stream-mode program is the same function. *)
Definition decompress `{Reader R} (fuel : nat) : R → File → io world File :=
  decompressFileG fuel copyBuffer.

End stream.

(** ** The loop of [io.Copy] *)

Section copy.
Context `{Codec} `{EofReader R}.
Context (n : Z) (Hn : 0 < n) (w : world).

(** One turn on a reader that keeps its contract. *)
Lemma copy_iter_lawful r acc err :
  valid r w →
  ∃ d r', valid r' w ∧ pending r w = d ++ pending r' w ∧
    (copy_iter n (r, acc, err) w = (Ok (Continue (r', acc ++ d, None)), w) ∧ d ≠ [] ∨
     copy_iter n (r, acc, err) w = (Ok (Break (r', acc ++ d, None)), w) ∧ pending r' w = []).
Proof.
  intros Hvalid. pose proof (read_eof r n w Hvalid Hn) as Heof.
  destruct (read_lawful r n w Hvalid Hn) as (d & e & r' & Hread & ? & ? & _ & He & _).
  rewrite Hread in Heof. destruct Heof as [Hnil Hdone].
  exists d, r'. split_and!; [done..|]. unfold copy_iter. rewrite Hread.
  destruct He as [-> | ->]; [left|right; auto].
  split; [done|]. intros Hd. by specialize (Hnil Hd).
Qed.

Definition copy_inv (P : bytes) (s : R * bytes * option oserr) (w' : world) : Prop :=
  w' = w ∧ valid s.1.1 w ∧ s.1.2 ++ pending s.1.1 w = P.

Definition copy_measure (s : R * bytes * option oserr) (w' : world) : nat :=
  length (pending s.1.1 w).

Definition copy_post (P : bytes) (o : outcome (R * bytes * option oserr)) (w' : world) : Prop :=
  w' = w ∧ ∃ s, o = Ok s ∧ s.1.2 = P ∧ s.2 = None.

Lemma copy_step_ok P :
  loop_step_ok (copy_iter n) (copy_inv P) copy_measure (copy_post P).
Proof.
  intros [[r acc] err] w' (-> & Hvalid & HP). cbn [fst snd] in *.
  destruct (copy_iter_lawful r acc err Hvalid) as (d & r' & ? & Hpend & [[-> Hd]|[-> Hdone]]).
  - split; [split_and!; [done..|]|].
    + cbn [fst snd]. by rewrite <-HP, Hpend, (assoc_L (++)).
    + unfold copy_measure. cbn [fst snd]. rewrite Hpend, length_app.
      destruct d; [done|simpl; lia].
  - split; [done|]. eexists. split_and!; [done| |done]. cbn [fst snd].
    by rewrite <-HP, Hpend, Hdone, app_nil_r.
Qed.

(** [io.Copy] takes everything that is pending, and meets no error. *)
Lemma copyAll_from_lawful fuel r :
  valid r w → (length (pending r w) < fuel)%nat →
  copyAll_from fuel n r w = (Ok (pending r w, None), w).
Proof.
  intros Hvalid Hfuel.
  destruct (io_loop_rule (copy_iter n) (copy_inv (pending r w)) copy_measure
              (copy_post (pending r w)) fuel (r, [], None) w)
    as (Hw & [[r' acc] err] & Ho & Hacc & Herr).
  - apply copy_step_ok.
  - by split_and!.
  - done.
  - unfold copyAll_from. erewrite io_bind_Ok by (by apply pair_eq).
    cbn [fst snd] in *. by subst.
Qed.

Context (fuel : nat) (input : R) (name : string) (old : bytes).
Context (Hvalid : valid input w) (Hfuel : (length (pending input w) < fuel)%nat).
Context (Hout : files w !! name = Some old).

(** An encoder fed by [io.Copy] appends the encoding of what was pending
    to the output. *)
Lemma streamThrough_ok encode :
  streamThrough encode fuel n input (mkFile name (Z.of_nat (length old))) w =
    (Ok (mkFile name (Z.of_nat (length old) + Z.of_nat (length (encode (pending input w))))),
     set_files <[name := old ++ encode (pending input w)]> w).
Proof.
  unfold streamThrough. erewrite io_bind_Ok by (by apply copyAll_from_lawful).
  erewrite io_bind_Ok by (by eapply wrap_err_inr, file_Write_append). done.
Qed.

(** The decoder fed by [io.Copy] appends the decoded stream to the
    output. *)
Lemma decompressFileG_ok decoded :
  decodeAll (pending input w) = Some decoded →
  decompressFileG fuel n input (mkFile name (Z.of_nat (length old))) w =
    (Ok (mkFile name (Z.of_nat (length old) + Z.of_nat (length decoded))),
     set_files <[name := old ++ decoded]> w).
Proof.
  intros Hdec. unfold decompressFileG.
  erewrite io_bind_Ok by (by apply copyAll_from_lawful). cbn [fst snd].
  erewrite io_bind_Ok by (by eapply wrap_err_inr, file_Write_append).
  by rewrite Hdec, (decoded_whole _ decoded).
Qed.

(** A stream that is no sequence of frames is refused, when what the
    decoder could read of it has been appended to the output. *)
Lemma decompressFileG_corrupt :
  decodeAll (pending input w) = None →
  decompressFileG fuel n input (mkFile name (Z.of_nat (length old))) w =
    (Err ErrDecompress, set_files <[name := old ++ decodeWritten (pending input w)]> w).
Proof.
  intros Hdec. unfold decompressFileG.
  erewrite io_bind_Ok by (by apply copyAll_from_lawful). cbn [fst snd].
  erewrite io_bind_Ok by (by eapply wrap_err_inr, file_Write_append).
  by rewrite Hdec.
Qed.

End copy.

(** ** What stream mode promises *)

Section stream_spec.
Context `{Codec} `{EofReader R}.
Context (n : Z) (w : world) (fuel : nat) (input : R) (name : string) (old : bytes).

(** C28. [compressStream] on a reader that keeps its contract and signals the
    end: it returns without error, appends one stream to the output and
    changes nothing else, and the stream decodes to what was pending. *)
Theorem compressStream_decodes level :
  0 < n → valid input w → (length (pending input w) < fuel)%nat →
  files w !! name = Some old →
  ∃ stream output,
    compressStreamG fuel n input (mkFile name (Z.of_nat (length old))) level w =
      (Ok output, set_files <[name := old ++ stream]> w) ∧
    decodeAll stream = Some (pending input w).
Proof.
  intros. eexists _, _. split; [by apply streamThrough_ok|apply decode_stream_whole].
Qed.

(** The same for [compress] of the stream-mode program, whatever the
    thread count. *)
Theorem compress_decodes level numThreads :
  0 < n → valid input w → (length (pending input w) < fuel)%nat →
  files w !! name = Some old →
  ∃ stream output,
    compressG fuel n input (mkFile name (Z.of_nat (length old))) level numThreads w =
      (Ok output, set_files <[name := old ++ stream]> w) ∧
    decodeAll stream = Some (pending input w).
Proof.
  intros. eexists _, _. split; [by apply streamThrough_ok|].
  case_bool_decide; [apply decode_concurrent_whole|apply decode_stream_whole].
Qed.

(** [decompressFile] appends the decoded stream to the output when the
    input is a sequence of frames; when it is not, it returns the error of
    the copy and has appended what the decoder passed on before it
    failed. *)
Theorem decompressFile_decodes :
  0 < n → valid input w → (length (pending input w) < fuel)%nat →
  files w !! name = Some old →
  match decodeAll (pending input w) with
  | Some decoded =>
      ∃ output,
        decompressFileG fuel n input (mkFile name (Z.of_nat (length old))) w =
          (Ok output, set_files <[name := old ++ decoded]> w)
  | None =>
      decompressFileG fuel n input (mkFile name (Z.of_nat (length old))) w =
        (Err ErrDecompress, set_files <[name := old ++ decodeWritten (pending input w)]> w)
  end.
Proof.
  intros. destruct (decodeAll (pending input w)) eqn:Hdec.
  - eexists. by apply decompressFileG_ok.
  - by apply decompressFileG_corrupt.
Qed.

(** C29. A failed decompression leaves a partial output: when frames that
    hold [cs] are followed by bytes the decoder cannot read,
    [decompressFile] returns its error and the output has grown by [cs]
    and by what the decoder made of the rest. *)
Theorem decompressFile_partial_output level cs rest :
  0 < n → valid input w → (length (pending input w) < fuel)%nat →
  files w !! name = Some old →
  pending input w = encodeChunks level cs ++ rest →
  decodeAll (pending input w) = None →
  decompressFileG fuel n input (mkFile name (Z.of_nat (length old))) w =
    (Err ErrDecompress, set_files <[name := old ++ concat cs ++ decodeWritten rest]> w).
Proof.
  intros ???? Hpend ?. rewrite <-(decoded_chunks level), <-Hpend. by apply decompressFileG_corrupt.
Qed.

End stream_spec.

(** ** Stream mode at work *)

Definition stream_demo : world :=
  mkWorld {[ "in.bin" := ["a"; "b"; "c"]%byte; "out.zst" := [] ]} ∅ ∅.

Lemma compressStream_decodes_witness :
  ∃ stream output,
    compressStreamG 4 2 (mkShort (mkFile "in.bin" 0) 1) (mkFile "out.zst" 0) 3 stream_demo =
      (Ok output, set_files <["out.zst" := [] ++ stream]> stream_demo) ∧
    decodeAll stream = Some (pending (mkShort (mkFile "in.bin" 0) 1) stream_demo).
Proof.
  apply (compressStream_decodes 2 stream_demo 4 (mkShort (mkFile "in.bin" 0) 1) "out.zst" [] 3);
    [lia|split; [split; [by eexists|simpl; lia]|simpl; lia]|vm_compute; lia|reflexivity].
Defined.

Lemma compress_decodes_witness :
  ∃ stream output,
    compressG 4 2 (mkFile "in.bin" 0) (mkFile "out.zst" 0) 3 8 stream_demo =
      (Ok output, set_files <["out.zst" := [] ++ stream]> stream_demo) ∧
    decodeAll stream = Some (pending (mkFile "in.bin" 0) stream_demo).
Proof.
  apply (compress_decodes 2 stream_demo 4 (mkFile "in.bin" 0) "out.zst" [] 3 8);
    [lia|split; [by eexists|simpl; lia]|vm_compute; lia|reflexivity].
Defined.

(** A store with a compressed file and a corrupt one. *)
Definition decode_demo : world :=
  mkWorld {[ "ok.zst" := encodeStream 3 ["a"; "b"; "c"]%byte;
             "bad.zst" := ["003"; "a"]%byte; "out" := [] ]} ∅ ∅.

Lemma decompressFile_decodes_witness :
  match decodeAll (pending (mkFile "bad.zst" 0) decode_demo) with
  | Some decoded =>
      ∃ output,
        decompressFileG 4 2 (mkFile "bad.zst" 0) (mkFile "out" (Z.of_nat (length (@nil byte))))
          decode_demo = (Ok output, set_files <["out" := [] ++ decoded]> decode_demo)
  | None =>
      decompressFileG 4 2 (mkFile "bad.zst" 0) (mkFile "out" (Z.of_nat (length (@nil byte))))
        decode_demo =
        (Err ErrDecompress,
         set_files <["out" := [] ++ decodeWritten (pending (mkFile "bad.zst" 0) decode_demo)]>
           decode_demo)
  end.
Proof.
  apply (decompressFile_decodes 2 decode_demo 4 (mkFile "bad.zst" 0) "out" []);
    [lia|split; [by eexists|simpl; lia]|vm_compute; lia|reflexivity].
Defined.

(** A store with a file of two frames and three bytes that are none. *)
Definition cut_demo : world :=
  mkWorld {[ "cut.zst" := encodeChunks 3 [["a"; "b"]; ["c"]]%byte ++ ["009"; "x"; "y"]%byte;
             "out" := [] ]} ∅ ∅.

Lemma decompressFile_partial_output_witness :
  decompressFileG 9 2 (mkFile "cut.zst" 0) (mkFile "out" (Z.of_nat (length (@nil byte))))
    cut_demo =
    (Err ErrDecompress,
     set_files <["out" := [] ++ concat [["a"; "b"]; ["c"]]%byte ++
                             decodeWritten ["009"; "x"; "y"]%byte]> cut_demo).
Proof.
  apply (decompressFile_partial_output 2 cut_demo 9 (mkFile "cut.zst" 0) "out" [] 3);
    [lia|split; [by eexists|simpl; lia]|vm_compute; lia|reflexivity|reflexivity|reflexivity].
Defined.

Example decompressFile_run :
  decompressFileG 9 2 (mkFile "ok.zst" 0) (mkFile "out" 0) decode_demo =
    (Ok (mkFile "out" 3), set_files <["out" := ["a"; "b"; "c"]%byte]> decode_demo) ∧
  decompressFileG 9 2 (mkFile "bad.zst" 0) (mkFile "out" 0) decode_demo =
    (Err ErrDecompress, set_files <["out" := ["a"]%byte]> decode_demo) ∧
  decompressFileG 9 2 (mkFile "cut.zst" 0) (mkFile "out" 0) cut_demo =
    (Err ErrDecompress, set_files <["out" := ["a"; "b"; "c"; "x"; "y"]%byte]> cut_demo).
Proof. by vm_compute. Qed.

(** A reader that fails: what was read before the failure is still written
    as a stream, and the error of the copy is returned. *)
Example compressStream_read_error :
  compressStreamG 4 2 (mkFile "gone" 0) (mkFile "out.zst" 0) 3 stream_demo =
    (Err ErrCompress, set_files <["out.zst" := encodeStream 3 []]> stream_demo).
Proof. by vm_compute. Qed.
