(* ===== verification/PlayMode.v ===== *)
(** * Block mode of play/tmp/main.go

    [compressFileBlock] of src/play/tmp/main.go: the file is cut into equal
    parts, one goroutine per part opens the input for itself, seeks to the
    start of its part and runs [compressSegment] on an [io.LimitReader] of
    the part's length; the compressed parts are kept in memory, in a slice
    indexed by the part, and written to the output in that order when all
    goroutines are done.

    The reader is cut at the part's end, so no alignment is asked of the
    plan.  As in [Pipeline], the goroutines are run one after the other in
    an order [sched]; a goroutine changes nothing that another reads
    ([goPart_reads_only]), so the order of their steps shows in the order
    of the errors on [errChan] only. *)

From S2P Require Import Prelude Planner Codec FileSys Worker Stream.

Module Play.

Section play.
Context `{Codec}.

(** ** The model *)

(** The memory the goroutines share: the slice [compressedData], written at
    one index by each goroutine, and what has been sent on [errChan]. *)
Record shared : Type := mkShared {
  compressedData : list bytes;
  errChan : list error;
}.

Definition send (err : error) (sh : shared) : shared :=
  mkShared (compressedData sh) (errChan sh ++ [err]).

(** The goroutine of part [i].  The pipe between [compressSegment] and the
    loop that collects its output is a buffer: [chunkData] is what
    [compressSegment] has written.  An error of [compressSegment] is sent on
    [errChan]; what was collected before it is never written out. *)
Definition goPart (fuel : nat) (g : Z) (input : File) (compressionLevel : Z)
    (fileSize numThreads partSize : Z) (i : Z) (sh : shared) : io world shared :=
  λ w,
    let '(start, end_) := partBounds fileSize numThreads partSize i in
    match os_Open (f_name input) w with
    | (inl e, w) => (Ok (send (ErrOpenInput e) sh), w)
    | (inr partFile, w) =>
        match file_Seek partFile start 0 w with
        | (inl e, _) => (Ok (send (ErrSeekInput e) sh), w)
        | (inr _, partFile) =>
            let limitedReader := LimitReader partFile (sub64 end_ start) in
            match compressSegmentG fuel g limitedReader compressionLevel w with
            | (Ok chunkData, w) =>
                if bool_decide (0 ≤ i < Z.of_nat (length (compressedData sh)))
                then (Ok (mkShared (<[Z.to_nat i := chunkData]> (compressedData sh))
                            (errChan sh)), w)
                else (Panic PanicIndexOutOfRange, w)
            | (Err err, w) => (Ok (send err sh), w)
            | (Panic p, w) => (Panic p, w)
            | (OutOfFuel, w) => (OutOfFuel, w)
            end
        end
    end.

(** The goroutines, in the order [sched] in which they run. *)
Fixpoint runParts (fuel : nat) (g : Z) (input : File) (compressionLevel : Z)
    (fileSize numThreads partSize : Z) (sched : list Z) (sh : shared) : io world shared :=
  match sched with
  | [] => io_ret sh
  | i :: sched =>
      (sh <- goPart fuel g input compressionLevel fileSize numThreads partSize i sh;;
       runParts fuel g input compressionLevel fileSize numThreads partSize sched sh)%io
  end.

(** The last loop: the parts are written to the output in index order. *)
Fixpoint writeChunks (output : File) (chunks : list bytes) : io world File :=
  match chunks with
  | [] => io_ret output
  | chunk :: chunks =>
      (output <- wrap_err ErrWriteCompressed (file_Write output chunk);;
       writeChunks output chunks)%io
  end.

(** [compressFileBlock] with a buffer of [g] bytes in [compressSegment] and
    a schedule [sched] of its goroutines.  A thread count of zero panics in
    the division, a negative one in [make(chan)]; the first error on
    [errChan] is returned. *)
Definition compressFileBlockG (fuel : nat) (g : Z) (sched : list Z) (input output : File)
    (compressionLevel numThreads : Z) : io world File :=
  (fileSize <- wrap_err ErrStatInput (os_Stat (f_name input));;
   partSize <- io_lift (quot64 fileSize numThreads);;
   if bool_decide (numThreads < 0) then io_panic PanicMakeChan
   else
     sh <- runParts fuel g input compressionLevel fileSize numThreads partSize sched
             (mkShared (replicate (Z.to_nat numThreads) []) []);;
     match errChan sh with
     | err :: _ => io_fail err
     | [] => writeChunks output (compressedData sh)
     end)%io.

Definition compressFileBlock (fuel : nat) : list Z → File → File → Z → Z → io world File :=
  compressFileBlockG fuel (1 ≪ 20).

(** [compressStream] and [decompressFile] of this program are those of the
    working program. *)
Definition compressStream `{Reader R} (fuel : nat) : R → File → Z → io world File :=
  compressStreamG fuel copyBuffer.

Definition decompressFile `{Reader R} (fuel : nat) : R → File → io world File :=
  decompressFileG fuel copyBuffer.

End play.

(** ** The goroutines read only *)

Section reads_only.
Context `{Codec}.
Context (fuel : nat) (g : Z) (input : File) (level fileSize numThreads partSize : Z).

(** A goroutine leaves the store as it was, and of the shared memory it
    changes its own cell of [compressedData] or sends one error: no
    goroutine reads what another has written. *)
Lemma goPart_reads_only i sh w :
  (goPart fuel g input level fileSize numThreads partSize i sh w).2 = w ∧
  ∀ sh', (goPart fuel g input level fileSize numThreads partSize i sh w).1 = Ok sh' →
    (∃ chunk, sh' = mkShared (<[Z.to_nat i := chunk]> (compressedData sh)) (errChan sh)) ∨
    (∃ err, sh' = send err sh).
Proof.
  unfold goPart, os_Open.
  repeat case_match; simplify_eq/=; (split; [|intros ? [= <-]; by eauto]); try done;
    match goal with
    | Hrun : compressSegmentG ?f ?b ?r ?l ?w0 = _ |- _ =>
        pose proof (compressSegmentG_world f b r l w0) as Hw; by rewrite Hrun in Hw
    end.
Qed.

Lemma runParts_world sched sh w :
  (runParts fuel g input level fileSize numThreads partSize sched sh w).2 = w.
Proof.
  revert sh. induction sched as [|i sched IH]; intros sh; [done|].
  cbn [runParts]. unfold io_bind.
  destruct (goPart_reads_only i sh w) as [Hw _].
  destruct (goPart _ _ _ _ _ _ _ _ _ _) as [[sh'|e|p|] w']; simpl in Hw; by subst.
Qed.

End reads_only.

(** ** The goroutines *)

Section run.
Context `{Codec}.
Context (g level : Z) (name : string) (data : bytes) (w : world) (fuel : nat).
Context (numThreads : Z).
Context (Hg : 0 < g) (Hfuel : (length data < fuel)%nat).
Context (Hin : files w !! name = Some data) (Hreadable : name ∉ unreadable w).
Context (HF : Z.of_nat (length data) ≤ int64_max) (HT : 0 < numThreads ≤ int64_max).

#[local] Abbreviation fileSize := (Z.of_nat (length data)).
#[local] Abbreviation partSize := (Z.of_nat (length data) `quot` numThreads).

(** What the goroutine of part [i] leaves at index [i]. *)
Definition part_of (i : Z) : bytes :=
  let seg := partBounds fileSize numThreads partSize i in
  encodeChunks level (chunks (Z.to_nat g) (slice seg.1 seg.2 data)).

Definition fill (cd : list bytes) (i : Z) : list bytes := <[Z.to_nat i := part_of i]> cd.

Lemma partBounds_range i :
  0 ≤ i < numThreads →
  let seg := partBounds fileSize numThreads partSize i in
  0 ≤ seg.1 ∧ seg.1 ≤ seg.2 ∧ seg.2 ≤ fileSize.
Proof.
  intros ?. rewrite partBounds_spec by lia. cbn [fst snd].
  pose proof (quot_rem_nonneg fileSize numThreads). case_bool_decide; nia.
Qed.

Lemma goPart_ok input i sh :
  f_name input = name →
  0 ≤ i < numThreads → Z.of_nat (length (compressedData sh)) = numThreads →
  goPart fuel g input level fileSize numThreads partSize i sh w =
    (Ok (mkShared (fill (compressedData sh) i) (errChan sh)), w).
Proof.
  intros Hname ? Hlen. pose proof (partBounds_range i) as Hrange.
  unfold goPart, fill, part_of. rewrite Hname.
  destruct (partBounds _ _ _ i) as [start end_]. cbn [fst snd] in *.
  rewrite (os_Open_Some _ _ data) by done. rewrite file_Seek_start by lia.
  rewrite sub64_id by int64_lia. unfold f_name.
  rewrite (compressSegmentG_limited g level name data) by (done || lia).
  by rewrite bool_decide_eq_true_2 by lia.
Qed.

Lemma fill_length cd i : length (fill cd i) = length cd.
Proof. apply length_insert. Qed.

Lemma foldl_fill_length sched cd : length (foldl fill cd sched) = length cd.
Proof.
  revert cd. induction sched as [|i sched IH]; intros cd; [done|].
  cbn [foldl]. by rewrite IH, fill_length.
Qed.

Lemma runParts_ok input sched : ∀ sh,
  f_name input = name →
  Forall (λ i, 0 ≤ i < numThreads) sched →
  Z.of_nat (length (compressedData sh)) = numThreads →
  runParts fuel g input level fileSize numThreads partSize sched sh w =
    (Ok (mkShared (foldl fill (compressedData sh) sched) (errChan sh)), w).
Proof.
  induction sched as [|i sched IH]; intros sh ? Hall Hlen.
  - cbn. unfold io_ret. by destruct sh.
  - apply Forall_cons in Hall as [??]. cbn [runParts foldl].
    erewrite io_bind_Ok by (by apply goPart_ok). rewrite IH; [done..|].
    cbn [compressedData]. by rewrite fill_length.
Qed.

(** Each goroutine writes its own index: after any schedule the slice holds
    the parts in index order. *)
Lemma lookup_foldl_fill sched : ∀ cd (k : nat),
  Forall (λ i, 0 ≤ i) sched → (k < length cd)%nat →
  foldl fill cd sched !! k =
    if bool_decide (Z.of_nat k ∈ sched) then Some (part_of (Z.of_nat k)) else cd !! k.
Proof.
  induction sched as [|i sched IH] using rev_ind; intros cd k Hall Hk.
  - by rewrite bool_decide_eq_false_2 by apply not_elem_of_nil.
  - apply Forall_app in Hall as [Hall [? _]%Forall_cons]. rewrite foldl_app. cbn [foldl].
    unfold fill at 1. destruct (decide (Z.of_nat k = i)) as [<-|Hne].
    + rewrite Nat2Z.id, list_lookup_insert_eq by (by rewrite foldl_fill_length).
      rewrite bool_decide_eq_true_2; [done|]. apply elem_of_app. right. by left.
    + rewrite list_lookup_insert_ne by lia. rewrite IH by done.
      apply (f_equal (λ b : bool, if b then _ else _)), bool_decide_ext.
      rewrite elem_of_app, list_elem_of_singleton.
      split; [by left|intros [?|?]; [done|congruence]].
Qed.

Lemma foldl_fill_schedule sched :
  sched ≡ₚ seqZ 0 numThreads →
  foldl fill (replicate (Z.to_nat numThreads) []) sched = part_of <$> seqZ 0 numThreads.
Proof.
  intros Hsched. apply list_eq. intros k. rewrite list_lookup_fmap.
  destruct (decide (k < Z.to_nat numThreads)%nat) as [Hk|Hk].
  - rewrite lookup_foldl_fill, bool_decide_eq_true_2.
    + by rewrite lookup_seqZ_lt by lia.
    + rewrite Hsched. apply elem_of_seqZ. lia.
    + apply Forall_forall. intros i Hi. rewrite Hsched in Hi. apply elem_of_seqZ in Hi. lia.
    + by rewrite length_replicate.
  - rewrite lookup_seqZ_ge by lia. apply lookup_ge_None_2.
    rewrite foldl_fill_length, length_replicate. lia.
Qed.

End run.

(** ** The last loop *)

Lemma writeChunks_ok name chunks : ∀ old w,
  files w !! name = Some old →
  writeChunks (mkFile name (Z.of_nat (length old))) chunks w =
    (Ok (mkFile name (Z.of_nat (length (old ++ concat chunks)))),
     set_files <[name := old ++ concat chunks]> w).
Proof.
  induction chunks as [|chunk chunks IH]; intros old w Hout.
  - cbn. unfold io_ret. rewrite app_nil_r. f_equal. symmetry.
    apply set_files_id. by apply insert_id.
  - cbn [writeChunks concat].
    erewrite io_bind_Ok by (by eapply wrap_err_inr, file_Write_append).
    rewrite <-Nat2Z.inj_add, <-length_app.
    rewrite IH by (simpl; by rewrite lookup_insert_eq). rewrite !(assoc_L (++)). f_equal.
    rewrite set_files_set_files. apply set_files_ext. simpl. by rewrite insert_insert_eq.
Qed.

(** ** What block mode promises *)

(** The runs the theorems are about: the input exists and may be read, its
    size and the thread count are positive [int64] values, and the output
    is open at its end. *)
Definition block_ready (input : File) (numThreads : Z) (data : bytes) (w : world) : Prop :=
  files w !! f_name input = Some data ∧ (f_name input ∉ unreadable w) ∧
  Z.of_nat (length data) ≤ int64_max ∧ 0 < numThreads ≤ int64_max.

#[global] Instance block_ready_dec input numThreads data w :
  Decision (block_ready input numThreads data w).
Proof. unfold block_ready. apply _. Defined.

(** What block mode appends to the output. *)
Definition block_output `{Codec} (g level numThreads : Z) (data : bytes) : bytes :=
  concat (part_of g level data numThreads <$> seqZ 0 numThreads).

Section block_spec.
Context `{Codec}.
Context (g level : Z) (input : File) (out : string) (data old : bytes) (w : world).
Context (numThreads : Z).
Context (Hg : 0 < g).
Context (Hready : block_ready input numThreads data w).

Lemma parts_output_decodes : decodeAll (block_output g level numThreads data) = Some data.
Proof.
  destruct Hready as (_ & _ & ? & ?). unfold block_output.
  destruct (partPlan_plan (Z.of_nat (length data)) numThreads) as [_ Hchain]; [lia..|].
  replace (part_of g level data numThreads <$> seqZ 0 numThreads)
    with (encodeChunks level <$>
            ((λ s : Segment, chunks (Z.to_nat g) (slice s.1 s.2 data)) <$>
               (partBounds (Z.of_nat (length data)) numThreads
                  (Z.of_nat (length data) `quot` numThreads) <$> seqZ 0 numThreads)))
    by (by rewrite <-!list_fmap_compose).
  rewrite decode_segments, concat_concat, <-list_fmap_compose. f_equal.
  transitivity (concat ((λ s : Segment, slice s.1 s.2 data) <$>
    (partBounds (Z.of_nat (length data)) numThreads
       (Z.of_nat (length data) `quot` numThreads) <$> seqZ 0 numThreads))).
  - f_equal. apply list_fmap_ext. intros ? seg _. simpl. apply chunks_concat. lia.
  - rewrite (chain_slices data 0 _ (Z.of_nat (length data))) by done. apply slice_full.
Qed.

Context (fuel : nat) (Hfuel : (length data < fuel)%nat).
Context (Hout : files w !! out = Some old).

Lemma compressFileBlockG_filled sched :
  sched ≡ₚ seqZ 0 numThreads →
  compressFileBlockG fuel g sched input (mkFile out (Z.of_nat (length old))) level numThreads w =
    (Ok (mkFile out (Z.of_nat (length (old ++ block_output g level numThreads data)))),
     set_files <[out := old ++ block_output g level numThreads data]> w).
Proof.
  intros Hsched. destruct Hready as (Hin & ? & ? & ?). unfold compressFileBlockG.
  erewrite io_bind_Ok by (by eapply wrap_err_inr, os_Stat_Some).
  pose proof (quot_rem_nonneg (Z.of_nat (length data)) numThreads).
  erewrite io_bind_Ok by (unfold io_lift; by rewrite quot64_id by int64_lia).
  rewrite bool_decide_eq_false_2 by lia.
  erewrite io_bind_Ok.
  2:{ apply (runParts_ok g level (f_name input) data); try done.
      - apply Forall_forall. intros i Hi. rewrite Hsched in Hi. apply elem_of_seqZ in Hi. lia.
      - cbn [compressedData]. rewrite length_replicate. lia. }
  cbn [errChan compressedData]. erewrite foldl_fill_schedule by (done || lia).
  by apply writeChunks_ok.
Qed.

(** C19. End to end: for every schedule of the goroutines, block mode returns
    without error, appends to the output a stream that decodes to the
    input, and changes nothing else. *)
Theorem compressFileBlock_parts_roundtrip sched :
  sched ≡ₚ seqZ 0 numThreads →
  ∃ stream output,
    compressFileBlockG fuel g sched input (mkFile out (Z.of_nat (length old))) level
      numThreads w = (Ok output, set_files <[out := old ++ stream]> w) ∧
    decodeAll stream = Some data.
Proof.
  intros Hsched. eexists _, _. split; [by apply compressFileBlockG_filled|].
  apply parts_output_decodes.
Qed.

(** Two schedules of the same goroutines give the same result and the same
    store. *)
Theorem compressFileBlock_parts_order_independent sched1 sched2 :
  sched1 ≡ₚ seqZ 0 numThreads → sched2 ≡ₚ seqZ 0 numThreads →
  compressFileBlockG fuel g sched1 input (mkFile out (Z.of_nat (length old))) level numThreads w =
  compressFileBlockG fuel g sched2 input (mkFile out (Z.of_nat (length old))) level numThreads w.
Proof. intros ??. by rewrite !compressFileBlockG_filled. Qed.

End block_spec.

(** Failures before the goroutines: an input that does not exist is the
    error of [Stat]; a thread count of zero is a division by zero; a
    negative one is the panic of [make(chan)].  The store is unchanged. *)
Theorem compressFileBlock_failures `{Codec} fuel g sched input output level numThreads w :
  (files w !! f_name input = None →
   compressFileBlockG fuel g sched input output level numThreads w =
     (Err (ErrStatInput ENOENT), w)) ∧
  (is_Some (files w !! f_name input) → numThreads = 0 →
   compressFileBlockG fuel g sched input output level numThreads w =
     (Panic PanicDivideByZero, w)) ∧
  (is_Some (files w !! f_name input) → numThreads < 0 →
   compressFileBlockG fuel g sched input output level numThreads w =
     (Panic PanicMakeChan, w)).
Proof.
  unfold compressFileBlockG. split_and!.
  - intros Hin. by erewrite io_bind_Err by (by eapply wrap_err_inl, os_Stat_None).
  - intros [data Hin] ->.
    erewrite io_bind_Ok by (by eapply wrap_err_inr, os_Stat_Some).
    by erewrite io_bind_Panic by (unfold io_lift; by rewrite quot64_zero).
  - intros [data Hin] ?.
    erewrite io_bind_Ok by (by eapply wrap_err_inr, os_Stat_Some).
    erewrite io_bind_Ok.
    2:{ unfold io_lift, quot64. by rewrite bool_decide_eq_false_2 by lia. }
    by rewrite bool_decide_eq_true_2 by lia.
Qed.

(** ** Block mode at work *)

Definition play_data : bytes := ["a"; "b"; "c"; "d"; "e"; "f"; "g"]%byte.
Definition play_demo : world := mkWorld {[ "in.bin" := play_data; "out.zst" := [] ]} ∅ ∅.

Lemma compressFileBlock_parts_roundtrip_witness :
  ∃ stream output,
    compressFileBlockG 8 2 [2; 0; 1] (mkFile "in.bin" 0) (mkFile "out.zst" 0) 3 3 play_demo =
      (Ok output, set_files <["out.zst" := [] ++ stream]> play_demo) ∧
    decodeAll stream = Some play_data.
Proof.
  apply (compressFileBlock_parts_roundtrip 2 3 (mkFile "in.bin" 0) "out.zst" play_data [] play_demo 3)
    with (fuel := 8%nat); [lia|by_decide|simpl; lia|reflexivity|by_decide].
Defined.

Lemma compressFileBlock_parts_order_independent_witness :
  compressFileBlockG 8 2 [2; 0; 1] (mkFile "in.bin" 0) (mkFile "out.zst" 0) 3 3 play_demo =
  compressFileBlockG 8 2 [0; 1; 2] (mkFile "in.bin" 0) (mkFile "out.zst" 0) 3 3 play_demo.
Proof.
  apply (compressFileBlock_parts_order_independent 2 3 (mkFile "in.bin" 0) "out.zst" play_data []
           play_demo 3) with (fuel := 8%nat);
    [lia|by_decide|simpl; lia|reflexivity|by_decide|by_decide].
Defined.

Lemma compressFileBlock_failures_witness :
  compressFileBlockG 8 2 [] (mkFile "in.bin" 0) (mkFile "out.zst" 0) 3 0 play_demo =
    (Panic PanicDivideByZero, play_demo).
Proof.
  by apply (compressFileBlock_failures 8 2 [] (mkFile "in.bin" 0) (mkFile "out.zst" 0) 3 0
              play_demo); [eexists|].
Defined.

(** Three parts of two, two and three bytes: the parts need no alignment,
    the reader of each is cut at the part's end. *)
Example compressFileBlock_parts_run :
  compressFileBlockG 8 2 [2; 0; 1] (mkFile "in.bin" 0) (mkFile "out.zst" 0) 3 3 play_demo =
    (Ok (mkFile "out.zst" 11),
     set_files <["out.zst" :=
       encodeChunks 3 [["a"; "b"]; ["c"; "d"]; ["e"; "f"]; ["g"]]%byte]> play_demo).
Proof. by vm_compute. Qed.

End Play.
