(* ===== verification/Cli.v ===== *)
(** * The command line

    [main] of the working program (src/unnamed/part_000), of
    src/play/tmp/main.go and of src/play/tmp/streammode/main.go, from the
    parsed flags on: the input is opened (or is standard input), the output
    is created (or is standard output), and one of the modes runs.  A run
    ends by returning, by [os.Exit(1)] after a message, or by a panic.
    [main] of the working program is [mainWith] over a model of
    [compressFileBlock]: [mainG] runs each goroutine in one piece, in the
    order of a schedule, and [mainF] lets them take their steps in any
    order.

    The flags are parsed and the messages printed in [Argv], where block
    mode also prints its progress line; here [main]
    starts from the values of the flags and ends with [Exit1], which
    carries what the message says.  Standard input
    and output are the files "/dev/stdin" and "/dev/stdout" of the store.
    The exits and the opening of the files are those of [main] of
    src/unnamed/part_002 and src/unnamed/part_001 as well, which are
    modelled with their programs in [ChunkPool] and [OneShot]. *)

From S2P Require Import Prelude Planner Codec FileSys Names Worker Reassembler.
From S2P Require Import Pipeline Interleave Stream PlayMode.

(** ** How a run ends *)

(** What [main] says before [os.Exit(1)]. *)
Inductive failure : Set :=
| FailedOpenInput (e : oserr)        (* "Failed to open input file: %v" *)
| FailedCreateOutput (e : oserr)     (* "Failed to create output file: %v" *)
| DecompressionFailed (err : error)  (* "Decompression failed: %v" *)
| BlockModeFailed (err : error)      (* "Block mode compression failed: %v" *)
| StreamModeFailed (err : error)     (* "Stream mode compression failed: %v" *)
| BlockModeNeedsFile                 (* "Block mode requires a file input." *)
| CompressionFailed (err : error)    (* "Compression failed: %v" *)
| FailedReadFile (e : oserr)         (* "Failed to read file: %v" *)
| FailedReadStdin (e : oserr)        (* "Failed to read from stdin: %v" *)
| FailedWriteStdout (e : oserr)      (* "Failed to write to stdout: %v" *)
| FailedWriteFile (e : oserr)        (* "Failed to write to file: %v" *)
| NoDestination.                     (* "No output destination specified. ..." *)

Inductive exit : Set :=
| Returned
| Exit1 (f : failure)
| Panicked (p : panic)
| NoFuel.

#[global] Instance failure_eq_dec : EqDecision failure.
Proof. solve_decision. Defined.

#[global] Instance exit_eq_dec : EqDecision exit.
Proof. solve_decision. Defined.

(** [err := mode(...); if err != nil { fmt.Printf(...); os.Exit(1) }] *)
Definition run_mode {A} (f : error → failure) (m : io world A) : world → exit * world :=
  λ w, match m w with
       | (Ok _, w) => (Returned, w)
       | (Err err, w) => (Exit1 (f err), w)
       | (Panic p, w) => (Panicked p, w)
       | (OutOfFuel, w) => (NoFuel, w)
       end.

(** ** Standard input and output *)

Definition os_Stdin : File := mkFile "/dev/stdin" 0.

(** Standard output, open at its end. *)
Definition os_Stdout (w : world) : File :=
  mkFile "/dev/stdout" (Z.of_nat (length (default [] (files w !! "/dev/stdout")))).

(** "Determine input source": the first argument, or standard input. *)
Definition open_input (args : list string) : world → (failure + File) * world :=
  λ w, match args with
       | [] => (inr os_Stdin, w)
       | arg0 :: _ =>
           match os_Open arg0 w with
           | (inl e, w) => (inl (FailedOpenInput e), w)
           | (inr inputFile, w) => (inr inputFile, w)
           end
       end.

(** "Determine output destination": the file of [-o], unless [-c] is given
    or [-o] is empty. *)
Definition open_output (outputToStdout : bool) (outputFile : string)
  : world → (failure + File) * world :=
  λ w, if negb outputToStdout && bool_decide (outputFile ≠ "")
       then match os_Create outputFile w with
            | (inl e, w) => (inl (FailedCreateOutput e), w)
            | (inr outFile, w) => (inr outFile, w)
            end
       else (inr (os_Stdout w), w).

(** [flag.Arg(0)]: the empty string when there is no argument. *)
Definition Arg0 (args : list string) : string := default "" (head args).

(** The start of every [main]: the input and the output are opened, in
    this order, and a mode runs on them. *)
Definition with_files (args : list string) (outputToStdout : bool) (outputFile : string)
    (mode : File → File → world → exit * world) : world → exit * world :=
  λ w,
    match open_input args w with
    | (inl e, w) => (Exit1 e, w)
    | (inr input, w) =>
        match open_output outputToStdout outputFile w with
        | (inl e, w) => (Exit1 e, w)
        | (inr output, w) => mode input output w
        end
    end.

(** ** The working program *)

Section working.
Context `{Codec}.

(** The flags of src/unnamed/part_000, under the names of the variables
    that hold them ([compressMode] is the flag [-d]). *)
Record flags : Set := mkFlags {
  compressMode : bool;
  outputToStdout : bool;
  outputFile : string;
  compressionLevel : Z;
  numThreads : Z;
  blockMode : bool;
  args : list string;
}.

(** [main] over a model [block] of [compressFileBlock]. *)
Definition mainWith (fuel : nat) (block : string → string → Z → Z → io world ()) (f : flags)
  : world → exit * world :=
  with_files (args f) (outputToStdout f) (outputFile f) (λ input output,
    if compressMode f
    then run_mode DecompressionFailed (decompressFile fuel input output)
    else if blockMode f
    then
      if bool_decide (Z.of_nat (length (args f)) < 0) || bool_decide (outputFile f = "")
      then λ w, (Panicked PanicBlockModeArgs, w)
      else
        run_mode BlockModeFailed
          (block (Arg0 (args f)) (outputFile f) (compressionLevel f) (numThreads f))
    else
      run_mode StreamModeFailed (compressStream fuel input output (compressionLevel f))).

(** [main] for a granule of [g] bytes in block mode and a schedule [sched]
    of its goroutines. *)
Definition mainG (fuel : nat) (g : Z) (sched : list Z) : flags → world → exit * world :=
  mainWith fuel (compressFileBlockG fuel g sched).

(** [main] when the goroutines of block mode take their steps in the order
    [steps]. *)
Definition mainF (fuel : nat) (g : Z) (steps : list nat) : flags → world → exit * world :=
  mainWith fuel (compressFileBlockF g steps).

Definition main (fuel : nat) : list Z → flags → world → exit * world := mainG fuel oneMB.

End working.

(** ** The program of play/tmp/main.go *)

Module PlayMain.
Section play.
Context `{Codec}.

(** The flags of src/play/tmp/main.go; the level is the flag [-1]. *)
Record flags : Set := mkFlags {
  compressMode : bool;
  outputToStdout : bool;
  outputFile : string;
  compressionLevel : Z;
  numThreads : Z;
  blockMode : bool;
  args : list string;
}.

(** The input of block mode must be an [os.File]: here every input is, and
    the test [input.(os.File)] is true. *)
Definition mainG (fuel : nat) (g : Z) (sched : list Z) (f : flags) : world → exit * world :=
  with_files (args f) (outputToStdout f) (outputFile f) (λ input output,
    if compressMode f
    then run_mode DecompressionFailed (Play.decompressFile fuel input output)
    else if blockMode f
    then
      run_mode BlockModeFailed
        (Play.compressFileBlockG fuel g sched input output (compressionLevel f) (numThreads f))
    else
      run_mode StreamModeFailed (Play.compressStream fuel input output (compressionLevel f))).

Definition main (fuel : nat) : list Z → flags → world → exit * world := mainG fuel (1 ≪ 20).

End play.
End PlayMain.

(** ** The stream-mode program *)

Module StreamMain.
Section stream.
Context `{Codec}.

Record flags : Set := mkFlags {
  compressMode : bool;
  outputToStdout : bool;
  outputFile : string;
  compressionLevel : Z;
  numThreads : Z;
  args : list string;
}.

Definition main (fuel : nat) (f : flags) : world → exit * world :=
  with_files (args f) (outputToStdout f) (outputFile f) (λ input output,
    if compressMode f
    then run_mode DecompressionFailed (decompress fuel input output)
    else
      run_mode CompressionFailed
        (compress fuel input output (compressionLevel f) (numThreads f))).

End stream.
End StreamMain.

(** ** Opening the input and the output *)

Lemma open_input_file arg0 args w data :
  files w !! arg0 = Some data → arg0 ∉ unreadable w →
  open_input (arg0 :: args) w = (inr (mkFile arg0 0), w).
Proof. intros ??. unfold open_input. by rewrite (os_Open_Some _ _ data). Qed.

Lemma open_output_file outputFile w :
  outputFile ≠ "" → outputFile ∉ unwritable w →
  open_output false outputFile w =
    (inr (mkFile outputFile 0), set_files <[outputFile := []]> w).
Proof.
  intros ??. unfold open_output. cbn [negb andb].
  by rewrite bool_decide_eq_true_2, os_Create_ok by done.
Qed.

(** Creating the output leaves a run of block mode ready, unless the
    output is the input. *)
Lemma block_ready_create g inputFile outputFile numThreads data w :
  block_ready g inputFile outputFile numThreads data w → outputFile ≠ inputFile →
  block_ready g inputFile outputFile numThreads data (set_files <[outputFile := []]> w).
Proof.
  intros ((? & ? & ? & ? & ? & ?) & ?) ?. split; [|done]. split_and!; [|done..].
  simpl. by rewrite lookup_insert_ne.
Qed.

(** ** The modes, on the files [main] has opened *)

(** A readable input and an output that can be created: the mode runs on
    both, open at their start, in the store with the output emptied. *)
Lemma with_files_ok input args output mode w data :
  files w !! input = Some data → input ∉ unreadable w →
  output ≠ "" → output ∉ unwritable w →
  with_files (input :: args) false output mode w =
    mode (mkFile input 0) (mkFile output 0) (set_files <[output := []]> w).
Proof.
  intros. unfold with_files. by rewrite (open_input_file _ _ _ data), open_output_file.
Qed.

Section modes.
Context `{Codec}.
Context (input output : string) (data : bytes) (w : world) (fuel : nat).
Context (Hne : output ≠ input) (Hin : files w !! input = Some data).
Context (Hfuel : (length data < fuel)%nat).

#[local] Abbreviation opened := (set_files <[output := []]> w).

Lemma opened_input : valid (mkFile input 0) opened ∧ pending (mkFile input 0) opened = data.
Proof.
  split; [split; [|done]|]; simpl; rewrite lookup_insert_ne by done; [by eexists|].
  by rewrite Hin.
Qed.

Lemma opened_write stream :
  set_files <[output := [] ++ stream]> opened = set_files <[output := stream]> w.
Proof. rewrite set_files_set_files. apply set_files_ext. simpl. by rewrite insert_insert_eq. Qed.

(** Decompression of a sequence of frames. *)
Lemma decompress_mode_ok decoded :
  decodeAll data = Some decoded →
  run_mode DecompressionFailed
    (decompressFileG fuel copyBuffer (mkFile input 0) (mkFile output 0)) opened =
    (Returned, set_files <[output := decoded]> w).
Proof.
  intros Hdec. destruct opened_input as [? Hpend]. unfold run_mode.
  change 0 with (Z.of_nat (length (@nil byte))) at 2.
  rewrite (decompressFileG_ok copyBuffer) with (decoded := decoded);
    [by rewrite opened_write|done|done|by rewrite Hpend|
     simpl; by rewrite lookup_insert_eq|by rewrite Hpend].
Qed.

(** An encoder fed by [io.Copy]. *)
Lemma stream_mode_ok failed encode :
  run_mode failed
    (streamThrough encode fuel copyBuffer (mkFile input 0) (mkFile output 0)) opened =
    (Returned, set_files <[output := encode data]> w).
Proof.
  destruct opened_input as [? Hpend]. unfold run_mode.
  change 0 with (Z.of_nat (length (@nil byte))) at 2.
  rewrite (streamThrough_ok copyBuffer);
    [by rewrite Hpend, opened_write|done|done|by rewrite Hpend|simpl; by rewrite lookup_insert_eq].
Qed.

End modes.

Section decompress.
Context `{Codec}.
Context (g : Z) (sched : list Z) (fuel : nat).
Context (compressed restored : string) (stream data : bytes) (w : world).
Context (level threads : Z) (block : bool).
Context (Hfile : files w !! compressed = Some stream).
Context (Hreadable : compressed ∉ unreadable w).
Context (Hrestored : restored ≠ "" ∧ restored ≠ compressed ∧ (restored ∉ unwritable w)).
Context (Hfuel : (length stream < fuel)%nat).
Context (Hdec : decodeAll stream = Some data).

Lemma mainWith_decompress blockfn :
  mainWith fuel blockfn (mkFlags true false restored level threads block [compressed]) w =
    (Returned, set_files <[restored := data]> w).
Proof.
  destruct Hrestored as (? & ? & ?). unfold mainWith. cbn [args outputToStdout outputFile].
  rewrite (with_files_ok _ _ _ _ _ stream) by done. cbn [compressMode].
  by apply (decompress_mode_ok compressed restored stream).
Qed.

Lemma mainG_decompress :
  mainG fuel g sched (mkFlags true false restored level threads block [compressed]) w =
    (Returned, set_files <[restored := data]> w).
Proof. apply mainWith_decompress. Qed.

Lemma PlayMain_decompress :
  PlayMain.mainG fuel g sched
    (PlayMain.mkFlags true false restored level threads block [compressed]) w =
    (Returned, set_files <[restored := data]> w).
Proof.
  destruct Hrestored as (? & ? & ?). unfold PlayMain.mainG.
  cbn [PlayMain.args PlayMain.outputToStdout PlayMain.outputFile].
  rewrite (with_files_ok _ _ _ _ _ stream) by done. cbn [PlayMain.compressMode].
  by apply (decompress_mode_ok compressed restored stream).
Qed.

Lemma StreamMain_decompress :
  StreamMain.main fuel (StreamMain.mkFlags true false restored level threads [compressed]) w =
    (Returned, set_files <[restored := data]> w).
Proof.
  destruct Hrestored as (? & ? & ?). unfold StreamMain.main.
  cbn [StreamMain.args StreamMain.outputToStdout StreamMain.outputFile].
  rewrite (with_files_ok _ _ _ _ _ stream) by done. cbn [StreamMain.compressMode].
  by apply (decompress_mode_ok compressed restored stream).
Qed.

End decompress.

(** ** What the command line promises *)

Section roundtrip.
Context `{Codec}.
Context (g level threads : Z) (source compressed restored : string) (data : bytes) (w : world).
Context (fuel : nat) (sched sched' : list Z) (block' : bool).
Context (Hfuel : (length data < fuel)%nat).
Context (Hnames : compressed ≠ "" ∧ compressed ≠ source ∧ (compressed ∉ unreadable w) ∧
                  restored ≠ "" ∧ restored ≠ compressed ∧ (restored ∉ unwritable w)).

(** Block mode of [main] returns when [compressFileBlock] does, and leaves
    the store as [compressFileBlock] has left it. *)
Lemma block_mode_returns blockfn w1 :
  files w !! source = Some data → source ∉ unreadable w → compressed ∉ unwritable w →
  blockfn source compressed level threads (set_files <[compressed := []]> w) = (Ok (), w1) →
  mainWith fuel blockfn (mkFlags false false compressed level threads true [source]) w =
    (Returned, w1).
Proof.
  clear Hfuel. intros Hin ?? Hrun. destruct Hnames as (? & ? & ? & _).
  unfold mainWith. cbn [args outputToStdout outputFile compressMode blockMode].
  rewrite (with_files_ok _ _ _ _ _ data) by done.
  rewrite bool_decide_eq_false_2, bool_decide_eq_false_2 by (done || simpl; lia).
  cbn [orb Arg0 head default id compressionLevel numThreads]. unfold run_mode.
  by rewrite Hrun.
Qed.

(** Block mode of [main] in a store in which every worker succeeds. *)
Lemma block_mode_runs blockfn plan :
  block_ready g source compressed threads data w →
  blockfn source compressed level threads (set_files <[compressed := []]> w) =
    (Ok (), block_world g level source compressed data threads plan
              (set_files <[compressed := []]> w)) →
  mainWith fuel blockfn (mkFlags false false compressed level threads true [source]) w =
    (Returned, block_world g level source compressed data threads plan
                 (set_files <[compressed := []]> w)).
Proof. intros ((Hin & ? & _) & ?) Hrun. by apply block_mode_returns. Qed.

(** Block mode of [main] runs out of fuel only when [compressFileBlock]
    does. *)
Lemma block_mode_ends blockfn :
  block_ready g source compressed threads data w →
  (mainWith fuel blockfn (mkFlags false false compressed level threads true [source]) w).1 ≠ NoFuel →
  (blockfn source compressed level threads (set_files <[compressed := []]> w)).1 ≠ OutOfFuel.
Proof.
  clear Hfuel. intros ((Hin & ? & _) & ?). destruct Hnames as (? & ? & ? & _).
  unfold mainWith. cbn [args outputToStdout outputFile compressMode blockMode].
  rewrite (with_files_ok _ _ _ _ _ data) by done.
  rewrite bool_decide_eq_false_2, bool_decide_eq_false_2 by (done || simpl; lia).
  cbn [orb Arg0 head default id compressionLevel numThreads]. unfold run_mode.
  by destruct (blockfn _ _ _ _ _) as [[] ?].
Qed.

(** The output of block mode, decompressed. *)
Lemma block_mode_decompress blockfn plan fuel' :
  block_ready g source compressed threads data w →
  chain 0 plan (Z.of_nat (length data)) →
  (length (block_output g level data plan) < fuel')%nat →
  ∃ w2,
    mainWith fuel' blockfn (mkFlags true false restored level threads block' [compressed])
      (block_world g level source compressed data threads plan
         (set_files <[compressed := []]> w)) = (Returned, w2) ∧
    files w2 !! restored = Some data.
Proof.
  clear Hfuel. intros Hready Hchain ?. destruct Hnames as (? & ? & ? & ? & ? & ?).
  apply block_ready_create in Hready; [|done..].
  eexists. split.
  - eapply (mainWith_decompress fuel' compressed restored (block_output g level data plan) data);
      [|done|done|lia|].
    + by eapply block_world_output.
    + by apply (block_output_decodes g level source compressed data _ threads
                  (S (length data)) Hready (Nat.lt_succ_diag_r _)).
  - simpl. by rewrite lookup_insert_eq.
Qed.

(** C12. Block mode, then decompression: [gozstd -b -T n -o c s] followed by
    [gozstd -d -o r c] leaves in [r] the bytes of [s], whatever the order
    [steps] in which the goroutines of block mode take their steps, once
    that order takes them to their end, and with enough fuel for the second
    run. *)
Theorem main_block_roundtrip steps steps' :
  block_ready g source compressed threads data w →
  (mainF fuel g steps (mkFlags false false compressed level threads true [source]) w).1 ≠ NoFuel →
  ∃ w1,
    mainF fuel g steps (mkFlags false false compressed level threads true [source]) w =
      (Returned, w1) ∧
    ∃ fuel0, ∀ fuel', (fuel0 ≤ fuel')%nat →
      ∃ w2,
        mainF fuel' g steps' (mkFlags true false restored level threads block' [compressed]) w1 =
          (Returned, w2) ∧
        files w2 !! restored = Some data.
Proof.
  clear Hfuel. intros Hready Hend%block_mode_ends; [|done].
  assert (block_ready g source compressed threads data (set_files <[compressed := []]> w))
    as Hready' by (destruct Hnames as (? & ? & ? & _); by apply block_ready_create).
  destruct (compressFileBlockF_ready g steps source compressed level threads data _ Hready' Hend)
    as (plan & Hchain & Hrun).
  eexists. split; [by apply block_mode_runs|].
  exists (S (length (block_output g level data plan))). intros fuel' ?.
  apply block_mode_decompress; [done..|lia].
Qed.

(** The same when each goroutine of block mode runs in one piece, for
    every schedule of the goroutines. *)
Theorem main_block_roundtrip_scheduled :
  block_ready g source compressed threads data w →
  schedule threads sched →
  ∃ w1,
    mainG fuel g sched (mkFlags false false compressed level threads true [source]) w =
      (Returned, w1) ∧
    ∃ fuel0, ∀ fuel', (fuel0 ≤ fuel')%nat →
      ∃ w2,
        mainG fuel' g sched' (mkFlags true false restored level threads block' [compressed]) w1 =
          (Returned, w2) ∧
        files w2 !! restored = Some data.
Proof.
  intros Hready Hsched.
  assert (block_ready g source compressed threads data (set_files <[compressed := []]> w))
    as Hready' by (destruct Hnames as (? & ? & ? & _); by apply block_ready_create).
  destruct (compressFileBlockG_ready g level source compressed data _ threads fuel
              Hready' Hfuel sched Hsched) as (plan & _ & Hchain & Hrun).
  eexists. split; [by apply block_mode_runs|].
  exists (S (length (block_output g level data plan))). intros fuel' ?.
  apply block_mode_decompress; [done..|lia].
Qed.

(** C20. Stream mode, then decompression: [gozstd -o c s] followed by
    [gozstd -d -o r c] leaves in [r] the bytes of [s]. *)
Theorem main_stream_roundtrip :
  files w !! source = Some data → source ∉ unreadable w → compressed ∉ unwritable w →
  ∃ w1,
    mainG fuel g sched (mkFlags false false compressed level threads false [source]) w =
      (Returned, w1) ∧
    ∃ fuel0, ∀ fuel', (fuel0 ≤ fuel')%nat →
      ∃ w2,
        mainG fuel' g sched' (mkFlags true false restored level threads block' [compressed]) w1 =
          (Returned, w2) ∧
        files w2 !! restored = Some data.
Proof.
  intros Hin ??. destruct Hnames as (? & ? & ? & ? & ? & ?).
  eexists. split.
  { unfold mainG, mainWith. cbn [args outputToStdout outputFile compressMode blockMode].
    rewrite (with_files_ok _ _ _ _ _ data) by done.
    by apply (stream_mode_ok source compressed data). }
  exists (S (length (encodeStream level data))). intros fuel' ?.
  eexists. split.
  - eapply (mainG_decompress g sched' fuel' compressed restored (encodeStream level data) data);
      [simpl; by rewrite lookup_insert_eq|done|done|lia|apply decode_stream_whole].
  - simpl. by rewrite lookup_insert_eq.
Qed.

(** The same for block mode of play/tmp/main.go, whose parts need no
    alignment. *)
Theorem PlayMain_block_roundtrip :
  Play.block_ready (mkFile source 0) threads data w → compressed ∉ unwritable w →
  0 < g → sched ≡ₚ seqZ 0 threads →
  ∃ w1,
    PlayMain.mainG fuel g sched
      (PlayMain.mkFlags false false compressed level threads true [source]) w = (Returned, w1) ∧
    ∃ fuel0, ∀ fuel', (fuel0 ≤ fuel')%nat →
      ∃ w2,
        PlayMain.mainG fuel' g sched'
          (PlayMain.mkFlags true false restored level threads block' [compressed]) w1 =
          (Returned, w2) ∧
        files w2 !! restored = Some data.
Proof.
  intros (Hin & ? & ? & ?) ? ? Hsched. destruct Hnames as (? & ? & ? & ? & ? & ?).
  cbn [f_name] in *. eexists. split.
  { unfold PlayMain.mainG.
    cbn [PlayMain.args PlayMain.outputToStdout PlayMain.outputFile PlayMain.compressMode
         PlayMain.blockMode PlayMain.compressionLevel PlayMain.numThreads].
    rewrite (with_files_ok _ _ _ _ _ data) by done. unfold run_mode.
    change 0 with (Z.of_nat (length (@nil byte))) at 2.
    rewrite (Play.compressFileBlockG_filled g level (mkFile source 0) compressed data []);
      [by rewrite opened_write|done| |done|simpl; by rewrite lookup_insert_eq|done].
    unfold Play.block_ready. simpl. split_and!; [by rewrite lookup_insert_ne|done||lia..]. }
  exists (S (length (Play.block_output g level threads data))). intros fuel' ?.
  eexists. split.
  - eapply (PlayMain_decompress g sched' fuel' compressed restored
              (Play.block_output g level threads data) data);
      [simpl; by rewrite lookup_insert_eq|done|done|lia|].
    apply (Play.parts_output_decodes g level (mkFile source 0) data w); [done|].
    unfold Play.block_ready. simpl. split_and!; done || lia.
  - simpl. by rewrite lookup_insert_eq.
Qed.

(** The stream-mode program: [compress] with any thread count, then
    [decompress]. *)
Theorem StreamMain_roundtrip :
  files w !! source = Some data → source ∉ unreadable w → compressed ∉ unwritable w →
  ∃ w1,
    StreamMain.main fuel (StreamMain.mkFlags false false compressed level threads [source]) w =
      (Returned, w1) ∧
    ∃ fuel0, ∀ fuel', (fuel0 ≤ fuel')%nat →
      ∃ w2,
        StreamMain.main fuel'
          (StreamMain.mkFlags true false restored level threads [compressed]) w1 =
          (Returned, w2) ∧
        files w2 !! restored = Some data.
Proof.
  intros Hin ??. destruct Hnames as (? & ? & ? & ? & ? & ?).
  set (encode := if bool_decide (0 < threads) then encodeConcurrent threads level
                 else encodeStream level).
  eexists. split.
  { unfold StreamMain.main.
    cbn [StreamMain.args StreamMain.outputToStdout StreamMain.outputFile
         StreamMain.compressMode StreamMain.compressionLevel StreamMain.numThreads].
    rewrite (with_files_ok _ _ _ _ _ data) by done.
    by apply (stream_mode_ok source compressed data w fuel ltac:(done) Hin Hfuel _ encode). }
  exists (S (length (encode data))). intros fuel' ?.
  eexists. split.
  - eapply (StreamMain_decompress fuel' compressed restored (encode data) data);
      [simpl; by rewrite lookup_insert_eq|done|done|lia|].
    unfold encode. case_bool_decide; [apply decode_concurrent_whole|apply decode_stream_whole].
  - simpl. by rewrite lookup_insert_eq.
Qed.

End roundtrip.

Section hazards.
Context `{Codec}.
Context (g level threads : Z) (fuel : nat) (sched : list Z) (w : world).

(** C21. The output is created before the input is read: when [-o] names the
    input, stream mode returns normally and leaves in the file the
    encoding of the empty input; the data is gone. *)
Theorem main_output_is_input source data :
  files w !! source = Some data → source ≠ "" →
  source ∉ unreadable w → source ∉ unwritable w → (0 < fuel)%nat →
  mainG fuel g sched (mkFlags false false source level threads false [source]) w =
    (Returned, set_files <[source := encodeStream level []]> w).
Proof.
  intros Hin ????. unfold mainG, mainWith. cbn [args outputToStdout outputFile compressMode blockMode].
  rewrite (with_files_ok _ _ _ _ _ data) by done.
  unfold run_mode, compressStream, compressStreamG.
  change 0 with (Z.of_nat (length (@nil byte))) at 2.
  rewrite (streamThrough_ok copyBuffer); [|done|..].
  - simpl. rewrite lookup_insert_eq. simpl. f_equal.
    rewrite set_files_set_files. apply set_files_ext. simpl. by rewrite insert_insert_eq.
  - split; [|done]. simpl. rewrite lookup_insert_eq. by eexists.
  - simpl. by rewrite lookup_insert_eq.
  - simpl. by rewrite lookup_insert_eq.
Qed.

(** C22. The guard of block mode tests [flag.NArg() < 0], which is never true:
    without [-o] block mode panics as meant, but without an input file it
    goes on with the empty path, fails in [os.Stat], and leaves the output
    it has created. *)
Theorem main_block_mode_guard output :
  files w !! "" = None →
  mainG fuel g sched (mkFlags false false "" level threads true []) w =
    (Panicked PanicBlockModeArgs, w) ∧
  (output ≠ "" → output ∉ unwritable w →
   mainG fuel g sched (mkFlags false false output level threads true []) w =
     (Exit1 (BlockModeFailed (ErrStat ENOENT)), set_files <[output := []]> w)).
Proof.
  intros Hnone. split; [done|]. intros ??. unfold mainG, mainWith, with_files.
  cbn [args outputToStdout outputFile compressMode blockMode open_input].
  rewrite open_output_file by done.
  rewrite bool_decide_eq_false_2, bool_decide_eq_false_2 by (done || simpl; lia).
  cbn [orb Arg0 head default id length compressionLevel numThreads]. unfold run_mode, compressFileBlockG.
  erewrite io_bind_Err; [done|]. apply calculateSegmentG_None.
  simpl. destruct (decide (output = "")); [done|]. by rewrite lookup_insert_ne.
Qed.

(** C27. Block mode of play/tmp/main.go without an input file: the test
    type assertion on [input] holds for [os.Stdin], so the run is not refused.  It
    compresses what standard input holds when that is a file with a size,
    and no run of the program ends with "Block mode requires a file
    input." *)
Theorem PlayMain_block_stdin compressed data :
  Play.block_ready os_Stdin threads data w → compressed ≠ "" →
  compressed ≠ f_name os_Stdin → compressed ∉ unwritable w →
  0 < g → sched ≡ₚ seqZ 0 threads → (length data < fuel)%nat →
  PlayMain.mainG fuel g sched
    (PlayMain.mkFlags false false compressed level threads true []) w =
    (Returned, set_files <[compressed := Play.block_output g level threads data]> w) ∧
  ∀ f w', (PlayMain.mainG fuel g sched f w').1 ≠ Exit1 BlockModeNeedsFile.
Proof.
  intros (Hin & ? & ? & ?) ? ? ? ? Hsched ?. split.
  - unfold PlayMain.mainG, with_files, open_input.
    cbn [PlayMain.args PlayMain.outputToStdout PlayMain.outputFile PlayMain.compressMode
         PlayMain.blockMode PlayMain.compressionLevel PlayMain.numThreads].
    rewrite open_output_file by done. unfold run_mode.
    change (mkFile compressed 0) with (mkFile compressed (Z.of_nat (length (@nil byte)))).
    rewrite (Play.compressFileBlockG_filled g level os_Stdin compressed data []);
      [by rewrite opened_write|done| |done|simpl; by rewrite lookup_insert_eq|done].
    unfold Play.block_ready. split_and!; [|done|done|lia..].
    simpl. by rewrite lookup_insert_ne.
  - intros f w'. unfold PlayMain.mainG, with_files, run_mode.
    repeat case_match; simplify_eq/=; try done;
      unfold open_input, open_output in *; repeat case_match; by simplify_eq.
Qed.

End hazards.

(** ** The command line at work *)

Definition cli_data : bytes := ["a"; "b"; "c"; "d"; "e"; "f"; "g"]%byte.
Definition cli_demo : world := mkWorld {[ "in.bin" := cli_data ]} ∅ ∅.

(** Twelve turns for each of three goroutines, one after the other. *)
Definition cli_steps : list nat := round_robin 12 3.

Lemma main_block_roundtrip_witness :
  ∃ w1,
    mainF 8 2 cli_steps (mkFlags false false "out.zst" 3 3 true ["in.bin"]) cli_demo =
      (Returned, w1) ∧
    ∃ fuel0, ∀ fuel', (fuel0 ≤ fuel')%nat →
      ∃ w2,
        mainF fuel' 2 [] (mkFlags true false "back.bin" 3 3 false ["out.zst"]) w1 =
          (Returned, w2) ∧
        files w2 !! "back.bin" = Some cli_data.
Proof.
  apply (main_block_roundtrip 2 3 3 "in.bin" "out.zst" "back.bin" cli_data cli_demo 8 false);
    [by_decide|by_decide|by vm_compute].
Defined.

Lemma main_block_roundtrip_scheduled_witness :
  ∃ w1,
    mainG 8 2 [2; 0; 1] (mkFlags false false "out.zst" 3 3 true ["in.bin"]) cli_demo =
      (Returned, w1) ∧
    ∃ fuel0, ∀ fuel', (fuel0 ≤ fuel')%nat →
      ∃ w2,
        mainG fuel' 2 [] (mkFlags true false "back.bin" 3 3 false ["out.zst"]) w1 =
          (Returned, w2) ∧
        files w2 !! "back.bin" = Some cli_data.
Proof.
  apply (main_block_roundtrip_scheduled 2 3 3 "in.bin" "out.zst" "back.bin" cli_data cli_demo 8
           [2; 0; 1] [] false); [simpl; lia|by_decide|by_decide|by_decide].
Defined.

Lemma main_stream_roundtrip_witness :
  ∃ w1,
    mainG 8 2 [] (mkFlags false false "out.zst" 3 3 false ["in.bin"]) cli_demo =
      (Returned, w1) ∧
    ∃ fuel0, ∀ fuel', (fuel0 ≤ fuel')%nat →
      ∃ w2,
        mainG fuel' 2 [] (mkFlags true false "back.bin" 3 3 false ["out.zst"]) w1 =
          (Returned, w2) ∧
        files w2 !! "back.bin" = Some cli_data.
Proof.
  apply (main_stream_roundtrip 2 3 3 "in.bin" "out.zst" "back.bin" cli_data cli_demo 8
           [] [] false); [simpl; lia|by_decide|reflexivity|apply not_elem_of_empty..].
Defined.

Lemma main_output_is_input_witness :
  mainG 8 2 [] (mkFlags false false "in.bin" 3 3 false ["in.bin"]) cli_demo =
    (Returned, set_files <["in.bin" := encodeStream 3 []]> cli_demo).
Proof.
  apply (main_output_is_input 2 3 3 8 [] cli_demo "in.bin" cli_data);
    [reflexivity|done|apply not_elem_of_empty..|lia].
Defined.

Lemma main_block_mode_guard_witness :
  mainG 8 2 [] (mkFlags false false "" 3 3 true []) cli_demo = (Panicked PanicBlockModeArgs, cli_demo) ∧
  ("out.zst" ≠ "" → "out.zst" ∉ unwritable cli_demo →
   mainG 8 2 [] (mkFlags false false "out.zst" 3 3 true []) cli_demo =
     (Exit1 (BlockModeFailed (ErrStat ENOENT)), set_files <["out.zst" := []]> cli_demo)).
Proof. apply (main_block_mode_guard 2 3 3 8 [] cli_demo "out.zst"). reflexivity. Defined.

(** A store in which standard input is a file. *)
Definition stdin_demo : world := mkWorld {[ "/dev/stdin" := cli_data ]} ∅ ∅.

Lemma PlayMain_block_stdin_witness :
  PlayMain.mainG 8 2 [2; 0; 1] (PlayMain.mkFlags false false "out.zst" 3 3 true []) stdin_demo =
    (Returned, set_files <["out.zst" := Play.block_output 2 3 3 cli_data]> stdin_demo) ∧
  ∀ f w', (PlayMain.mainG 8 2 [2; 0; 1] f w').1 ≠ Exit1 BlockModeNeedsFile.
Proof.
  apply (PlayMain_block_stdin 2 3 3 8 [2; 0; 1] stdin_demo "out.zst" cli_data);
    [by_decide|done|done|apply not_elem_of_empty|lia|by_decide|simpl; lia].
Defined.

Lemma PlayMain_block_roundtrip_witness :
  ∃ w1,
    PlayMain.mainG 8 2 [2; 0; 1]
      (PlayMain.mkFlags false false "out.zst" 3 3 true ["in.bin"]) cli_demo = (Returned, w1) ∧
    ∃ fuel0, ∀ fuel', (fuel0 ≤ fuel')%nat →
      ∃ w2,
        PlayMain.mainG fuel' 2 []
          (PlayMain.mkFlags true false "back.bin" 3 3 false ["out.zst"]) w1 = (Returned, w2) ∧
        files w2 !! "back.bin" = Some cli_data.
Proof.
  apply (PlayMain_block_roundtrip 2 3 3 "in.bin" "out.zst" "back.bin" cli_data cli_demo 8
           [2; 0; 1] [] false);
    [simpl; lia|by_decide|by_decide|apply not_elem_of_empty|lia|by_decide].
Defined.

Lemma StreamMain_roundtrip_witness :
  ∃ w1,
    StreamMain.main 8 (StreamMain.mkFlags false false "out.zst" 3 4 ["in.bin"]) cli_demo =
      (Returned, w1) ∧
    ∃ fuel0, ∀ fuel', (fuel0 ≤ fuel')%nat →
      ∃ w2,
        StreamMain.main fuel' (StreamMain.mkFlags true false "back.bin" 3 4 ["out.zst"]) w1 =
          (Returned, w2) ∧
        files w2 !! "back.bin" = Some cli_data.
Proof.
  apply (StreamMain_roundtrip 3 4 "in.bin" "out.zst" "back.bin" cli_data cli_demo 8);
    [simpl; lia|by_decide|reflexivity|apply not_elem_of_empty..].
Defined.

(** The three programs on the same input: block mode of the working
    program, block mode of play/tmp/main.go, and the stream-mode program
    with four threads. *)
Example main_runs :
  (mainG 8 2 [1; 0] (mkFlags false false "out.zst" 3 2 true ["in.bin"]) cli_demo).1 = Returned ∧
  (PlayMain.mainG 8 2 [1; 0]
     (PlayMain.mkFlags false false "out.zst" 3 2 true ["in.bin"]) cli_demo).1 = Returned ∧
  (StreamMain.main 8 (StreamMain.mkFlags false false "out.zst" 3 4 ["in.bin"]) cli_demo).1
    = Returned ∧
  (StreamMain.main 8 (StreamMain.mkFlags true false "out.bin" 3 4 ["in.bin"]) cli_demo).1
    = Exit1 (DecompressionFailed ErrDecompress).
Proof. by vm_compute. Qed.
