(* ===== verification/ChunkPool.v ===== *)
(** * The chunk worker pool

    [compressBlock], [decompressBlock], [compressFile] and [decompressFile]
    of src/unnamed/part_002, a program of its own: a reader goroutine cuts
    the input into chunks of [blockSize] bytes and hands them to a pool of
    [numThreads] workers over an unbuffered channel; every worker
    compresses the chunks it gets and sends each result on a second
    unbuffered channel, which [compressFile] itself drains into the output.

    Here the goroutines do share state (the one read buffer, the two
    channels), so the model is a transition system: a [state] holds the
    place of every goroutine in its code, the buffer, the store, and
    whether [results] has been closed; a [step] is one goroutine running
    from one communication to the next, and a hand-over on an unbuffered
    channel is one step of the sender and the receiver together.  A run is
    a sequence of steps from [init]; the theorems quantify over runs.

    A chunk on the channel is the slice [buf[:n]]: a length and the shared
    buffer, not a copy.  The worker reads the bytes when it compresses.

    The steps are given twice, as the relation [step] and as the function
    [fire] of the scheduler's choice, and the two are proved to agree;
    [exec] runs a schedule, and [main] takes one.  The file shows that
    every run ends, the invariant of the runs on any input ([pool_inv]:
    every chunk read is with the reader, with a worker or in the output)
    and the shape of the output it gives, what the runs on an input of one
    chunk and of two chunks write, what [decompressFile] makes of a stream,
    and that the program does not restore what it has compressed. *)

From stdpp Require Import relations.
From S2P Require Import Prelude Codec FileSys Cli.

Module Pool.

Section pool.
Context `{Unclosed}.

(** ** The blocks *)

(** [const blockSize = 1 << 20] *)
Definition blockSize : Z := 1 ≪ 20.

(** [compressBlock]: a writer over a [bytes.Buffer], one [Write], and
    [return buf.Bytes(), nil].  The operand of [return] is evaluated before
    the deferred [encoder.Close()] runs, so the slice returned is what the
    writer had passed on when [Write] returned.  Creating a writer with a
    level option and writing into a buffer do not fail. *)
Definition compressBlock (input : bytes) (compressionLevel : Z) : bytes * option error :=
  (encodeWritten compressionLevel input, None).

(** [decompressBlock]: a decoder over the bytes, read to its end. *)
Definition decompressBlock (input : bytes) : bytes * option error :=
  match decodeAll input with
  | Some out => (out, None)
  | None => ([], Some ErrDecodeBlock)
  end.

(** ** The state of [compressFile] *)

(** [type result struct { index int; data []byte; err error }] *)
Record result : Type := mkResult {
  res_index : Z;
  res_data : bytes;
  res_err : option error;
}.

(** The reader goroutine: about to [Read], about to send the error of a
    read, about to send the chunk [buf[:n]], or returned (and
    [inputChunks] closed by its [defer]). *)
Inductive reader_pc : Type :=
| AtRead (index : Z)
| AtSendErr (index : Z) (e : oserr)
| AtSendChunk (index : Z) (n : nat)
| ReaderDone.

(** A worker: waiting in [range inputChunks], holding the chunk [buf[:n]]
    before [compressBlock], about to send its result, or past the loop
    (and [wg.Done()]). *)
Inductive worker_pc : Type :=
| AtRange
| AtCompress (n : nat)
| AtSendResult (res : result)
| WorkerDone.

(** [compressFile] itself: in [range results], returned, or taken down by
    a panic of one of its goroutines. *)
Inductive status : Type :=
| Running
| Finished (e : option error)
| Crashed (p : panic).

Record state : Type := mkState {
  st_world : world;
  st_input : File;
  st_output : File;
  st_buf : bytes;
  st_reader : reader_pc;
  st_workers : list worker_pc;
  st_closed : bool;
  st_status : status;
}.

(** The state when the goroutines have been started: [buf] is
    [make([]byte, blockSize)], no worker has a chunk. *)
Definition init (g : Z) (input output : File) (numThreads : Z) (w : world) : state :=
  mkState w input output (replicate (Z.to_nat g) "000"%byte) (AtRead 0)
          (replicate (Z.to_nat numThreads) AtRange) false Running.

(** [input.Read(buf)] places the bytes read at the start of the buffer. *)
Definition fill_buf (d buf : bytes) : bytes := d ++ drop (length d) buf.

(** The reader after [n, err := input.Read(buf)]: an error that is not
    [io.EOF] is reported, [n == 0] ends the loop, and otherwise the chunk
    is sent. *)
Definition after_read (index : Z) (d : bytes) (e : rderr) : reader_pc :=
  match e with
  | RdErr e => AtSendErr index e
  | _ => if bool_decide (d = []) then ReaderDone else AtSendChunk index (length d)
  end.

(** The body of [for res := range results]: an error ends [compressFile],
    a block is written to the output. *)
Definition receive (res : result) (output : File) (w : world) : status * File * world :=
  match res_err res with
  | Some e => (Finished (Some e), output, w)
  | None =>
      match file_Write output (res_data res) w with
      | (inl e, w') => (Finished (Some (ErrWriteCompressed e)), output, w')
      | (inr output', w') => (Running, output', w')
      end
  end.

(** What worker [i] sends for the chunk [buf[:n]]. *)
Definition compressed (compressionLevel : Z) (i : nat) (n : nat) (buf : bytes) : result :=
  let '(compressedData, err) := compressBlock (take n buf) compressionLevel in
  mkResult (Z.of_nat i) compressedData err.

#[global] Instance result_eq_dec : EqDecision result.
Proof. solve_decision. Defined.

#[global] Instance worker_pc_eq_dec : EqDecision worker_pc.
Proof. solve_decision. Defined.

(** What the Go scheduler chooses: the goroutine that takes the next
    step.  [DoChunk i] and [DoResult i] are the hand-overs on the two
    channels with worker [i], [DoLeave i] the end of its loop, [DoClose]
    the goroutine that waits for the workers, [DoReturn] the end of
    [range results]. *)
Inductive action : Set :=
| DoRead
| DoSendErr
| DoChunk (i : nat)
| DoCompress (i : nat)
| DoResult (i : nat)
| DoLeave (i : nat)
| DoClose
| DoReturn.

(** ** The steps *)

Section steps.
Context (g compressionLevel : Z).

Inductive step : state → state → Prop :=
| step_read w input output buf index ws cl d e input' :
    (* n, err := input.Read(buf) *)
    file_Read input g w = ((d, e), input') →
    step (mkState w input output buf (AtRead index) ws cl Running)
         (mkState w input' output (fill_buf d buf) (after_read index d e) ws cl Running)
| step_send_err w input output buf index e ws st output' w' :
    (* results <- result{index: index, err: ...}; return *)
    receive (mkResult index [] (Some (ErrReadInputFile e))) output w = (st, output', w') →
    step (mkState w input output buf (AtSendErr index e) ws false Running)
         (mkState w' input output' buf ReaderDone ws false st)
| step_send_closed w input output buf index e ws :
    (* the same when results has been closed *)
    step (mkState w input output buf (AtSendErr index e) ws true Running)
         (mkState w input output buf (AtSendErr index e) ws true (Crashed PanicSendOnClosed))
| step_chunk w input output buf index n ws i cl :
    (* inputChunks <- buf[:n]; index++ with a worker in range inputChunks *)
    ws !! i = Some AtRange →
    step (mkState w input output buf (AtSendChunk index n) ws cl Running)
         (mkState w input output buf (AtRead (add64 index 1)) (<[i := AtCompress n]> ws) cl Running)
| step_compress w input output buf rd ws i n cl :
    (* compressedData, err := compressBlock(chunk, compressionLevel) *)
    ws !! i = Some (AtCompress n) →
    step (mkState w input output buf rd ws cl Running)
         (mkState w input output buf rd
                  (<[i := AtSendResult (compressed compressionLevel i n buf)]> ws) cl Running)
| step_result w input output buf rd ws i res cl st output' w' :
    (* results <- result{...} with compressFile in range results *)
    ws !! i = Some (AtSendResult res) →
    receive res output w = (st, output', w') →
    step (mkState w input output buf rd ws cl Running)
         (mkState w' input output' buf rd (<[i := AtRange]> ws) cl st)
| step_worker_done w input output buf ws i cl :
    (* range inputChunks ends: the channel is closed and empty *)
    ws !! i = Some AtRange →
    step (mkState w input output buf ReaderDone ws cl Running)
         (mkState w input output buf ReaderDone (<[i := WorkerDone]> ws) cl Running)
| step_close w input output buf rd ws :
    (* wg.Wait(); close(results) *)
    Forall (λ p, p = WorkerDone) ws →
    step (mkState w input output buf rd ws false Running)
         (mkState w input output buf rd ws true Running)
| step_return w input output buf rd ws :
    (* range results ends; return nil *)
    step (mkState w input output buf rd ws true Running)
         (mkState w input output buf rd ws true (Finished None)).

(** [compressFile] from the state [s] on: the runs. *)
Definition runs (s s' : state) : Prop := rtc step s s'.

(** The steps as a function of the scheduler's choice: the goroutine that
    runs next, and for a hand-over the worker that takes part. *)
Definition fire (a : action) (s : state) : option state :=
  let '(mkState w input output buf rd ws cl st) := s in
  match st, a with
  | Running, DoRead =>
      match rd with
      | AtRead index =>
          let '((d, e), input') := file_Read input g w in
          Some (mkState w input' output (fill_buf d buf) (after_read index d e) ws cl Running)
      | _ => None
      end
  | Running, DoSendErr =>
      match rd with
      | AtSendErr index e =>
          if cl
          then Some (mkState w input output buf rd ws true (Crashed PanicSendOnClosed))
          else
            let '(st', output', w') :=
              receive (mkResult index [] (Some (ErrReadInputFile e))) output w in
            Some (mkState w' input output' buf ReaderDone ws false st')
      | _ => None
      end
  | Running, DoChunk i =>
      match rd, ws !! i with
      | AtSendChunk index n, Some AtRange =>
          Some (mkState w input output buf (AtRead (add64 index 1))
                        (<[i := AtCompress n]> ws) cl Running)
      | _, _ => None
      end
  | Running, DoCompress i =>
      match ws !! i with
      | Some (AtCompress n) =>
          Some (mkState w input output buf rd
                        (<[i := AtSendResult (compressed compressionLevel i n buf)]> ws)
                        cl Running)
      | _ => None
      end
  | Running, DoResult i =>
      match ws !! i with
      | Some (AtSendResult res) =>
          let '(st', output', w') := receive res output w in
          Some (mkState w' input output' buf rd (<[i := AtRange]> ws) cl st')
      | _ => None
      end
  | Running, DoLeave i =>
      match rd, ws !! i with
      | ReaderDone, Some AtRange =>
          Some (mkState w input output buf ReaderDone (<[i := WorkerDone]> ws) cl Running)
      | _, _ => None
      end
  | Running, DoClose =>
      if cl then None
      else if bool_decide (Forall (λ p, p = WorkerDone) ws)
           then Some (mkState w input output buf rd ws true Running)
           else None
  | Running, DoReturn =>
      if cl then Some (mkState w input output buf rd ws true (Finished None)) else None
  | _, _ => None
  end.

(** [compressFile] under a scheduler that makes the choices [sched]; a
    choice that is not possible in the state it meets is passed over. *)
Definition exec (sched : list action) (s : state) : state :=
  foldl (λ s a, default s (fire a s)) s sched.

End steps.

(** [compressFile(input, output, compressionLevel, numThreads)] returns [e]
    and leaves the store [w']: some run from [init] does. *)
Definition compressFileG (g : Z) (input output : File) (compressionLevel numThreads : Z)
    (w : world) (e : option error) (w' : world) : Prop :=
  ∃ s, runs g compressionLevel (init g input output numThreads w) s ∧
       st_status s = Finished e ∧ st_world s = w'.

Definition compressFile := compressFileG blockSize.

(** ** Decompression *)

(** One round of the loop of [decompressFile]: a read of up to [g] bytes,
    which are decoded on their own and written. *)
Definition decompressFile_iter (g : Z) (s : File * File) : io world (loopres (File * File)) :=
  λ w, let '((d, e), input') := file_Read s.1 g w in
       match e with
       | RdErr e => (Err (ErrReadInputFile e), w)
       | _ =>
           if bool_decide (d = []) then (Ok (Break (input', s.2)), w)
           else match decompressBlock d with
                | (_, Some _) => (Err ErrDecompressBlock, w)
                | (decompressedData, None) =>
                    (output' <- wrap_err ErrWriteDecompressed (file_Write s.2 decompressedData);;
                     io_ret (Continue (input', output')))%io w
                end
       end.

Definition decompressFileG (fuel : nat) (g : Z) (input output : File) : io world () :=
  (io_loop fuel (decompressFile_iter g) (input, output);;;
   io_ret ())%io.

Definition decompressFile (fuel : nat) := decompressFileG fuel blockSize.

(** ** [main] *)

(** The flags, under the names of the variables that hold them
    ([compressMode] is the flag [-d]). *)
Record flags : Set := mkFlags {
  compressMode : bool;
  outputToStdout : bool;
  outputFile : string;
  compressionLevel : Z;
  numThreads : Z;
  args : list string;
}.

(** How [main] ends for the state in which the schedule has left
    [compressFile]; a schedule that ends before [compressFile] has returned
    is a run that was cut short. *)
Definition exit_of (st : status) : exit :=
  match st with
  | Running => NoFuel
  | Finished None => Returned
  | Finished (Some err) => Exit1 (CompressionFailed err)
  | Crashed p => Panicked p
  end.

(** [main] for a buffer of [g] bytes and a schedule of the goroutines. *)
Definition mainG (fuel : nat) (g : Z) (sched : list action) (f : flags) : world → exit * world :=
  with_files (args f) (outputToStdout f) (outputFile f) (λ input output,
    if compressMode f
    then run_mode DecompressionFailed (decompressFileG fuel g input output)
    else λ w,
      let s := exec g (compressionLevel f) sched (init g input output (numThreads f) w) in
      (exit_of (st_status s), st_world s)).

Definition main (fuel : nat) : list action → flags → world → exit * world :=
  mainG fuel blockSize.

(** ** Every run ends *)

(** What is left of the input. *)
Definition remaining (s : state) : nat := length (pending (st_input s) (st_world s)).

Definition reader_weight (rd : reader_pc) : nat :=
  match rd with AtRead _ => 2 | AtSendErr _ _ => 1 | AtSendChunk _ _ => 5 | ReaderDone => 0 end.

Definition worker_weight (p : worker_pc) : nat :=
  match p with AtRange => 1 | AtCompress _ => 3 | AtSendResult _ => 2 | WorkerDone => 0 end.

(** The number of steps a state still allows: every step pays for itself
    from the bytes left to read or from the place of a goroutine. *)
Definition measure (s : state) : nat :=
  5 * remaining s + reader_weight (st_reader s)
  + sum_list (worker_weight <$> st_workers s)
  + (if st_closed s then 0 else 1)
  + (match st_status s with Running => 1 | _ => 0 end).

(** The input is a handle at a position of its file, and not the file the
    output goes to. *)
Definition separate (s : state) : Prop :=
  0 ≤ f_pos (st_input s) ∧ f_name (st_input s) ≠ f_name (st_output s).

Lemma file_Read_remaining h len w d e h' :
  0 ≤ f_pos h → file_Read h len w = ((d, e), h') →
  f_name h' = f_name h ∧ 0 ≤ f_pos h' ∧
  length (pending h w) = (length d + length (pending h' w))%nat ∧
  (e = RdNil ∨ e = RdEOF ∨ d = []).
Proof.
  intros Hpos. unfold file_Read. cbn [pending file_lawful].
  destruct (files w !! f_name h) as [data|] eqn:Hdata; [|intros [= <- <- <-]; rewrite Hdata; eauto 10].
  repeat case_bool_decide; intros [= <- <- <-]; cbn [f_name f_pos]; rewrite Hdata; simpl;
    (split_and!; [done|try lia|try done|eauto]).
  rewrite length_take, !length_drop. lia.
Qed.

Lemma receive_frame res output w st output' w' :
  receive res output w = (st, output', w') →
  f_name output' = f_name output ∧
  (∀ k, k ≠ f_name output → files w' !! k = files w !! k) ∧
  (st = Running ∨ ∃ e, st = Finished (Some e)).
Proof.
  unfold receive, file_Write. destruct (res_err res); intros [= <- <- <-]; [by eauto 10|].
  split_and!; [done| |by left]. intros k Hk. simpl. by rewrite lookup_alter_ne.
Qed.

Lemma pending_frame (h : File) w w' :
  files w' !! f_name h = files w !! f_name h → pending h w' = pending h w.
Proof. cbn [pending file_lawful]. by intros ->. Qed.

Section steps_end.
Context (g compressionLevel : Z).

Lemma step_separate s s' : separate s → step g compressionLevel s s' → separate s'.
Proof.
  intros [Hpos Hne]. destruct 1; unfold separate in *; cbn [st_input st_output] in *;
    try done.
  - match goal with Hr : file_Read _ _ _ = _ |- _ =>
      apply file_Read_remaining in Hr as (-> & ? & _); done end.
  - match goal with Hr : receive _ _ _ = _ |- _ => apply receive_frame in Hr as (-> & _) end.
    done.
  - match goal with Hr : receive _ _ _ = _ |- _ => apply receive_frame in Hr as (-> & _) end.
    done.
Qed.

(** Every step takes from the measure. *)
Lemma step_measure s s' :
  separate s → step g compressionLevel s s' → (measure s' < measure s)%nat.
Proof.
  intros [Hpos Hne]. destruct 1; unfold measure, remaining;
    cbn [st_input st_output st_world st_reader st_workers st_closed st_status reader_weight] in *;
    repeat match goal with
    | Hw : ?ws !! ?i = Some ?y |- context [<[?i := ?x]> ?ws] =>
        pose proof (sum_list_fmap_insert worker_weight ws i x y Hw); clear Hw
    | Hr : receive _ _ _ = _ |- _ =>
        apply receive_frame in Hr as (_ & Hr & [->| [? ->]]);
        rewrite (pending_frame _ _ _ (Hr _ Hne))
    end; cbn [worker_weight] in *; try lia.
  match goal with Hr : file_Read _ _ _ = _ |- _ =>
    apply file_Read_remaining in Hr as (_ & _ & -> & He); [|done] end.
  unfold after_read.
  destruct e as [| |e], d; repeat case_bool_decide; simplify_eq/=; try lia.
Qed.

(** A run of [n] steps is paid for by the measure of its first state. *)
Lemma runs_bounded n s s' :
  separate s → nsteps (step g compressionLevel) n s s' → (n + measure s' ≤ measure s)%nat.
Proof.
  intros Hs Hn. induction Hn as [|n s s1 s' Hstep _ IH]; [lia|].
  pose proof (step_measure _ _ Hs Hstep). specialize (IH (step_separate _ _ Hs Hstep)). lia.
Qed.

(** The workers are all done, or one of them has a step to take. *)
Lemma workers_cases (ws : list worker_pc) :
  Forall (λ p, p = WorkerDone) ws ∨ ∃ i p, ws !! i = Some p ∧ p ≠ WorkerDone.
Proof.
  induction ws as [|p ws [IH|(i & q & ? & ?)]]; [by left| |right; by exists (S i), q].
  destruct p; [right; by eexists 0%nat, _..|]. left. by constructor.
Qed.

(** While [compressFile] has not returned, some goroutine can take a
    step: no state is a deadlock. *)
Lemma step_progress s :
  st_status s = Running → ∃ s', step g compressionLevel s s'.
Proof.
  destruct s as [w input output buf rd ws cl st]. simpl. intros ->.
  destruct rd as [index|index e|index n|].
  - destruct (file_Read input g w) as [[d e] input'] eqn:Hr. eexists. by eapply step_read.
  - destruct cl; [eexists; apply step_send_closed|].
    destruct (receive (mkResult index [] (Some (ErrReadInputFile e))) output w) as [[st o'] w'] eqn:Hr.
    eexists. by eapply step_send_err.
  - destruct (workers_cases ws) as [Hall|(i & p & Hi & Hp)].
    + destruct cl; eexists; [apply step_return|by apply step_close].
    + destruct p as [|m|res|]; [| | |done].
      * eexists. by eapply step_chunk.
      * eexists. by eapply step_compress.
      * destruct (receive res output w) as [[st o'] w'] eqn:Hr. eexists. by eapply step_result.
  - destruct (workers_cases ws) as [Hall|(i & p & Hi & Hp)].
    + destruct cl; eexists; [apply step_return|by apply step_close].
    + destruct p as [|m|res|]; [| | |done].
      * eexists. by eapply step_worker_done.
      * eexists. by eapply step_compress.
      * destruct (receive res output w) as [[st o'] w'] eqn:Hr. eexists. by eapply step_result.
Qed.

(** ** The two forms of the steps agree *)

Lemma fire_step a s s' : fire g compressionLevel a s = Some s' → step g compressionLevel s s'.
Proof.
  destruct s as [w input output buf rd ws cl st]. unfold fire.
  destruct st; [|done..]. destruct a.
  - destruct rd; try done. destruct (file_Read _ _ _) as [[d e] input'] eqn:Hr.
    intros [= <-]. by apply step_read.
  - destruct rd as [|index e| |]; try done. destruct cl; [intros [= <-]; apply step_send_closed|].
    destruct (receive _ _ _) as [[st' output'] w'] eqn:Hr. intros [= <-]. by apply step_send_err.
  - destruct rd; try done. destruct (ws !! i) as [[]|] eqn:Hi; try done.
    intros [= <-]. by apply step_chunk.
  - destruct (ws !! i) as [[]|] eqn:Hi; try done. intros [= <-]. by apply step_compress.
  - destruct (ws !! i) as [[]|] eqn:Hi; try done.
    destruct (receive _ _ _) as [[st' output'] w'] eqn:Hr. intros [= <-]. by eapply step_result.
  - destruct rd; try done. destruct (ws !! i) as [[]|] eqn:Hi; try done.
    intros [= <-]. by apply step_worker_done.
  - destruct cl; [done|]. case_bool_decide; [|done]. intros [= <-]. by apply step_close.
  - destruct cl; [|done]. intros [= <-]. apply step_return.
Qed.

Lemma step_fire s s' :
  step g compressionLevel s s' → ∃ a, fire g compressionLevel a s = Some s'.
Proof.
  destruct 1;
    [exists DoRead|exists DoSendErr|exists DoSendErr|exists (DoChunk i)|exists (DoCompress i)
    |exists (DoResult i)|exists (DoLeave i)|exists DoClose|exists DoReturn];
    unfold fire; repeat match goal with Hx : _ = _ |- _ => rewrite Hx; clear Hx end;
    rewrite ?bool_decide_eq_true_2 by done; done.
Qed.

(** A schedule is a run, and every run is the run of a schedule. *)
Lemma exec_runs sched s : runs g compressionLevel s (exec g compressionLevel sched s).
Proof.
  revert s. induction sched as [|a sched IH]; intros s; [apply rtc_refl|].
  unfold exec. cbn [foldl]. destruct (fire g compressionLevel a s) as [s1|] eqn:Hf; [|apply IH].
  eapply rtc_l; [by eapply fire_step|apply IH].
Qed.

Lemma runs_exec s s' :
  runs g compressionLevel s s' → ∃ sched, exec g compressionLevel sched s = s'.
Proof.
  induction 1 as [|s s1 s' Hstep _ [sched <-]]; [by exists []|].
  apply step_fire in Hstep as [a Ha]. exists (a :: sched). unfold exec. cbn [foldl].
  by rewrite Ha.
Qed.

(** ** What holds of every state of a run *)

(** A worker leaves its loop only when the reader has closed
    [inputChunks], and [results] is closed only when all workers have
    left. *)
Definition pool_wf (s : state) : Prop :=
  (WorkerDone ∈ st_workers s → st_reader s = ReaderDone) ∧
  (st_closed s = true → Forall (λ p, p = WorkerDone) (st_workers s)).

Lemma elem_of_insert_inv (ws : list worker_pc) i p q :
  q ∈ <[i := p]> ws → p ≠ q → q ∈ ws.
Proof.
  intros (j & Hj)%list_elem_of_lookup Hp. apply list_elem_of_lookup.
  apply list_lookup_insert_Some in Hj as [(-> & -> & _)|(_ & Hj)]; [done|by exists j].
Qed.

Lemma all_done_lookup (ws : list worker_pc) i p :
  Forall (λ p, p = WorkerDone) ws → ws !! i = Some p → p = WorkerDone.
Proof. intros Hall Hi. by apply (Forall_lookup_1 _ _ _ _ Hall Hi). Qed.

Lemma step_wf s s' : pool_wf s → step g compressionLevel s s' → pool_wf s'.
Proof.
  intros [HW HC]. destruct 1; unfold pool_wf in *; simpl in *; split; try done;
    try (intros Hc; specialize (HC Hc);
         match goal with Hi : _ !! _ = Some _ |- _ => by pose proof (all_done_lookup _ _ _ HC Hi) end);
    intros Hd; try (apply elem_of_insert_inv in Hd; [|done]); by specialize (HW Hd).
Qed.

Lemma step_workers_length s s' :
  step g compressionLevel s s' → length (st_workers s') = length (st_workers s).
Proof. destruct 1; simpl; by rewrite ?length_insert. Qed.

Lemma runs_wf s s' : pool_wf s → runs g compressionLevel s s' → pool_wf s'.
Proof. intros Hwf Hrun. induction Hrun; eauto using step_wf. Qed.

Lemma runs_workers_length s s' :
  runs g compressionLevel s s' → length (st_workers s') = length (st_workers s).
Proof.
  induction 1 as [|s s1 s' Hstep _ IH]; [done|]. by rewrite IH, (step_workers_length _ _ Hstep).
Qed.

(** The start of a pool with a worker. *)
Lemma init_wf input output numThreads w :
  0 < numThreads →
  pool_wf (init g input output numThreads w) ∧
  st_workers (init g input output numThreads w) ≠ [].
Proof.
  intros ?. split; [split; [simpl; by intros ?%elem_of_replicate_inv|done]|].
  simpl. destruct (Z.to_nat numThreads) eqn:?; [lia|done].
Qed.

Lemma step_running s s' : step g compressionLevel s s' → st_status s = Running.
Proof. by destruct 1. Qed.

(** The rules with the state afterwards as an equation, to be applied to
    a state that is not yet in the rule's shape. *)
Lemma step_read' w input output buf index ws cl d e input' s' :
  file_Read input g w = ((d, e), input') →
  s' = mkState w input' output (fill_buf d buf) (after_read index d e) ws cl Running →
  step g compressionLevel (mkState w input output buf (AtRead index) ws cl Running) s'.
Proof. intros ? ->. by apply step_read. Qed.

Lemma step_result' w input output buf rd ws i res cl st output' w' s' :
  ws !! i = Some (AtSendResult res) →
  receive res output w = (st, output', w') →
  s' = mkState w' input output' buf rd (<[i := AtRange]> ws) cl st →
  step g compressionLevel (mkState w input output buf rd ws cl Running) s'.
Proof. intros ?? ->. by eapply step_result. Qed.

(** When the reader has returned, the waiting workers leave their loops
    one after the other. *)
Lemma workers_finish w input output buf cl k m :
  runs g compressionLevel
    (mkState w input output buf ReaderDone
             (replicate k WorkerDone ++ replicate m AtRange) cl Running)
    (mkState w input output buf ReaderDone (replicate (k + m) WorkerDone) cl Running).
Proof.
  revert k. induction m as [|m IH]; intros k.
  - rewrite app_nil_r, Nat.add_0_r. apply rtc_refl.
  - eapply rtc_l.
    { apply (step_worker_done _ _ _ _ _ _ _ k).
      by rewrite lookup_app_r, length_replicate, Nat.sub_diag by (by rewrite length_replicate). }
    replace (<[k := WorkerDone]> (replicate k WorkerDone ++ replicate (S m) AtRange))
      with (replicate (S k) WorkerDone ++ replicate m AtRange).
    + replace (k + S m)%nat with (S k + m)%nat by lia. apply IH.
    + rewrite insert_app_r_alt, length_replicate, Nat.sub_diag by (by rewrite length_replicate).
      rewrite (replicate_S_end k), <-(assoc_L (++)). done.
Qed.

(** The end of every run that has read the whole input: the workers leave,
    [results] is closed, [compressFile] returns [nil]. *)
Lemma run_finish w input output buf n :
  runs g compressionLevel
    (mkState w input output buf ReaderDone (replicate n AtRange) false Running)
    (mkState w input output buf ReaderDone (replicate n WorkerDone) true (Finished None)).
Proof.
  eapply rtc_trans; [apply (workers_finish _ _ _ _ _ 0 n)|]. simpl.
  eapply rtc_l; [apply step_close, Forall_replicate; done|].
  apply rtc_once, step_return.
Qed.

End steps_end.

(** ** The run in which nothing overlaps *)

Section in_order.
Context (g compressionLevel : Z) (iname oname : string) (data : bytes) (w : world).
Context (Hg : 0 < g) (Hne : iname ≠ oname) (Hdata : files w !! iname = Some data).

(** The store when the output holds [out]. *)
Definition pool_world (out : bytes) : world := set_files <[oname := out]> w.

Lemma pool_world_input out : files (pool_world out) !! iname = Some data.
Proof. unfold pool_world. simpl. by rewrite lookup_insert_ne. Qed.

Lemma pool_world_output out : files (pool_world out) !! oname = Some out.
Proof. unfold pool_world. simpl. by rewrite lookup_insert_eq. Qed.

Lemma pool_world_id : files w !! oname = Some [] → pool_world [] = w.
Proof. intros Hout. apply set_files_id. by apply insert_id. Qed.

(** [compressFile] writes a block at the end of the output. *)
Lemma receive_block index out more :
  receive (mkResult index more None) (mkFile oname (Z.of_nat (length out))) (pool_world out) =
    (Running, mkFile oname (Z.of_nat (length (out ++ more))), pool_world (out ++ more)).
Proof.
  unfold receive. cbn [res_err res_data].
  rewrite (file_Write_append _ _ out (pool_world_output out)) by done.
  rewrite length_app, Nat2Z.inj_add. do 2 f_equal.
  unfold pool_world. rewrite set_files_set_files. apply set_files_ext. simpl.
  by rewrite insert_insert_eq.
Qed.

(** A state of the pool over these two files: the input read up to
    [pos], the output holding [out] with its handle at the end. *)
Definition pool_state (pos : Z) (out buf : bytes) (rd : reader_pc) (ws : list worker_pc)
    (cl : bool) : state :=
  mkState (pool_world out) (mkFile iname pos) (mkFile oname (Z.of_nat (length out))) buf
          rd ws cl Running.

(** The steps on such states. *)
Lemma do_read pos out buf index ws cl :
  0 ≤ pos < Z.of_nat (length data) →
  step g compressionLevel (pool_state pos out buf (AtRead index) ws cl)
    (pool_state (Z.min (pos + g) (Z.of_nat (length data))) out
                (fill_buf (slice pos (pos + g) data) buf)
                (AtSendChunk index (length (slice pos (pos + g) data))) ws cl).
Proof.
  intros Hpos. eapply step_read'.
  - by apply (file_Read_data _ _ data (pool_world_input out)).
  - unfold after_read. rewrite bool_decide_eq_false_2; [done|]. apply slice_nonempty; lia.
Qed.

Lemma do_eof pos out buf index ws cl :
  Z.of_nat (length data) ≤ pos →
  step g compressionLevel (pool_state pos out buf (AtRead index) ws cl)
    (pool_state pos out buf ReaderDone ws cl).
Proof.
  intros Hpos. eapply step_read'; [by apply (file_Read_eof _ _ data (pool_world_input out))|].
  done.
Qed.

Lemma do_chunk i pos out buf index n ws cl :
  ws !! i = Some AtRange →
  step g compressionLevel (pool_state pos out buf (AtSendChunk index n) ws cl)
    (pool_state pos out buf (AtRead (add64 index 1)) (<[i := AtCompress n]> ws) cl).
Proof. intros ?. by apply step_chunk. Qed.

Lemma do_compress i n pos out buf rd ws cl :
  ws !! i = Some (AtCompress n) →
  step g compressionLevel (pool_state pos out buf rd ws cl)
    (pool_state pos out buf rd
       (<[i := AtSendResult (mkResult (Z.of_nat i) (encodeWritten compressionLevel (take n buf))
                                      None)]> ws) cl).
Proof. intros ?. by apply step_compress. Qed.

Lemma do_result i index block pos out buf rd ws cl :
  ws !! i = Some (AtSendResult (mkResult index block None)) →
  step g compressionLevel (pool_state pos out buf rd ws cl)
    (pool_state pos (out ++ block) buf rd (<[i := AtRange]> ws) cl).
Proof. intros ?. eapply step_result'; [done|apply receive_block|done]. Qed.

(** When the reader has returned and no worker holds a chunk, the run
    ends: [compressFile] returns [nil] and the output is as it stands. *)
Lemma do_finish pos out buf n :
  ∃ s, runs g compressionLevel (pool_state pos out buf ReaderDone (replicate n AtRange) false) s ∧
       st_status s = Finished None ∧ st_world s = pool_world out.
Proof. eexists. split; [apply run_finish|done]. Qed.

(** One chunk taken through the pool by the first worker while every
    other goroutine waits: read, hand over, compress, write. *)
Lemma round pos out buf index ws :
  0 ≤ pos < Z.of_nat (length data) → ws !! 0%nat = Some AtRange →
  runs g compressionLevel (pool_state pos out buf (AtRead index) ws false)
    (pool_state (Z.min (pos + g) (Z.of_nat (length data)))
             (out ++ encodeWritten compressionLevel (slice pos (pos + g) data))
             (fill_buf (slice pos (pos + g) data) buf) (AtRead (add64 index 1)) ws false).
Proof.
  intros Hpos Hws. assert (0 < length ws)%nat by (by eapply lookup_lt_Some).
  eapply rtc_l; [by apply do_read|].
  eapply rtc_l; [by apply (do_chunk 0)|].
  eapply rtc_l; [by apply (do_compress 0), list_lookup_insert_eq|].
  eapply rtc_l; [by eapply (do_result 0), list_lookup_insert_eq; rewrite length_insert|].
  unfold fill_buf at 1. rewrite take_app_length.
  rewrite !list_insert_insert_eq, list_insert_id by done. apply rtc_refl.
Qed.

(** The rounds for all that is left of the input. *)
Lemma rounds k pos out buf index ws :
  (Z.to_nat (Z.of_nat (length data) - pos) ≤ k)%nat → 0 ≤ pos → ws !! 0%nat = Some AtRange →
  ∃ pos' buf' index', Z.of_nat (length data) ≤ pos' ∧
    runs g compressionLevel (pool_state pos out buf (AtRead index) ws false)
      (pool_state pos'
         (out ++ concat (encodeWritten compressionLevel <$>
                           chunks (Z.to_nat g) (drop (Z.to_nat pos) data)))
         buf' (AtRead index') ws false).
Proof.
  revert pos out buf index. induction k as [|k IH]; intros pos out buf index Hk Hpos Hws.
  - exists pos, buf, index. split; [lia|].
    rewrite drop_ge, chunks_nil by lia. simpl. rewrite app_nil_r. apply rtc_refl.
  - destruct (decide (Z.of_nat (length data) ≤ pos)).
    { exists pos, buf, index. split; [done|].
      rewrite drop_ge, chunks_nil by lia. simpl. rewrite app_nil_r. apply rtc_refl. }
    edestruct (IH (Z.min (pos + g) (Z.of_nat (length data)))) as (pos' & buf' & index' & ? & Hrun);
      [lia|lia|done|].
    exists pos', buf', index'. split; [done|].
    eapply rtc_trans; [apply round; [lia|done]|].
    rewrite (chunks_drop_step g pos data) by lia. rewrite fmap_cons. cbn [concat].
    rewrite (assoc_L (++)). apply Hrun.
Qed.

(** The state in which [compressFile] starts, when the output is empty. *)
Lemma init_pool_state numThreads :
  files w !! oname = Some [] →
  init g (mkFile iname 0) (mkFile oname 0) numThreads w =
    pool_state 0 [] (replicate (Z.to_nat g) "000"%byte) (AtRead 0)
               (replicate (Z.to_nat numThreads) AtRange) false.
Proof. intros Hout. unfold init, pool_state. by rewrite pool_world_id. Qed.

(** In some run the blocks are written in the order of the chunks. *)
Lemma compressFileG_in_order numThreads :
  0 < numThreads → files w !! oname = Some [] →
  compressFileG g (mkFile iname 0) (mkFile oname 0) compressionLevel numThreads w None
    (pool_world (concat (encodeWritten compressionLevel <$> chunks (Z.to_nat g) data))).
Proof.
  intros Hn Hout. unfold compressFileG. rewrite init_pool_state by done.
  destruct (rounds (length data) 0 [] (replicate (Z.to_nat g) "000"%byte) 0
              (replicate (Z.to_nat numThreads) AtRange))
    as (pos' & buf' & index' & Hpos' & Hrun); [lia|done|by apply lookup_replicate_2; lia|].
  destruct (do_finish pos' (concat (encodeWritten compressionLevel <$> chunks (Z.to_nat g) data))
              buf' (Z.to_nat numThreads)) as (s & Hs & ? & ?).
  exists s. split; [|done].
  eapply rtc_trans; [apply Hrun|]. eapply rtc_l; [by apply do_eof|]. apply Hs.
Qed.

(** ** Runs in which the goroutines overlap *)

Lemma slice_first (c1 c2 : bytes) :
  Z.of_nat (length c1) = g → slice 0 (0 + g) (c1 ++ c2) = c1.
Proof.
  intros <-. unfold slice. replace (0 + Z.of_nat (length c1) - 0) with (Z.of_nat (length c1)) by lia.
  rewrite Nat2Z.id. change (Z.to_nat 0) with 0%nat. by rewrite drop_0, take_app_length.
Qed.

Lemma slice_second (c1 c2 : bytes) :
  Z.of_nat (length c1) = g → Z.of_nat (length c2) ≤ g →
  slice g (g + g) (c1 ++ c2) = c2.
Proof.
  intros <- ?. unfold slice. rewrite Nat2Z.id, drop_app_length. apply take_ge. lia.
Qed.

(** The buffer after the first two reads of an input of two chunks. *)
Lemma fill_buf_second (c1 c2 : bytes) :
  Z.of_nat (length c1) = g → Z.of_nat (length c2) ≤ g →
  fill_buf c2 (fill_buf c1 (replicate (Z.to_nat g) "000"%byte)) = c2 ++ drop (length c2) c1.
Proof.
  intros <- ?. unfold fill_buf. rewrite Nat2Z.id. f_equal.
  by rewrite (drop_ge (replicate _ _)), app_nil_r by (by rewrite length_replicate).
Qed.

Section two_chunks.
Context (c1 c2 : bytes) (ws : list worker_pc).
Context (Hc : data = c1 ++ c2) (Hc1 : Z.of_nat (length c1) = g).
Context (Hc2 : 0 < Z.of_nat (length c2) ≤ g).

Lemma two_chunks_length : Z.of_nat (length data) = g + Z.of_nat (length c2).
Proof. rewrite Hc, length_app. lia. Qed.

(** The reader reads the second chunk into the buffer while the first
    worker still holds the first chunk as a slice of it. *)
Lemma run_overwrite :
  runs g compressionLevel
    (pool_state 0 [] (replicate (Z.to_nat g) "000"%byte) (AtRead 0) (AtRange :: ws) false)
    (pool_state (Z.of_nat (length (c1 ++ c2))) [] (c2 ++ drop (length c2) c1)
                (AtSendChunk (add64 0 1) (length c2)) (AtCompress (length c1) :: ws) false).
Proof.
  pose proof two_chunks_length as Hlen.
  eapply rtc_l; [apply do_read; lia|].
  eapply rtc_l; [by apply (do_chunk 0)|].
  eapply rtc_l; [apply do_read; lia|].
  replace (Z.min (0 + g) (Z.of_nat (length data))) with g by lia.
  replace (Z.min (g + g) (Z.of_nat (length data))) with (Z.of_nat (length data)) by lia.
  rewrite Hc. rewrite slice_first, !slice_second, fill_buf_second by lia.
  apply rtc_refl.
Qed.

Lemma take_overwritten : take (length c1) (c2 ++ drop (length c2) c1) = c2 ++ drop (length c2) c1.
Proof. apply take_ge. rewrite length_app, length_drop. lia. Qed.

(** The first worker then compresses what the buffer holds now, and the
    second chunk is compressed once more when it arrives: the start of the
    first chunk is not in the output. *)
Lemma run_race m :
  ws = replicate m AtRange →
  ∃ s, runs g compressionLevel
         (pool_state 0 [] (replicate (Z.to_nat g) "000"%byte) (AtRead 0) (AtRange :: ws) false) s ∧
       st_status s = Finished None ∧
       st_world s = pool_world (encodeWritten compressionLevel (c2 ++ drop (length c2) c1) ++
                                encodeWritten compressionLevel c2).
Proof.
  intros Hws.
  destruct (do_finish (Z.of_nat (length (c1 ++ c2)))
              (encodeWritten compressionLevel (c2 ++ drop (length c2) c1) ++
               encodeWritten compressionLevel c2)
              (c2 ++ drop (length c2) c1) (S m)) as (s & Hs & ? & ?).
  exists s. split; [|done]. eapply rtc_trans; [apply run_overwrite|].
  eapply rtc_l; [by apply (do_compress 0)|]. rewrite take_overwritten.
  eapply rtc_l; [by eapply (do_result 0)|].
  eapply rtc_l; [by apply (do_chunk 0)|].
  eapply rtc_l; [by apply do_eof; rewrite Hc|].
  eapply rtc_l; [by apply (do_compress 0)|]. rewrite take_app_length.
  eapply rtc_l; [by eapply (do_result 0)|].
  simpl. rewrite Hws. apply Hs.
Qed.

(** With two workers, the second can deliver its block before the first
    does. *)
Lemma run_out_of_order m :
  ws = replicate m AtRange →
  ∃ s, runs g compressionLevel
         (pool_state 0 [] (replicate (Z.to_nat g) "000"%byte) (AtRead 0)
                     (AtRange :: AtRange :: ws) false) s ∧
       st_status s = Finished None ∧
       st_world s = pool_world (encodeWritten compressionLevel c2 ++
                                encodeWritten compressionLevel c1).
Proof.
  intros Hws. pose proof two_chunks_length as Hlen.
  destruct (do_finish (Z.of_nat (length data))
              (encodeWritten compressionLevel c2 ++ encodeWritten compressionLevel c1)
              (c2 ++ drop (length c2) c1) (S (S m))) as (s & Hs & ? & ?).
  exists s. split; [|done].
  eapply rtc_l; [apply do_read; lia|].
  eapply rtc_l; [by apply (do_chunk 0)|].
  eapply rtc_l; [by apply (do_compress 0)|].
  eapply rtc_l; [apply do_read; lia|].
  eapply rtc_l; [by apply (do_chunk 1)|].
  eapply rtc_l; [by apply (do_compress 1)|].
  eapply rtc_l; [by eapply (do_result 1)|].
  eapply rtc_l; [by eapply (do_result 0)|].
  eapply rtc_l; [apply do_eof; lia|].
  replace (Z.min (0 + g) (Z.of_nat (length data))) with g by lia.
  replace (Z.min (g + g) (Z.of_nat (length data))) with (Z.of_nat (length data)) by lia.
  rewrite Hc in Hs |- *. rewrite !slice_first, !slice_second, fill_buf_second by lia.
  unfold fill_buf at 1. rewrite !take_app_length. simpl. rewrite Hws. apply Hs.
Qed.

End two_chunks.

(** ** Every input, in every run *)

Section every_run.

(** The chunks of the input, and the buffer when [k] of them have been
    read: every read has overwritten the start of the buffer. *)
Definition input_chunks : list bytes := chunks (Z.to_nat g) data.

Definition buffer_after (k : nat) : bytes :=
  foldl (λ buf d, fill_buf d buf) (replicate (Z.to_nat g) "000"%byte) (take k input_chunks).

(** What a worker compresses: the start of the buffer as some read has
    left it. *)
Definition from_buffer (c : bytes) : Prop :=
  ∃ j, (0 < j ≤ length input_chunks)%nat ∧ c = take (length c) (buffer_after j).

(** The output that holds the blocks of [payloads]. *)
Definition blocks (payloads : list bytes) : bytes :=
  concat (encodeWritten compressionLevel <$> payloads).

(** The lengths of the chunks a goroutine has in its hands: a worker holds
    the slice it was sent or the block it made of it, the reader the slice
    it is about to send. *)
Inductive holds : worker_pc → list nat → Prop :=
| holds_range : holds AtRange []
| holds_done : holds WorkerDone []
| holds_chunk n : (n ≤ Z.to_nat g)%nat → holds (AtCompress n) [n]
| holds_result index c :
    from_buffer c →
    holds (AtSendResult (mkResult index (encodeWritten compressionLevel c) None)) [length c].

Inductive offers : reader_pc → Z → list nat → Prop :=
| offers_read index pos : offers (AtRead index) pos []
| offers_chunk index n pos : (n ≤ Z.to_nat g)%nat → offers (AtSendChunk index n) pos [n]
| offers_done pos : Z.of_nat (length data) ≤ pos → offers ReaderDone pos [].

(** The invariant of the runs: [k] chunks have been read, and each of them
    is with the reader, with a worker or in the output, as a block of its
    length made from the buffer. *)
Inductive pool_inv : state → Prop :=
| PoolInv k pos payloads rd ws hs rdn cl st :
    0 ≤ pos → (k ≤ length input_chunks)%nat →
    drop k input_chunks = chunks (Z.to_nat g) (drop (Z.to_nat pos) data) →
    offers rd pos rdn →
    Forall2 holds ws hs →
    Forall from_buffer payloads →
    (length <$> payloads) ++ concat hs ++ rdn ≡ₚ length <$> take k input_chunks →
    st = Running ∨ st = Finished None ∧ cl = true →
    pool_inv (mkState (pool_world (blocks payloads)) (mkFile iname pos)
                      (mkFile oname (Z.of_nat (length (blocks payloads)))) (buffer_after k)
                      rd ws cl st).

Lemma fill_buf_length (d buf : bytes) :
  (length d ≤ length buf)%nat → length (fill_buf d buf) = length buf.
Proof. intros ?. unfold fill_buf. rewrite length_app, length_drop. lia. Qed.

Lemma buffer_after_length k : length (buffer_after k) = Z.to_nat g.
Proof.
  unfold buffer_after.
  assert (Forall (λ d : bytes, length d ≤ Z.to_nat g)%nat (take k input_chunks)) as Hall.
  { apply Forall_forall. intros d Hd. eapply chunks_bound, subseteq_take, Hd. }
  revert Hall. generalize (take k input_chunks) as cs.
  intros cs. induction cs as [|c cs IH] using rev_ind; intros Hall.
  - apply length_replicate.
  - apply Forall_app in Hall as [Hall [Hc _]%Forall_cons]. rewrite foldl_app. simpl.
    rewrite fill_buf_length; rewrite IH by done; done.
Qed.

Lemma buffer_after_S k c :
  input_chunks !! k = Some c → buffer_after (S k) = fill_buf c (buffer_after k).
Proof. intros Hk. unfold buffer_after. by rewrite (take_S_r _ _ _ Hk), foldl_app. Qed.

(** The next chunk is the one at the offset of the input. *)
Lemma drop_input_chunks k c rest :
  drop k input_chunks = c :: rest →
  input_chunks !! k = Some c ∧ drop (S k) input_chunks = rest ∧ (S k ≤ length input_chunks)%nat.
Proof.
  intros Hd. assert (input_chunks !! k = Some c) as Hk.
  { by rewrite <-(Nat.add_0_r k), <-lookup_drop, Hd. }
  split_and!; [done| |by apply lookup_lt_Some in Hk].
  replace (S k) with (k + 1)%nat by lia. by rewrite <-drop_drop, Hd.
Qed.

(** A read hands out the next chunk, or the end of the file. *)
Lemma pool_read k pos index out d e input' :
  0 ≤ pos → drop k input_chunks = chunks (Z.to_nat g) (drop (Z.to_nat pos) data) →
  file_Read (mkFile iname pos) g (pool_world out) = ((d, e), input') →
  ∃ k' pos' rdn,
    input' = mkFile iname pos' ∧ 0 ≤ pos' ∧ (k' ≤ S k)%nat ∧
    (k' = k ∨ k' ≤ length input_chunks)%nat ∧
    drop k' input_chunks = chunks (Z.to_nat g) (drop (Z.to_nat pos') data) ∧
    fill_buf d (buffer_after k) = buffer_after k' ∧
    offers (after_read index d e) pos' rdn ∧
    length <$> take k' input_chunks = (length <$> take k input_chunks) ++ rdn.
Proof.
  intros Hpos Hdrop Hr. destruct (decide (pos < Z.of_nat (length data))).
  - rewrite (file_Read_data _ _ data (pool_world_input _)) in Hr by lia.
    injection Hr as <- <- <-. rewrite chunks_drop_step in Hdrop by lia.
    apply drop_input_chunks in Hdrop as (Hk & Hdrop & ?).
    exists (S k), (Z.min (pos + g) (Z.of_nat (length data))), [length (slice pos (pos + g) data)].
    assert (slice pos (pos + g) data ≠ []) by (apply slice_nonempty; lia).
    split_and!; [done|lia|done|by right|done|by rewrite (buffer_after_S _ _ Hk)| |].
    + unfold after_read. rewrite bool_decide_eq_false_2 by done. constructor.
      eapply chunks_bound, list_elem_of_lookup_2, Hk.
    + by rewrite (take_S_r _ _ _ Hk), fmap_app.
  - rewrite (file_Read_eof _ _ data (pool_world_input _)) in Hr by lia.
    injection Hr as <- <- <-. exists k, pos, [].
    split_and!; [done|done|lia|by left|done|done|constructor; lia|by rewrite app_nil_r].
Qed.

(** The block of a worker is written behind the blocks in the output. *)
Lemma receive_blocks index c payloads :
  receive (mkResult index (encodeWritten compressionLevel c) None)
          (mkFile oname (Z.of_nat (length (blocks payloads)))) (pool_world (blocks payloads)) =
    (Running, mkFile oname (Z.of_nat (length (blocks (payloads ++ [c])))),
     pool_world (blocks (payloads ++ [c]))).
Proof.
  rewrite receive_block. unfold blocks. rewrite fmap_app, concat_app. simpl.
  by rewrite app_nil_r.
Qed.

(** What a worker holds, by its place. *)
Lemma holds_lookup ws hs i p :
  Forall2 holds ws hs → ws !! i = Some p → ∃ h, hs !! i = Some h ∧ holds p h.
Proof. intros Hall Hi. by eapply Forall2_lookup_l. Qed.

(** The step of a worker that had [h] in its hands and now has [h']. *)
Lemma pool_inv_worker ws hs i p h h' (l1 l2 l1' l2' cs : list nat) :
  Forall2 holds ws hs → hs !! i = Some h → holds p h' →
  l1 ++ concat hs ++ l2 ≡ₚ cs → l1' ++ h' ++ l2' ≡ₚ l1 ++ h ++ l2 →
  Forall2 holds (<[i := p]> ws) (<[i := h']> hs) ∧
  l1' ++ concat (<[i := h']> hs) ++ l2' ≡ₚ cs.
Proof.
  intros Hall Hi Hp <- Hperm. split; [by apply Forall2_insert|].
  pose proof (concat_insert_Permutation hs i h h' Hi) as Hc.
  apply (Permutation_app_inv_l h).
  transitivity (l1' ++ (h ++ concat (<[i := h']> hs)) ++ l2'); [solve_Permutation|].
  rewrite <-Hc. transitivity ((l1' ++ h' ++ l2') ++ concat hs); [solve_Permutation|].
  rewrite Hperm. solve_Permutation.
Qed.

(** A chunk in the hands of a worker has been read. *)
Lemma pool_inv_some_read hs i h k (l1 l2 : list nat) :
  hs !! i = Some h → h ≠ [] → l1 ++ concat hs ++ l2 ≡ₚ length <$> take k input_chunks →
  (0 < k)%nat.
Proof.
  intros Hi Hh Hperm%Permutation_length.
  pose proof (Permutation_length (concat_insert_Permutation hs i h [] Hi)) as Hc.
  rewrite !length_app, length_fmap, length_take in *. simpl in Hc.
  destruct h; [done|]. simpl in *. lia.
Qed.

(** What a worker makes of its slice is a block from the buffer. *)
Lemma pool_compressed k i n :
  (0 < k)%nat → (k ≤ length input_chunks)%nat → (n ≤ Z.to_nat g)%nat →
  holds (AtSendResult (compressed compressionLevel i n (buffer_after k))) [n].
Proof.
  intros ???.
  assert (length (take n (buffer_after k)) = n) as Hn
    by (rewrite length_take, buffer_after_length; lia).
  pose proof (holds_result (Z.of_nat i) (take n (buffer_after k))) as Hres.
  rewrite Hn in Hres. apply Hres. exists k. by rewrite Hn.
Qed.

(** The invariant holds when the goroutines have been started, and every
    step keeps it. *)
Lemma init_pool_inv numThreads :
  files w !! oname = Some [] → pool_inv (init g (mkFile iname 0) (mkFile oname 0) numThreads w).
Proof.
  intros Hout. rewrite init_pool_state by done.
  apply (PoolInv 0 0 [] _ _ (replicate (Z.to_nat numThreads) []) []);
    [done|lia|done|constructor| |done| |by left].
  - apply Forall2_replicate. constructor.
  - simpl. rewrite app_nil_r. induction (Z.to_nat numThreads); by simpl.
Qed.

Lemma step_pool_inv s s' : pool_inv s → step g compressionLevel s s' → pool_inv s'.
Proof.
  intros Hinv Hstep.
  destruct Hstep;
    inversion Hinv as [k pos payloads ? ? hs rdn ? ? Hpos Hk Hdrop Hrd Hws Hpay Hperm Hst];
    subst; try (by inversion Hrd); try (inversion Hrd; subst; []);
    try match goal with Hi : _ !! _ = Some _ |- _ =>
      destruct (holds_lookup _ _ _ _ Hws Hi) as (h & Hh & Hp); inversion Hp; subst end.
  - edestruct pool_read as (k' & pos' & rdn' & -> & ? & ? & Hk' & ? & -> & ? & Htake); [done..|].
    econstructor; [done|destruct Hk'; lia|done..| |by left].
    rewrite Htake, <-Hperm. solve_Permutation.
  - edestruct (pool_inv_worker ws hs i (AtCompress n)) as [??]; [done..|by constructor|done| |].
    { instantiate (1 := []). instantiate (1 := length <$> payloads). solve_Permutation. }
    by econstructor; [..|by left]; try constructor.
  - pose proof (pool_inv_some_read _ _ _ _ _ _ Hh ltac:(done) Hperm).
    pose proof (pool_compressed k i n ltac:(done) ltac:(done) ltac:(done)).
    edestruct (pool_inv_worker ws hs i (AtSendResult (compressed compressionLevel i n (buffer_after k))))
      as [??]; [done..|reflexivity|].
    by econstructor; [..|by left].
  - match goal with Hr : receive _ _ _ = _ |- _ =>
      rewrite receive_blocks in Hr; injection Hr as <- <- <- end.
    edestruct (pool_inv_worker ws hs i AtRange) as [??]; [done..|constructor|done| |].
    { instantiate (1 := rdn). instantiate (1 := length <$> (payloads ++ [c])).
      rewrite fmap_app. solve_Permutation. }
    econstructor; [done..|by apply Forall_app; split; [|constructor]|done|by left].
  - edestruct (pool_inv_worker ws hs i WorkerDone) as [??]; [done..|constructor|done|reflexivity|].
    by econstructor; [..|by left]; try constructor.
  - by econstructor; [..|by left].
  - by econstructor; [..|by right].
Qed.

Lemma runs_pool_inv s s' : pool_inv s → runs g compressionLevel s s' → pool_inv s'.
Proof. intros Hinv Hrun. induction Hrun; eauto using step_pool_inv. Qed.

(** When the workers have left, no chunk is in their hands. *)
Lemma holds_all_done ws hs :
  Forall (λ p, p = WorkerDone) ws → Forall2 holds ws hs → concat hs = [].
Proof.
  intros Hall Hws. induction Hws as [|p h ws hs Hp _ IH]; [done|].
  apply Forall_cons in Hall as [-> Hall]. inversion Hp. simpl. by apply IH.
Qed.

(** When [compressFile] has returned, the input has been read to its end
    and every chunk is in the output. *)
Lemma pool_inv_finished s e :
  pool_inv s → pool_wf s → st_workers s ≠ [] → st_status s = Finished e →
  e = None ∧ ∃ payloads,
    st_world s = pool_world (blocks payloads) ∧ Forall from_buffer payloads ∧
    length <$> payloads ≡ₚ length <$> input_chunks.
Proof.
  intros Hinv [HW HC] Hws' Hfin.
  destruct Hinv as [k pos payloads rd ws hs rdn cl st ? ? Hdrop Hrd Hws Hpay Hperm [->|[-> ->]]];
    simpl in *; [done|].
  injection Hfin as <-. split; [done|]. exists payloads. split_and!; [done..|].
  specialize (HC eq_refl). rewrite (holds_all_done _ _ HC Hws) in Hperm.
  assert (rd = ReaderDone) as ->.
  { apply HW. destruct ws as [|p ws]; [done|]. apply Forall_cons in HC as [-> _]. left. }
  inversion Hrd; subst. rewrite (drop_ge data), chunks_nil in Hdrop by lia.
  rewrite take_ge in Hperm by (by apply drop_nil_length). by rewrite !app_nil_r in Hperm.
Qed.

(** Every run that returns has returned [nil] and has written one block
    for every chunk of the input, each made of as many bytes of the buffer
    as one of the chunks has. *)
Lemma compressFileG_every_run numThreads e w' :
  0 < numThreads → files w !! oname = Some [] →
  compressFileG g (mkFile iname 0) (mkFile oname 0) compressionLevel numThreads w e w' →
  e = None ∧ ∃ payloads,
    w' = pool_world (blocks payloads) ∧ Forall from_buffer payloads ∧
    length <$> payloads ≡ₚ length <$> input_chunks.
Proof.
  intros Hn Hout (s & Hrun & Hst & <-).
  destruct (init_wf g (mkFile iname 0) (mkFile oname 0) numThreads w Hn) as [Hwf Hws].
  apply (pool_inv_finished s e); [|by eapply runs_wf| |done].
  - eapply runs_pool_inv; [by apply init_pool_inv|done].
  - apply runs_workers_length in Hrun. destruct (st_workers s), (st_workers (init _ _ _ _ _)); done.
Qed.

(** On an input of whole chunks the buffer holds a chunk of the input
    after every read, so every block is the block of a chunk. *)
Section whole_chunks.
Context (Hwhole : Forall (λ c : bytes, length c = Z.to_nat g) input_chunks).

Lemma buffer_after_whole j c : input_chunks !! j = Some c → buffer_after (S j) = c.
Proof.
  intros Hj. rewrite (buffer_after_S _ _ Hj). unfold fill_buf.
  rewrite drop_ge, app_nil_r; [done|]. rewrite buffer_after_length.
  by rewrite (Forall_lookup_1 _ _ _ _ Hwhole Hj).
Qed.

Lemma from_buffer_whole c : length c = Z.to_nat g → from_buffer c → c ∈ input_chunks.
Proof.
  intros Hc (j & [Hj1 Hj2] & Heq). destruct j as [|j]; [lia|].
  destruct (lookup_lt_is_Some_2 input_chunks j) as [c' Hc']; [lia|].
  rewrite (buffer_after_whole _ _ Hc') in Heq. rewrite Heq, take_ge.
  - by eapply list_elem_of_lookup_2.
  - rewrite (Forall_lookup_1 _ _ _ _ Hwhole Hc'). lia.
Qed.

Lemma payloads_whole payloads :
  Forall from_buffer payloads → length <$> payloads ≡ₚ length <$> input_chunks →
  Forall (λ c, c ∈ input_chunks) payloads.
Proof.
  intros Hpay Hperm. apply Forall_forall. intros c Hc.
  apply from_buffer_whole; [|by eapply Forall_forall in Hpay].
  apply (list_elem_of_fmap_2 length) in Hc. rewrite Hperm in Hc.
  apply list_elem_of_fmap in Hc as (c' & -> & Hc').
  by eapply Forall_forall in Hwhole.
Qed.

End whole_chunks.

End every_run.

(** ** An input of one chunk, in every run *)

Section single_chunk.
Context (Hlen : 0 < Z.of_nat (length data) ≤ g).

Lemma input_chunks_single : input_chunks = [data].
Proof. apply chunks_single; [intros ->; simpl in *|]; lia. Qed.

(** The buffer holds the chunk from the first read on. *)
Lemma buffer_after_single : take (length data) (buffer_after 1) = data.
Proof.
  unfold buffer_after. rewrite input_chunks_single. simpl. unfold fill_buf.
  by rewrite take_app_length.
Qed.

(** The blocks in the output are made of the chunk, and there is one at
    most; when it is there, no goroutine holds a chunk. *)
Lemma single_payloads payloads (l : list nat) k :
  Forall from_buffer payloads →
  (length <$> payloads) ++ l ≡ₚ length <$> take k input_chunks →
  payloads = [] ∨ payloads = [data] ∧ l = [].
Proof.
  rewrite input_chunks_single. intros Hpay Hperm.
  destruct payloads as [|c payloads]; [by left|right].
  apply Forall_cons in Hpay as [(j & Hj & Hc) _].
  destruct k; simpl in Hperm; [by apply Permutation_nil_r in Hperm|].
  rewrite take_nil in Hperm. apply Permutation_singleton_r in Hperm.
  injection Hperm as Hlc [Hp ->]%app_eq_nil. apply fmap_nil_inv in Hp as ->.
  rewrite input_chunks_single in Hj. assert (j = 1%nat) as -> by (simpl in Hj; lia).
  by rewrite Hc, Hlc, buffer_after_single.
Qed.

Lemma blocks_single : blocks [data] = encodeWritten compressionLevel data.
Proof. unfold blocks. simpl. by rewrite app_nil_r. Qed.

(** Every run on an input of one chunk that returns has written the
    chunk's block and nothing else. *)
Lemma compressFileG_single numThreads e w' :
  0 < numThreads → files w !! oname = Some [] →
  compressFileG g (mkFile iname 0) (mkFile oname 0) compressionLevel numThreads w e w' →
  e = None ∧ w' = pool_world (encodeWritten compressionLevel data).
Proof.
  intros Hn Hout (-> & payloads & -> & Hpay & Hperm)%compressFileG_every_run; [|done..].
  split; [done|].
  destruct (single_payloads payloads [] (length input_chunks) Hpay) as [->|[-> _]];
    [by rewrite app_nil_r, take_ge| |by rewrite blocks_single].
  rewrite input_chunks_single in Hperm. by apply Permutation_nil_l in Hperm.
Qed.

(** In every state of a run on an input of one chunk the output is empty
    or the chunk's block. *)
Lemma runs_single numThreads s :
  files w !! oname = Some [] →
  runs g compressionLevel (init g (mkFile iname 0) (mkFile oname 0) numThreads w) s →
  ∃ out, (out = [] ∨ out = encodeWritten compressionLevel data) ∧ st_world s = pool_world out.
Proof.
  intros Hout Hrun. eapply runs_pool_inv in Hrun; [|by apply init_pool_inv].
  destruct Hrun as [k pos payloads rd ws hs rdn cl st _ _ _ _ _ Hpay Hperm _].
  destruct (single_payloads _ _ _ Hpay Hperm) as [->|[-> _]];
    [exists []|exists (encodeWritten compressionLevel data)]; split; auto.
  simpl. by rewrite blocks_single.
Qed.

End single_chunk.

End in_order.

(** ** A pool without workers *)

Section no_workers.
Context (g compressionLevel : Z).

Lemma step_no_workers s s' :
  st_workers s = [] → step g compressionLevel s s' →
  st_workers s' = [] ∧ st_world s' = st_world s.
Proof.
  intros Hws. destruct 1; simpl in *; subst; try done.
  match goal with Hr : receive _ _ _ = _ |- _ => unfold receive in Hr; simpl in Hr end.
  by simplify_eq.
Qed.

Lemma runs_no_workers s s' :
  st_workers s = [] → runs g compressionLevel s s' → st_world s' = st_world s.
Proof.
  intros Hws Hrun. induction Hrun as [|s s1 s' Hstep _ IH]; [done|].
  destruct (step_no_workers _ _ Hws Hstep) as [Hws' <-]. by apply IH.
Qed.

End no_workers.

(** ** Decompression, read by read *)

(** What [decompressFile] makes of the reads [cs]: every read is decoded
    on its own, and the first that is no sequence of whole frames ends the
    loop with an error, after the output of the reads before it. *)
Fixpoint decode_each (cs : list bytes) : bytes * option error :=
  match cs with
  | [] => ([], None)
  | c :: cs =>
      match decodeAll c with
      | None => ([], Some ErrDecompressBlock)
      | Some d => let '(out, e) := decode_each cs in (d ++ out, e)
      end
  end.

Definition result_of (e : option error) : outcome () :=
  match e with None => Ok () | Some e => Err e end.

Lemma decompressFileG_step fuel g input output w :
  decompressFileG (S fuel) g input output w =
    match decompressFile_iter g (input, output) w with
    | (Ok (Continue s), w') => decompressFileG fuel g s.1 s.2 w'
    | (Ok (Break _), w') => (Ok (), w')
    | (Err e, w') => (Err e, w')
    | (Panic p, w') => (Panic p, w')
    | (OutOfFuel, w') => (OutOfFuel, w')
    end.
Proof.
  unfold decompressFileG. cbn [io_loop]. unfold io_bind at 1 2.
  by destruct (decompressFile_iter g (input, output) w) as [[[[??]|?]| | |] ?].
Qed.

Section decompress.
Context (g : Z) (iname oname : string) (stream : bytes) (w : world).
Context (Hg : 0 < g) (Hne : iname ≠ oname) (Hstream : files w !! iname = Some stream).

(** One round inside the file. *)
Lemma decompressFile_iter_data pos out :
  0 ≤ pos < Z.of_nat (length stream) →
  decompressFile_iter g (mkFile iname pos, mkFile oname (Z.of_nat (length out)))
      (pool_world oname w out) =
    match decodeAll (slice pos (pos + g) stream) with
    | None => (Err ErrDecompressBlock, pool_world oname w out)
    | Some d =>
        (Ok (Continue (mkFile iname (Z.min (pos + g) (Z.of_nat (length stream))),
                       mkFile oname (Z.of_nat (length (out ++ d))))),
         pool_world oname w (out ++ d))
    end.
Proof.
  intros Hpos. unfold decompressFile_iter. cbn [fst snd].
  rewrite (file_Read_data _ _ stream (pool_world_input iname oname stream w Hne Hstream out))
    by done.
  rewrite bool_decide_eq_false_2 by (apply slice_nonempty; lia).
  unfold decompressBlock. destruct (decodeAll _) as [d|]; [|done].
  unfold io_bind, wrap_err.
  rewrite (file_Write_append _ _ out (pool_world_output oname w out)) by done.
  unfold io_ret. rewrite length_app, Nat2Z.inj_add. do 2 f_equal.
  unfold pool_world. rewrite set_files_set_files. apply set_files_ext. simpl.
  by rewrite insert_insert_eq.
Qed.

(** The round at the end of the file. *)
Lemma decompressFile_iter_eof pos output out :
  Z.of_nat (length stream) ≤ pos →
  decompressFile_iter g (mkFile iname pos, output) (pool_world oname w out) =
    (Ok (Break (mkFile iname pos, output)), pool_world oname w out).
Proof.
  intros Hpos. unfold decompressFile_iter. cbn [fst snd].
  by rewrite (file_Read_eof _ _ stream (pool_world_input iname oname stream w Hne Hstream out)).
Qed.

(** The loop is [decode_each] on the reads that are left. *)
Lemma decompressFileG_each fuel pos out :
  0 ≤ pos → (Z.to_nat (Z.of_nat (length stream) - pos) < fuel)%nat →
  decompressFileG fuel g (mkFile iname pos) (mkFile oname (Z.of_nat (length out)))
      (pool_world oname w out) =
    (result_of (decode_each (chunks (Z.to_nat g) (drop (Z.to_nat pos) stream))).2,
     pool_world oname w
       (out ++ (decode_each (chunks (Z.to_nat g) (drop (Z.to_nat pos) stream))).1)).
Proof.
  revert pos out. induction fuel as [|fuel IH]; intros pos out Hpos Hfuel; [lia|].
  rewrite decompressFileG_step. destruct (decide (Z.of_nat (length stream) ≤ pos)).
  - rewrite decompressFile_iter_eof by done.
    rewrite drop_ge, chunks_nil by lia. simpl. by rewrite app_nil_r.
  - rewrite decompressFile_iter_data by lia.
    rewrite (chunks_drop_step g pos stream) by lia. cbn [decode_each].
    destruct (decodeAll _) as [d|]; [|simpl; by rewrite app_nil_r].
    cbn [fst snd]. rewrite IH by lia.
    destruct (decode_each _) as [out' e]. simpl. by rewrite (assoc_L (++)).
Qed.

End decompress.

(** ** What the pool does *)

Lemma worker_weight_replicate n :
  sum_list (worker_weight <$> replicate n AtRange) = n.
Proof. induction n as [|n IH]; csimpl; [done|]. by rewrite IH. Qed.

Section pool_spec.
Context (g compressionLevel : Z) (iname oname : string) (data : bytes) (w : world).
Context (Hg : 0 < g) (Hne : iname ≠ oname).
Context (Hdata : files w !! iname = Some data) (Hout : files w !! oname = Some []).

Lemma measure_init numThreads :
  measure (init g (mkFile iname 0) (mkFile oname 0) numThreads w) =
    (5 * length data + Z.to_nat numThreads + 4)%nat.
Proof.
  unfold measure, remaining, init.
  cbn [st_input st_world st_reader st_workers st_closed st_status pending file_lawful
       f_name f_pos reader_weight].
  rewrite Hdata, worker_weight_replicate. change (Z.to_nat 0) with 0%nat.
  rewrite drop_0. simpl. lia.
Qed.

(** C30. Every run of [compressFile] ends: from the start no run has more
    than [5 * length data + numThreads + 4] steps, and in every state it
    reaches in which [compressFile] has not returned some goroutine can
    take a step, so the pool never comes to a halt with work left. *)
Theorem compressFile_always_ends numThreads n s :
  nsteps (step g compressionLevel) n
    (init g (mkFile iname 0) (mkFile oname 0) numThreads w) s →
  (n ≤ 5 * length data + Z.to_nat numThreads + 4)%nat ∧
  (st_status s = Running → ∃ s', step g compressionLevel s s').
Proof.
  intros Hrun. split; [|apply step_progress].
  apply runs_bounded in Hrun; [|done]. rewrite measure_init in Hrun. lia.
Qed.

(** C32. On an input of one chunk every run that returns has returned
    [nil] and has written the chunk's block, whatever the number of
    workers and the order of the steps; such a run exists; and the block,
    taken from the buffer before the deferred [Close] of the encoder, does
    not decode to the input. *)
Theorem compressFile_one_chunk numThreads :
  0 < numThreads → 0 < Z.of_nat (length data) ≤ g →
  let out := pool_world oname w (encodeWritten compressionLevel data) in
  compressFileG g (mkFile iname 0) (mkFile oname 0) compressionLevel numThreads w None out ∧
  (∀ e w', compressFileG g (mkFile iname 0) (mkFile oname 0) compressionLevel numThreads w e w' →
           e = None ∧ w' = out) ∧
  decodeAll (encodeWritten compressionLevel data) ≠ Some data.
Proof.
  intros Hn Hlen. split_and!.
  - pose proof (compressFileG_in_order g compressionLevel iname oname data w Hg Hne Hdata
                  numThreads Hn Hout) as Hrun.
    rewrite chunks_single in Hrun; [|intros ->; simpl in *; lia|lia].
    simpl in Hrun. by rewrite app_nil_r in Hrun.
  - intros e w'. by apply compressFileG_single.
  - apply written_lost. intros ->. simpl in *. lia.
Qed.

(** C31. The shape of the output, for every input and in every run: with a
    worker or more, a run of [compressFile] that returns has returned [nil]
    and has written one block for every chunk of the input.  Each block is
    made of the start of the buffer as some read has left it, and the
    blocks are made of as many bytes as the chunks have, chunk by chunk in
    some order: the output has as many blocks as the input has chunks and
    compresses as many bytes as the input has.  When the input is a whole
    number of chunks, every block is the block of a chunk of the input.
    Which chunk, and in which order, is the scheduler's choice: a chunk can
    be there twice and another not at all ([compressFile_race]).  A run
    that returns exists. *)
Theorem compressFile_blocks numThreads :
  0 < numThreads →
  (∃ w', compressFileG g (mkFile iname 0) (mkFile oname 0) compressionLevel numThreads w None w') ∧
  ∀ e w', compressFileG g (mkFile iname 0) (mkFile oname 0) compressionLevel numThreads w e w' →
    e = None ∧ ∃ payloads,
      w' = pool_world oname w (blocks compressionLevel payloads) ∧
      Forall (from_buffer g data) payloads ∧
      length <$> payloads ≡ₚ length <$> chunks (Z.to_nat g) data ∧
      length payloads = length (chunks (Z.to_nat g) data) ∧
      length (concat payloads) = length data ∧
      (Z.of_nat (length data) `mod` g = 0 →
       Forall (λ c, c ∈ chunks (Z.to_nat g) data) payloads).
Proof.
  intros Hn. split; [eexists; by apply compressFileG_in_order|].
  intros e w' Hrun.
  apply (compressFileG_every_run g compressionLevel iname oname data) in Hrun
    as (-> & payloads & -> & Hpay & Hperm); [|done..].
  unfold input_chunks in Hperm. split; [done|]. exists payloads. split_and!; [done..| | |].
  - apply Permutation_length in Hperm. by rewrite !length_fmap in Hperm.
  - rewrite length_concat_sum, Hperm, <-length_concat_sum, chunks_concat; [done|lia].
  - intros Hmod. apply (payloads_whole g data); [done| |done..].
    apply (chunks_whole _ _ (Z.to_nat (Z.of_nat (length data) `quot` g))); [lia|].
    pose proof (Z.quot_rem' (Z.of_nat (length data)) g) as Hq.
    rewrite Z.rem_mod_nonneg, Hmod in Hq by lia. nia.
Qed.

(** For every input there is a run in which the output is the blocks
    of the chunks in the order of the input. *)
Theorem compressFile_in_order numThreads :
  0 < numThreads →
  compressFileG g (mkFile iname 0) (mkFile oname 0) compressionLevel numThreads w None
    (pool_world oname w (concat (encodeWritten compressionLevel <$> chunks (Z.to_nat g) data))).
Proof. intros Hn. by apply compressFileG_in_order. Qed.

(** C34. The chunk on the channel is a slice of the reader's buffer, and
    the blocks are written in the order in which the workers deliver them.
    On an input of two chunks there is a run, with any number of workers,
    in which the reader overwrites the first chunk before it is
    compressed: the output then holds the second chunk twice, and the start
    of the first chunk is lost.  With two workers or more there is also a
    run whose output is the block of the second chunk followed by the
    block of the first. *)
Theorem compressFile_race numThreads (c1 c2 : bytes) :
  0 < numThreads → data = c1 ++ c2 → Z.of_nat (length c1) = g → 0 < Z.of_nat (length c2) ≤ g →
  compressFileG g (mkFile iname 0) (mkFile oname 0) compressionLevel numThreads w None
    (pool_world oname w (encodeWritten compressionLevel (c2 ++ drop (length c2) c1) ++
                         encodeWritten compressionLevel c2)) ∧
  (1 < numThreads →
   compressFileG g (mkFile iname 0) (mkFile oname 0) compressionLevel numThreads w None
     (pool_world oname w (encodeWritten compressionLevel c2 ++
                          encodeWritten compressionLevel c1))).
Proof.
  intros Hn Hc Hc1 Hc2. unfold compressFileG. rewrite init_pool_state by done. split.
  - replace (Z.to_nat numThreads) with (S (Z.to_nat numThreads - 1)) by lia.
    by eapply (run_race g compressionLevel iname oname data w).
  - intros ?. replace (Z.to_nat numThreads) with (S (S (Z.to_nat numThreads - 2))) by lia.
    by eapply (run_out_of_order g compressionLevel iname oname data w).
Qed.

(** C35. [decompressFile] decodes every read of [blockSize] bytes on its
    own: with fuel for the reads, its result and its output are those of
    [decode_each] on the input cut at the buffer's size, so a stream is
    decompressed only if every such piece is a sequence of whole frames. *)
Theorem decompressFile_read_by_read fuel (stream : bytes) :
  files w !! iname = Some stream → (length stream < fuel)%nat →
  decompressFileG fuel g (mkFile iname 0) (mkFile oname 0) w =
    (result_of (decode_each (chunks (Z.to_nat g) stream)).2,
     pool_world oname w (decode_each (chunks (Z.to_nat g) stream)).1).
Proof.
  intros Hstream Hfuel.
  pose proof (decompressFileG_each g iname oname stream w Hg Hne Hstream fuel 0 []) as Hrun.
  rewrite pool_world_id in Hrun by done. apply Hrun; lia.
Qed.

End pool_spec.

(** ** The command line *)

Section main_spec.
Context (g level n : Z) (source packed restored : string) (data : bytes) (w : world).
Context (Hg : 0 < g) (Hn : 0 < n).
Context (Hlen : 0 < Z.of_nat (length data) ≤ g).
Context (Hblock : Z.of_nat (length (encodeWritten level data)) ≤ g).
Context (Hsource : files w !! source = Some data) (Hread : source ∉ unreadable w).
Context (Hpacked : packed ≠ "") (Hcreate : packed ∉ unwritable w) (Hps : packed ≠ source).

(** The store when [main] has created the output. *)
Definition created (name : string) (w : world) : world := set_files <[name := []]> w.

Lemma created_source : files (created packed w) !! source = Some data.
Proof. unfold created. simpl. by rewrite lookup_insert_ne. Qed.

Lemma created_output name w0 : files (created name w0) !! name = Some [].
Proof. unfold created. simpl. by rewrite lookup_insert_eq. Qed.

(** Whatever the schedule, complete or cut short, the packed file is
    empty or the one block of the input. *)
Lemma main_compress fuel sched :
  ∃ x out, (out = [] ∨ out = encodeWritten level data) ∧
    mainG fuel g sched (mkFlags false false packed level n [source]) w =
      (x, pool_world packed (created packed w) out).
Proof.
  unfold mainG. cbn [args outputToStdout outputFile compressMode compressionLevel numThreads].
  rewrite (with_files_ok _ _ _ _ _ data) by done. fold (created packed w).
  pose proof (exec_runs g level sched
                (init g (mkFile source 0) (mkFile packed 0) n (created packed w))) as Hrun.
  destruct (runs_single g level source packed data (created packed w) Hg ltac:(done)
              created_source Hlen n _ (created_output _ _) Hrun)
    as (out & Hout & ->).
  by exists (exit_of (st_status (exec g level sched
              (init g (mkFile source 0) (mkFile packed 0) n (created packed w))))), out.
Qed.

(** What [decompressFile] makes of such a file is not the input. *)
Lemma decode_each_lost out :
  out = [] ∨ out = encodeWritten level data →
  (decode_each (chunks (Z.to_nat g) out)).1 ≠ data.
Proof.
  assert (data ≠ []) as Hdata by (intros ->; simpl in *; lia).
  intros Hout. destruct (decide (out = [])) as [->|Hne]; [by rewrite chunks_nil|].
  destruct Hout as [->| ->]; [done|]. rewrite chunks_single by (done || lia).
  cbn [decode_each]. destruct (decodeAll _) as [d|] eqn:Hd; [|done]. simpl.
  rewrite app_nil_r. intros ->. by apply (written_lost level data).
Qed.

(** Some schedule takes [compressFile] to its end. *)
Lemma main_compress_returns fuel :
  ∃ sched, (mainG fuel g sched (mkFlags false false packed level n [source]) w).1 = Returned.
Proof.
  destruct (compressFileG_in_order g level source packed data (created packed w) Hg
              ltac:(done) created_source n Hn (created_output _ _)) as (s & Hrun & Hst & _).
  apply runs_exec in Hrun as [sched Hs]. exists sched.
  unfold mainG. cbn [args outputToStdout outputFile compressMode compressionLevel numThreads].
  rewrite (with_files_ok _ _ _ _ _ data) by done. fold (created packed w).
  cbn [fst]. by rewrite Hs, Hst.
Qed.

Context (Hrestored : restored ≠ "") (Hrcreate : restored ∉ unwritable w).
Context (Hrp : restored ≠ packed) (Hpread : packed ∉ unreadable w).

(** [main -d] on a packed file that holds [out]. *)
Lemma main_decompress fuel sched out :
  (length out < fuel)%nat →
  ∃ x w2,
    mainG fuel g sched (mkFlags true false restored level n [packed])
          (pool_world packed (created packed w) out) = (x, w2) ∧
    files w2 !! restored = Some (decode_each (chunks (Z.to_nat g) out)).1.
Proof.
  intros Hfuel. unfold mainG.
  cbn [args outputToStdout outputFile compressMode compressionLevel numThreads].
  rewrite (with_files_ok _ _ _ _ _ out) by (done || apply pool_world_output).
  pose proof (decompressFileG_each g packed restored out
                (pool_world packed (created packed w) out) Hg ltac:(done)
                (pool_world_output _ _ _) fuel 0 [] ltac:(done) ltac:(lia)) as Hrun.
  unfold pool_world at 1 in Hrun. change (Z.of_nat (length (@nil byte))) with 0 in Hrun.
  unfold run_mode. rewrite Hrun.
  change (drop (Z.to_nat 0) out) with out.
  destruct (decode_each (chunks (Z.to_nat g) out)) as [got [e|]]; simpl;
    eexists _, _; (split; [done|]); simpl; by rewrite lookup_insert_eq.
Qed.

(** C33. The program of part_002 does not give back what it was given: on
    an input of one chunk some schedule lets [main] compress and return,
    and for every schedule of the goroutines, complete or cut short,
    [main -d] on the file written does not restore the input; it fails or
    writes something else. *)
Theorem main_never_restores fuel :
  (length (encodeWritten level data) < fuel)%nat →
  (∃ sched, (mainG fuel g sched (mkFlags false false packed level n [source]) w).1 = Returned) ∧
  ∀ sched sched', ∃ x w1 x' w2,
    mainG fuel g sched (mkFlags false false packed level n [source]) w = (x, w1) ∧
    mainG fuel g sched' (mkFlags true false restored level n [packed]) w1 = (x', w2) ∧
    files w2 !! restored ≠ Some data.
Proof.
  intros Hfuel. split; [apply main_compress_returns|]. intros sched sched'.
  destruct (main_compress fuel sched) as (x & out & Hout & Hc).
  destruct (main_decompress fuel sched' out) as (x' & w2 & Hd & Hfile).
  { destruct Hout as [->| ->]; simpl; lia. }
  eexists x, _, x', w2. split_and!; [done..|]. rewrite Hfile. intros [= Heq].
  by apply (decode_each_lost out).
Qed.

End main_spec.

(** C36. Without workers nothing is compressed: for a thread count of zero
    or less [compressFile] can return [nil], and however it returns it has
    left the store as it was, so an input that is not empty is lost
    without an error. *)
Theorem compressFile_no_workers g input output compressionLevel numThreads w :
  numThreads ≤ 0 →
  compressFileG g input output compressionLevel numThreads w None w ∧
  (∀ e w', compressFileG g input output compressionLevel numThreads w e w' → w' = w).
Proof.
  intros Hn. unfold compressFileG, init. replace (Z.to_nat numThreads) with 0%nat by lia.
  split.
  - eexists. split; [eapply rtc_l; [by apply step_close|]; apply rtc_once, step_return|done].
  - intros e w' (s & Hrun & _ & <-). by apply runs_no_workers in Hrun.
Qed.

End pool.

(** ** The pool at work, on the store codec *)

(** Two chunks of 256 bytes: the store codec holds back the last block of
    255 bytes or less, so of each chunk the unclosed writer has passed on
    one block of 255 bytes. *)
Definition pool_a : bytes := replicate 256 "a"%byte.
Definition pool_b : bytes := replicate 256 "b"%byte.

Definition one_demo : world := mkWorld {[ "in.bin" := pool_a; "out.zst" := [] ]} ∅ ∅.
Definition two_demo : world := mkWorld {[ "in.bin" := pool_a ++ pool_b; "out.zst" := [] ]} ∅ ∅.

(** Two frames of three bytes each. *)
Definition frames_demo : world :=
  mkWorld {[ "in.zst" := encodeAll 3 ["a"; "b"]%byte ++ encodeAll 3 ["c"; "d"]%byte;
             "out.bin" := [] ]} ∅ ∅.

Lemma compressFile_always_ends_witness :
  let s := exec 256 3 [DoRead; DoChunk 1; DoCompress 1]
             (init 256 (mkFile "in.bin" 0) (mkFile "out.zst" 0) 2 two_demo) in
  (3 ≤ 5 * length (pool_a ++ pool_b) + Z.to_nat 2 + 4)%nat ∧
  (st_status s = Running → ∃ s', step 256 3 s s').
Proof.
  apply (compressFile_always_ends 256 3 "in.bin" "out.zst" (pool_a ++ pool_b) two_demo);
    [done|reflexivity|].
  eapply nsteps_l; [apply (fire_step _ _ DoRead); reflexivity|].
  eapply nsteps_l; [apply (fire_step _ _ (DoChunk 1)); reflexivity|].
  eapply nsteps_l; [apply (fire_step _ _ (DoCompress 1)); reflexivity|].
  apply nsteps_O.
Defined.

Lemma compressFile_one_chunk_witness :
  let out := pool_world "out.zst" one_demo (encodeWritten 3 pool_a) in
  compressFileG 256 (mkFile "in.bin" 0) (mkFile "out.zst" 0) 3 4 one_demo None out ∧
  (∀ e w', compressFileG 256 (mkFile "in.bin" 0) (mkFile "out.zst" 0) 3 4 one_demo e w' →
           e = None ∧ w' = out) ∧
  decodeAll (encodeWritten 3 pool_a) ≠ Some pool_a.
Proof.
  apply (compressFile_one_chunk 256 3 "in.bin" "out.zst" pool_a one_demo);
    [lia|done|reflexivity|reflexivity|lia|by_decide].
Defined.

Lemma compressFile_blocks_witness :
  (∃ w', compressFileG 256 (mkFile "in.bin" 0) (mkFile "out.zst" 0) 3 2 two_demo None w') ∧
  ∀ e w', compressFileG 256 (mkFile "in.bin" 0) (mkFile "out.zst" 0) 3 2 two_demo e w' →
    e = None ∧ ∃ payloads,
      w' = pool_world "out.zst" two_demo (blocks 3 payloads) ∧
      Forall (from_buffer 256 (pool_a ++ pool_b)) payloads ∧
      length <$> payloads ≡ₚ length <$> chunks (Z.to_nat 256) (pool_a ++ pool_b) ∧
      length payloads = length (chunks (Z.to_nat 256) (pool_a ++ pool_b)) ∧
      length (concat payloads) = length (pool_a ++ pool_b) ∧
      (Z.of_nat (length (pool_a ++ pool_b)) `mod` 256 = 0 →
       Forall (λ c, c ∈ chunks (Z.to_nat 256) (pool_a ++ pool_b)) payloads).
Proof.
  apply (compressFile_blocks 256 3 "in.bin" "out.zst" (pool_a ++ pool_b) two_demo);
    [lia|done|reflexivity|reflexivity|lia].
Defined.

Lemma compressFile_in_order_witness :
  compressFileG 256 (mkFile "in.bin" 0) (mkFile "out.zst" 0) 3 1 two_demo None
    (pool_world "out.zst" two_demo
       (concat (encodeWritten 3 <$> chunks (Z.to_nat 256) (pool_a ++ pool_b)))).
Proof.
  apply (compressFile_in_order 256 3 "in.bin" "out.zst" (pool_a ++ pool_b) two_demo);
    [lia|done|reflexivity|reflexivity|lia].
Defined.

Lemma compressFile_race_witness :
  compressFileG 256 (mkFile "in.bin" 0) (mkFile "out.zst" 0) 3 2 two_demo None
    (pool_world "out.zst" two_demo
       (encodeWritten 3 (pool_b ++ drop (length pool_b) pool_a) ++ encodeWritten 3 pool_b)) ∧
  compressFileG 256 (mkFile "in.bin" 0) (mkFile "out.zst" 0) 3 2 two_demo None
    (pool_world "out.zst" two_demo (encodeWritten 3 pool_b ++ encodeWritten 3 pool_a)).
Proof.
  destruct (compressFile_race 256 3 "in.bin" "out.zst" (pool_a ++ pool_b) two_demo
              ltac:(lia) ltac:(done) eq_refl eq_refl 2 pool_a pool_b) as [Hrace Horder];
    [lia|done|done|by_decide|].
  split; [exact Hrace|apply Horder; lia].
Defined.

Lemma decompressFile_read_by_read_witness :
  decompressFileG 8 3 (mkFile "in.zst" 0) (mkFile "out.bin" 0) frames_demo =
    (result_of (decode_each (chunks (Z.to_nat 3)
        (encodeAll 3 ["a"; "b"]%byte ++ encodeAll 3 ["c"; "d"]%byte))).2,
     pool_world "out.bin" frames_demo
       (decode_each (chunks (Z.to_nat 3)
          (encodeAll 3 ["a"; "b"]%byte ++ encodeAll 3 ["c"; "d"]%byte))).1).
Proof.
  apply (decompressFile_read_by_read 3 "in.zst" "out.bin" frames_demo);
    [lia|done|reflexivity|reflexivity|by_decide].
Defined.

Lemma compressFile_no_workers_witness :
  compressFileG 256 (mkFile "in.bin" 0) (mkFile "out.zst" 0) 3 0 two_demo None two_demo ∧
  (∀ e w', compressFileG 256 (mkFile "in.bin" 0) (mkFile "out.zst" 0) 3 0 two_demo e w' →
           w' = two_demo).
Proof. apply compressFile_no_workers. lia. Defined.

(** The input of [main]: one chunk, and two chunks. *)
Definition cli_one : world := mkWorld {[ "in.bin" := pool_a ]} ∅ ∅.
Definition cli_two : world := mkWorld {[ "in.bin" := pool_a ++ pool_b ]} ∅ ∅.

Lemma main_never_restores_witness :
  (∃ sched, (mainG 300 256 sched (mkFlags false false "out.zst" 3 2 ["in.bin"]) cli_one).1
              = Returned) ∧
  ∀ sched sched', ∃ x w1 x' w2,
    mainG 300 256 sched (mkFlags false false "out.zst" 3 2 ["in.bin"]) cli_one = (x, w1) ∧
    mainG 300 256 sched' (mkFlags true false "back.bin" 3 2 ["out.zst"]) w1 = (x', w2) ∧
    files w2 !! "back.bin" ≠ Some pool_a.
Proof.
  apply (main_never_restores 256 3 2 "in.bin" "out.zst" "back.bin" pool_a cli_one);
    [lia|lia|by_decide|by_decide|reflexivity|apply not_elem_of_empty|done
    |apply not_elem_of_empty|done|done|apply not_elem_of_empty|done|apply not_elem_of_empty
    |by_decide].
Defined.

(** The schedule of the race, run by [main] with one worker: the reader
    reads the second chunk before the worker compresses the first. *)
Example main_race_run :
  let r := mainG 8 256 [DoRead; DoChunk 0; DoRead; DoCompress 0; DoResult 0; DoChunk 0;
                        DoRead; DoCompress 0; DoResult 0; DoLeave 0; DoClose; DoReturn]
                 (mkFlags false false "out.zst" 3 1 ["in.bin"]) cli_two in
  r.1 = Returned ∧
  files r.2 !! "out.zst" =
    Some (store_block (replicate 255 "b"%byte) ++ store_block (replicate 255 "b"%byte)).
Proof. by vm_compute. Qed.

(** A schedule that lets the worker compress before the next read gives
    the blocks of both chunks; a schedule that stops early leaves [main]
    inside [compressFile]. *)
Example main_in_order_run :
  let r := mainG 8 256 [DoRead; DoChunk 0; DoCompress 0; DoResult 0; DoRead; DoChunk 0;
                        DoCompress 0; DoResult 0; DoRead; DoLeave 0; DoClose; DoReturn]
                 (mkFlags false false "out.zst" 3 1 ["in.bin"]) cli_two in
  r.1 = Returned ∧
  files r.2 !! "out.zst" =
    Some (store_block (replicate 255 "a"%byte) ++ store_block (replicate 255 "b"%byte)) ∧
  (mainG 8 256 [DoRead; DoChunk 0] (mkFlags false false "out.zst" 3 1 ["in.bin"]) cli_two).1
    = NoFuel.
Proof. by vm_compute. Qed.

(** The runs of the theorems, evaluated: in order the output holds 255
    bytes of the first chunk and 255 of the second; in the run of the race
    it holds 510 bytes of the second chunk and none of the first. *)
Example compressFile_outputs :
  concat (encodeWritten 3 <$> chunks (Z.to_nat 256) (pool_a ++ pool_b)) =
    store_block (replicate 255 "a"%byte) ++ store_block (replicate 255 "b"%byte) ∧
  encodeWritten 3 (pool_b ++ drop (length pool_b) pool_a) ++ encodeWritten 3 pool_b =
    store_block (replicate 255 "b"%byte) ++ store_block (replicate 255 "b"%byte).
Proof. by vm_compute. Qed.

(** Two frames that end where the reads end are decompressed; the same
    stream read through a buffer of four bytes is refused, because the
    first read ends inside the second frame. *)
Example decompressFile_splits_frames :
  decompressFileG 8 3 (mkFile "in.zst" 0) (mkFile "out.bin" 0) frames_demo =
    (Ok (), pool_world "out.bin" frames_demo ["a"; "b"; "c"; "d"]%byte) ∧
  decompressFileG 8 4 (mkFile "in.zst" 0) (mkFile "out.bin" 0) frames_demo =
    (Err ErrDecompressBlock, frames_demo).
Proof. by vm_compute. Qed.

End Pool.
