(* ===== verification/OneShot.v ===== *)
(** * The one-shot program

    [compressData], [decompressData] and [main] of src/unnamed/part_001, a
    program of its own over another zstd binding
    (github.com/DataDog/zstd): the whole input is read into memory,
    compressed or decompressed in one call, and written to standard output
    or to the file of [-o].  Nothing is opened before the work is done, so
    the output may be the input.  The two functions of the codec are
    modelled call by call over the writer and the reader of the binding,
    with the deferred calls of [Close]. *)

From S2P Require Import Prelude Codec FileSys Cli.

Module OneShot.

(** ** The writer and the reader of the binding *)

(** A [zstd.Writer] over a [bytes.Buffer]: the level and the workers it
    was set up with, what was written to it, the buffer, and the calls of
    [Close] it has had.  The first [Close] ends the frame and frees the
    context of the C library; the binding does not say what a later one
    does with the freed context, so the writer counts them. *)
Record Writer : Set := mkWriter {
  wr_level : Z;
  wr_workers : Z;
  wr_input : bytes;
  wr_buffer : bytes;
  wr_closes : nat;
}.

(** A [zstd.Reader] over the bytes of a [bytes.Reader], and the calls of
    [Close] it has had. *)
Record Reader : Set := mkReader {
  rd_input : bytes;
  rd_closes : nat;
}.

(** The writer is in the protocol of the binding while it has been closed
    once at most. *)
Definition closed_once (closes : nat) : Prop := (closes ≤ 1)%nat.

#[global] Instance closed_once_dec closes : Decision (closed_once closes).
Proof. unfold closed_once. apply _. Defined.

Section oneshot.
Context `{Codec}.

(** [zstd.NewWriterLevel(&compressedData, level)] *)
Definition NewWriterLevel (level : Z) : Writer := mkWriter level 0 [] [] 0.

(** [encoder.SetNbWorkers(thread)]; its result is dropped. *)
Definition SetNbWorkers (n : Z) (e : Writer) : Writer :=
  mkWriter (wr_level e) n (wr_input e) (wr_buffer e) (wr_closes e).

(** [encoder.Write(p)]: the number of bytes taken, or [None] for an error.
    The sink is a buffer in memory, whose [Write] returns no error. *)
Definition Writer_Write (p : bytes) (e : Writer) : option Z * Writer :=
  (Some (Z.of_nat (length p)),
   mkWriter (wr_level e) (wr_workers e) (wr_input e ++ p) (wr_buffer e) (wr_closes e)).

(** [encoder.Close()]: [true] for an error.  The first call passes the
    frames of what was written to the buffer. *)
Definition Writer_Close (e : Writer) : bool * Writer :=
  (false,
   mkWriter (wr_level e) (wr_workers e) (wr_input e)
     (match wr_closes e with
      | O => wr_buffer e ++ encodeConcurrent (wr_workers e) (wr_level e) (wr_input e)
      | S _ => wr_buffer e
      end)
     (S (wr_closes e))).

(** [zstd.NewReader(bytes.NewReader(input))] *)
Definition NewReader (input : bytes) : Reader := mkReader input 0.

(** [io.Copy(&decompressedData, reader)]: what the buffer holds, or [None]
    for an error. *)
Definition Reader_Copy (r : Reader) : option bytes := decodeAll (rd_input r).

(** [reader.Close()] *)
Definition Reader_Close (r : Reader) : Reader := mkReader (rd_input r) (S (rd_closes r)).

(** [compressData]: a writer of the given level and number of workers
    over a [bytes.Buffer], one [Write], [Close], and the buffer.  The
    deferred [Close] runs when the function returns, on every path, and its
    result is dropped; beside the result is the writer as the function
    leaves it. *)
Definition compressData (input : bytes) (level thread : Z) : outcome bytes * Writer :=
  let encoder := NewWriterLevel level in
  let deferred (r : outcome bytes * Writer) := (r.1, (Writer_Close r.2).2) in
  deferred
    (let encoder := SetNbWorkers thread encoder in
     match Writer_Write input encoder with
     | (None, encoder) => (Err ErrCompress, encoder)
     | (Some _, encoder) =>
         match Writer_Close encoder with
         | (true, encoder) => (Err ErrCloseEncoder, encoder)
         | (false, encoder) => (Ok (wr_buffer encoder), encoder)
         end
     end).

(** [decompressData]: a reader over the bytes, copied to its end, and
    closed when the function returns. *)
Definition decompressData (input : bytes) : outcome bytes * Reader :=
  let reader := NewReader input in
  let deferred (r : outcome bytes * Reader) := (r.1, Reader_Close r.2) in
  deferred
    (match Reader_Copy reader with
     | None => (Err ErrDecompress, reader)
     | Some out => (Ok out, reader)
     end).

(** The flags, under the names of the variables that hold them. *)
Record flags : Set := mkFlags {
  level : Z;
  thread : Z;
  outputFile : string;
  stdout : bool;
  decompress : bool;
  args : list string;
}.

(** "Read input file or from stdin": the first argument names the file,
    unless there is none or it is empty. *)
Definition read_input (args : list string) : world → (failure + bytes) * world :=
  λ w,
    let inputFile := Arg0 args in
    if bool_decide (inputFile ≠ "")
    then match os_ReadFile inputFile w with
         | (inl e, w) => (inl (FailedReadFile e), w)
         | (inr data, w) => (inr data, w)
         end
    else match os_ReadFile (f_name os_Stdin) w with
         | (inl e, w) => (inl (FailedReadStdin e), w)
         | (inr data, w) => (inr data, w)
         end.

(** "Write ... to output file or stdout": [-c] goes before [-o], and
    without either there is nowhere to write. *)
Definition write_output (stdout : bool) (outputFile : string) (data : bytes)
  : world → exit * world :=
  λ w,
    if stdout
    then match file_Write (os_Stdout w) data w with
         | (inl e, w) => (Exit1 (FailedWriteStdout e), w)
         | (inr _, w) => (Returned, w)
         end
    else if bool_decide (outputFile ≠ "")
    then match os_WriteFile outputFile data w with
         | (inl e, w) => (Exit1 (FailedWriteFile e), w)
         | (inr _, w) => (Returned, w)
         end
    else (Exit1 NoDestination, w).

(** The result of the codec, or the exit with its message. *)
Definition on_result (fail : error → failure) (o : outcome bytes)
    (k : bytes → world → exit * world) : world → exit * world :=
  λ w, match o with
       | Ok data => k data w
       | Err err => (Exit1 (fail err), w)
       | Panic p => (Panicked p, w)
       | OutOfFuel => (NoFuel, w)
       end.

Definition main (f : flags) : world → exit * world :=
  λ w,
    match read_input (args f) w with
    | (inl e, w) => (Exit1 e, w)
    | (inr data, w) =>
        if decompress f
        then on_result DecompressionFailed (decompressData data).1
               (write_output (stdout f) (outputFile f)) w
        else on_result CompressionFailed (compressData data (level f) (thread f)).1
               (write_output (stdout f) (outputFile f)) w
    end.

(** ** The codec calls *)

Lemma compressData_result input level thread :
  (compressData input level thread).1 = Ok (encodeConcurrent thread level input).
Proof. done. Qed.

Lemma decompressData_result input :
  (decompressData input).1 =
    match decodeAll input with Some out => Ok out | None => Err ErrDecompress end.
Proof. unfold decompressData, Reader_Copy. simpl. by destruct (decodeAll input). Qed.

(** ** The files *)

Lemma read_input_file name args w data :
  name ≠ "" → files w !! name = Some data → name ∉ unreadable w →
  read_input (name :: args) w = (inr data, w).
Proof.
  intros ? Hdata ?. unfold read_input, Arg0, os_ReadFile. simpl.
  by rewrite bool_decide_eq_true_2, Hdata, bool_decide_eq_false_2.
Qed.




(** ** What the program does *)



(** Without [-c] and without [-o] the input is read and compressed,
    and only then [main] finds that it has nowhere to write: it exits with
    status 1 and the store as it was.  An input that does not decode fails
    before the destination is looked at. *)
Theorem main_no_destination l t d source w data :
  source ≠ "" → files w !! source = Some data → source ∉ unreadable w →
  main (mkFlags l t "" false d [source]) w =
    (if d then match decodeAll data with
               | Some _ => Exit1 NoDestination
               | None => Exit1 (DecompressionFailed ErrDecompress)
               end
     else Exit1 NoDestination, w).
Proof.
  intros. unfold main. cbn [args decompress stdout outputFile level thread].
  rewrite (read_input_file _ _ _ data) by done.
  rewrite compressData_result, decompressData_result.
  destruct d; [|done]. by destruct (decodeAll data).
Qed.

End oneshot.

(** ** The program at work, on the store codec *)

Definition shot_data : bytes := ["z"; "s"; "t"; "d"]%byte.
Definition shot_demo : world := mkWorld {[ "in.bin" := shot_data ]} ∅ ∅.


Lemma main_no_destination_witness :
  main (mkFlags 15 2 "" false false ["in.bin"]) shot_demo = (Exit1 NoDestination, shot_demo).
Proof.
  apply (main_no_destination 15 2 false "in.bin" shot_demo shot_data);
    first [done|reflexivity|apply not_elem_of_empty].
Defined.

(** [-c] goes before [-o]; an empty argument means standard input. *)
Example main_stdout :
  let w := mkWorld {[ "/dev/stdin" := shot_data; "/dev/stdout" := [] ]} ∅ ∅ in
  let r := main (mkFlags 15 2 "out.zst" true false [""]) w in
  r.1 = Returned ∧ files r.2 !! "out.zst" = None ∧
  files r.2 !! "/dev/stdout" = Some (encodeConcurrent 2 15 shot_data).
Proof. by vm_compute. Qed.

End OneShot.
