(* ===== verification/Argv.v ===== *)
(** * The programs from their arguments

    Every [main] starts with the declarations of its flags and
    [flag.Parse()], and ends, when something failed, with a message and
    [os.Exit(1)].  [Cli], [ChunkPool] and [OneShot] model what is between;
    this file adds both ends: the flag set of each program, the parse of
    the arguments ([Flags]), the usage function, and the messages, which go
    to standard output or to standard error as the program chooses.

    Standard output and standard error are the files "/dev/stdout" and
    "/dev/stderr" of the store; printing appends to them.  A message is the
    format of the source around the text of the error, which is the
    library's ([Texts]), as is the line package flag prints for an error
    of the parse; the usage message is built in [Usage].
    [compressFileBlock] of the working program prints
    while it runs; [WorkingCmd.compressFileBlockG] is the function of
    [Pipeline] with these lines, and by the rule of [Frame] it returns what
    that function returns and leaves the files it leaves.  Not modelled:
    what the runtime prints for a panic. *)

From Stdlib Require Import Ascii.
From S2P Require Import Prelude Planner Codec FileSys Names Flags Usage Worker Reassembler.
From S2P Require Import Pipeline.
From S2P Require Import Frame Interleave Stream PlayMode Cli ChunkPool OneShot.

(** ** Printing *)

(** [var ( version string; buildTime string )]: the two variables of
    package main.  They hold what the linker was given with
    [-X main.version=...] and [-X main.buildTime=...], and the empty string
    without. *)
Record BuildVars : Set := mkBuildVars {
  version : string;    (* "Will hold the version number" *)
  buildTime : string;  (* "Will hold the build time" *)
}.

(** The texts the model does not build: the two variables, the name the
    program was called by, what [%v] prints for an error and [%q] for a
    string, and the line package flag prints for an error. *)
Class Texts : Type := {
  vars : BuildVars;
  Args0 : string;                     (* [os.Args[0]] *)
  Error : error → string;             (* [err.Error()] *)
  os_Error : oserr → string;          (* the same for an error of package os *)
  flag_Error : flag_error → string;   (* the line of [FlagSet.failf] *)
  Quote : string → string;            (* [strconv.Quote] *)
}.

Definition stdout_name : string := "/dev/stdout".
Definition stderr_name : string := "/dev/stderr".

(** [fmt.Fprint(dest, text)] for one of the two standard streams. *)
Definition Fprint (dest : string) (text : string) : world → world :=
  set_files (alter (λ old : bytes, old ++ String.list_byte_of_string text) dest).

(** How a program ends: [os.Exit(code)] or the return of [main], which
    is code 0; a panic; a run that was cut short. *)
Inductive ending : Set :=
| ExitCode (code : Z)
| Panics (p : panic)
| CutShort.

#[global] Instance ending_eq_dec : EqDecision ending.
Proof. solve_decision. Defined.

Section printing.
Context `{Texts}.

(** The messages of the five programs, each the format of its [Printf]
    or [Fprintf]. *)
Definition message (f : failure) : string :=
  match f with
  | FailedOpenInput e => "Failed to open input file: " +:+ os_Error e +:+ nl
  | FailedCreateOutput e => "Failed to create output file: " +:+ os_Error e +:+ nl
  | DecompressionFailed err => "Decompression failed: " +:+ Error err +:+ nl
  | BlockModeFailed err => "Block mode compression failed: " +:+ Error err +:+ nl
  | StreamModeFailed err => "Stream mode compression failed: " +:+ Error err +:+ nl
  | BlockModeNeedsFile => "Block mode requires a file input." +:+ nl
  | CompressionFailed err => "Compression failed: " +:+ Error err +:+ nl
  | FailedReadFile e => "Failed to read file: " +:+ os_Error e +:+ nl
  | FailedReadStdin e => "Failed to read from stdin: " +:+ os_Error e +:+ nl
  | FailedWriteStdout e => "Failed to write to stdout: " +:+ os_Error e +:+ nl
  | FailedWriteFile e => "Failed to write to file: " +:+ os_Error e +:+ nl
  | NoDestination =>
      "No output destination specified. Use -c for stdout or -o for a file." +:+ nl
  end.

(** The end of a [main]: the message of a failure is printed on the
    stream [dest] names for it, and the program exits with code 1. *)
Definition report (dest : failure → string) (r : exit * world) : ending * world :=
  match r with
  | (Returned, w) => (ExitCode 0, w)
  | (Exit1 f, w) => (ExitCode 1, Fprint (dest f) (message f) w)
  | (Panicked p, w) => (Panics p, w)
  | (NoFuel, w) => (CutShort, w)
  end.

(** [flag.Parse()]: the command line is a flag set that exits on an
    error, with code 0 when help was asked for and with code 2 after the
    error's line otherwise; both print the usage. *)
Definition flag_Parse (fs : FlagSet) (usage : world → world) (argv : list string)
  : world → (ending + FlagSet * list string) * world :=
  λ w, match Parse fs argv with
       | inr r => (inr r, w)
       | inl ErrHelp => (inl (ExitCode 0), usage w)
       | inl e => (inl (ExitCode 2), usage (Fprint stderr_name (flag_Error e) w))
       end.

(** The usage function of a program that sets none. *)
Definition flag_Usage (formal : list Flag) : world → world :=
  Fprint stderr_name (defaultUsage Quote Args0 formal).

(** A [main] from its arguments: the flags are parsed, the rest of [main]
    runs on them, and what it failed with is reported. *)
Definition from_args {F} (fs : FlagSet) (usage : world → world) (flags_of : FlagSet → list string → F)
    (dest : failure → string) (main : F → world → exit * world) (argv : list string)
  : world → ending * world :=
  λ w, match flag_Parse fs usage argv w with
       | (inl e, w) => (e, w)
       | (inr (fs, args), w) => report dest (main (flags_of fs args) w)
       end.

End printing.

(** ** The working program *)

Module WorkingCmd.
Section working.
Context `{Codec} `{Texts}.

(** [printVersionBuildInfo] of src/unnamed/part_000, on standard output. *)
Definition printVersionBuildInfo : world → world :=
  Fprint stdout_name ("Version: " +:+ version vars +:+ nl +:+ "Build time: " +:+ buildTime vars +:+ nl).

(** "Define flags" *)
Definition formal : list Flag :=
  [
    flag_Bool "d" false "Decompress instead of compress";
    flag_Bool "c" false "Write output to stdout";
    flag_String "o" "" "Output file (default: stdout)";
    flag_Int "l" 3 "Set compression level (1-19, default: 3)";
    flag_Int "T" 2 "Number of threads for compression (default: 2)";
    flag_Bool "b" false "Use block mode for compression. This will use the option -T to utilize more than 2 CPU core. Only benefit if you use compression level higher than 9 otherwise is is not faster in my test but your chances might be vary. You can not use stdin and stdout for this case"
  ].

Definition flagSet : FlagSet := declare formal.

(** [flag.Usage] *)
Definition Usage : world → world :=
  λ w, Fprint stderr_name (PrintDefaults Quote formal) (printVersionBuildInfo w).

(** The variables of [main] after [flag.Parse()]. *)
Definition flags_of (fs : FlagSet) (args : list string) : flags :=
  mkFlags (get_bool fs "d") (get_bool fs "c") (get_string fs "o") (get_int fs "l")
    (get_int fs "T") (get_bool fs "b") args.

(** The line [compressFileBlock] prints on standard error once it has
    started its goroutines. *)
Definition working : string := "Working, please wait ..." +:+ nl.

(** [compressFileBlock] with what it prints.  The goroutines and the
    files are those of [compressFileBlockG] of [Pipeline]; the line
    [working] is printed by the goroutine of [main] while the workers run,
    here when they are done, which is one of the orders and, the workers
    having no handle on standard error, gives the store of every other
    ([working_at_any_time]); the first error received on [errChan] is
    printed on standard output before the panic. *)
Definition compressFileBlockG (fuel : nat) (g : Z) (sched : list Z)
    (inputFile outputFile : string) (compressionLevel numThreads : Z) : io world () :=
  (offset <- calculateSegmentG g inputFile numThreads;;
   if bool_decide (numThreads < 0) then io_panic PanicMakeChan
   else
     ch <- runWorkers fuel g inputFile offset compressionLevel sched (mkChannels [] []);;
     λ w,
       let w := Fprint stderr_name working w in
       match errChan ch with
       | err :: _ => (Panic PanicSomeErrors, Fprint stdout_name (Error err +:+ nl) w)
       | [] =>
           match concatenateFiles (outputFileName ch) outputFile w with
           | (Ok _, w) | (Err _, w) => (Ok (), w)
           | (Panic p, w) => (Panic p, w)
           | (OutOfFuel, w) => (OutOfFuel, w)
           end
       end)%io.

(** [main] over a model [block] of [compressFileBlock]; every message is
    a [fmt.Printf]. *)
Definition mainWith (fuel : nat) (block : string → string → Z → Z → io world ())
  : list string → world → ending * world :=
  from_args flagSet Usage flags_of (λ _, stdout_name) (Cli.mainWith fuel block).

Definition mainG (fuel : nat) (g : Z) (sched : list Z) : list string → world → ending * world :=
  mainWith fuel (compressFileBlockG fuel g sched).

End working.
End WorkingCmd.

(** ** The program of play/tmp/main.go *)

Module PlayCmd.
Section play.
Context `{Codec} `{Texts}.

(** "Define flags": the level is declared under the name [1]. *)
Definition formal : list Flag :=
  [
    flag_Bool "d" false "Decompress instead of compress";
    flag_Bool "c" false "Write output to stdout";
    flag_String "o" "" "Output file (default: stdout)";
    flag_Int "1" 3 "Set compression level (1-19, default: 3)";
    flag_Int "T" 4 "Number of threads for compression (default: 4)";
    flag_Bool "block" false "Use block mode for compression"
  ].

Definition flagSet : FlagSet := declare formal.

Definition flags_of (fs : FlagSet) (args : list string) : PlayMain.flags :=
  PlayMain.mkFlags (get_bool fs "d") (get_bool fs "c") (get_string fs "o") (get_int fs "1")
    (get_int fs "T") (get_bool fs "block") args.

(** [main]; every message is a [fmt.Printf] or a [fmt.Println]. *)
Definition mainG (fuel : nat) (g : Z) (sched : list Z) : list string → world → ending * world :=
  from_args flagSet (flag_Usage formal) flags_of (λ _, stdout_name)
    (PlayMain.mainG fuel g sched).

End play.
End PlayCmd.

(** ** The stream-mode program *)

Module StreamCmd.
Section stream.
Context `{Codec} `{Texts}.

Definition printVersionBuildInfo : world → world :=
  Fprint stdout_name ("Version: " +:+ version vars +:+ nl +:+ "Build time: " +:+ buildTime vars +:+ nl).

Definition formal : list Flag :=
  [
    flag_Bool "d" false "Decompress instead of compress";
    flag_Bool "c" false "Write output to stdout";
    flag_String "o" "" "Output file (default: stdout)";
    flag_Int "l" 3 "Set compression level (1-19, default: 3. Good tradoff is 9)";
    flag_Int "T" 0 "Number of threads (default: library default)"
  ].

Definition flagSet : FlagSet := declare formal.

Definition Usage : world → world :=
  λ w, Fprint stderr_name (PrintDefaults Quote formal) (printVersionBuildInfo w).

Definition flags_of (fs : FlagSet) (args : list string) : StreamMain.flags :=
  StreamMain.mkFlags (get_bool fs "d") (get_bool fs "c") (get_string fs "o") (get_int fs "l")
    (get_int fs "T") args.

(** The failure to open the input is a [fmt.Printf]; the other messages go
    to standard error. *)
Definition dest (f : failure) : string :=
  match f with
  | FailedOpenInput _ => stdout_name
  | _ => stderr_name
  end.

(** Without [-c], [-o] and an input file, [main] says on standard error
    that it writes to standard output. *)
Definition notice (f : StreamMain.flags) : world → world :=
  if negb (StreamMain.outputToStdout f) && bool_decide (StreamMain.outputFile f = "")
     && bool_decide (length (StreamMain.args f) = 0%nat)
  then Fprint stderr_name "No output file specified and no input provided, writing to stdout."
  else id.

Definition main (fuel : nat) : list string → world → ending * world :=
  from_args flagSet Usage flags_of dest (λ f w, StreamMain.main fuel f (notice f w)).

End stream.
End StreamCmd.

(** ** The pool program *)

Module PoolCmd.
Section pool.
Context `{Codec} `{!Unclosed} `{Texts}.

(** [printVersionBuildInfo] of src/unnamed/part_002, on standard error. *)
Definition printVersionBuildInfo : world → world :=
  Fprint stderr_name ("Version: " +:+ version vars +:+ nl +:+ "Build time: " +:+ buildTime vars +:+ nl).

Definition formal : list Flag :=
  [
    flag_Bool "d" false "Decompress instead of compress";
    flag_Bool "c" false "Write output to stdout";
    flag_String "o" "" "Output file (default: stdout)";
    flag_Int "l" 3 "Set compression level (1-19, default: 3)";
    flag_Int "T" 4 "Number of threads for block-based compression (default: 4)"
  ].

Definition flagSet : FlagSet := declare formal.

Definition Usage : world → world :=
  λ w, Fprint stderr_name (PrintDefaults Quote formal) (printVersionBuildInfo w).

Definition flags_of (fs : FlagSet) (args : list string) : Pool.flags :=
  Pool.mkFlags (get_bool fs "d") (get_bool fs "c") (get_string fs "o") (get_int fs "l")
    (get_int fs "T") args.

(** [main]; every message goes to standard error. *)
Definition mainG (fuel : nat) (g : Z) (sched : list Pool.action)
  : list string → world → ending * world :=
  from_args flagSet Usage flags_of (λ _, stderr_name) (Pool.mainG fuel g sched).

End pool.
End PoolCmd.

(** ** The one-shot program *)

Module OneShotCmd.
Section oneshot.
Context `{Codec} `{Texts}.

Definition formal : list Flag :=
  [
    flag_Int "level" 15 "Compression level (0-22)";
    flag_Int "T" 2 "Thread count";
    flag_String "o" "" "Output file name (default: stdout)";
    flag_Bool "c" false "Write compressed data to stdout";
    flag_Bool "d" false "Decompress mode"
  ].

Definition flagSet : FlagSet := declare formal.

Definition flags_of (fs : FlagSet) (args : list string) : OneShot.flags :=
  OneShot.mkFlags (get_int fs "level") (get_int fs "T") (get_string fs "o") (get_bool fs "c")
    (get_bool fs "d") args.

(** [main]; every message goes to standard error. *)
Definition main : list string → world → ending * world :=
  from_args flagSet (flag_Usage formal) flags_of (λ _, stderr_name) OneShot.main.

End oneshot.
End OneShotCmd.

(** ** What printing changes *)

(** Two stores that differ on the two standard streams at most. *)
Definition only_streams (w w' : world) : Prop :=
  unreadable w' = unreadable w ∧ unwritable w' = unwritable w ∧
  ∀ name, name ≠ stdout_name → name ≠ stderr_name → files w' !! name = files w !! name.

#[global] Instance only_streams_refl : Reflexive only_streams.
Proof. by intros w. Qed.

#[global] Instance only_streams_trans : Transitive only_streams.
Proof.
  intros w1 w2 w3 (? & ? & H12) (? & ? & H23). split_and!; [congruence..|].
  intros name ??. by rewrite H23, H12.
Qed.

Lemma Fprint_lookup dest text w :
  files (Fprint dest text w) !! dest =
    (λ old : bytes, old ++ String.list_byte_of_string text) <$> files w !! dest.
Proof. unfold Fprint. simpl. by rewrite lookup_alter_eq. Qed.

Lemma Fprint_lookup_ne dest text w name :
  name ≠ dest → files (Fprint dest text w) !! name = files w !! name.
Proof. intros. unfold Fprint. simpl. by rewrite lookup_alter_ne. Qed.

Lemma Fprint_only_streams dest text w :
  dest = stdout_name ∨ dest = stderr_name → only_streams w (Fprint dest text w).
Proof.
  intros Hdest. split_and!; [done..|]. intros name ??.
  apply Fprint_lookup_ne. by destruct Hdest as [-> | ->].
Qed.

#[export] Hint Resolve Fprint_only_streams : core.

Section args.
Context `{Texts}.

(** Arguments the flag set refuses: the program exits before it has
    opened a file, with code 0 when help was asked for and with code 2
    otherwise. *)
Lemma from_args_refused {F} fs usage (flags_of : FlagSet → list string → F) dest main argv e w :
  (∀ w, only_streams w (usage w)) →
  Parse fs argv = inl e →
  ∃ w', from_args fs usage flags_of dest main argv w =
          (ExitCode (if decide (e = ErrHelp) then 0 else 2), w') ∧
        only_streams w w'.
Proof.
  intros Husage Hparse. unfold from_args, flag_Parse. rewrite Hparse.
  destruct e; (eexists; split; [done|]); try done;
    (etrans; [|apply Husage]); by apply Fprint_only_streams; right.
Qed.

(** Arguments that were rendered from settings: [main] runs on the flags
    with these settings. *)
Lemma from_args_render {F} fs usage (flags_of : FlagSet → list string → F) dest main
    settings args w :
  Forall (settable fs) settings →
  from_args fs usage flags_of dest main (render settings args) w =
    report dest (main (flags_of (set_all fs settings) args) w).
Proof. intros. unfold from_args, flag_Parse. by rewrite Parse_render. Qed.

Lemma flag_Usage_only_streams formal w : only_streams w (flag_Usage formal w).
Proof. apply Fprint_only_streams. by right. Qed.

End args.

(** ** The working program from its arguments *)

Section working_args.
Context `{Codec} `{Texts}.

Lemma WorkingCmd_Usage_only_streams w : only_streams w (WorkingCmd.Usage w).
Proof.
  unfold WorkingCmd.Usage, WorkingCmd.printVersionBuildInfo.
  etrans; apply Fprint_only_streams; auto.
Qed.

(** The settings that stand for the variables of [main]. *)
Definition settings_of (f : flags) : list (string * Value) :=
  [("d", BoolValue (compressMode f)); ("c", BoolValue (outputToStdout f));
   ("o", StringValue (outputFile f)); ("l", IntValue (compressionLevel f));
   ("T", IntValue (numThreads f)); ("b", BoolValue (blockMode f))].

Lemma settings_of_settable f :
  in_int64 (compressionLevel f) → in_int64 (numThreads f) →
  Forall (settable WorkingCmd.flagSet) (settings_of f).
Proof.
  intros ??. unfold settings_of.
  repeat (apply Forall_cons; split; [split_and!; [by_decide|by eexists|done]|]).
  apply Forall_nil_2.
Qed.

Lemma flags_of_settings f :
  WorkingCmd.flags_of (set_all WorkingCmd.flagSet (settings_of f)) (args f) = f.
Proof. by destruct f. Qed.

(** [main] from the arguments that spell the values of its variables. *)
Lemma mainWith_rendered fuel block f w :
  in_int64 (compressionLevel f) → in_int64 (numThreads f) →
  WorkingCmd.mainWith fuel block (render (settings_of f) (args f)) w =
    report (λ _, stdout_name) (Cli.mainWith fuel block f w).
Proof.
  intros ??. unfold WorkingCmd.mainWith.
  rewrite from_args_render by (by apply settings_of_settable). by rewrite flags_of_settings.
Qed.

(** C23. Round trip of the command line of the working program: for
    every value of the variables of [main] (the level and the thread count
    being [int]s), the arguments that spell these values parse to them, so
    that [main] from these arguments is [main] on these values followed by
    its report. *)
Theorem main_parses_flags fuel block f w :
  in_int64 (compressionLevel f) → in_int64 (numThreads f) →
  Parse WorkingCmd.flagSet (render (settings_of f) (args f)) =
    inr (set_all WorkingCmd.flagSet (settings_of f), args f) ∧
  WorkingCmd.mainWith fuel block (render (settings_of f) (args f)) w =
    report (λ _, stdout_name) (Cli.mainWith fuel block f w).
Proof.
  intros ??. split; [by apply Parse_render, settings_of_settable|by apply mainWith_rendered].
Qed.

(** Arguments the working program refuses: it exits with code 0
    for [-h] and [-help] and with code 2 for any other error of the parse,
    and has changed nothing but its two standard streams. *)
Theorem main_refuses_flags fuel block argv e w :
  Parse WorkingCmd.flagSet argv = inl e →
  ∃ w', WorkingCmd.mainWith fuel block argv w =
          (ExitCode (if decide (e = ErrHelp) then 0 else 2), w') ∧
        only_streams w w'.
Proof. apply from_args_refused, WorkingCmd_Usage_only_streams. Qed.

End working_args.

(** ** Where the messages go *)

Section messages.
Context `{Codec} `{Texts}.
Context (fuel : nat) (name : string) (stream old : bytes) (w : world).
Context (Hfile : files w !! name = Some stream) (Hreadable : name ∉ unreadable w).
Context (Hstdout : files w !! stdout_name = Some old).
Context (Hfuel : (length stream < fuel)%nat).
Context (Hcorrupt : decodeAll stream = None).

(** Decompression to standard output of a file that is no sequence of
    frames. *)
Lemma decompress_to_stdout failed :
  run_mode failed (decompressFileG fuel copyBuffer (mkFile name 0) (os_Stdout w)) w =
    (Exit1 (failed ErrDecompress),
     set_files <[stdout_name := old ++ decodeWritten stream]> w).
Proof.
  assert (valid (mkFile name 0) w ∧ pending (mkFile name 0) w = stream) as [? Hpend].
  { split; [split; [by eexists|done]|]. simpl. by rewrite Hfile. }
  unfold run_mode, os_Stdout. fold stdout_name. rewrite Hstdout. cbn [default].
  rewrite (decompressFileG_corrupt copyBuffer); rewrite ?Hpend; done.
Qed.

Lemma decompress_args :
  Forall (settable WorkingCmd.flagSet) [("d", BoolValue true)] ∧
  Forall (settable StreamCmd.flagSet) [("d", BoolValue true)].
Proof. split; (apply Forall_singleton; split_and!; [by_decide|by eexists|done]). Qed.

(** C24. The working program prints its messages on standard output:
    when [gozstd -d file] fails on a file that is no sequence of frames,
    standard output holds what the decoder passed on, followed by the
    message; the stream-mode program, whose [decompress] is the same
    function, leaves the same data on standard output and prints the
    message on standard error. *)
Theorem main_message_on_stdout block :
  let argv := render [("d", BoolValue true)] [name] in
  let text := String.list_byte_of_string (message (DecompressionFailed ErrDecompress)) in
  (∃ w', WorkingCmd.mainWith fuel block argv w = (ExitCode 1, w') ∧
     files w' !! stdout_name = Some (old ++ decodeWritten stream ++ text)) ∧
  (∃ w', StreamCmd.main fuel argv w = (ExitCode 1, w') ∧
     files w' !! stdout_name = Some (old ++ decodeWritten stream) ∧
     files w' !! stderr_name =
       (λ err : bytes, err ++ text) <$> files w !! stderr_name).
Proof.
  intros argv text. subst argv. destruct decompress_args as [Hw Hs]. split.
  - eexists. split.
    + unfold WorkingCmd.mainWith. rewrite from_args_render by done.
      change (WorkingCmd.flags_of _ _) with (mkFlags true false "" 3 2 false [name]).
      unfold Cli.mainWith, with_files, open_input, open_output. simpl.
      by rewrite (os_Open_Some _ _ stream), decompress_to_stdout by done.
    + rewrite Fprint_lookup. simpl. by rewrite lookup_insert_eq, (assoc_L (++)).
  - eexists. split_and!.
    + unfold StreamCmd.main. rewrite from_args_render by done.
      change (StreamCmd.flags_of _ _) with (StreamMain.mkFlags true false "" 3 0 [name]).
      unfold StreamMain.main, StreamCmd.notice, with_files, open_input, open_output, decompress.
      simpl. by rewrite (os_Open_Some _ _ stream), decompress_to_stdout by done.
    + rewrite Fprint_lookup_ne by done. simpl. by rewrite lookup_insert_eq.
    + rewrite Fprint_lookup. simpl. by rewrite lookup_insert_ne.
Qed.

End messages.

(** ** What block mode prints *)

(** A path that is none of the two standard streams. *)
Definition a_file (name : string) : Prop := name ≠ stdout_name ∧ name ≠ stderr_name.

#[global] Instance a_file_dec name : Decision (a_file name).
Proof. unfold a_file. apply _. Defined.

(** Printing is a change of the stream's file: a call that runs away
    from the stream may run before the line is printed, or after. *)
Lemma away_Fprint {X} dest (m : world → X * world) text w :
  away dest m → m (Fprint dest text w) = ((m w).1, Fprint dest text (m w).2).
Proof. intros Hm. apply Hm. Qed.

Lemma part_not_stream i inputFile dest :
  dest = stdout_name ∨ dest = stderr_name → segmentFileName i inputFile ≠ dest.
Proof. intros [-> | ->]; apply segmentFileName_relative. Qed.

Section progress.
Context `{Codec} `{Texts}.
Context (fuel : nat) (g : Z) (sched : list Z) (inputFile outputFile : string).
Context (level numThreads : Z).
Context (Hin : a_file inputFile) (Hout : a_file outputFile).

#[local] Abbreviation quiet := (Pipeline.compressFileBlockG fuel g sched inputFile outputFile
                                  level numThreads).
#[local] Abbreviation loud := (WorkingCmd.compressFileBlockG fuel g sched inputFile outputFile
                                 level numThreads).

(** The goroutine of [main] may print its line before the workers have
    started, or when they are done: the stores are the same. *)
Lemma working_at_any_time offset ch w :
  runWorkers fuel g inputFile offset level sched ch (Fprint stderr_name WorkingCmd.working w) =
    ((runWorkers fuel g inputFile offset level sched ch w).1,
     Fprint stderr_name WorkingCmd.working
       (runWorkers fuel g inputFile offset level sched ch w).2).
Proof.
  clear Hout. apply (away_Fprint _ (runWorkers fuel g inputFile offset level sched ch)).
  apply runWorkers_away; [by destruct Hin|]. intros. apply part_not_stream. by right.
Qed.

(** What [compressFileBlock] prints changes neither what it returns nor
    any file but the standard streams; when it returns, it has printed its
    one line on standard error. *)
Lemma compressFileBlock_printed w :
  (loud w).1 = (quiet w).1 ∧ only_streams (quiet w).2 (loud w).2 ∧
  ((quiet w).1 = Ok () → (loud w).2 = Fprint stderr_name WorkingCmd.working (quiet w).2).
Proof.
  clear Hin. unfold WorkingCmd.compressFileBlockG, Pipeline.compressFileBlockG, io_bind.
  destruct (calculateSegmentG g inputFile numThreads w) as [[offset| | |] w1]; [|done..].
  case_bool_decide; [done|].
  destruct (runWorkers _ _ _ _ _ _ _ _) as [[ch| | |] w2] eqn:Hrun; [|done..].
  destruct (errChan ch) as [|err errs].
  - rewrite (away_Fprint _ (concatenateFiles (outputFileName ch) outputFile)).
    2:{ apply concatenateFiles_away; [|by destruct Hout].
        eapply (runWorkers_names stderr_name _ _ _ _ _
                  (λ i, part_not_stream i _ _ (or_intror eq_refl)) _ (mkChannels [] []));
          [done|by constructor|by rewrite Hrun]. }
    destruct (concatenateFiles _ _ w2) as [[] w3]; simpl; split_and!; by auto.
  - simpl. split_and!; [done| |done]. etrans; apply Fprint_only_streams; auto.
Qed.

End progress.

(** One thread whose part file cannot be created: the error is printed
    on standard output, after the line on standard error, and the program
    panics. *)
Lemma compressFileBlock_prints_error `{Codec} `{Texts} g level inputFile outputFile data w
    numThreads fuel sched k :
  files w !! inputFile = Some data → inputFile ∉ unreadable w →
  plannable g (Z.of_nat (length data)) numThreads →
  schedule numThreads sched → (length data < fuel)%nat →
  0 ≤ k < numThreads → segmentFileName k inputFile ∈ unwritable w →
  ∃ w1,
    Pipeline.compressFileBlockG fuel g sched inputFile outputFile level numThreads w =
      (Panic PanicSomeErrors, w1) ∧
    WorkingCmd.compressFileBlockG fuel g sched inputFile outputFile level numThreads w =
      (Panic PanicSomeErrors,
       Fprint stdout_name (Error (ErrCreateOutput EACCES) +:+ nl)
         (Fprint stderr_name WorkingCmd.working w1)).
Proof.
  intros Hin ? Hp Hsched ? Hk Hb. destruct (divideSegments_plan _ _ _ Hp) as (plan & Hplan & _).
  eexists. split; [by eapply compressFileBlockG_blocked|].
  unfold WorkingCmd.compressFileBlockG, io_bind.
  rewrite (calculateSegmentG_Some _ _ _ _ data), Hplan by done.
  rewrite bool_decide_eq_false_2 by (destruct Hp as (_ & _ & _ & ?); lia).
  rewrite (runWorkers_run g level inputFile data plan fuel (unwritable w));
    [|by destruct Hp|done|by eapply sched_ready].
  cbn [errChan app].
  assert (k ∈ filter (blocked inputFile (unwritable w)) sched) as Hk'.
  { apply list_elem_of_filter. split; [done|]. rewrite Hsched. apply elem_of_seqZ. lia. }
  by destruct (filter _ sched); [apply elem_of_nil in Hk'|].
Qed.

(** ** Block mode from the arguments *)

Section block_args.
Context `{Codec} `{Texts}.
Context (g level threads : Z) (source compressed restored : string) (data : bytes) (w : world).
Context (fuel : nat) (sched sched' : list Z).
Context (Hready : block_ready g source compressed threads data w).
Context (Hsched : schedule threads sched) (Hfuel : (length data < fuel)%nat).
Context (Hnames : compressed ≠ "" ∧ compressed ≠ source ∧ (compressed ∉ unreadable w) ∧
                  restored ≠ "" ∧ restored ≠ compressed ∧ (restored ∉ unwritable w)).
Context (Hfiles : a_file source ∧ a_file compressed).
Context (Hlevel : in_int64 level).

#[local] Abbreviation compress := (mkFlags false false compressed level threads true [source]).
#[local] Abbreviation restore := (mkFlags true false restored 3 2 false [compressed]).
#[local] Abbreviation created := (set_files <[compressed := []]> w).

Lemma block_threads_int : in_int64 threads.
Proof.
  clear Hsched Hfuel Hnames Hfiles Hlevel.
  destruct Hready as ((_ & _ & (_ & _ & _ & ?) & ? & _) & _).
  unfold in_int64, int64_min. simpl. lia.
Qed.

(** The run of [compressFileBlock] inside [main]: it returns, and has
    printed its line. *)
Lemma compressFileBlock_printed_ready :
  ∃ plan, chain 0 plan (Z.of_nat (length data)) ∧
    WorkingCmd.compressFileBlockG fuel g sched source compressed level threads created =
      (Ok (), Fprint stderr_name WorkingCmd.working
                (block_world g level source compressed data threads plan created)).
Proof.
  clear Hlevel. destruct Hnames as (? & ? & ? & _), Hfiles as [? ?].
  assert (block_ready g source compressed threads data created) as Hready'
    by (by apply block_ready_create).
  destruct (compressFileBlockG_ready g level source compressed data _ threads fuel
              Hready' Hfuel sched Hsched) as (plan & _ & Hchain & Hrun).
  destruct (compressFileBlock_printed fuel g sched source compressed level threads
              ltac:(done) created) as (Hret & _ & Hworld).
  rewrite Hrun in Hret, Hworld. exists plan. split; [done|].
  destruct (WorkingCmd.compressFileBlockG _ _ _ _ _ _ _ _) as [r w1]. simpl in *.
  by rewrite Hret, Hworld.
Qed.

(** Block mode leaves the standard streams as they were. *)
Lemma block_world_stream plan dest :
  dest = stdout_name ∨ dest = stderr_name →
  files (block_world g level source compressed data threads plan created) !! dest =
    files w !! dest.
Proof.
  clear Hready Hsched Hfuel Hnames Hlevel. intros Hdest.
  assert (dest ≠ compressed) by (destruct Hfiles as [_ [??]], Hdest; congruence).
  simpl. rewrite lookup_delete_all, bool_decide_eq_false_2; [by rewrite !lookup_insert_ne|].
  intros (i & -> & _)%list_elem_of_fmap. by eapply part_not_stream.
Qed.

(** Decompression of the output of block mode, from the arguments. *)
Lemma main_restores plan fuel' :
  chain 0 plan (Z.of_nat (length data)) → (length (block_output g level data plan) < fuel')%nat →
  let w1 := Fprint stderr_name WorkingCmd.working
              (block_world g level source compressed data threads plan created) in
  WorkingCmd.mainG fuel' g sched' (render (settings_of restore) [compressed]) w1 =
    (ExitCode 0, set_files <[restored := data]> w1).
Proof.
  clear Hsched Hfuel Hlevel. intros ?? w1.
  destruct Hnames as (? & ? & ? & ? & ? & ?), Hfiles as [_ [? ?]].
  assert (block_ready g source compressed threads data created) as Hready'
    by (by apply block_ready_create).
  unfold WorkingCmd.mainG. rewrite (mainWith_rendered _ _ restore) by by_decide.
  erewrite (mainWith_decompress fuel' compressed restored
              (block_output g level data plan) data); [done| |done|done|lia|].
  - unfold w1. rewrite Fprint_lookup_ne by done. by eapply block_world_output.
  - by apply (block_output_decodes g level source compressed data _ threads
                (S (length data)) Hready' (Nat.lt_succ_diag_r _)).
Qed.

(** C13. Block mode from the arguments, then decompression from
    the arguments: [gozstd -b -T n -l level -o c s] exits with code 0,
    leaves standard output as it was and one line on standard error, and
    [gozstd -d -o r c] after it exits with code 0 and leaves in [r] the
    bytes of [s], for every schedule of the goroutines. *)
Theorem main_block_roundtrip_args :
  ∃ w1,
    WorkingCmd.mainG fuel g sched (render (settings_of compress) [source]) w = (ExitCode 0, w1) ∧
    files w1 !! stdout_name = files w !! stdout_name ∧
    files w1 !! stderr_name =
      (λ old : bytes, old ++ String.list_byte_of_string WorkingCmd.working) <$>
        files w !! stderr_name ∧
    ∃ fuel0, ∀ fuel', (fuel0 ≤ fuel')%nat →
      ∃ w2,
        WorkingCmd.mainG fuel' g sched' (render (settings_of restore) [compressed]) w1 =
          (ExitCode 0, w2) ∧
        files w2 !! restored = Some data.
Proof.
  destruct compressFileBlock_printed_ready as (plan & Hchain & Hrun).
  pose proof Hready as ((Hin & ? & _) & ?). pose proof block_threads_int.
  eexists. split_and!.
  - unfold WorkingCmd.mainG. rewrite (mainWith_rendered _ _ compress) by done.
    erewrite block_mode_returns; [done|exact Hnames|done..].
  - rewrite Fprint_lookup_ne by done. apply block_world_stream. by left.
  - rewrite Fprint_lookup. f_equal. apply block_world_stream. by right.
  - exists (S (length (block_output g level data plan))). intros fuel' ?.
    eexists. split; [apply main_restores; [done|lia]|]. simpl. by rewrite lookup_insert_eq.
Qed.

End block_args.

(** ** The programs in a pipe *)

(** A program between two pipes: standard input holds [data], standard
    output holds [old]. *)
Section pipe.
Context `{Codec} `{Texts}.
Context (fuel : nat) (data old : bytes) (w : world).
Context (Hstdin : files w !! "/dev/stdin" = Some data).
Context (Hstdout : files w !! stdout_name = Some old).
Context (Hfuel : (length data < fuel)%nat).

Lemma stdin_pending : valid os_Stdin w ∧ pending os_Stdin w = data.
Proof. clear Hstdout Hfuel. split; [split; [by eexists|done]|]. simpl. by rewrite Hstdin. Qed.

Lemma stdin_encoded failed encode :
  run_mode failed (streamThrough encode fuel copyBuffer os_Stdin (os_Stdout w)) w =
    (Returned, set_files <[stdout_name := old ++ encode data]> w).
Proof.
  destruct stdin_pending as [? Hpend]. unfold run_mode, os_Stdout. fold stdout_name.
  rewrite Hstdout. cbn [default].
  rewrite (streamThrough_ok copyBuffer); rewrite ?Hpend; done.
Qed.

Lemma stdin_decoded failed decoded :
  decodeAll data = Some decoded →
  run_mode failed (decompressFileG fuel copyBuffer os_Stdin (os_Stdout w)) w =
    (Returned, set_files <[stdout_name := old ++ decoded]> w).
Proof.
  intros Hdec. destruct stdin_pending as [? Hpend]. unfold run_mode, os_Stdout.
  fold stdout_name. rewrite Hstdout. cbn [default].
  rewrite (decompressFileG_ok copyBuffer) with (decoded := decoded); rewrite ?Hpend; done.
Qed.

(** Without a file and without [-o], the working program compresses
    standard input to standard output, at the level of [-l]; with [-d] it
    decompresses standard input to standard output.  It prints
    nothing. *)
Lemma main_filters block level :
  in_int64 level →
  WorkingCmd.mainWith fuel block (render [("l", IntValue level)] []) w =
    (ExitCode 0, set_files <[stdout_name := old ++ encodeStream level data]> w) ∧
  ∀ decoded, decodeAll data = Some decoded →
    WorkingCmd.mainWith fuel block (render [("d", BoolValue true)] []) w =
      (ExitCode 0, set_files <[stdout_name := old ++ decoded]> w).
Proof.
  intros ?. split; [|intros decoded ?]; unfold WorkingCmd.mainWith.
  - rewrite from_args_render by (apply Forall_singleton; split_and!; [by_decide|by eexists|done]).
    change (WorkingCmd.flags_of _ _) with (mkFlags false false "" level 2 false []).
    unfold Cli.mainWith, with_files, open_input, open_output. simpl.
    unfold compressStream, compressStreamG. by rewrite stdin_encoded.
  - rewrite from_args_render by (apply Forall_singleton; split_and!; [by_decide|by eexists|done]).
    change (WorkingCmd.flags_of _ _) with (mkFlags true false "" 3 2 false []).
    unfold Cli.mainWith, with_files, open_input, open_output. simpl.
    unfold decompressFile. by rewrite (stdin_decoded _ decoded).
Qed.

End pipe.

(** The pipe of the README, [... | gozstd -l n > c] and then
    [gozstd -d < c]: when the first program has written to an empty file
    and the second reads that file, the second writes what the first has
    read; both exit with code 0. *)
Theorem main_pipe_roundtrip `{Codec} `{Texts} block level data w old :
  in_int64 level →
  files w !! "/dev/stdin" = Some data → files w !! stdout_name = Some [] →
  ∃ w1 fuel0, ∀ fuel, (fuel0 ≤ fuel)%nat →
    WorkingCmd.mainWith fuel block (render [("l", IntValue level)] []) w = (ExitCode 0, w1) ∧
    ∀ w2, files w2 !! "/dev/stdin" = files w1 !! stdout_name →
      files w2 !! stdout_name = Some old →
      ∃ w3, WorkingCmd.mainWith fuel block (render [("d", BoolValue true)] []) w2 =
              (ExitCode 0, w3) ∧
            files w3 !! stdout_name = Some (old ++ data).
Proof.
  intros ? Hin Hout.
  exists (set_files <[stdout_name := [] ++ encodeStream level data]> w),
         (S (length data `max` length (encodeStream level data))).
  intros fuel ?.
  destruct (main_filters fuel data [] w Hin Hout ltac:(lia) block level) as [Hc _]; [done|].
  split; [exact Hc|]. intros w2 Hin2 Hout2. simpl in Hin2. rewrite lookup_insert_eq in Hin2.
  destruct (main_filters fuel (encodeStream level data) old w2 Hin2 Hout2 ltac:(lia) block level)
    as [_ Hd]; [done|].
  eexists. split; [apply Hd, decode_stream_whole|]. simpl. by rewrite lookup_insert_eq.
Qed.

(** ** The flag of the level *)

Section level.
Context `{Codec} `{Texts}.

(** C25. The compression level of play/tmp/main.go is the flag [-1]:
    the program refuses [-l], the flag of the other programs, with exit
    code 2 and before it has opened a file, whatever follows it; [-1 n]
    sets the level, as [-l n] does in the working program. *)
Theorem PlayCmd_level_flag fuel g sched rest n w :
  in_int64 n →
  (∃ w', PlayCmd.mainG fuel g sched ("-l" :: rest) w = (ExitCode 2, w') ∧ only_streams w w') ∧
  (∃ fs, Parse PlayCmd.flagSet ("-1" :: pretty n :: "--" :: rest) = inr (fs, rest) ∧
     PlayMain.compressionLevel (PlayCmd.flags_of fs rest) = n) ∧
  (∃ fs, Parse WorkingCmd.flagSet ("-l" :: pretty n :: "--" :: rest) = inr (fs, rest) ∧
     compressionLevel (WorkingCmd.flags_of fs rest) = n).
Proof.
  intros ?. split_and!.
  - apply (from_args_refused _ _ _ _ _ _ (NotDefined "l")); [|done].
    intros w0. apply flag_Usage_only_streams.
  - eexists. split; [|shelve].
    apply (Parse_render PlayCmd.flagSet [("1", IntValue n)] rest), Forall_singleton.
    split_and!; [by_decide|by eexists|done].
    Unshelve. done.
  - eexists. split; [|shelve].
    apply (Parse_render WorkingCmd.flagSet [("l", IntValue n)] rest), Forall_singleton.
    split_and!; [by_decide|by eexists|done].
    Unshelve. done.
Qed.

End level.

(** ** The arguments at work *)

(** Texts for the runs below. *)
Definition demo_texts : Texts := {|
  vars := mkBuildVars "v1.0.1" "20240101_00:00:00";
  Error _ := "error";
  os_Error _ := "no such file or directory";
  Args0 := "gozstd";
  flag_Error _ := "flag provided but not defined" +:+ nl;
  Quote s := s;
|}.

(** A store with the two standard streams, a file to compress and a file
    that is no sequence of frames. *)
Definition args_demo : world :=
  mkWorld {[ "in.bin" := ["a"; "b"; "c"; "d"]%byte;
             "bad.zst" := encodeAll 3 ["h"; "i"]%byte ++ ["000"]%byte;
             "/dev/stdout" := []; "/dev/stderr" := [] ]} ∅ ∅.

Lemma main_parses_flags_witness :
  let f := mkFlags false false "out.zst" 19 (-1) true ["in.bin"; "-x"] in
  let _ := demo_texts in
  Parse WorkingCmd.flagSet (render (settings_of f) (args f)) =
    inr (set_all WorkingCmd.flagSet (settings_of f), args f) ∧
  WorkingCmd.mainWith 8 (compressFileBlockF 2 []) (render (settings_of f) (args f)) args_demo =
    report (λ _, stdout_name) (Cli.mainWith 8 (compressFileBlockF 2 []) f args_demo).
Proof.
  intros f ?. apply (main_parses_flags 8 (compressFileBlockF 2 []) f args_demo); by_decide.
Defined.

Lemma main_refuses_flags_witness :
  let _ := demo_texts in
  ∃ w', WorkingCmd.mainWith 8 (compressFileBlockF 2 []) ["-T"; "two"; "in.bin"] args_demo =
          (ExitCode (if decide (InvalidValue "two" "T" = ErrHelp) then 0 else 2), w') ∧
        only_streams args_demo w'.
Proof.
  intros ?. apply (main_refuses_flags 8 (compressFileBlockF 2 []) ["-T"; "two"; "in.bin"]).
  reflexivity.
Defined.

Lemma main_message_on_stdout_witness :
  let _ := demo_texts in
  let argv := render [("d", BoolValue true)] ["bad.zst"] in
  let text := String.list_byte_of_string (message (DecompressionFailed ErrDecompress)) in
  (∃ w', WorkingCmd.mainWith 9 (compressFileBlockF 2 []) argv args_demo = (ExitCode 1, w') ∧
     files w' !! stdout_name =
       Some ([] ++ decodeWritten (encodeAll 3 ["h"; "i"]%byte ++ ["000"]%byte) ++ text)) ∧
  (∃ w', StreamCmd.main 9 argv args_demo = (ExitCode 1, w') ∧
     files w' !! stdout_name =
       Some ([] ++ decodeWritten (encodeAll 3 ["h"; "i"]%byte ++ ["000"]%byte)) ∧
     files w' !! stderr_name =
       (λ err : bytes, err ++ text) <$> files args_demo !! stderr_name).
Proof.
  intros ?. apply (main_message_on_stdout 9 "bad.zst" _ [] args_demo);
    [reflexivity|apply not_elem_of_empty|reflexivity|vm_compute; lia|reflexivity].
Defined.

Lemma PlayCmd_level_flag_witness :
  let _ := demo_texts in
  (∃ w', PlayCmd.mainG 8 2 [0; 1] ("-l" :: ["9"; "in.bin"]) args_demo = (ExitCode 2, w') ∧
     only_streams args_demo w') ∧
  (∃ fs, Parse PlayCmd.flagSet ("-1" :: pretty 9 :: "--" :: ["9"; "in.bin"]) =
           inr (fs, ["9"; "in.bin"]) ∧
     PlayMain.compressionLevel (PlayCmd.flags_of fs ["9"; "in.bin"]) = 9) ∧
  (∃ fs, Parse WorkingCmd.flagSet ("-l" :: pretty 9 :: "--" :: ["9"; "in.bin"]) =
           inr (fs, ["9"; "in.bin"]) ∧
     compressionLevel (WorkingCmd.flags_of fs ["9"; "in.bin"]) = 9).
Proof. intros ?. apply (PlayCmd_level_flag 8 2 [0; 1] ["9"; "in.bin"] 9 args_demo). by_decide. Defined.

Lemma main_block_roundtrip_args_witness :
  let _ := demo_texts in
  let compress := mkFlags false false "out.zst" 19 2 true ["in.bin"] in
  let restore := mkFlags true false "back.bin" 3 2 false ["out.zst"] in
  ∃ w1,
    WorkingCmd.mainG 8 2 [1; 0] (render (settings_of compress) ["in.bin"]) args_demo =
      (ExitCode 0, w1) ∧
    files w1 !! stdout_name = files args_demo !! stdout_name ∧
    files w1 !! stderr_name =
      (λ old : bytes, old ++ String.list_byte_of_string WorkingCmd.working) <$>
        files args_demo !! stderr_name ∧
    ∃ fuel0, ∀ fuel', (fuel0 ≤ fuel')%nat →
      ∃ w2,
        WorkingCmd.mainG fuel' 2 [0; 1] (render (settings_of restore) ["out.zst"]) w1 =
          (ExitCode 0, w2) ∧
        files w2 !! "back.bin" = Some ["a"; "b"; "c"; "d"]%byte.
Proof.
  intros ? ? ?.
  apply (main_block_roundtrip_args 2 19 2 "in.bin" "out.zst" "back.bin" _ args_demo 8
           [1; 0] [0; 1]); by_decide.
Defined.

(** Block mode at work: the line on standard error, and, when the part
    file of the second thread cannot be created, the error on standard
    output before the panic. *)
Example block_mode_prints_run :
  let _ := demo_texts in
  let argv := ["-b"; "-T"; "2"; "-o"; "out.zst"; "in.bin"] in
  let blocked := mkWorld (files args_demo) ∅ {[ segmentFileName 1 "in.bin" ]} in
  (WorkingCmd.mainG 8 2 [1; 0] argv args_demo).1 = ExitCode 0 ∧
  files (WorkingCmd.mainG 8 2 [1; 0] argv args_demo).2 !! stderr_name =
    Some (String.list_byte_of_string ("Working, please wait ..." +:+ nl)) ∧
  (WorkingCmd.mainG 8 2 [1; 0] argv blocked).1 = Panics PanicSomeErrors ∧
  files (WorkingCmd.mainG 8 2 [1; 0] argv blocked).2 !! stdout_name =
    Some (String.list_byte_of_string ("error" +:+ nl)).
Proof. by vm_compute. Qed.

(** The five programs on their arguments: help, a flag that is not
    declared, a missing value, and a run that compresses. *)
Example arguments_run :
  let _ := demo_texts in
  (WorkingCmd.mainG 8 2 [0; 1] ["-h"] args_demo).1 = ExitCode 0 ∧
  files (WorkingCmd.mainG 8 2 [0; 1] ["-h"] args_demo).2 !! stdout_name =
    Some (String.list_byte_of_string ("Version: v1.0.1" +:+ nl +:+
                                      "Build time: 20240101_00:00:00" +:+ nl)) ∧
  files (PoolCmd.mainG 8 2 [] ["-h"] args_demo).2 !! stdout_name = Some [] ∧
  (OneShotCmd.main ["-l"; "3"; "in.bin"] args_demo).1 = ExitCode 2 ∧
  (StreamCmd.main 8 ["-o"] args_demo).1 = ExitCode 2 ∧
  (StreamCmd.main 8 ["-l=0x13"; "-o"; "out.zst"; "in.bin"] args_demo).1 = ExitCode 0 ∧
  (OneShotCmd.main ["-level"; "3"; "in.bin"] args_demo).1 = ExitCode 1.
Proof. by vm_compute. Qed.
