(* ===== verification/Readme.v ===== *)
(** * The build script and the README

    src/unnamed/part_003 holds the build script (src/build.sh) and the
    README (src/README.md).  The script is shell and the README prose; what
    they say of the programs can be checked against the models: the script
    sets the two variables that [printVersionBuildInfo] prints, and the
    README shows the output of [./gozstd -h] and how to run the program
    between two pipes.

    [README_help] is the text of the README, as the terminal showed it: the
    lines of standard output and of standard error in the order in which
    they were printed, the tabulators advanced to the next column that is a
    multiple of eight ([on_terminal]).  The theorems show that it is the
    help of the stream-mode program and not of the working program, which
    the build script builds, and that the invocations of the README
    ([README_pipe_args], [README_level_args]) compress standard input at
    the level they name and that the pipe gives back what went in. *)

From Stdlib Require Import Ascii.
From S2P Require Import Prelude Codec FileSys Names Flags Usage Stream Cli Argv.

(** ** The build *)

(** [-ldflags="-X main.version=... -X main.buildTime=..."]: the two
    variables of [main] as the linker sets them, in a program that is
    called by [name]; the other texts are the libraries'. *)
Definition go_build (v b name : string) (lib : Texts) : Texts := {|
  vars := mkBuildVars v b;
  Args0 := name;
  Error := Error;
  os_Error := os_Error;
  flag_Error := flag_Error;
  Quote := Quote;
|}.

(** src/build.sh: the version is its first argument, the build time what
    [date '+%Y%m%d_%H:%M:%S'] prints. *)
Definition build_sh (arg1 date : string) : Texts → Texts :=
  go_build arg1 date "gozstd-linux-amd64".

(** The README, "Build and run": [-X main.version=v0.3] and no build time;
    the program is called as [./gozstd]. *)
Definition README_build : Texts → Texts := go_build "v0.3" "" "./gozstd".

(** ** The terminal *)

(** A text as a terminal with tabulator stops every eight columns shows
    it, from the column [col] on. *)
Fixpoint on_terminal (col : nat) (text : string) : string :=
  match text with
  | "" => ""
  | String c r =>
      if bool_decide (c = "009"%char)
      then
        let n := (8 - col `mod` 8)%nat in
        Nat.iter n (String " "%char) (on_terminal (col + n) r)
      else if bool_decide (c = "010"%char) then String c (on_terminal 0 r)
      else String c (on_terminal (S col) r)
  end.

(** Lines, each with its end. *)
Definition lines (l : list string) : string := foldr (λ s text, s +:+ nl +:+ text) "" l.

(** The README: what [./gozstd -h] printed. *)
Definition README_help : string :=
  lines [
    "Version: v0.3";
    "Build time: ";
    "  -T int";
    "        Number of threads (default: library default)";
    "  -c    Write output to stdout";
    "  -d    Decompress instead of compress";
    "  -l int";
    "        Set compression level (1-19, default: 3. Good tradoff is 9) (default 3)";
    "  -o string";
    "        Output file (default: stdout)"
  ].

(** What a run has left on the terminal when both streams go there and
    were empty: here every line of standard output is printed before the
    first of standard error. *)
Definition shown (w : world) : option string :=
  out ← files w !! stdout_name;
  err ← files w !! stderr_name;
  Some (on_terminal 0 (String.string_of_list_byte (out ++ err))).

(** ** The help of the programs *)

Lemma list_byte_of_string_app s1 s2 :
  String.list_byte_of_string (s1 +:+ s2) =
    String.list_byte_of_string s1 ++ String.list_byte_of_string s2.
Proof.
  unfold String.list_byte_of_string. induction s1 as [|c s1 IH]; [done|]. simpl. by f_equal.
Qed.

Section help.
Context `{Codec} (lib : Texts).
Context (w : world).
Context (Hout : files w !! stdout_name = Some []) (Herr : files w !! stderr_name = Some []).

(** What a usage function that prints the version on standard output and
    the defaults on standard error leaves on the terminal. *)
Lemma shown_usage v b name formal :
  let _ := go_build v b name lib in
  shown (Fprint stderr_name (PrintDefaults Quote formal)
           (Fprint stdout_name ("Version: " +:+ v +:+ nl +:+ "Build time: " +:+ b +:+ nl) w)) =
    Some (on_terminal 0 (("Version: " +:+ v +:+ nl +:+ "Build time: " +:+ b +:+ nl)
                           +:+ PrintDefaults Quote formal)).
Proof.
  intros ?. unfold shown.
  rewrite (Fprint_lookup_ne stderr_name _ _ stdout_name) by by_decide.
  rewrite (Fprint_lookup stdout_name), Hout, (Fprint_lookup stderr_name).
  rewrite (Fprint_lookup_ne stdout_name _ _ stderr_name), Herr by by_decide.
  cbv [fmap option_fmap option_map mbind option_bind]. cbn [app].
  by rewrite <-list_byte_of_string_app, String.string_of_list_byte_of_string.
Qed.

(** C26. The README shows the help of the stream-mode program, and not
    of the program that src/build.sh builds.  Built as the README says and
    called with [-h], src/play/tmp/streammode/main.go exits with code 0
    and leaves on the terminal the text of the README, character by
    character; the working program exits with code 0 and leaves another
    text: it has the flag [-b], of which the README says nothing, and its
    [-T] has the default 2 where the README has the library's. *)
Theorem README_help_is_stream_mode fuel block :
  let _ := README_build lib in
  (∃ w', StreamCmd.main fuel ["-h"] w = (ExitCode 0, w') ∧ shown w' = Some README_help) ∧
  (∃ w' text, WorkingCmd.mainWith fuel block ["-h"] w = (ExitCode 0, w') ∧
     shown w' = Some text ∧ text ≠ README_help) ∧
  WorkingCmd.flagSet !! "b" = Some (BoolValue false) ∧ StreamCmd.flagSet !! "b" = None ∧
  WorkingCmd.flagSet !! "T" = Some (IntValue 2) ∧ StreamCmd.flagSet !! "T" = Some (IntValue 0).
Proof.
  intros ?. split_and!; [| |done..].
  - eexists. split; [done|]. unfold StreamCmd.Usage, StreamCmd.printVersionBuildInfo.
    rewrite (shown_usage "v0.3" "" "./gozstd"). by vm_compute.
  - eexists _, _. split; [done|]. unfold WorkingCmd.Usage, WorkingCmd.printVersionBuildInfo.
    rewrite (shown_usage "v0.3" "" "./gozstd"). split; [done|by vm_compute].
Qed.

End help.

(** ** The pipe *)

(** [tar czf - somedir | gozstd > outputfile.tar.zstd]: the arguments of
    the program in the pipe of the README, which are none; the shell
    connects its standard input and standard output. *)
Definition README_pipe_args : list string := [].

(** "If you need better compression add option [-l 9]". *)
Definition README_level_args : list string := ["-l"; "9"].

Section pipe.
Context `{Codec} `{Texts}.
Context (fuel : nat) (data old : bytes) (w : world).
Context (Hin : files w !! "/dev/stdin" = Some data) (Hout : files w !! stdout_name = Some old).
Context (Hfuel : (length data < fuel)%nat).

(** The store when the program has said where it writes. *)
Definition said : world :=
  Fprint stderr_name "No output file specified and no input provided, writing to stdout." w.

(** The stream-mode program between two pipes, from the flags its
    arguments set: it compresses, or decompresses, standard input to
    standard output. *)
Lemma pipe_runs args fs (d : bool) level :
  Parse StreamCmd.flagSet args = inr (fs, []) →
  StreamCmd.flags_of fs [] = StreamMain.mkFlags d false "" level 0 [] →
  (d = true → is_Some (decodeAll data)) →
  StreamCmd.main fuel args w =
    (ExitCode 0,
     set_files <[stdout_name :=
       old ++ if d then default [] (decodeAll data) else encodeStream level data]> said).
Proof.
  intros Hparse Hflags Hdec.
  assert (files said !! "/dev/stdin" = Some data ∧ files said !! stdout_name = Some old)
    as [Hin' Hout'] by (unfold said; by rewrite !Fprint_lookup_ne).
  unfold StreamCmd.main, from_args, flag_Parse. rewrite Hparse, Hflags.
  unfold StreamMain.main, StreamCmd.notice, with_files, open_input, open_output. simpl.
  fold stdout_name said. destruct d.
  - destruct (Hdec eq_refl) as [decoded Hd]. rewrite Hd. unfold decompress.
    by rewrite (stdin_decoded fuel data old said Hin' Hout' Hfuel _ decoded Hd).
  - unfold compress, compressG. simpl. by rewrite (stdin_encoded fuel data old said).
Qed.

(** "As it write to stdout by default and read from stdin if no file
    provided you can use it in pipe": the stream-mode program without
    arguments compresses standard input to standard output, at level 3, and
    says on standard error that it does; with [-l 9] it does so at level
    9; with [-d] it decompresses standard input to standard output. *)
Theorem README_pipe :
  StreamCmd.main fuel README_pipe_args w =
    (ExitCode 0, set_files <[stdout_name := old ++ encodeStream 3 data]> said) ∧
  StreamCmd.main fuel README_level_args w =
    (ExitCode 0, set_files <[stdout_name := old ++ encodeStream 9 data]> said) ∧
  ∀ decoded, decodeAll data = Some decoded →
    StreamCmd.main fuel ["-d"] w =
      (ExitCode 0, set_files <[stdout_name := old ++ decoded]> said).
Proof.
  split_and!; [| |intros decoded Hdec].
  - by apply (pipe_runs _ StreamCmd.flagSet false 3).
  - by apply (pipe_runs _ (<["l" := IntValue 9]> StreamCmd.flagSet) false 9).
  - rewrite (pipe_runs _ (<["d" := BoolValue true]> StreamCmd.flagSet) true 3); [|done..|by eexists].
    by rewrite Hdec.
Qed.

End pipe.

(** ** The README at work *)

(** The texts of a library, for the runs. *)
Definition lib_demo : Texts := demo_texts.

Lemma README_pipe_witness :
  let _ := lib_demo in
  let w := mkWorld {[ "/dev/stdin" := ["a"; "b"; "c"]%byte; "/dev/stdout" := [];
                      "/dev/stderr" := [] ]} ∅ ∅ in
  StreamCmd.main 5 README_pipe_args w =
    (ExitCode 0, set_files <[stdout_name := [] ++ encodeStream 3 ["a"; "b"; "c"]%byte]> (said w)) ∧
  StreamCmd.main 5 README_level_args w =
    (ExitCode 0, set_files <[stdout_name := [] ++ encodeStream 9 ["a"; "b"; "c"]%byte]> (said w)) ∧
  ∀ decoded, decodeAll ["a"; "b"; "c"]%byte = Some decoded →
    StreamCmd.main 5 ["-d"] w =
      (ExitCode 0, set_files <[stdout_name := [] ++ decoded]> (said w)).
Proof. intros ? w. apply (README_pipe 5 ["a"; "b"; "c"]%byte [] w); [done|done|simpl; lia]. Defined.

Lemma README_help_is_stream_mode_witness :
  let _ := README_build lib_demo in
  (∃ w', StreamCmd.main 1 ["-h"] args_demo = (ExitCode 0, w') ∧ shown w' = Some README_help) ∧
  (∃ w' text, WorkingCmd.mainWith 1 (WorkingCmd.compressFileBlockG 1 2 []) ["-h"] args_demo =
                (ExitCode 0, w') ∧
     shown w' = Some text ∧ text ≠ README_help) ∧
  WorkingCmd.flagSet !! "b" = Some (BoolValue false) ∧ StreamCmd.flagSet !! "b" = None ∧
  WorkingCmd.flagSet !! "T" = Some (IntValue 2) ∧ StreamCmd.flagSet !! "T" = Some (IntValue 0).
Proof.
  apply (README_help_is_stream_mode lib_demo args_demo); reflexivity.
Defined.

(** The help of the working program, on the terminal. *)
Example working_help :
  let _ := README_build lib_demo in
  shown (WorkingCmd.mainG 1 2 [] ["-h"] args_demo).2 =
    Some (lines [
      "Version: v0.3";
      "Build time: ";
      "  -T int";
      "        Number of threads for compression (default: 2) (default 2)";
      "  -b    Use block mode for compression. This will use the option -T to utilize more than 2 CPU core. Only benefit if you use compression level higher than 9 otherwise is is not faster in my test but your chances might be vary. You can not use stdin and stdout for this case";
      "  -c    Write output to stdout";
      "  -d    Decompress instead of compress";
      "  -l int";
      "        Set compression level (1-19, default: 3) (default 3)";
      "  -o string";
      "        Output file (default: stdout)"
    ]).
Proof. by vm_compute. Qed.
